(** * Synthetic tree and Monte Carlo tree search: a shallow embedding

    The development follows [tree_env.py] (class [SyntheticTree]) and
    [mcts.py] (class [MCTS]).

    Numbers.  Python and numpy floats are modelled by exact rationals
    ([Q]); [np.nan] written into an array is modelled by [None] in a
    [list (option Q)].  The transcendental functions of numpy
    ([np.exp], [np.log], [np.sqrt], [np.power]) are taken as an
    interface ([Class Numpy]).  Comparison of floats is numeric, that is
    [Qeq_bool] / [Qle_bool] on rationals. *)

From Stdlib Require Import QArith Qminmax Qabs Lqa.
From stdpp Require Import gmap list fin_maps.

Open Scope Q_scope.

(** ** Python exceptions and the result type *)

Inductive exn : Set :=
| IndexError | KeyError | ValueError | ZeroDivisionError | RecursionError.

Inductive res (A : Type) : Type :=
| OK (a : A)
| Raise (e : exn).
Arguments OK {A} a.
Arguments Raise {A} e.

Definition res_bind {A B} (r : res A) (f : A -> res B) : res B :=
  match r with OK a => f a | Raise e => Raise e end.

Definition of_option {A} (e : exn) (o : option A) : res A :=
  match o with Some a => OK a | None => Raise e end.

(** ** numpy on one-dimensional arrays *)

Module np.

Definition sum (l : list Q) : Q := foldr Qplus 0 l.

(** [np.sort]: ascending, by insertion. *)
Fixpoint insert_sorted (x : Q) (l : list Q) : list Q :=
  match l with
  | [] => [x]
  | y :: l' => if Qle_bool x y then x :: l else y :: insert_sorted x l'
  end.

Definition sort (l : list Q) : list Q := foldr insert_sorted [] l.

(** [np.flip] *)
Definition flip (l : list Q) : list Q := rev l.

(** [np.argwhere(a == v).ravel()]: the indices whose entry equals [v];
    a [nan] entry equals nothing. *)
Fixpoint argwhere_from (i : nat) (a : list (option Q)) (v : Q) : list nat :=
  match a with
  | [] => []
  | x :: a' =>
      let rest := argwhere_from (S i) a' v in
      match x with
      | Some y => if Qeq_bool y v then i :: rest else rest
      | None => rest
      end
  end.

Definition argwhere_eq (a : list (option Q)) (v : Q) : list nat :=
  argwhere_from 0 a v.

(** [a[kappa]] for an index array [kappa]. *)
Fixpoint take_idx_rec (a : list Q) (kappa : list nat) : res (list Q) :=
  match kappa with
  | [] => OK []
  | i :: kappa' =>
      res_bind (of_option IndexError (a !! i)) (fun x =>
      res_bind (take_idx_rec a kappa') (fun l => OK (x :: l)))
  end.

(** An empty [np.array(list())] is an array of floats, which numpy refuses
    as an index. *)
Definition take_idx (a : list Q) (kappa : list nat) : res (list Q) :=
  match kappa with
  | [] => Raise IndexError
  | _ => take_idx_rec a kappa
  end.

(** [a.max()], [a.min()] of a non-empty array. *)
Definition max (l : list Q) : res Q :=
  match l with
  | [] => Raise ValueError
  | x :: l' => OK (foldr Qmax x l')
  end.

Definition min (l : list Q) : res Q :=
  match l with
  | [] => Raise ValueError
  | x :: l' => OK (foldr Qmin x l')
  end.

End np.

(** [res] is a monad: [x ← c; k] sequences two computations that may
    raise. *)
#[global] Instance res_ret : MRet res := fun A a => OK a.
#[global] Instance res_mbind : MBind res := fun A B f r => res_bind r f.

(** A Python [for] loop over a list, threading the mutated state. *)
Fixpoint for_each {A S : Type} (l : list A) (body : A -> S -> res S) (s : S)
    : res S :=
  match l with
  | [] => OK s
  | a :: l' => res_bind (body a s) (for_each l' body)
  end.

(** A list comprehension whose element expression may raise. *)
Fixpoint comprehension {A B : Type} (f : A -> res B) (l : list A)
    : res (list B) :=
  match l with
  | [] => OK []
  | a :: l' =>
      res_bind (f a) (fun b =>
      res_bind (comprehension f l') (fun bs => OK (b :: bs)))
  end.

(** A list comprehension whose element expression mutates the state. *)
Fixpoint comprehension_st {A B S : Type} (f : A -> S -> res (B * S))
    (l : list A) (s : S) : res (list B * S) :=
  match l with
  | [] => OK ([], s)
  | a :: l' =>
      res_bind (f a s) (fun bs1 =>
      res_bind (comprehension_st f l' (snd bs1)) (fun bs2 =>
      OK (fst bs1 :: fst bs2, snd bs2)))
  end.

(** ** Numbers *)

Definition Qnat (n : nat) : Q := inject_Z (Z.of_nat n).

Definition Qgt_bool (a b : Q) : bool := negb (Qle_bool a b).

(** The literal [1e-10]. *)
Definition eps10 : Q := 1 # 10000000000.

(** Division of two Python floats: a zero divisor raises. *)
Definition py_div (a b : Q) : res Q :=
  if Qeq_bool b 0 then Raise ZeroDivisionError else OK (a / b).

(** The transcendental functions the program takes from numpy.  numpy's
    array division does not raise on a zero divisor (it yields [inf] or
    [nan] with a warning); the model writes [/] on [Q] there, and the
    statements below that depend on a quotient by the temperature assume
    a temperature other than 0.  In double precision [np.exp] overflows
    to [inf] above about 709.78 and vanishes below about -745; the
    statements that need the exponential positive assume it so on a
    range [-E .. E] only, and bound the arguments by that range. *)
Class Numpy : Type := {
  np_exp : Q -> Q;
  np_log : Q -> Q;
  np_sqrt : Q -> Q;
  np_power : Q -> Q -> Q
}.

(** The draws of numpy's global random generator:
    [rand i] is the [i]-th value of [np.random.rand(len(edges))],
    [randn t] the standard normal deviate and [randidx t] the integer
    behind the [t]-th draw made during the search. *)
Class Random : Type := {
  rand : nat -> Q;
  randn : nat -> Q;
  randidx : nat -> nat
}.

(** ** numpy on one-dimensional arrays, continued *)

Module npa.

Definition scale (c : Q) (l : list Q) : list Q := map (Qmult c) l.
Definition div_by (l : list Q) (c : Q) : list Q := map (fun x => x / c) l.
Definition exp `{Numpy} (l : list Q) : list Q := map np_exp l.

(** Elementwise operation of two arrays with numpy's broadcasting of
    one-dimensional shapes. *)
Definition broadcast (f : Q -> Q -> Q) (a b : list Q) : res (list Q) :=
  if (length a =? length b)%nat then OK (zip_with f a b)
  else match a, b with
       | _, [y] => OK (map (fun x => f x y) a)
       | [x], _ => OK (map (f x) b)
       | _, _ => Raise ValueError
       end.

(** [np.clip(x, lo, hi)] *)
Definition clip (x lo hi : Q) : Q := Qmin (Qmax x lo) hi.

(** [scipy.special.logsumexp]: the maximum is subtracted before the
    exponentials are summed. *)
Definition logsumexp `{Numpy} (a : list Q) : res Q :=
  res_bind (np.max a) (fun a_max =>
  OK (np_log (np.sum (map (fun x => np_exp (x - a_max)) a)) + a_max)).

End npa.

(** ** The data of the tree: [networkx.DiGraph] with attribute dicts *)

Inductive algorithm : Set :=
| uct | ments | rents | tents | alpha_divergence | w_mcts | dng
| unknown_algorithm.

#[global] Instance algorithm_eq_dec : EqDecision algorithm.
Proof. solve_decision. Defined.

(** The attribute dict of an edge: ['weight'], ['N'], ['Q'] and, for
    w-mcts, (['q_mean'], ['q_variance']). *)
Record EdgeData : Type := mkEdge {
  e_weight : Q;
  e_N : nat;
  e_Q : Q;
  e_q_stats : option (Q * Q)
}.

(** The attribute dict of a node: ['N'], ['V'], ['mean'] and ['prior']
    (absent until assigned), for w-mcts (['v_mean'], ['v_variance']), for
    dng (['mu'], ['lambda'], ['alpha'], ['beta']). *)
Record NodeData : Type := mkNode {
  n_N : nat;
  n_V : Q;
  n_mean : option Q;
  n_prior : option (list Q);
  n_v_stats : option (Q * Q);
  n_dng : option (Q * Q * Q * Q)
}.

Abbreviation edge := (nat * nat)%type.

(** Nodes and edges are kept in insertion order, which is the order
    networkx iterates them in. *)
Record DiGraph : Type := mkGraph {
  nodes : list nat;
  edges : list edge;
  node_data : gmap nat NodeData;
  edge_data : gmap (nat * nat) EdgeData
}.

Module nx.

(** [G.edges(x)]: the out-edges of [x]. *)
Definition edges_of (G : DiGraph) (x : nat) : list edge :=
  filter (fun e : edge => e.1 = x) (edges G).

Definition successors (G : DiGraph) (x : nat) : list nat :=
  (edges_of G x).*2.

Definition out_degree (G : DiGraph) (x : nat) : nat :=
  length (edges_of G x).

Definition in_degree (G : DiGraph) (x : nat) : nat :=
  length (filter (fun e : edge => e.2 = x) (edges G)).

(** The number of nodes [balanced_tree(r, h)] asks [full_rary_tree] for:
    [h + 1] if [r == 1], else [(1 - r ** (h + 1)) // (1 - r)]. *)
Definition balanced_order (r h : nat) : nat :=
  if decide (r = 1%nat) then (h + 1)%nat
  else Z.to_nat ((1 - Z.of_nat r ^ Z.of_nat (h + 1)) `div` (1 - Z.of_nat r))%Z.

(** The children [full_rary_tree(r, n)] gives node [v]: nodes are numbered
    breadth first, so they are [r*v + 1 .. r*v + r], as far as they exist. *)
Definition children (r n v : nat) : list nat :=
  filter (fun c => c < n)%nat (seq (r * v + 1) r).

Definition tree_edges (r n : nat) : list edge :=
  flat_map (fun v => map (pair v) (children r n v)) (seq 0 n).

(** [nx.balanced_tree(r, h, create_using=nx.DiGraph)]: every attribute
    dict is still empty. *)
Definition balanced_tree (r h : nat) : DiGraph :=
  let n := balanced_order r h in
  {| nodes := seq 0 n; edges := tree_edges r n;
     node_data := ∅; edge_data := ∅ |}.

End nx.

(** Reading and writing attributes. A missing key raises [KeyError]. *)
Definition get_node (G : DiGraph) (n : nat) : res NodeData :=
  of_option KeyError (node_data G !! n).

Definition get_edge (G : DiGraph) (e : edge) : res EdgeData :=
  of_option KeyError (edge_data G !! e).

Definition put_node (n : nat) (d : NodeData) (G : DiGraph) : DiGraph :=
  {| nodes := nodes G; edges := edges G;
     node_data := <[n := d]> (node_data G); edge_data := edge_data G |}.

Definition put_edge (e : edge) (d : EdgeData) (G : DiGraph) : DiGraph :=
  {| nodes := nodes G; edges := edges G;
     node_data := node_data G; edge_data := <[e := d]> (edge_data G) |}.

Definition with_mean (m : Q) (d : NodeData) : NodeData :=
  {| n_N := n_N d; n_V := n_V d; n_mean := Some m; n_prior := n_prior d;
     n_v_stats := n_v_stats d; n_dng := n_dng d |}.

Definition with_prior (p : list Q) (d : NodeData) : NodeData :=
  {| n_N := n_N d; n_V := n_V d; n_mean := n_mean d; n_prior := Some p;
     n_v_stats := n_v_stats d; n_dng := n_dng d |}.

Definition with_V (v : Q) (d : NodeData) : NodeData :=
  {| n_N := n_N d; n_V := v; n_mean := n_mean d; n_prior := n_prior d;
     n_v_stats := n_v_stats d; n_dng := n_dng d |}.

Definition with_N (n : nat) (d : NodeData) : NodeData :=
  {| n_N := n; n_V := n_V d; n_mean := n_mean d; n_prior := n_prior d;
     n_v_stats := n_v_stats d; n_dng := n_dng d |}.

Definition with_eQ (q : Q) (d : EdgeData) : EdgeData :=
  {| e_weight := e_weight d; e_N := e_N d; e_Q := q;
     e_q_stats := e_q_stats d |}.

Definition with_eN (n : nat) (d : EdgeData) : EdgeData :=
  {| e_weight := e_weight d; e_N := n; e_Q := e_Q d;
     e_q_stats := e_q_stats d |}.

(** [G.nodes[n][key] = value] *)
Definition update_node (n : nat) (f : NodeData -> NodeData) (G : DiGraph)
    : res DiGraph :=
  d ← get_node G n; OK (put_node n (f d) G).

(** [G[u][v][key] = value] *)
Definition update_edge (e : edge) (f : EdgeData -> EdgeData) (G : DiGraph)
    : res DiGraph :=
  d ← get_edge G e; OK (put_edge e (f d) G).

Definition node_mean (G : DiGraph) (n : nat) : res Q :=
  d ← get_node G n; of_option KeyError (n_mean d).

Definition node_prior (G : DiGraph) (n : nat) : res (list Q) :=
  d ← get_node G n; of_option KeyError (n_prior d).

(** Python's [sys.getrecursionlimit()]: a call nested deeper than this
    raises [RecursionError]. *)
Class Runtime : Type := { recursion_limit : nat }.

(** [l[i]] for a Python list and a Python integer: a negative index counts
    from the end. *)
Definition py_index {A : Type} (l : list A) (i : Z) : res A :=
  let n := Z.of_nat (length l) in
  if (0 <=? i)%Z then of_option IndexError (l !! Z.to_nat i)
  else if (- n <=? i)%Z then of_option IndexError (l !! Z.to_nat (n + i))
  else Raise IndexError.

(** Python's builtin [max(a, b)]. *)
Definition py_max (a b : Q) : Q := if Qgt_bool b a then b else a.

(** The loop state of the support computation: the copy of the array in
    which the entries already chosen are overwritten by [nan], and
    [kappa]. *)
Abbreviation kappa_state := (list (option Q) * list nat)%type.

(** The body shared by the support loops, lines 189-191 and 221-223:
<<
    idx = np.argwhere(temp_means_tau == sorted_means[i-1]).ravel()[0]
    temp_means_tau[idx] = np.nan
    kappa.append(idx)
>> *)
Definition kappa_append (s : Q) (st : kappa_state) : res kappa_state :=
  idx ← of_option IndexError (head (np.argwhere_eq st.1 s));
  OK (<[idx := None]> st.1, st.2 ++ [idx]).

(** ** [tree_env.py]: class [SyntheticTree] *)

Module SyntheticTree.

Record t : Type := mk {
  _k : nat;
  _d : nat;
  _algorithm : algorithm;
  _tau : Q;
  _alpha : Q;
  _gamma : Q;
  _tree : DiGraph;
  leaves : list nat;
  max_mean : Q;
  optimal_v_root : Q;
  q_root : list Q;
  state : nat
}.

Definition set_tree (G : DiGraph) (self : t) : t :=
  {| _k := _k self; _d := _d self; _algorithm := _algorithm self;
     _tau := _tau self; _alpha := _alpha self; _gamma := _gamma self;
     _tree := G; leaves := leaves self; max_mean := max_mean self;
     optimal_v_root := optimal_v_root self; q_root := q_root self;
     state := state self |}.

Definition set_state (s : nat) (self : t) : t :=
  {| _k := _k self; _d := _d self; _algorithm := _algorithm self;
     _tau := _tau self; _alpha := _alpha self; _gamma := _gamma self;
     _tree := _tree self; leaves := leaves self; max_mean := max_mean self;
     optimal_v_root := optimal_v_root self; q_root := q_root self;
     state := s |}.

Section Methods.
Context `{Numpy} `{Random} `{Runtime}.

(** Lines 27-35: the attribute dicts of the edges. *)
Definition init_edge (algorithm : algorithm) (i : nat) : EdgeData :=
  {| e_weight := rand i; e_N := 0; e_Q := 0;
     e_q_stats := if decide (algorithm = w_mcts)
                  then Some (1 # 2, 1 # 2) else None |}.

Definition init_edges (algorithm : algorithm) (G : DiGraph) : DiGraph :=
  foldl (fun G ie => put_edge ie.2 (init_edge algorithm ie.1) G) G
        (imap pair (edges G)).

(** Lines 37-48: the attribute dicts of the nodes. *)
Definition init_node (algorithm : algorithm) : NodeData :=
  {| n_N := 0; n_V := 0; n_mean := None; n_prior := None;
     n_v_stats := if decide (algorithm = w_mcts)
                  then Some (1 # 2, 1 # 2) else None;
     n_dng := if decide (algorithm = dng)
              then Some (0, 1 # 100, 1, 100) else None |}.

Definition init_nodes (algorithm : algorithm) (G : DiGraph) : DiGraph :=
  foldl (fun G n => put_node n (init_node algorithm) G) G (nodes G).

(** Lines 50-51. *)
Definition compute_leaves (G : DiGraph) : list nat :=
  filter (fun x => nx.out_degree G x = 0%nat /\ nx.in_degree G x = 1%nat)
         (nodes G).

(** [_compute_mean], lines 117-128. *)
Fixpoint _compute_mean_rec (fuel : nat) (leaves : list nat) (node : nat)
    (weight : Q) (G : DiGraph) : res DiGraph :=
  match fuel with
  | O => Raise RecursionError
  | S fuel' =>
      if decide (node ∉ leaves) then
        for_each (nx.edges_of G node)
          (fun e G =>
             d ← get_edge G e;
             _compute_mean_rec fuel' leaves e.2 (weight + e_weight d) G)
          G
      else update_node node (with_mean weight) G
  end.

Definition _compute_mean (self : t) : res t :=
  G ← _compute_mean_rec recursion_limit (leaves self) 0 0 (_tree self);
  OK (set_tree G self).

(** Lines 54-57: min-max normalisation of the leaf means. *)
Definition normalize (means : list Q) : res (list Q) :=
  if (1 <? length means)%nat then
    mn ← np.min means;
    mx ← np.max means;
    OK (map (fun m => (m - mn) / (mx - mn)) means)
  else OK [0].

Definition normalize_leaf_means (self : t) : res t :=
  means ← comprehension (node_mean (_tree self)) (leaves self);
  means ← normalize means;
  G ← for_each (imap pair (leaves self))
        (fun il G =>
           m ← of_option IndexError (means !! il.1);
           update_node il.2 (with_mean m) G)
        (_tree self);
  OK (set_tree G self).

(** Lines 59-61. *)
Definition compute_max_mean (self : t) : res Q :=
  for_each (leaves self)
    (fun leaf max_mean =>
       m ← node_mean (_tree self) leaf; OK (py_max max_mean m))
    0.

(** [_assign_priors_maxs], lines 130-144. *)
Fixpoint _assign_priors_maxs_rec (fuel : nat) (leaves : list nat)
    (node : nat) (G : DiGraph) : res (Q * DiGraph) :=
  match fuel with
  | O => Raise RecursionError
  | S fuel' =>
      let successors := nx.successors G node in
      s0 ← of_option IndexError (head successors);
      mG ← (if decide (s0 ∉ leaves) then
              comprehension_st (_assign_priors_maxs_rec fuel' leaves)
                               successors G
            else
              means ← comprehension (node_mean G) successors;
              OK (means, G));
      let means := mG.1 in
      G ← update_node node (with_prior (npa.div_by means (np.sum means)))
                      mG.2;
      mx ← np.max means;
      G ← update_node node (with_mean mx) G;
      OK (mx, G)
  end.

Definition _assign_priors_maxs (self : t) : res t :=
  mG ← _assign_priors_maxs_rec recursion_limit (leaves self) 0 (_tree self);
  OK (set_tree mG.2 self).


(** [sparse_max] of the tents branch of [_solver], lines 215-230. *)
Definition sparse_max_body (sorted_means : list Q) (i : nat)
    (st : kappa_state) : res kappa_state :=
  s ← of_option IndexError (sorted_means !! (i - 1)%nat);
  if Qgt_bool (1 + Qnat i * s) (np.sum (take i sorted_means))
  then kappa_append s st
  else OK st.

Definition sparse_max_kappa (means_tau : list Q) : res (list nat) :=
  let temp_means_tau := map Some means_tau in
  let sorted_means := np.flip (np.sort means_tau) in
  st ← for_each (seq 1 (length sorted_means))
                (sparse_max_body sorted_means) (temp_means_tau, []);
  OK st.2.

Definition sparse_max (means_tau : list Q) : res Q :=
  kappa ← sparse_max_kappa means_tau;
  on_kappa ← np.take_idx means_tau kappa;
  let deficit :=
    (np.sum on_kappa - 1) * (np.sum on_kappa - 1)
    / (2 * (Qnat (length kappa) * Qnat (length kappa))) in
  let sparse_max := map (fun x => x * x / 2 - deficit) on_kappa in
  OK (np.sum sparse_max + (1 # 2)).

(** [sparse_max_alpha_divergence], lines 183-204. [self._alpha] is a
    Python float, so [alpha / (alpha - 1)] raises when [alpha] is 1. *)
Definition sparse_max_alpha_body (alpha : Q) (sorted_means : list Q)
    (i : nat) (st : kappa_state) : res kappa_state :=
  s ← of_option IndexError (sorted_means !! (i - 1)%nat);
  r ← py_div alpha (alpha - 1);
  if Qgt_bool (alpha + Qnat i * s)
              (np.sum (take i sorted_means) + Qnat i * (alpha - r))
  then kappa_append s st
  else OK st.

Definition sparse_max_alpha_divergence (alpha : Q) (means_tau : list Q)
    : res Q :=
  let temp_means_tau := map Some means_tau in
  let sorted_means := np.flip (np.sort means_tau) in
  st ← for_each (seq 1 (length sorted_means))
                (sparse_max_alpha_body alpha sorted_means)
                (temp_means_tau, []);
  let kappa := st.2 in
  on_kappa ← np.take_idx means_tau kappa;
  r ← py_div alpha (alpha - 1);
  let c_s_tau :=
    (np.sum on_kappa - alpha) / Qnat (length kappa) + (alpha - r) in
  let max_omega_tmp := map (fun m => Qmax (m - c_s_tau) 0) means_tau in
  r1 ← py_div (alpha - 1) alpha;
  r2 ← py_div 1 alpha;
  let max_omega := map (fun x => np_power (x * r1) r2) max_omega_tmp in
  let max_omega := npa.div_by max_omega (np.sum max_omega) in
  r3 ← py_div 1 (alpha - 1);
  let sparse_max_tmp :=
    zip_with (fun w mt => w * (mt.1 + r3 * (1 - mt.2)))
             max_omega (zip means_tau max_omega_tmp) in
  OK (np.sum sparse_max_tmp).

(** [_solver], lines 146-241. The two branches on
    [successors[0] in self.leaves] differ only in where the vector [x]
    comes from: the means of the children, or the values [_solver]
    returns for them ([recur]). *)
Definition children_values (self : t) (recur : nat -> res (Q * list Q))
    (node : nat) : res (list Q) :=
  let G := _tree self in
  let successors := nx.successors G node in
  s0 ← of_option IndexError (head successors);
  if decide (s0 ∈ leaves self)
  then comprehension (node_mean G) successors
  else comprehension (fun n => vx ← recur n; OK vx.1) successors.

Definition solver_body (self : t) (recur : nat -> res (Q * list Q))
    (node : nat) : res (Q * list Q) :=
  let G := _tree self in
  let successors := nx.successors G node in
  match _algorithm self with
  | w_mcts | dng | uct =>
      means ← comprehension (node_mean G) successors;
      OK (max_mean self, means)
  | ments =>
      x ← children_values self recur node;
      l ← npa.logsumexp (npa.div_by x (_tau self));
      OK (_tau self * l, x)
  | rents =>
      x ← children_values self recur node;
      prior ← node_prior G node;
      terms ← npa.broadcast Qmult prior
                (npa.exp (npa.div_by x (_tau self)));
      OK (_tau self * np_log (np.sum terms), x)
  | alpha_divergence =>
      x ← children_values self recur node;
      v ← sparse_max_alpha_divergence (_alpha self)
            (npa.div_by x (_tau self));
      OK (_tau self * v, x)
  | tents =>
      x ← children_values self recur node;
      v ← sparse_max (npa.div_by x (_tau self));
      OK (_tau self * v, x)
  | unknown_algorithm => Raise ValueError
  end.

Fixpoint _solver_rec (fuel : nat) (self : t) (node : nat)
    : res (Q * list Q) :=
  match fuel with
  | O => Raise RecursionError
  | S fuel' => solver_body self (_solver_rec fuel' self) node
  end.

Definition _solver (self : t) : res (Q * list Q) :=
  _solver_rec recursion_limit self 0.

(** [reset], lines 71-84. *)
Definition reset (state : option nat) (self : t) : nat * t :=
  match state with
  | Some s => (s, set_state s self)
  | None => (0%nat, set_state 0 self)
  end.

(** [step], lines 86-97. *)
Definition step (action : Z) (self : t) : res (nat * t) :=
  let edges := nx.edges_of (_tree self) (state self) in
  e ← py_index edges action;
  OK (e.2, set_state e.2 self).

(** [rollout], lines 99-110: [np.random.normal(mean, scale=.5)], drawn
    from the [draw]-th standard normal deviate. *)
Definition rollout (draw : nat) (state : nat) (self : t) : res Q :=
  m ← node_mean (_tree self) state;
  OK (m + (1 # 2) * randn draw).

(** [__init__], lines 8-69. *)
Definition __init__ (k d : nat) (algorithm : algorithm)
    (tau alpha gamma : Q) : res t :=
  let G := nx.balanced_tree k d in
  let G := init_edges algorithm G in
  let G := init_nodes algorithm G in
  let self :=
    {| _k := k; _d := d; _algorithm := algorithm; _tau := tau;
       _alpha := alpha; _gamma := gamma; _tree := G;
       leaves := compute_leaves G; max_mean := 0;
       optimal_v_root := 0; q_root := []; state := 0 |} in
  self ← _compute_mean self;
  self ← normalize_leaf_means self;
  mm ← compute_max_mean self;
  let self :=
    {| _k := k; _d := d; _algorithm := algorithm; _tau := tau;
       _alpha := alpha; _gamma := gamma; _tree := _tree self;
       leaves := leaves self; max_mean := mm;
       optimal_v_root := 0; q_root := []; state := 0 |} in
  self ← _assign_priors_maxs self;
  vq ← _solver self;
  let self :=
    {| _k := k; _d := d; _algorithm := algorithm; _tau := tau;
       _alpha := alpha; _gamma := gamma; _tree := _tree self;
       leaves := leaves self; max_mean := mm;
       optimal_v_root := vq.1; q_root := vq.2; state := 0 |} in
  OK (reset None self).2.

End Methods.
End SyntheticTree.

(** ** [mcts.py]: class [MCTS] *)

Module MCTS.

Record t : Type := mk {
  _exploration_coeff : Q;
  _algorithm : algorithm;
  _tau : Q
}.

(** What a search mutates: the tree environment it was handed, and the
    position in the stream of random draws. *)
Record World : Type := mkWorld {
  tree_env : SyntheticTree.t;
  draws : nat
}.

Definition M (A : Type) : Type := World -> res (A * World).

#[global] Instance M_ret : MRet M := fun A a w => OK (a, w).
#[global] Instance M_bind : MBind M := fun A B f m w =>
  match m w with
  | OK aw => f aw.1 aw.2
  | Raise e => Raise e
  end.

Definition raise {A : Type} (e : exn) : M A := fun _ => Raise e.

Definition lift {A : Type} (r : res A) : M A := fun w =>
  match r with OK a => OK (a, w) | Raise e => Raise e end.

Definition get_env : M SyntheticTree.t := fun w => OK (tree_env w, w).

Definition put_env (env : SyntheticTree.t) : M unit := fun w =>
  OK (tt, {| tree_env := env; draws := draws w |}).

Definition next_draw : M nat := fun w =>
  OK (draws w, {| tree_env := tree_env w; draws := S (draws w) |}).

(** [tree_env.tree] *)
Definition get_tree : M DiGraph :=
  env ← get_env; mret (SyntheticTree._tree env).

Definition set_node (n : nat) (f : NodeData -> NodeData) : M unit :=
  env ← get_env;
  G ← lift (update_node n f (SyntheticTree._tree env));
  put_env (SyntheticTree.set_tree G env).

Definition set_edge (e : edge) (f : EdgeData -> EdgeData) : M unit :=
  env ← get_env;
  G ← lift (update_edge e f (SyntheticTree._tree env));
  put_env (SyntheticTree.set_tree G env).

Fixpoint for_M {A : Type} (l : list A) (body : A -> M unit) : M unit :=
  match l with
  | [] => mret tt
  | a :: l' => body a ;; for_M l' body
  end.

Section Methods.
Context `{Numpy} `{Random} `{Runtime}.

(** *** Calls into the environment *)

Definition reset : M nat := fun w =>
  let r := SyntheticTree.reset None (tree_env w) in
  OK (r.1, {| tree_env := r.2; draws := draws w |}).

Definition step (action : Z) : M nat := fun w =>
  r ← SyntheticTree.step action (tree_env w);
  OK (r.1, {| tree_env := r.2; draws := draws w |}).

Definition rollout (state : nat) : M Q :=
  env ← get_env;
  t ← next_draw;
  lift (SyntheticTree.rollout t state env).

(** *** numpy's random generator

    Of the value drawn, the model keeps that it is an index of the
    array sampled from; which one is decided by the stream [randidx]. *)

(** [np.random.randint(n)] *)
Definition randint (n : nat) : M nat :=
  if decide (n = 0%nat) then raise ValueError
  else t ← next_draw; mret (randidx t mod n)%nat.

(** [np.random.choice(a)] *)
Definition choice (a : list nat) : M nat :=
  i ← randint (length a);
  lift (of_option IndexError (a !! i)).

(** The tolerance of [np.random.choice] on the sum of [p]:
    [sqrt(finfo(float64).eps)], that is 2^-26. *)
Definition choice_atol : Q := 1 # 67108864.

(** What [np.random.choice(np.arange(n), p=probs)] checks before it
    samples: [p] has the size of [a], no entry is negative, and the sum
    is 1 up to [choice_atol]. *)
Definition valid_probs (n : nat) (probs : list Q) : bool :=
  (length probs =? n)%nat
  && forallb (Qle_bool 0) probs
  && Qle_bool (Qabs (np.sum probs - 1)) choice_atol.

(** [np.random.choice(np.arange(n), p=probs)] *)
Definition choice_p (n : nat) (probs : list Q) : M nat :=
  if decide (n = 0%nat) then raise ValueError
  else if valid_probs n probs then randint n
  else raise ValueError.

(** *** The support loop of the search, lines 50-57 and 114-121:
<<
    sorted_q = np.sort(qs)
    kappa = list()
    for i, q in enumerate(reversed(sorted_q)):
        if 1 + (i + 1) * sorted_q[i] > sorted_q[:i + 1].sum():
            idx = np.argwhere(qs == sorted_q[i]).ravel()[0]
            qs[idx] = np.nan
            kappa.append(idx)
>>
    The loop variable [q] is not used. *)
Definition tents_kappa_body (sorted_q : list Q) (i : nat)
    (st : kappa_state) : res kappa_state :=
  s ← of_option IndexError (sorted_q !! i);
  if Qgt_bool (1 + Qnat (i + 1) * s) (np.sum (take (i + 1) sorted_q))
  then kappa_append s st
  else OK st.

Definition tents_kappa (qs : list Q) : res (list nat) :=
  let sorted_q := np.sort qs in
  st ← for_each (seq 0 (length (rev sorted_q)))
                (tents_kappa_body sorted_q) (map Some qs, []);
  OK st.2.

(** *** [_select], lines 78-130 *)

(** Lines 96-97. *)
Definition lambda_coeff (self : t) (n_state_action : list nat) : Q :=
  let n_actions := length n_state_action in
  npa.clip (_exploration_coeff self * Qnat n_actions
            / np_log (Qnat (sum_list n_state_action) + 1 + eps10)) 0 1.

(** [probs[j] += 1 - probs.sum()], lines 102 and 110. *)
Definition add_residual (j : nat) (probs : list Q) : list Q :=
  match probs !! j with
  | Some p => <[j := p + (1 - np.sum probs)]> probs
  | None => probs
  end.

(** [tree_env.tree[e[0]][e[1]]['N'] / (tree_env.tree.nodes[e[0]]['N'] + 1e-10)
     for e in out_edges], lines 43-46 and 106-108. *)
Definition visitation_ratio (G : DiGraph) (out_edges : list edge)
    : res (list Q) :=
  comprehension
    (fun e : edge =>
       de ← get_edge G e;
       dn ← get_node G e.1;
       OK (Qnat (e_N de) / (Qnat (n_N dn) + eps10)))
    out_edges.

Definition edge_counts (G : DiGraph) (out_edges : list edge)
    : res (list nat) :=
  comprehension (fun e => d ← get_edge G e; OK (e_N d)) out_edges.

Definition edge_values (G : DiGraph) (out_edges : list edge)
    : res (list Q) :=
  comprehension (fun e => d ← get_edge G e; OK (e_Q d)) out_edges.

(** Lines 101, 109 and 114-126: the vector [probs] before any
    correction. *)
Definition ments_probs (lam : Q) (n_actions : nat) (q_exp_tau : list Q)
    : list Q :=
  map (fun e => (1 - lam) * e / np.sum q_exp_tau + lam / Qnat n_actions)
      q_exp_tau.

Definition rents_probs (lam : Q) (n_actions : nat)
    (visitation_ratio q_exp_tau : list Q) : res (list Q) :=
  weighted ← npa.broadcast Qmult (npa.scale (1 - lam) visitation_ratio)
                           q_exp_tau;
  OK (map (fun x => x / np.sum q_exp_tau + lam / Qnat n_actions) weighted).

Definition tents_probs (lam : Q) (n_actions : nat) (qs q_exp_tau : list Q)
    : res (list Q) :=
  kappa ← tents_kappa qs;
  q_exp_tau ← np.take_idx q_exp_tau kappa;
  let mean_excess :=
    np.sum (map (fun e => e - 1) q_exp_tau) / Qnat (length kappa) in
  let max_omega := map (fun e => Qmax (e - mean_excess) 0) q_exp_tau in
  OK (map (fun w => (1 - lam) * w + lam / Qnat n_actions) max_omega).

(** Lines 95-126: the vector handed to [np.random.choice] as [p] by the
    branches other than uct. *)
Definition select_probs (self : t) (G : DiGraph) (out_edges : list edge)
    (n_state_action : list nat) (qs : list Q) : M (list Q) :=
  let n_actions := length out_edges in
  let lam := lambda_coeff self n_state_action in
  let q_exp_tau := npa.exp (npa.div_by qs (_tau self)) in
  match _algorithm self with
  | ments =>
      let probs := ments_probs lam n_actions q_exp_tau in
      j ← randint (length probs);
      mret (add_residual j probs)
  | rents =>
      vr ← lift (visitation_ratio G out_edges);
      probs ← lift (rents_probs lam n_actions vr q_exp_tau);
      j ← randint (length probs);
      mret (add_residual j probs)
  | tents => lift (tents_probs lam n_actions qs q_exp_tau)
  | _ => raise ValueError
  end.

(** Lines 85-93: the actions uct chooses among. *)
Definition uct_candidates (self : t) (n_state_action : list nat)
    (qs : list Q) : res (list nat) :=
  let n_state := sum_list n_state_action in
  if (0 <? n_state)%nat then
    ucb_values ← npa.broadcast
      (fun q n => q + _exploration_coeff self * n) qs
      (map (fun n => np_sqrt (np_log (Qnat n_state) / (Qnat n + eps10)))
           n_state_action);
    mx ← np.max ucb_values;
    OK (np.argwhere_eq (map Some ucb_values) mx)
  else
    (* [np.ones(len(n_state_action)) * np.inf]: every entry is the
       maximum; [np.max] of an empty array raises. *)
    match n_state_action with
    | [] => Raise ValueError
    | _ => OK (seq 0 (length n_state_action))
    end.

Definition _select (self : t) : M nat :=
  env ← get_env;
  let G := SyntheticTree._tree env in
  let out_edges := nx.edges_of G (SyntheticTree.state env) in
  n_state_action ← lift (edge_counts G out_edges);
  qs ← lift (edge_values G out_edges);
  match _algorithm self with
  | uct =>
      candidates ← lift (uct_candidates self n_state_action qs);
      choice candidates
  | _ =>
      probs ← select_probs self G out_edges n_state_action qs;
      choice_p (length out_edges) probs
  end.

(** *** [_navigate], lines 69-76 *)
Fixpoint _navigate_rec (fuel : nat) (self : t) : M (list edge) :=
  match fuel with
  | O => raise RecursionError
  | S fuel' =>
      env ← get_env;
      let state := SyntheticTree.state env in
      action ← _select self;
      next_state ← step (Z.of_nat action);
      env ← get_env;
      if decide (next_state ∉ SyntheticTree.leaves env) then
        rest ← _navigate_rec fuel' self;
        mret ((state, next_state) :: rest)
      else mret [(state, next_state)]
  end.

Definition _navigate (self : t) : M (list edge) :=
  _navigate_rec recursion_limit self.

(** *** The backup of [_simulation], lines 27-65 *)

(** Lines 49-60, the value tents gives the parent. *)
Definition tents_backup_value (qs q_exp_tau : list Q) : res Q :=
  kappa ← tents_kappa qs;
  on_kappa ← comprehension
                (fun i => of_option IndexError (q_exp_tau !! i)) kappa;
  let halves := map (fun e => e / 2) q_exp_tau in
  let deficits :=
    map (fun e => (e - 1) * (e - 1)
                  / (2 * (Qnat (length kappa) * Qnat (length kappa))))
        on_kappa in
  sparse_max ← npa.broadcast Qminus halves deficits;
  OK (np.sum sparse_max + (1 # 2)).

(** Lines 33-63, the new ['V'] of the parent of edge [e]. *)
Definition backup_value (self : t) (G : DiGraph) (e : edge) : res Q :=
  match _algorithm self with
  | uct =>
      current_node ← get_node G e.1;
      d ← get_edge G e;
      OK ((n_V current_node * Qnat (n_N current_node) + e_Q d)
          / (Qnat (n_N current_node) + 1))
  | alg =>
      let out_edges := nx.edges_of G e.1 in
      qs ← edge_values G out_edges;
      match alg with
      | ments =>
          l ← npa.logsumexp (npa.div_by qs (_tau self));
          OK (_tau self * l)
      | rents =>
          vr ← visitation_ratio G out_edges;
          terms ← npa.broadcast Qmult vr
                    (npa.exp (npa.div_by qs (_tau self)));
          OK (_tau self * np_log (np.sum terms))
      | tents =>
          v ← tents_backup_value qs (npa.exp (npa.div_by qs (_tau self)));
          OK (_tau self * v)
      | _ => Raise ValueError
      end
  end.

(** Lines 28-65, one pass of the loop over [reversed(path)]. *)
Definition backup (self : t) (e : edge) : M unit :=
  G ← get_tree;
  _ ← lift (get_node G e.1);
  next_node ← lift (get_node G e.2);
  set_edge e (with_eQ (n_V next_node)) ;;
  set_edge e (fun d => with_eN (e_N d + 1) d) ;;
  G ← get_tree;
  v ← lift (backup_value self G e);
  set_node e.1 (with_V v) ;;
  set_node e.1 (fun d => with_N (n_N d + 1) d).

(** *** [_simulation], lines 19-67 *)
Definition _simulation (self : t) : M Q :=
  path ← _navigate self;
  last ← lift (py_index path (-1));
  let leaf := last.2 in
  G ← get_tree;
  leaf_node ← lift (get_node G leaf);
  r ← rollout leaf;
  set_node leaf
    (with_V ((n_V leaf_node * Qnat (n_N leaf_node) + r)
             / (Qnat (n_N leaf_node) + 1))) ;;
  set_node leaf (fun d => with_N (n_N d + 1) d) ;;
  for_M (rev path) (backup self) ;;
  G ← get_tree;
  root ← lift (get_node G 0);
  mret (n_V root).

(** *** [run], lines 11-17 *)
Fixpoint run_loop (self : t) (n_simulations : nat) : M (list Q) :=
  match n_simulations with
  | O => mret []
  | S n =>
      reset ;;
      v ← _simulation self;
      v_hat ← run_loop self n;
      mret (v :: v_hat)
  end.

Definition run (self : t) (n_simulations : nat) : M (list Q) :=
  run_loop self n_simulations.

End Methods.
End MCTS.

(** ** Vocabulary of the statements *)

(** The number of nodes above level [j] of the [k]-ary tree, which is the
    number of the first node of level [j]: [k^0 + ... + k^(j-1)]. *)
Fixpoint level_start (k j : nat) : nat :=
  match j with
  | O => 0
  | S j' => k * level_start k j' + 1
  end.

(** How many entries of an array with [nan]s are numerically equal to
    [v]. *)
Fixpoint cnt (v : Q) (l : list (option Q)) : nat :=
  match l with
  | [] => 0
  | Some y :: l' => (if Qeq_bool y v then 1 else 0) + cnt v l'
  | None :: l' => cnt v l'
  end.

(** The invariant of the support loops: every value still to be looked
    for is still in the array, as often as it will be looked for. *)
Definition supplies (temp : list (option Q)) (todo : list Q) : Prop :=
  forall v, (cnt v (map Some todo) <= cnt v temp)%nat.

(** *** The support set in the words of the specification

    Sort the values in descending order; for increasing support size
    [i], include the first index not yet included whose value is the
    [i]-th largest, whenever [1 + i * sorted[i-1]] exceeds the sum of the
    [i] largest values. *)
Fixpoint first_unchosen (chosen : list nat) (v : Q) (i : nat)
    (values : list Q) : option nat :=
  match values with
  | [] => None
  | y :: values' =>
      if Qeq_bool y v && negb (bool_decide (i ∈ chosen)) then Some i
      else first_unchosen chosen v (S i) values'
  end.

Fixpoint spec_kappa_from (values : list Q) (i : nat) (largest rest : list Q)
    (chosen : list nat) : list nat :=
  match rest with
  | [] => chosen
  | s :: rest' =>
      let largest' := largest ++ [s] in
      let chosen' :=
        if Qgt_bool (1 + Qnat i * s) (np.sum largest') then
          match first_unchosen chosen s 0 values with
          | Some j => chosen ++ [j]
          | None => chosen
          end
        else chosen in
      spec_kappa_from values (S i) largest' rest' chosen'
  end.

Definition spec_kappa (values : list Q) : list nat :=
  spec_kappa_from values 1 [] (rev (np.sort values)) [].

(** The array in which the entries at the indices [chosen] are [nan]. *)
Fixpoint mask (chosen : list nat) (i : nat) (values : list Q)
    : list (option Q) :=
  match values with
  | [] => []
  | y :: values' =>
      (if bool_decide (i ∈ chosen) then None else Some y)
      :: mask chosen (S i) values'
  end.

(** The sum of squares over two, [Σ x²/2]. *)
Definition half_squares (l : list Q) : Q :=
  np.sum (map (fun x => x * x / 2) l).

(** The value the tents operator returns on the support values
    [on_kappa], as the code computes it: the deficit term is subtracted
    from every entry before the entries are summed. *)
Definition tents_value_on (on_kappa : list Q) : Q :=
  half_squares on_kappa
  - (np.sum on_kappa - 1) * (np.sum on_kappa - 1)
    / (2 * Qnat (length on_kappa))
  + (1 # 2).

(** The same value in the words of the specification: the deficit term
    is subtracted once, divided by [2|κ|²]. *)
Definition spec_tents_value_on (on_kappa : list Q) : Q :=
  half_squares on_kappa
  - (np.sum on_kappa - 1) * (np.sum on_kappa - 1)
    / (2 * (Qnat (length on_kappa) * Qnat (length on_kappa)))
  + (1 # 2).

(** ** Instances and a small tree to run the model on

    The statements below hold for every instance of [Numpy], [Random]
    and [Runtime]. To evaluate the model on examples, the interface is
    instantiated by truncated series. *)
Definition series_numpy : Numpy :=
  {| np_exp := fun x => 1 + x + x * x / 2 + x * x * x / 6;
     np_log := fun x => (x - 1) - (x - 1) * (x - 1) / 2;
     np_sqrt := fun x => (1 + x) / 2;
     np_power := fun x y => 1 + y * (x - 1) |}.

(** Weights 0.1, 0.2, ...; every normal deviate 0; the [t]-th index drawn
    is [t]. *)
Definition counting_random : Random :=
  {| rand := fun i => Qnat (i + 1) / 10;
     randn := fun _ => 0;
     randidx := fun t => t |}.

Definition python_runtime : Runtime := {| recursion_limit := 1000 |}.


Definition leaf_data (mean : Q) : NodeData :=
  {| n_N := 0; n_V := 0; n_mean := Some mean; n_prior := None;
     n_v_stats := None; n_dng := None |}.

Definition fresh_edge (weight : Q) : EdgeData :=
  {| e_weight := weight; e_N := 0; e_Q := 0; e_q_stats := None |}.

(** The tree of [SyntheticTree(3, 1, 'tents', 1., 2., 1.)] with the edge
    weights 0.1, 0.2, 0.3: a root and three leaves, whose normalised
    means are 0, 1/2 and 1. *)
Definition three_leaves_graph : DiGraph :=
  {| nodes := [0; 1; 2; 3]%nat;
     edges := [(0, 1); (0, 2); (0, 3)]%nat;
     node_data :=
       <[0%nat := {| n_N := 0; n_V := 0; n_mean := Some 1;
                     n_prior := Some [0; 1 # 3; 2 # 3];
                     n_v_stats := None; n_dng := None |}]>
       (<[1%nat := leaf_data 0]>
       (<[2%nat := leaf_data (1 # 2)]>
       (<[3%nat := leaf_data 1]> ∅)));
     edge_data :=
       <[(0, 1)%nat := fresh_edge (1 # 10)]>
       (<[(0, 2)%nat := fresh_edge (2 # 10)]>
       (<[(0, 3)%nat := fresh_edge (3 # 10)]> ∅)) |}.

Definition three_leaves : SyntheticTree.t :=
  {| SyntheticTree._k := 3; SyntheticTree._d := 1;
     SyntheticTree._algorithm := tents; SyntheticTree._tau := 1;
     SyntheticTree._alpha := 2; SyntheticTree._gamma := 1;
     SyntheticTree._tree := three_leaves_graph;
     SyntheticTree.leaves := [1; 2; 3]%nat;
     SyntheticTree.max_mean := 1;
     SyntheticTree.optimal_v_root := 17 # 16;
     SyntheticTree.q_root := [0; 1 # 2; 1];
     SyntheticTree.state := 0 |}.

(** A recursive call that is never made. *)
Definition no_recursion : nat -> res (Q * list Q) :=
  fun _ => Raise RecursionError.

(** The tree of [SyntheticTree(2, 1, 'tents', 1., 2., 1.)] before any
    search: a root and two leaves with normalised means 0 and 1, every
    ['N'] and ['Q'] still 0. *)
Definition two_leaves_graph : DiGraph :=
  {| nodes := [0; 1; 2]%nat;
     edges := [(0, 1); (0, 2)]%nat;
     node_data :=
       <[0%nat := {| n_N := 0; n_V := 0; n_mean := Some 1;
                     n_prior := Some [0; 1];
                     n_v_stats := None; n_dng := None |}]>
       (<[1%nat := leaf_data 0]>
       (<[2%nat := leaf_data 1]> ∅));
     edge_data :=
       <[(0, 1)%nat := fresh_edge (1 # 10)]>
       (<[(0, 2)%nat := fresh_edge (2 # 10)]> ∅) |}.

Definition two_leaves : SyntheticTree.t :=
  {| SyntheticTree._k := 2; SyntheticTree._d := 1;
     SyntheticTree._algorithm := tents; SyntheticTree._tau := 1;
     SyntheticTree._alpha := 2; SyntheticTree._gamma := 1;
     SyntheticTree._tree := two_leaves_graph;
     SyntheticTree.leaves := [1; 2]%nat;
     SyntheticTree.max_mean := 1;
     SyntheticTree.optimal_v_root := 1;
     SyntheticTree.q_root := [0; 1];
     SyntheticTree.state := 0 |}.

(** A tents search with temperature 1 and no exploration. *)
Definition greedy_tents : MCTS.t :=
  {| MCTS._exploration_coeff := 0; MCTS._algorithm := tents;
     MCTS._tau := 1 |}.

(** The search is handed [two_leaves], no draw made yet. *)
Definition two_leaves_world : MCTS.World :=
  {| MCTS.tree_env := two_leaves; MCTS.draws := 0 |}.

(** A graph with the nodes and edges of [nx.balanced_tree(k, d)]. *)
Definition balanced_shape (k d : nat) (G : DiGraph) : Prop :=
  nodes G = seq 0 (level_start k (S d))
  /\ edges G = nx.tree_edges k (level_start k (S d)).

(** What the constructor fixes in a node once its dict is initialised:
    everything except ['mean'] and ['prior']. *)
Definition counters (d : NodeData) : nat * Q * option (Q * Q)
                                      * option (Q * Q * Q * Q) :=
  (n_N d, n_V d, n_v_stats d, n_dng d).

(** [G'] differs from [G] at most in the ['mean'] and ['prior'] of
    nodes. *)
Definition attrs_kept (G G' : DiGraph) : Prop :=
  nodes G' = nodes G
  /\ edges G' = edges G
  /\ edge_data G' = edge_data G
  /\ forall x, counters <$> (node_data G' !! x)
               = counters <$> (node_data G !! x).

(** The dicts of the nodes in [K] are the same in [G] and [G']. *)
Definition untouched (K : nat -> Prop) (G G' : DiGraph) : Prop :=
  forall x, K x -> node_data G' !! x = node_data G !! x.

(** ** What a search may and may not change *)

(** The part of a node dict and of an edge dict the search has no
    business with. *)
Definition node_fixed (d : NodeData)
    : option Q * option (list Q) * option (Q * Q) * option (Q * Q * Q * Q) :=
  (n_mean d, n_prior d, n_v_stats d, n_dng d).

Definition edge_fixed (d : EdgeData) : Q * option (Q * Q) :=
  (e_weight d, e_q_stats d).

(** Everything of a tree environment but the cursor and the ['N'], ['V']
    and ['Q'] attributes. *)
Record Static : Type := mkStatic {
  s_config : nat * nat * algorithm * Q * Q * Q;
  s_nodes : list nat;
  s_edges : list edge;
  s_leaves : list nat;
  s_max_mean : Q;
  s_optimal_v_root : Q;
  s_q_root : list Q;
  s_node_fixed : gmap nat (option Q * option (list Q) * option (Q * Q)
                           * option (Q * Q * Q * Q));
  s_edge_fixed : gmap (nat * nat) (Q * option (Q * Q))
}.

Definition static (t : SyntheticTree.t) : Static :=
  {| s_config := (SyntheticTree._k t, SyntheticTree._d t,
                  SyntheticTree._algorithm t, SyntheticTree._tau t,
                  SyntheticTree._alpha t, SyntheticTree._gamma t);
     s_nodes := nodes (SyntheticTree._tree t);
     s_edges := edges (SyntheticTree._tree t);
     s_leaves := SyntheticTree.leaves t;
     s_max_mean := SyntheticTree.max_mean t;
     s_optimal_v_root := SyntheticTree.optimal_v_root t;
     s_q_root := SyntheticTree.q_root t;
     s_node_fixed := node_fixed <$> node_data (SyntheticTree._tree t);
     s_edge_fixed := edge_fixed <$> edge_data (SyntheticTree._tree t) |}.

(** A computation of the search that, when it returns, has left the
    observation [obs] of the tree environment as it was. *)
Definition preserves {X A : Type} (obs : SyntheticTree.t -> X)
    (m : MCTS.M A) : Prop :=
  forall w a w', m w = OK (a, w') ->
    obs (MCTS.tree_env w') = obs (MCTS.tree_env w).

(** Nothing of the static part has changed. *)
Abbreviation stable := (preserves static).

(** The tree environment is not written to at all. *)
Abbreviation read_only := (preserves (fun t : SyntheticTree.t => t)).

(** The visit counts, as a search observes them. *)
Definition visits_node (w : MCTS.World) (x : nat) : option nat :=
  n_N <$> (node_data (SyntheticTree._tree (MCTS.tree_env w)) !! x).

Definition visits_edge (w : MCTS.World) (e : edge) : option nat :=
  e_N <$> (edge_data (SyntheticTree._tree (MCTS.tree_env w)) !! e).

(** A uct search with the exploration coefficient of the experiments. *)
Definition plain_uct : MCTS.t :=
  {| MCTS._exploration_coeff := 141 # 100; MCTS._algorithm := uct;
     MCTS._tau := 1 |}.

(** Lines 87-89: the upper confidence bound of an action with value [q]
    taken [n] times from a state left [n_state] times. *)
Definition ucb `{Numpy} (self : MCTS.t) (n_state : nat) (q : Q) (n : nat)
    : Q :=
  q + MCTS._exploration_coeff self
      * np_sqrt (np_log (Qnat n_state) / (Qnat n + eps10)).

(** A ments search with temperature 1. *)
Definition plain_ments : MCTS.t :=
  {| MCTS._exploration_coeff := 1; MCTS._algorithm := ments;
     MCTS._tau := 1 |}.

(** A list of edges that leads from [start] downwards, each edge starting
    where the one before ended. *)
Fixpoint chain (start : nat) (path : list edge) : Prop :=
  match path with
  | [] => True
  | e :: rest => e.1 = start /\ chain e.2 rest
  end.

(** Where a chain from [start] ends. *)
Definition path_end (start : nat) (path : list edge) : nat :=
  foldl (fun _ e => e.2) start path.

(** A result that is not the overflow of the recursion limit. *)
Definition no_overflow {A : Type} (r : res A) : Prop :=
  r <> Raise RecursionError.

(** The dicts of all edges hold their attributes. *)
Definition edges_initialised (G : DiGraph) : Prop :=
  forall e, e ∈ edges G -> is_Some (edge_data G !! e).

(** A computation of the search that never ends in the overflow of the
    recursion limit. *)
Definition quiet {A : Type} (m : MCTS.M A) : Prop :=
  forall w, m w <> Raise RecursionError.

(** The cursor of a world is on level [j] of a tree of the shape of
    [balanced_tree(k, d)]. *)
Definition on_level (k d j : nat) (w : MCTS.World) : Prop :=
  let env := MCTS.tree_env w in
  balanced_shape k d (SyntheticTree._tree env)
  /\ SyntheticTree.leaves env
     = SyntheticTree.compute_leaves (SyntheticTree._tree env)
  /\ (level_start k j <= SyntheticTree.state env < level_start k (S j))%nat.


(** How often [x] occurs in [l]. *)
Definition occurrences {A : Type} `{EqDecision A} (x : A) (l : list A)
    : nat :=
  length (filter (fun y => y = x) l).

(** From [w] to [w'] the visit count of every node has grown by the
    number of its occurrences in [ns], that of every edge by the number
    of its occurrences in [es]. *)
Definition bumped (ns : list nat) (es : list edge) (w w' : MCTS.World)
    : Prop :=
  (forall x, visits_node w' x
             = (fun n => n + occurrences x ns)%nat <$> visits_node w x)
  /\ (forall e, visits_edge w' e
                = (fun n => n + occurrences e es)%nat <$> visits_edge w e).

(** Every edge leads to a node with a larger number. *)
Definition increasing (G : DiGraph) : Prop :=
  forall e, e ∈ edges G -> (e.1 < e.2)%nat.

(** A computation that, when it returns, has raised the counts by the
    occurrences in [ns] and [es]. *)
Definition counts_as {A : Type} (m : MCTS.M A) (ns : list nat)
    (es : list edge) : Prop :=
  forall w a w', m w = OK (a, w') -> bumped ns es w w'.


(** ** Vocabulary for the totality of the constructor *)

(** The dicts of all nodes hold their attributes. *)
Definition nodes_initialised (G : DiGraph) : Prop :=
  forall x, x ∈ nodes G -> is_Some (node_data G !! x).

(** Node [y] has a ['mean']. *)
Definition has_mean (G : DiGraph) (y : nat) : Prop :=
  exists m, node_mean G y = OK m.

(** Node [y] has a ['prior'] of [k] entries. *)
Definition has_prior (k : nat) (G : DiGraph) (y : nat) : Prop :=
  exists p, node_prior G y = OK p /\ length p = k.

(** From [G] to [G'] only ['mean'] and ['prior'] were written, no
    ['mean'] was lost and no ['prior'] of [k] entries either. *)
Definition grows (k : nat) (G G' : DiGraph) : Prop :=
  attrs_kept G G'
  /\ (forall y, has_mean G y -> has_mean G' y)
  /\ (forall y, has_prior k G y -> has_prior k G' y).

(** The nodes [n] levels below [x] in the [k]-ary tree. *)
Fixpoint subtree (k x n : nat) : list nat :=
  match n with
  | O => [x]
  | S n' => flat_map (fun c => subtree k c n') (seq (k * x + 1) k)
  end.

(** ** Vocabulary for the leaf means *)

(** The parent of node [y > 0] in the [k]-ary tree. *)
Definition parent (k y : nat) : nat := (y - 1) / k.

(** [G[u][v]['weight']], 0 for an edge without one. *)
Definition weight_of (G : DiGraph) (e : edge) : Q :=
  match edge_data G !! e with
  | Some d => e_weight d
  | None => 0
  end.

(** The ['weight'] of the [n] edges that lead down to [y], summed from the
    top as [_compute_mean] accumulates it. *)
Fixpoint path_weight (G : DiGraph) (k n y : nat) : Q :=
  match n with
  | O => 0
  | S n' => path_weight G k n' (parent k y) + weight_of G (parent k y, y)
  end.

(** The same sum over the weights [np.random.rand] has drawn: the edge
    into node [y] is edge number [y - 1] of the tree. *)
Fixpoint rand_path `{Random} (k n y : nat) : Q :=
  match n with
  | O => 0
  | S n' => rand_path k n' (parent k y) + rand (y - 1)
  end.

(** ** Vocabulary for runs that complete *)

(** A tree environment with what a search reads: the shape of
    [nx.balanced_tree(k, d)], the leaves the constructor computes, a dict
    at every node and at every edge, a ['mean'] at every leaf. *)
Definition ready (k d : nat) (t : SyntheticTree.t) : Prop :=
  balanced_shape k d (SyntheticTree._tree t)
  /\ SyntheticTree.leaves t
     = SyntheticTree.compute_leaves (SyntheticTree._tree t)
  /\ nodes_initialised (SyntheticTree._tree t)
  /\ edges_initialised (SyntheticTree._tree t)
  /\ forall y, y ∈ SyntheticTree.leaves t ->
       has_mean (SyntheticTree._tree t) y.

(** From every world in [P] the computation returns, with a result and in
    a world that satisfy [Q]. *)
Definition returns {A : Type} (P : MCTS.World -> Prop) (m : MCTS.M A)
    (Q : A -> MCTS.World -> Prop) : Prop :=
  forall w, P w -> exists a w', m w = OK (a, w') /\ Q a w'.

(** ** Vocabulary for the values the backup leaves *)

(** Every edge of the graph that does not lead to [x] has as ['Q'] the
    ['V'] of the node it leads to. *)
Definition backed_up_but (x : option nat) (G : DiGraph) : Prop :=
  forall e, e ∈ edges G -> Some e.2 <> x ->
    e_Q <$> (edge_data G !! e) = n_V <$> (node_data G !! e.2).

(** No node has two edges leading to it. *)
Definition single_parent (G : DiGraph) : Prop :=
  forall e e', e ∈ edges G -> e' ∈ edges G -> e.2 = e'.2 -> e = e'.

(** ** Vocabulary for sorted arrays *)

(** Every entry is related by [R] to each entry after it. *)
Fixpoint ordered (R : Q -> Q -> Prop) (l : list Q) : Prop :=
  match l with
  | [] => True
  | a :: l' => Forall (R a) l' /\ ordered R l'
  end.

(** ** Vocabulary for the best leaf *)

(** [v] is the largest ['mean'] among the nodes [n] levels below [x]. *)
Definition best_below (k : nat) (G : DiGraph) (x n : nat) (v : Q) : Prop :=
  (forall y m, y ∈ subtree k x n -> node_mean G y = OK m -> (m <= v)%Q)
  /\ exists y m, y ∈ subtree k x n /\ node_mean G y = OK m /\ (m == v)%Q.

(** The dicts of the nodes from the last level on are the same in [G]
    and [G']. *)
Definition leaves_fixed (k d : nat) (G G' : DiGraph) : Prop :=
  forall y : nat,
    (level_start k d <= y)%nat -> node_data G' !! y = node_data G !! y.

(** ** A tree in the middle of a search *)

(** [two_leaves] after two simulations through the first leaf: the root
    and that leaf visited twice, the other leaf never. *)
Definition visited_graph : DiGraph :=
  {| nodes := [0; 1; 2]%nat;
     edges := [(0, 1); (0, 2)]%nat;
     node_data :=
       <[0%nat := {| n_N := 2; n_V := 1 # 4; n_mean := Some 1;
                     n_prior := Some [0; 1];
                     n_v_stats := None; n_dng := None |}]>
       (<[1%nat := {| n_N := 2; n_V := 1 # 2; n_mean := Some 0;
                      n_prior := None; n_v_stats := None;
                      n_dng := None |}]>
       (<[2%nat := leaf_data 1]> ∅));
     edge_data :=
       <[(0, 1)%nat := {| e_weight := 1 # 10; e_N := 2; e_Q := 1 # 2;
                          e_q_stats := None |}]>
       (<[(0, 2)%nat := fresh_edge (2 # 10)]> ∅) |}.

Definition visited_world : MCTS.World :=
  {| MCTS.tree_env := SyntheticTree.set_tree visited_graph two_leaves;
     MCTS.draws := 0 |}.



(** ** Vocabulary for the size of the values a search keeps *)



(** * Properties *)

(** ** The result monad *)

Lemma res_bind_OK {A B : Type} (r : res A) (f : A -> res B) (b : B) :
  mbind f r = OK b -> exists a, r = OK a /\ f a = OK b.
Proof. destruct r as [a|e]; simpl; [eauto | discriminate]. Qed.

Lemma res_bind_eq {A B : Type} (r : res A) (f : A -> res B) (a : A) :
  r = OK a -> mbind f r = f a.
Proof. intros ->. reflexivity. Qed.

Lemma of_option_OK {A : Type} (e : exn) (o : option A) (a : A) :
  of_option e o = OK a <-> o = Some a.
Proof. destruct o; simpl; split; congruence. Qed.

Ltac inv_res H :=
  repeat match type of H with
  | mbind _ _ = OK _ =>
      let a := fresh "a" in let Ha := fresh "Ha" in
      apply res_bind_OK in H; destruct H as (a & Ha & H)
  | of_option _ _ = OK _ => apply of_option_OK in H
  end.

(** ** Numbers and one-dimensional arrays *)

Lemma Qnat_S (n : nat) : Qnat (S n) == Qnat n + 1.
Proof.
  unfold Qnat. rewrite Nat2Z.inj_succ, <- Z.add_1_r, inject_Z_plus.
  reflexivity.
Qed.


Lemma Qnat_pos (n : nat) : (0 < n)%nat -> 0 < Qnat n.
Proof.
  intros Hn. unfold Qnat. change 0 with (inject_Z 0).
  rewrite <- Zlt_Qlt. lia.
Qed.

Lemma Qgt_bool_true (a b : Q) : Qgt_bool a b = true <-> b < a.
Proof.
  unfold Qgt_bool. rewrite negb_true_iff.
  destruct (Qle_bool a b) eqn:E.
  - apply Qle_bool_iff in E. split; [discriminate | intros; lra].
  - split; [intros _ | reflexivity].
    apply Qnot_le_lt. intros Hle. apply Qle_bool_iff in Hle. congruence.
Qed.

Lemma Qeq_bool_trans_l (y s v : Q) :
  Qeq_bool y s = true -> Qeq_bool y v = Qeq_bool s v.
Proof.
  intros Hys. apply Qeq_bool_iff in Hys.
  destruct (Qeq_bool s v) eqn:E.
  - apply Qeq_bool_iff in E. apply Qeq_bool_iff. lra.
  - destruct (Qeq_bool y v) eqn:E'; [| reflexivity].
    apply Qeq_bool_iff in E'.
    assert (Hsv : Qeq_bool s v = true) by (apply Qeq_bool_iff; lra).
    congruence.
Qed.

Lemma sum_app (l1 l2 : list Q) : np.sum (l1 ++ l2) == np.sum l1 + np.sum l2.
Proof.
  induction l1 as [|x l1 IH].
  - change (np.sum l2 == 0 + np.sum l2). lra.
  - change (x + np.sum (l1 ++ l2) == x + np.sum l1 + np.sum l2).
    rewrite IH. lra.
Qed.

Lemma sum_cons (x : Q) (l : list Q) : np.sum (x :: l) = x + np.sum l.
Proof. reflexivity. Qed.

Lemma length_insert_sorted (x : Q) (l : list Q) :
  length (np.insert_sorted x l) = S (length l).
Proof.
  induction l as [|y l IH]; simpl; [reflexivity |].
  destruct (Qle_bool x y); simpl; [reflexivity | now rewrite IH].
Qed.

Lemma length_sort (l : list Q) : length (np.sort l) = length l.
Proof.
  induction l as [|x l IH]; simpl; [reflexivity |].
  unfold np.sort in *. simpl. now rewrite length_insert_sorted, IH.
Qed.

Lemma length_flip (l : list Q) : length (np.flip l) = length l.
Proof. apply length_rev. Qed.

(** ** The support loops never fail to find an index *)

Lemma cnt_app (v : Q) (l1 l2 : list (option Q)) :
  cnt v (l1 ++ l2) = (cnt v l1 + cnt v l2)%nat.
Proof.
  induction l1 as [|[y|] l1 IH]; simpl; rewrite ?IH; lia.
Qed.

Lemma cnt_insert_sorted (v x : Q) (l : list Q) :
  cnt v (map Some (np.insert_sorted x l)) = cnt v (map Some (x :: l)).
Proof.
  induction l as [|y l IH]; simpl; [reflexivity |].
  destruct (Qle_bool x y); simpl; [reflexivity |].
  simpl in IH. rewrite IH. lia.
Qed.

Lemma cnt_sort (v : Q) (l : list Q) :
  cnt v (map Some (np.sort l)) = cnt v (map Some l).
Proof.
  induction l as [|x l IH]; [reflexivity |].
  change (np.sort (x :: l)) with (np.insert_sorted x (np.sort l)).
  rewrite cnt_insert_sorted. simpl. now rewrite IH.
Qed.

Lemma cnt_flip (v : Q) (l : list Q) :
  cnt v (map Some (np.flip l)) = cnt v (map Some l).
Proof.
  unfold np.flip. induction l as [|x l IH]; [reflexivity |].
  simpl rev. rewrite map_app, cnt_app, IH. simpl. lia.
Qed.

Lemma supplies_sorted_desc (l : list Q) :
  supplies (map Some l) (np.flip (np.sort l)).
Proof. intros v. now rewrite cnt_flip, cnt_sort. Qed.

Lemma supplies_sorted_asc (l : list Q) :
  supplies (map Some l) (np.sort l).
Proof. intros v. now rewrite cnt_sort. Qed.

Lemma supplies_skip (temp : list (option Q)) (s : Q) (todo : list Q) :
  supplies temp (s :: todo) -> supplies temp todo.
Proof. intros Hs v. specialize (Hs v). simpl in Hs. lia. Qed.

Lemma argwhere_from_head (i : nat) (temp : list (option Q)) (v : Q) :
  (0 < cnt v temp)%nat ->
  exists j y, head (np.argwhere_from i temp v) = Some (i + j)%nat
              /\ temp !! j = Some (Some y) /\ Qeq_bool y v = true.
Proof.
  revert i. induction temp as [|[y|] temp IH]; intros i Hc; simpl in *.
  - lia.
  - destruct (Qeq_bool y v) eqn:E.
    + exists 0%nat, y. rewrite Nat.add_0_r. auto.
    + destruct (IH (S i)) as (j & y' & Hh & Hl & Hy); [lia |].
      exists (S j), y'. rewrite Hh. split; [f_equal; lia | auto].
  - destruct (IH (S i) Hc) as (j & y' & Hh & Hl & Hy).
    exists (S j), y'. rewrite Hh. split; [f_equal; lia | auto].
Qed.

Lemma cnt_insert_None (temp : list (option Q)) (j : nat) (y v : Q) :
  temp !! j = Some (Some y) ->
  (cnt v (<[j := None]> temp) + (if Qeq_bool y v then 1 else 0))%nat
  = cnt v temp.
Proof.
  revert j. induction temp as [|x temp IH]; intros [|j] Hl; simpl in *;
    try discriminate.
  - injection Hl as ->. lia.
  - specialize (IH j Hl). destruct x as [x|]; simpl; lia.
Qed.

Lemma kappa_append_total (s : Q) (todo : list Q) (st : kappa_state) :
  supplies st.1 (s :: todo) ->
  exists idx, kappa_append s st = OK (<[idx := None]> st.1, st.2 ++ [idx])
              /\ (idx < length st.1)%nat
              /\ supplies (<[idx := None]> st.1) todo.
Proof.
  intros Hs. destruct st as [temp kappa]; simpl in *.
  destruct (argwhere_from_head 0 temp s) as (j & y & Hh & Hl & Hy).
  { specialize (Hs s). simpl in Hs.
    assert (E : Qeq_bool s s = true) by (apply Qeq_bool_iff; reflexivity).
    rewrite E in Hs. lia. }
  exists j. unfold kappa_append, np.argwhere_eq. simpl. rewrite Hh. simpl.
  split; [reflexivity |]. split; [eapply lookup_lt_Some; eauto |].
  intros v. specialize (Hs v). simpl in Hs.
  pose proof (cnt_insert_None temp j y v Hl) as Hc.
  rewrite (Qeq_bool_trans_l y s v Hy) in Hc. lia.
Qed.

(** A loop whose body either leaves the state alone or appends the index
    of the value it looks at runs to its end. *)
Lemma kappa_loop_total (body : nat -> kappa_state -> res kappa_state)
    (sorted : list Q) (start : nat) :
  (forall j s st, sorted !! j = Some s ->
     body (start + j)%nat st = OK st
     \/ body (start + j)%nat st = kappa_append s st) ->
  forall todo done st,
    sorted = done ++ todo -> supplies st.1 todo ->
    exists temp' added,
      for_each (seq (start + length done) (length todo)) body st
      = OK (temp', st.2 ++ added)
      /\ length temp' = length st.1
      /\ Forall (fun i => i < length st.1)%nat added.
Proof.
  intros Hbody todo. induction todo as [|s todo IH]; intros done st Hsplit Hs.
  - exists st.1, []. simpl. rewrite app_nil_r. destruct st; auto.
  - assert (Hl : sorted !! length done = Some s).
    { rewrite Hsplit. rewrite lookup_app_r by lia.
      now rewrite Nat.sub_diag. }
    simpl for_each.
    assert (Hnext : forall st', supplies st'.1 todo ->
              exists temp' added,
                for_each (seq (S (start + length done)) (length todo)) body st'
                = OK (temp', st'.2 ++ added)
                /\ length temp' = length st'.1
                /\ Forall (fun i => i < length st'.1)%nat added).
    { intros st' Hs'.
      specialize (IH (done ++ [s]) st').
      rewrite length_app in IH. simpl in IH.
      replace (start + (length done + 1))%nat
        with (S (start + length done)) in IH by lia.
      apply IH; [now rewrite <- app_assoc | assumption]. }
    destruct (Hbody _ _ st Hl) as [-> | ->].
    + simpl. apply Hnext. eapply supplies_skip; eauto.
    + destruct (kappa_append_total s todo st Hs) as (idx & -> & Hidx & Hs').
      simpl.
      destruct (Hnext (<[idx := None]> st.1, st.2 ++ [idx]) Hs')
        as (temp' & added & -> & Hlen & Hall).
      simpl in *. rewrite length_insert in *.
      exists temp', (idx :: added). rewrite <- app_assoc. simpl.
      split; [reflexivity |]. split; [assumption |].
      constructor; assumption.
Qed.

(** ** The sparse-max operator of the exact solver *)

Lemma sparse_max_body_cases (sorted : list Q) (j : nat) (s : Q)
    (st : kappa_state) :
  sorted !! j = Some s ->
  SyntheticTree.sparse_max_body sorted (1 + j) st = OK st
  \/ SyntheticTree.sparse_max_body sorted (1 + j) st = kappa_append s st.
Proof.
  intros Hl. unfold SyntheticTree.sparse_max_body.
  replace (1 + j - 1)%nat with j by lia. rewrite Hl. simpl.
  destruct (Qgt_bool _ _); auto.
Qed.

Lemma sparse_max_body_first (s : Q) (todo : list Q) (st : kappa_state) :
  SyntheticTree.sparse_max_body (s :: todo) 1 st = kappa_append s st.
Proof.
  unfold SyntheticTree.sparse_max_body. simpl.
  assert (E : Qgt_bool (1 + Qnat 1 * s) (np.sum (take 1 (s :: todo))) = true).
  { apply Qgt_bool_true. change (take 1 (s :: todo)) with [s].
    rewrite sum_cons. change (np.sum []) with 0.
    change (Qnat 1) with 1. lra. }
  simpl in E. now rewrite E.
Qed.

(** The support of a non-empty vector is computed without an exception,
    is not empty and holds indices of the vector. *)
Lemma sparse_max_kappa_total (means_tau : list Q) :
  means_tau <> [] ->
  exists kappa, SyntheticTree.sparse_max_kappa means_tau = OK kappa
                /\ kappa <> []
                /\ Forall (fun i => i < length means_tau)%nat kappa.
Proof.
  intros Hne. unfold SyntheticTree.sparse_max_kappa.
  pose proof (supplies_sorted_desc means_tau) as Hs.
  pose proof (length_flip (np.sort means_tau)) as Hlen.
  rewrite length_sort in Hlen.
  destruct (np.flip (np.sort means_tau)) as [|s todo] eqn:Hsorted.
  { destruct means_tau; [congruence | discriminate]. }
  simpl length. simpl for_each. rewrite sparse_max_body_first.
  destruct (kappa_append_total s todo (map Some means_tau, []) Hs)
    as (idx & -> & Hidx & Hs').
  simpl in *. rewrite length_map in Hidx.
  destruct (kappa_loop_total
              (SyntheticTree.sparse_max_body (s :: todo)) (s :: todo) 1
              (sparse_max_body_cases (s :: todo)) todo [s]
              (<[idx := None]> (map Some means_tau), [idx]) eq_refl Hs')
    as (temp' & added & Hrun & _ & Hall).
  simpl in Hrun. rewrite Hrun. simpl.
  exists (idx :: added). split; [reflexivity |]. split; [discriminate |].
  simpl in Hall. rewrite length_insert, length_map in Hall.
  constructor; assumption.
Qed.

(** *** The support of the solver is the support of the specification *)

Lemma mask_nil (i : nat) (values : list Q) :
  mask [] i values = map Some values.
Proof.
  revert i. induction values as [|y values IH]; intros i; [reflexivity |].
  simpl. rewrite IH. destruct (bool_decide (i ∈ [])) eqn:E; [| reflexivity].
  apply bool_decide_eq_true in E. now apply elem_of_nil in E.
Qed.

Lemma argwhere_mask (chosen : list nat) (v : Q) (i : nat) (values : list Q) :
  head (np.argwhere_from i (mask chosen i values) v)
  = first_unchosen chosen v i values.
Proof.
  revert i. induction values as [|y values IH]; intros i; [reflexivity |].
  simpl. destruct (bool_decide (i ∈ chosen)); simpl.
  - rewrite andb_false_r. apply IH.
  - rewrite andb_true_r. destruct (Qeq_bool y v); [reflexivity | apply IH].
Qed.

Lemma first_unchosen_bound (chosen : list nat) (v : Q) (i j : nat)
    (values : list Q) :
  first_unchosen chosen v i values = Some j ->
  (i <= j < i + length values)%nat /\ j ∉ chosen.
Proof.
  revert i. induction values as [|y values IH]; intros i Hj; [discriminate |].
  simpl in Hj.
  destruct (Qeq_bool y v && negb (bool_decide (i ∈ chosen))) eqn:E.
  - injection Hj as <-. apply andb_true_iff in E. destruct E as [_ E].
    apply negb_true_iff, bool_decide_eq_false in E. simpl. split; [lia | auto].
  - apply IH in Hj. simpl. split; [lia | apply Hj].
Qed.

Lemma mask_head_other (chosen : list nat) (i j : nat) :
  i <> j -> bool_decide (i ∈ chosen ++ [j]) = bool_decide (i ∈ chosen).
Proof.
  intros Hne. apply bool_decide_ext.
  rewrite elem_of_app, list_elem_of_singleton. tauto.
Qed.

Lemma mask_after (chosen : list nat) (j : nat) (values : list Q) :
  forall i, (j < i)%nat ->
            mask chosen i values = mask (chosen ++ [j]) i values.
Proof.
  induction values as [|y values IH]; intros i Hi; [reflexivity |].
  simpl. rewrite <- IH by lia. now rewrite mask_head_other by lia.
Qed.

Lemma mask_insert (chosen : list nat) (j : nat) (values : list Q) :
  forall i, (i <= j)%nat ->
            <[(j - i)%nat := None]> (mask chosen i values)
            = mask (chosen ++ [j]) i values.
Proof.
  induction values as [|y values IH]; intros i Hij; [reflexivity |].
  simpl. destruct (decide (i = j)) as [-> | Hne].
  - rewrite Nat.sub_diag. simpl.
    rewrite (bool_decide_eq_true_2 (j ∈ chosen ++ [j]))
      by (apply elem_of_app; right; left).
    f_equal. apply mask_after. lia.
  - replace (j - i)%nat with (S (j - S i)) by lia. simpl.
    rewrite IH by lia. now rewrite mask_head_other.
Qed.

Lemma take_snoc (done : list Q) (s : Q) (rest : list Q) :
  take (S (length done)) (done ++ s :: rest) = done ++ [s].
Proof.
  rewrite take_app_ge by lia.
  replace (S (length done) - length done)%nat with 1%nat by lia.
  reflexivity.
Qed.

(** Whenever the loop of the solver completes, it has computed the
    support of the specification. *)
Lemma sparse_max_loop_spec (values sorted : list Q) :
  forall rest done chosen st',
    sorted = done ++ rest ->
    for_each (seq (S (length done)) (length rest))
             (SyntheticTree.sparse_max_body sorted)
             (mask chosen 0 values, chosen) = OK st' ->
    st'.2 = spec_kappa_from values (S (length done)) done rest chosen.
Proof.
  induction rest as [|s rest IH]; intros done chosen st' Hsplit Hrun.
  - injection Hrun as <-. reflexivity.
  - simpl length in Hrun. simpl seq in Hrun. simpl for_each in Hrun.
    apply res_bind_OK in Hrun. destruct Hrun as (st1 & Hbody & Hrun).
    unfold SyntheticTree.sparse_max_body in Hbody.
    replace (S (length done) - 1)%nat with (length done) in Hbody by lia.
    assert (Hl : sorted !! length done = Some s).
    { rewrite Hsplit, lookup_app_r by lia. now rewrite Nat.sub_diag. }
    rewrite Hl in Hbody. simpl in Hbody.
    rewrite Hsplit, take_snoc in Hbody.
    simpl spec_kappa_from.
    assert (Hnext : forall chosen1,
              st1 = (mask chosen1 0 values, chosen1) ->
              st'.2 = spec_kappa_from values (S (S (length done)))
                                      (done ++ [s]) rest chosen1).
    { intros chosen1 ->.
      specialize (IH (done ++ [s]) chosen1 st').
      rewrite length_app in IH. simpl in IH.
      replace (length done + 1)%nat with (S (length done)) in IH by lia.
      apply IH; [now rewrite <- app_assoc | exact Hrun]. }
    destruct (Qgt_bool (1 + Qnat (S (length done)) * s)
                       (np.sum (done ++ [s]))).
    + unfold kappa_append, np.argwhere_eq in Hbody. simpl in Hbody.
      rewrite argwhere_mask in Hbody.
      destruct (first_unchosen chosen s 0 values) as [j|] eqn:Hj;
        [| discriminate].
      simpl in Hbody. injection Hbody as <-.
      apply Hnext. f_equal.
      rewrite <- (mask_insert chosen j values 0) by lia.
      now rewrite Nat.sub_0_r.
    + injection Hbody as <-. now apply Hnext.
Qed.

(** On every vector the solver computes the support the specification
    describes. *)
Lemma sparse_max_kappa_spec (means_tau : list Q) :
  SyntheticTree.sparse_max_kappa means_tau = OK (spec_kappa means_tau).
Proof.
  destruct means_tau as [|x l] eqn:E; [reflexivity |]. rewrite <- E.
  destruct (sparse_max_kappa_total means_tau) as (kappa & Hk & _);
    [congruence |].
  rewrite Hk. f_equal.
  unfold SyntheticTree.sparse_max_kappa in Hk.
  apply res_bind_OK in Hk. destruct Hk as (st' & Hrun & Hk).
  injection Hk as <-.
  rewrite <- mask_nil with (i := 0%nat) in Hrun.
  exact (sparse_max_loop_spec means_tau _ _ [] [] st' eq_refl Hrun).
Qed.

Lemma take_idx_rec_total (a : list Q) (kappa : list nat) :
  Forall (fun i => i < length a)%nat kappa ->
  exists on_kappa, np.take_idx_rec a kappa = OK on_kappa
                   /\ length on_kappa = length kappa.
Proof.
  induction 1 as [|i kappa Hi _ (l & IH & Hlen)]; simpl.
  - exists []. auto.
  - destruct (lookup_lt_is_Some_2 a i Hi) as [x Hx]. rewrite Hx. simpl.
    rewrite IH. simpl. exists (x :: l). simpl. auto.
Qed.

Lemma take_idx_rec_length (a : list Q) (kappa : list nat) (l : list Q) :
  np.take_idx_rec a kappa = OK l -> length l = length kappa.
Proof.
  revert l. induction kappa as [|i kappa IH]; intros l Hl; simpl in Hl.
  - now injection Hl as <-.
  - apply res_bind_OK in Hl. destruct Hl as (x & _ & Hl).
    apply res_bind_OK in Hl. destruct Hl as (l' & Hl' & Hl).
    injection Hl as <-. simpl. f_equal. now apply IH.
Qed.

Lemma take_idx_total (a : list Q) (kappa : list nat) :
  kappa <> [] -> Forall (fun i => i < length a)%nat kappa ->
  exists on_kappa, np.take_idx a kappa = OK on_kappa
                   /\ length on_kappa = length kappa.
Proof.
  intros Hne Hall. unfold np.take_idx.
  destruct kappa; [congruence |]. now apply take_idx_rec_total.
Qed.

Lemma sum_map_minus_const (f : Q -> Q) (c : Q) (l : list Q) :
  np.sum (map (fun x => f x - c) l)
  == np.sum (map f l) - Qnat (length l) * c.
Proof.
  induction l as [|x l IH].
  - change (0 == 0 - 0 * c). lra.
  - simpl map. simpl length. rewrite !sum_cons, IH, Qnat_S. lra.
Qed.

(** What [sparse_max] returns, given the support and the values on it.
    The deficit term is subtracted from each of the [|κ|] entries, so the
    sum loses it [|κ|] times. *)
Lemma sparse_max_on_kappa (means_tau : list Q) (kappa : list nat)
    (on_kappa : list Q) :
  SyntheticTree.sparse_max_kappa means_tau = OK kappa ->
  np.take_idx means_tau kappa = OK on_kappa ->
  exists v, SyntheticTree.sparse_max means_tau = OK v
            /\ v == tents_value_on on_kappa.
Proof.
  intros Hk Ht. unfold SyntheticTree.sparse_max. rewrite Hk. simpl.
  rewrite Ht. simpl. eexists. split; [reflexivity |].
  assert (Hlen : length on_kappa = length kappa).
  { unfold np.take_idx in Ht. destruct kappa as [|i kappa]; [discriminate |].
    now apply take_idx_rec_length in Ht. }
  assert (Hpos : 0 < Qnat (length kappa)).
  { apply Qnat_pos. unfold np.take_idx in Ht.
    destruct kappa; [discriminate | simpl; lia]. }
  rewrite sum_map_minus_const. unfold tents_value_on, half_squares.
  rewrite Hlen. field. lra.
Qed.

(** On every non-empty vector [sparse_max] returns, and returns the
    value of [tents_value_on] on its support. *)
Lemma sparse_max_total (means_tau : list Q) :
  means_tau <> [] ->
  exists kappa on_kappa v,
    SyntheticTree.sparse_max_kappa means_tau = OK kappa
    /\ np.take_idx means_tau kappa = OK on_kappa
    /\ SyntheticTree.sparse_max means_tau = OK v
    /\ v == tents_value_on on_kappa.
Proof.
  intros Hne.
  destruct (sparse_max_kappa_total means_tau Hne) as (kappa & Hk & Hkne & Hall).
  destruct (take_idx_total means_tau kappa Hkne Hall) as (on_kappa & Ht & _).
  destruct (sparse_max_on_kappa means_tau kappa on_kappa Hk Ht) as (v & Hv & E).
  exists kappa, on_kappa, v. auto.
Qed.

Lemma comprehension_length {A B : Type} (f : A -> res B) (l : list A)
    (bs : list B) :
  comprehension f l = OK bs -> length bs = length l.
Proof.
  revert bs. induction l as [|a l IH]; intros bs Hl; simpl in Hl.
  - now injection Hl as <-.
  - apply res_bind_OK in Hl. destruct Hl as (b & _ & Hl).
    apply res_bind_OK in Hl. destruct Hl as (bs' & Hbs' & Hl).
    injection Hl as <-. simpl. f_equal. now apply IH.
Qed.

Lemma children_values_nonempty `{Numpy} (self : SyntheticTree.t)
    (recur : nat -> res (Q * list Q)) (node : nat) (x : list Q) :
  SyntheticTree.children_values self recur node = OK x -> x <> [].
Proof.
  unfold SyntheticTree.children_values. intros Hx.
  apply res_bind_OK in Hx. destruct Hx as (s0 & Hs0 & Hx).
  apply of_option_OK in Hs0.
  assert (Hlen : length x = length (nx.successors (SyntheticTree._tree self) node)).
  { destruct (decide _); eapply comprehension_length; eauto. }
  destruct (nx.successors _ node); [discriminate |].
  destruct x; [discriminate | congruence].
Qed.

Lemma div_by_nonempty (x : list Q) (c : Q) : x <> [] -> npa.div_by x c <> [].
Proof. destruct x; [congruence | discriminate]. Qed.

(** C3, as amended. For every node of a tents tree with a temperature
    other than 0 whose vector [x] of child values is available, the exact
    solver returns
    [tau * (Σ_{j in κ} v_j²/2 − (Σ_{j in κ} v_j − 1)² / (2|κ|) + 1/2)]
    for the scaled values [v = x / tau] on the support κ: the deficit term
    [(Σ − 1)² / (2|κ|²)] is subtracted from each of the |κ| summands, that
    is |κ| times in all. *)
Theorem tents_solver_value `{Numpy} (self : SyntheticTree.t)
    (recur : nat -> res (Q * list Q)) (node : nat) (x : list Q) :
  SyntheticTree._algorithm self = tents ->
  ~ SyntheticTree._tau self == 0 ->
  SyntheticTree.children_values self recur node = OK x ->
  exists kappa on_kappa v,
    SyntheticTree.sparse_max_kappa (npa.div_by x (SyntheticTree._tau self))
    = OK kappa
    /\ np.take_idx (npa.div_by x (SyntheticTree._tau self)) kappa
       = OK on_kappa
    /\ SyntheticTree.solver_body self recur node
       = OK (SyntheticTree._tau self * v, x)
    /\ v == tents_value_on on_kappa.
Proof.
  intros Halg _ Hx.
  destruct (sparse_max_total (npa.div_by x (SyntheticTree._tau self)))
    as (kappa & on_kappa & v & Hk & Ht & Hv & E).
  { apply div_by_nonempty. eapply children_values_nonempty; eauto. }
  exists kappa, on_kappa, v. repeat split; try assumption.
  unfold SyntheticTree.solver_body. rewrite Halg, Hx. simpl.
  rewrite Hv. reflexivity.
Qed.

Lemma tents_solver_value_witness :
  SyntheticTree._algorithm three_leaves = tents
  /\ ~ SyntheticTree._tau three_leaves == 0
  /\ SyntheticTree.children_values three_leaves no_recursion 0
     = OK [0; 1 # 2; 1]
  /\ exists kappa on_kappa v,
       SyntheticTree.sparse_max_kappa (npa.div_by [0; 1 # 2; 1] 1) = OK kappa
       /\ np.take_idx (npa.div_by [0; 1 # 2; 1] 1) kappa = OK on_kappa
       /\ @SyntheticTree.solver_body series_numpy three_leaves no_recursion 0
          = OK (1 * v, [0; 1 # 2; 1])
       /\ v == tents_value_on on_kappa.
Proof.
  split; [reflexivity |]. split; [discriminate |]. split; [reflexivity |].
  apply (@tents_solver_value series_numpy three_leaves no_recursion 0
           [0; 1 # 2; 1] eq_refl); [discriminate | reflexivity].
Defined.

(** C3 as the specification words it fails on the tree with leaf means
    0, 1/2, 1 and temperature 1: the support has two elements, the solver
    returns 17/16, the formula with the deficit subtracted once gives
    35/32. *)
Lemma tents_solver_value_not_spec :
  exists v x kappa on_kappa,
    @SyntheticTree.solver_body series_numpy three_leaves no_recursion 0
    = OK (v, x)
    /\ SyntheticTree.sparse_max_kappa
         (npa.div_by x (SyntheticTree._tau three_leaves)) = OK kappa
    /\ np.take_idx (npa.div_by x (SyntheticTree._tau three_leaves)) kappa
       = OK on_kappa
    /\ length kappa = 2%nat
    /\ v == 17 # 16
    /\ SyntheticTree._tau three_leaves * spec_tents_value_on on_kappa
       == 35 # 32
    /\ ~ v == SyntheticTree._tau three_leaves * spec_tents_value_on on_kappa.
Proof.
  do 4 eexists. split; [vm_compute; reflexivity |].
  split; [vm_compute; reflexivity |].
  split; [vm_compute; reflexivity |].
  split; [reflexivity |].
  split; [vm_compute; reflexivity |].
  split; [vm_compute; reflexivity |].
  vm_compute. discriminate.
Qed.

(** ** The tents steps of the search *)

(** C2. The exact solver computes the support the specification
    describes, on every vector. The search does not: at the values
    [0, 2] the support of the specification is the index of the largest
    value alone, while the search, which indexes the ascending array
    [sorted_q] by [i], takes both indices, the index of the smallest
    value first. *)
Theorem search_kappa_ascending :
  (forall means_tau : list Q,
     SyntheticTree.sparse_max_kappa means_tau = OK (spec_kappa means_tau))
  /\ spec_kappa [0; 2] = [1%nat]
  /\ MCTS.tents_kappa [0; 2] = OK [0; 1]%nat.
Proof.
  split; [exact sparse_max_kappa_spec |]. split; reflexivity.
Qed.

(** C4, the backup at a node whose two out-edges have ['Q'] 0, with
    temperature 1: the search assigns 3/2, the operator of the exact
    solver gives 1/4 on the same vector. *)
Theorem tents_backup_not_solver `{Numpy} (self : MCTS.t) (G : DiGraph)
    (e : edge) :
  np_exp 0 == 1 ->
  MCTS._algorithm self = tents ->
  MCTS._tau self = 1 ->
  MCTS.edge_values G (nx.edges_of G e.1) = OK [0; 0] ->
  exists v v',
    MCTS.backup_value self G e = OK v
    /\ v == 3 # 2
    /\ SyntheticTree.sparse_max (npa.div_by [0; 0] (MCTS._tau self)) = OK v'
    /\ MCTS._tau self * v' == 1 # 4.
Proof.
  intros Hexp Halg Htau Hqs.
  unfold MCTS.backup_value. rewrite Halg, Hqs, Htau. simpl.
  unfold MCTS.tents_backup_value.
  change (MCTS.tents_kappa [0; 0]) with (OK (A := list nat) [0; 1]%nat).
  simpl.
  change (0 / 1) with 0.
  do 2 eexists. split; [reflexivity |].
  split.
  - change (Qnat 2) with 2. rewrite Hexp. reflexivity.
  - split; [vm_compute; reflexivity | reflexivity].
Qed.

Lemma tents_backup_not_solver_witness :
  @np_exp series_numpy 0 == 1
  /\ MCTS._algorithm greedy_tents = tents
  /\ MCTS._tau greedy_tents = 1
  /\ MCTS.edge_values two_leaves_graph
       (nx.edges_of two_leaves_graph (0%nat, 1%nat).1) = OK [0; 0]
  /\ exists v v',
       @MCTS.backup_value series_numpy greedy_tents two_leaves_graph
         (0%nat, 1%nat) = OK v
       /\ v == 3 # 2
       /\ SyntheticTree.sparse_max
            (npa.div_by [0; 0] (MCTS._tau greedy_tents)) = OK v'
       /\ MCTS._tau greedy_tents * v' == 1 # 4.
Proof.
  assert (Hexp : @np_exp series_numpy 0 == 1) by reflexivity.
  split; [exact Hexp |]. split; [reflexivity |]. split; [reflexivity |].
  split; [reflexivity |].
  exact (@tents_backup_not_solver series_numpy greedy_tents two_leaves_graph
           (0%nat, 1%nat) Hexp eq_refl eq_refl eq_refl).
Defined.

Lemma lambda_coeff_greedy `{Numpy} (self : MCTS.t) (counts : list nat) :
  MCTS._exploration_coeff self = 0 -> MCTS.lambda_coeff self counts == 0.
Proof.
  intros Hc. unfold MCTS.lambda_coeff, npa.clip. rewrite Hc.
  set (L := np_log _). set (n := Qnat _).
  assert (E : 0 * n / L == 0) by (unfold Qdiv; ring).
  rewrite E. reflexivity.
Qed.

(** C1, the tents branch on a node with two out-edges that were never
    visited, without exploration ([exploration_coeff] 0) and with
    temperature 1: the vector handed to [np.random.choice] is [[1, 1]]
    up to the value of [lambda_coeff], its sum is 2, no residual is
    added, and [_select] ends in the [ValueError] of
    [np.random.choice]. *)
Theorem tents_select_probs_sum `{Numpy} `{Random} (self : MCTS.t)
    (w : MCTS.World) :
  let G := SyntheticTree._tree (MCTS.tree_env w) in
  let out_edges := nx.edges_of G (SyntheticTree.state (MCTS.tree_env w)) in
  MCTS._algorithm self = tents ->
  MCTS._exploration_coeff self = 0 ->
  MCTS._tau self = 1 ->
  MCTS.edge_counts G out_edges = OK [0; 0]%nat ->
  MCTS.edge_values G out_edges = OK [0; 0] ->
  (exists probs,
     MCTS.select_probs self G out_edges [0; 0]%nat [0; 0] w = OK (probs, w)
     /\ np.sum probs == 2)
  /\ MCTS._select self w = Raise ValueError.
Proof.
  intros G out_edges Halg Hc Htau Hn Hq.
  assert (Hlen : length out_edges = 2%nat).
  { apply comprehension_length in Hq. simpl in Hq. congruence. }
  pose proof (lambda_coeff_greedy self [0; 0]%nat Hc) as Hlam.
  assert (Hp : exists probs,
     MCTS.select_probs self G out_edges [0; 0]%nat [0; 0] w = OK (probs, w)
     /\ length probs = 2%nat /\ np.sum probs == 2).
  { unfold MCTS.select_probs. rewrite Halg, Htau, Hlen.
    unfold MCTS.tents_probs.
    change (MCTS.tents_kappa [0; 0]) with (OK (A := list nat) [0; 1]%nat).
    simpl. change (0 / 1) with 0.
    eexists. split; [reflexivity |]. split; [reflexivity |].
    change (Qnat 2) with 2. rewrite !sum_cons. change (np.sum []) with 0.
    set (lam := MCTS.lambda_coeff self [0; 0]%nat) in *.
    set (e := np_exp 0) in *.
    assert (Hm : Qmax (e - (e - 1 + (e - 1 + 0)) / 2) 0 == 1).
    { assert (E : e - (e - 1 + (e - 1 + 0)) / 2 == 1) by field.
      rewrite Q.max_l; [exact E |]. rewrite E. discriminate. }
    rewrite Hm, Hlam. reflexivity. }
  destruct Hp as (probs & Hp & Hlp & Hsum).
  split; [exists probs; auto |].
  unfold MCTS._select. fold G. fold out_edges.
  unfold mbind, MCTS.M_bind. simpl. fold G. fold out_edges.
  rewrite Hn, Hq. simpl. rewrite Halg. unfold mbind, MCTS.M_bind.
  rewrite Hp. simpl. rewrite Hlen.
  unfold MCTS.choice_p. simpl.
  assert (Hv : MCTS.valid_probs 2 probs = false).
  { unfold MCTS.valid_probs.
    destruct (Qle_bool (Qabs (np.sum probs - 1)) MCTS.choice_atol) eqn:E.
    - apply Qle_bool_iff in E. rewrite Hsum in E. vm_compute in E.
      now contradiction E.
    - now rewrite andb_false_r. }
  now rewrite Hv.
Qed.

Lemma tents_select_probs_sum_witness :
  MCTS._algorithm greedy_tents = tents
  /\ MCTS._exploration_coeff greedy_tents = 0
  /\ MCTS._tau greedy_tents = 1
  /\ MCTS.edge_counts two_leaves_graph (nx.edges_of two_leaves_graph 0)
     = OK [0; 0]%nat
  /\ MCTS.edge_values two_leaves_graph (nx.edges_of two_leaves_graph 0)
     = OK [0; 0]
  /\ (exists probs,
        @MCTS.select_probs series_numpy counting_random greedy_tents
          two_leaves_graph (nx.edges_of two_leaves_graph 0)
          [0; 0]%nat [0; 0] two_leaves_world = OK (probs, two_leaves_world)
        /\ np.sum probs == 2)
  /\ @MCTS._select series_numpy counting_random greedy_tents two_leaves_world
     = Raise ValueError.
Proof.
  do 5 (split; [reflexivity |]).
  exact (@tents_select_probs_sum series_numpy counting_random greedy_tents
           two_leaves_world eq_refl eq_refl eq_refl eq_refl eq_refl).
Defined.

(** ** The shape of [nx.balanced_tree] *)

Section BalancedTree.
Local Open Scope nat_scope.

Lemma level_start_one (j : nat) : level_start 1 j = j.
Proof. induction j as [|j IH]; simpl; lia. Qed.

Lemma level_start_geom (k j : nat) :
  ((Z.of_nat k - 1) * Z.of_nat (level_start k j)
   = Z.of_nat k ^ Z.of_nat j - 1)%Z.
Proof.
  induction j as [|j IH].
  - simpl. lia.
  - rewrite Nat2Z.inj_succ, Z.pow_succ_r by lia.
    simpl level_start. rewrite Nat2Z.inj_add, Nat2Z.inj_mul. nia.
Qed.

Lemma balanced_order_level (k d : nat) :
  nx.balanced_order k d = level_start k (S d).
Proof.
  unfold nx.balanced_order. destruct (decide (k = 1)) as [-> | Hk].
  - rewrite level_start_one. lia.
  - pose proof (level_start_geom k (S d)) as Hg.
    replace (d + 1) with (S d) by lia.
    assert (E : (1 - Z.of_nat k ^ Z.of_nat (S d)
                 = Z.of_nat (level_start k (S d)) * (1 - Z.of_nat k))%Z)
      by lia.
    rewrite E, Z.div_mul by lia. lia.
Qed.

Lemma level_start_width (k j : nat) :
  level_start k (S j) = level_start k j + k ^ j.
Proof.
  induction j as [|j IH].
  - simpl. lia.
  - change (level_start k (S (S j))) with (k * level_start k (S j) + 1).
    rewrite IH at 1. simpl level_start. rewrite Nat.pow_succ_r'. lia.
Qed.

Lemma level_start_le_next (k j : nat) :
  level_start k j <= level_start k (S j).
Proof. rewrite level_start_width. lia. Qed.

Lemma level_start_pos (k j : nat) : 1 <= level_start k (S j).
Proof. simpl. lia. Qed.

(** *** Filters *)

Lemma filter_all {A : Type} (P : A -> Prop) `{!forall x, Decision (P x)}
    (l : list A) :
  Forall P l -> filter P l = l.
Proof.
  induction 1 as [|x l Hx _ IH]; [reflexivity |].
  rewrite filter_cons_True by assumption. now rewrite IH.
Qed.

Lemma filter_none {A : Type} (P : A -> Prop) `{!forall x, Decision (P x)}
    (l : list A) :
  Forall (fun x => ~ P x) l -> filter P l = [].
Proof.
  induction 1 as [|x l Hx _ IH]; [reflexivity |].
  now rewrite filter_cons_False by assumption.
Qed.

Lemma filter_ext_in {A : Type} (P1 P2 : A -> Prop)
    `{!forall x, Decision (P1 x)} `{!forall x, Decision (P2 x)} (l : list A) :
  (forall x, x ∈ l -> P1 x <-> P2 x) -> filter P1 l = filter P2 l.
Proof.
  induction l as [|x l IH]; intros Hext; [reflexivity |].
  rewrite !filter_cons.
  rewrite IH by (intros y Hy; apply Hext; now right).
  destruct (decide (P1 x)) as [H1 | H1], (decide (P2 x)) as [H2 | H2];
    try reflexivity; exfalso;
    pose proof (Hext x ltac:(left)) as Hx; tauto.
Qed.

Lemma filter_eq_seq (x a m : nat) :
  filter (fun y => y = x) (seq a m)
  = if decide (a <= x < a + m) then [x] else [].
Proof.
  revert a. induction m as [|m IH]; intros a; simpl seq.
  - rewrite filter_nil. destruct (decide _); [lia | reflexivity].
  - rewrite filter_cons, IH.
    destruct (decide (a = x)) as [-> | Hne].
    + destruct (decide (S x <= x < S x + m)); [lia |].
      destruct (decide (x <= x < x + S m)); [reflexivity | lia].
    + destruct (decide (S a <= x < S a + m)),
               (decide (a <= x < a + S m)); try reflexivity; lia.
Qed.

Lemma filter_ge_seq (b n : nat) :
  b <= n -> filter (fun x => b <= x) (seq 0 n) = seq b (n - b).
Proof.
  intros Hb. replace n with (b + (n - b)) at 1 by lia.
  rewrite seq_app, filter_app.
  rewrite (filter_none (fun x => b <= x) (seq 0 b)).
  - simpl. apply filter_all. apply Forall_seq. intros; lia.
  - apply Forall_seq. intros; lia.
Qed.

Lemma length_filter_snd (x : nat) (l : list edge) :
  length (filter (fun e : edge => e.2 = x) l)
  = length (filter (fun y => y = x) (l.*2)).
Proof.
  induction l as [|[u v] l IH]; [reflexivity |].
  rewrite fmap_cons, !filter_cons. simpl.
  destruct (decide (v = x)); simpl; now rewrite IH.
Qed.

(** *** Children and edges *)

Lemma children_internal (k n v : nat) :
  k * v + k < n -> nx.children k n v = seq (k * v + 1) k.
Proof.
  intros Hv. unfold nx.children. apply filter_all.
  apply Forall_seq. intros; lia.
Qed.

Lemma children_leaf (k n v : nat) :
  n <= k * v + 1 -> nx.children k n v = [].
Proof.
  intros Hv. unfold nx.children. apply filter_none.
  apply Forall_seq. intros; lia.
Qed.

Lemma children_level (k d v : nat) :
  nx.children k (level_start k (S d)) v
  = if decide (v < level_start k d) then seq (k * v + 1) k else [].
Proof.
  destruct (decide _) as [Hv | Hv].
  - apply children_internal. simpl. nia.
  - apply children_leaf. simpl. nia.
Qed.

Lemma filter_src_pairs (x v : nat) (l : list nat) :
  filter (fun e : edge => e.1 = x) (map (pair v) l)
  = if decide (v = x) then map (pair v) l else [].
Proof.
  destruct (decide (v = x)) as [-> | Hne].
  - apply filter_all. apply Forall_forall. intros e He.
    apply list_elem_of_In, in_map_iff in He.
    destruct He as (c & <- & _). reflexivity.
  - apply filter_none. apply Forall_forall. intros e He.
    apply list_elem_of_In, in_map_iff in He.
    destruct He as (c & <- & _). simpl. congruence.
Qed.

Lemma filter_src_flat_map (f : nat -> list nat) (x : nat) (l : list nat) :
  NoDup l ->
  filter (fun e : edge => e.1 = x) (flat_map (fun v => map (pair v) (f v)) l)
  = if decide (x ∈ l) then map (pair x) (f x) else [].
Proof.
  induction 1 as [|v l Hv Hnd IH]; cbn [flat_map].
  - rewrite filter_nil. destruct (decide (x ∈ [])) as [Hin|]; [| reflexivity].
    now apply elem_of_nil in Hin.
  - rewrite filter_app, filter_src_pairs, IH.
    destruct (decide (v = x)) as [-> | Hne].
    + destruct (decide (x ∈ l)); [contradiction |].
      destruct (decide (x ∈ x :: l)) as [|Hn]; [apply app_nil_r |].
      exfalso. apply Hn. left.
    + simpl. destruct (decide (x ∈ l)) as [Hin | Hnin].
      * destruct (decide (x ∈ v :: l)) as [|Hn]; [reflexivity |].
        exfalso. apply Hn. now right.
      * destruct (decide (x ∈ v :: l)) as [Hin |]; [| reflexivity].
        apply elem_of_cons in Hin. destruct Hin; congruence.
Qed.

Lemma tree_edges_of (r n x : nat) :
  filter (fun e : edge => e.1 = x) (nx.tree_edges r n)
  = if decide (x < n) then map (pair x) (nx.children r n x) else [].
Proof.
  unfold nx.tree_edges. rewrite filter_src_flat_map by apply NoDup_seq.
  destruct (decide (x ∈ seq 0 n)) as [Hin | Hnin];
    rewrite elem_of_seq in *; destruct (decide (x < n)); try reflexivity; lia.
Qed.

Lemma fmap_snd_flat_map (f : nat -> list nat) (l : list nat) :
  (flat_map (fun v => map (pair v) (f v)) l).*2 = flat_map f l.
Proof.
  induction l as [|v l IH]; [reflexivity |].
  cbn [flat_map]. rewrite fmap_app, IH. f_equal.
  induction (f v) as [|c cs IHc]; [reflexivity |].
  cbn [map]. rewrite fmap_cons. cbn [snd]. now rewrite IHc.
Qed.

Lemma flat_map_blocks (k : nat) (f : nat -> list nat) (m : nat) :
  (forall v, v < m -> f v = seq (k * v + 1) k) ->
  flat_map f (seq 0 m) = seq 1 (k * m).
Proof.
  induction m as [|m IH]; intros Hf.
  - rewrite Nat.mul_0_r. reflexivity.
  - rewrite seq_S, flat_map_app. simpl flat_map.
    rewrite IH by (intros; apply Hf; lia).
    rewrite Hf by lia. rewrite app_nil_r.
    replace (k * S m) with (k * m + k) by lia.
    rewrite seq_app. f_equal. f_equal. lia.
Qed.

Lemma flat_map_empty (f : nat -> list nat) (l : list nat) :
  Forall (fun v => f v = []) l -> flat_map f l = [].
Proof.
  induction 1 as [|v l Hv _ IH]; [reflexivity |].
  simpl. now rewrite Hv, IH.
Qed.

(** The targets of the edges, in the order of the edges, are the nodes
    [1, 2, ..., n - 1]. *)
Lemma tree_edges_targets (k d : nat) :
  (nx.tree_edges k (level_start k (S d))).*2
  = seq 1 (k * level_start k d).
Proof.
  unfold nx.tree_edges. rewrite fmap_snd_flat_map.
  pose proof (level_start_le_next k d) as Hle.
  assert (Hsplit : seq 0 (level_start k (S d))
                   = seq 0 (level_start k d)
                     ++ seq (level_start k d)
                            (level_start k (S d) - level_start k d)).
  { rewrite <- seq_app. f_equal. lia. }
  rewrite Hsplit, flat_map_app.
  rewrite (flat_map_blocks k).
  - rewrite flat_map_empty; [apply app_nil_r |].
    apply Forall_seq. intros v Hv. rewrite children_level.
    destruct (decide _); [lia | reflexivity].
  - intros v Hv. rewrite children_level.
    destruct (decide _); [reflexivity | lia].
Qed.

(** *** A graph with the topology of [nx.balanced_tree(k, d)] *)

Lemma balanced_tree_shape (k d : nat) :
  balanced_shape k d (nx.balanced_tree k d).
Proof.
  unfold balanced_shape, nx.balanced_tree. simpl.
  now rewrite balanced_order_level.
Qed.

Lemma shape_edges_of (k d : nat) (G : DiGraph) (x : nat) :
  balanced_shape k d G ->
  nx.edges_of G x
  = if decide (x < level_start k d)
    then map (pair x) (seq (k * x + 1) k) else [].
Proof.
  intros [_ He]. unfold nx.edges_of. rewrite He, tree_edges_of.
  rewrite children_level.
  pose proof (level_start_le_next k d).
  destruct (decide (x < level_start k (S d))),
           (decide (x < level_start k d)); try reflexivity; lia.
Qed.

Lemma shape_out_degree (k d : nat) (G : DiGraph) (x : nat) :
  balanced_shape k d G ->
  nx.out_degree G x = if decide (x < level_start k d) then k else 0.
Proof.
  intros Hs. unfold nx.out_degree. rewrite (shape_edges_of k d) by assumption.
  destruct (decide _); [| reflexivity].
  now rewrite length_map, length_seq.
Qed.

Lemma shape_in_degree (k d : nat) (G : DiGraph) (x : nat) :
  balanced_shape k d G ->
  nx.in_degree G x
  = if decide (1 <= x < level_start k (S d)) then 1 else 0.
Proof.
  intros [_ He]. unfold nx.in_degree.
  rewrite length_filter_snd, He, tree_edges_targets, filter_eq_seq.
  simpl level_start.
  destruct (decide (1 <= x < 1 + k * level_start k d)),
           (decide (1 <= x < k * level_start k d + 1));
    try reflexivity; lia.
Qed.

(** [leaves] holds the nodes of the last level, except that the root is
    never in it. *)
Lemma shape_leaves (k d : nat) (G : DiGraph) :
  1 <= k -> balanced_shape k d G ->
  SyntheticTree.compute_leaves G
  = filter (fun x => 1 <= x) (seq (level_start k d) (k ^ d)).
Proof.
  intros Hk Hs. unfold SyntheticTree.compute_leaves.
  destruct Hs as [Hn He]. rewrite Hn.
  assert (Hs : balanced_shape k d G) by (split; assumption).
  pose proof (level_start_le_next k d) as Hle.
  pose proof (level_start_width k d) as Hw.
  replace (k ^ d) with (level_start k (S d) - level_start k d) by lia.
  rewrite <- filter_ge_seq by assumption.
  rewrite list_filter_filter.
  apply filter_ext_in. intros x Hx. apply elem_of_seq in Hx.
  rewrite (shape_out_degree k d), (shape_in_degree k d) by assumption.
  destruct (decide (x < level_start k d)),
           (decide (1 <= x < level_start k (S d))); split; intros; lia.
Qed.

Lemma shape_leaves_deep (k d : nat) (G : DiGraph) :
  1 <= k -> 1 <= d -> balanced_shape k d G ->
  SyntheticTree.compute_leaves G = seq (level_start k d) (k ^ d).
Proof.
  intros Hk Hd Hs. rewrite (shape_leaves k d) by assumption.
  apply filter_all. apply Forall_seq. intros x Hx.
  destruct d as [|d]; [lia |]. pose proof (level_start_pos k d). lia.
Qed.

Lemma shape_childless (k d : nat) (G : DiGraph) :
  1 <= k -> balanced_shape k d G ->
  filter (fun x => nx.out_degree G x = 0) (nodes G)
  = seq (level_start k d) (k ^ d).
Proof.
  intros Hk Hs. pose proof Hs as [Hn _]. rewrite Hn.
  pose proof (level_start_le_next k d) as Hle.
  pose proof (level_start_width k d) as Hw.
  replace (k ^ d) with (level_start k (S d) - level_start k d) by lia.
  rewrite <- filter_ge_seq by assumption.
  apply list_filter_iff. intros x.
  rewrite (shape_out_degree k d) by assumption.
  destruct (decide (x < level_start k d)); split; intros; lia.
Qed.

Lemma level_start_sum (k j : nat) :
  level_start k j = sum_list (map (Nat.pow k) (seq 0 j)).
Proof.
  induction j as [|j IH]; [reflexivity |].
  rewrite level_start_width, seq_S, map_app, sum_list_with_app, <- IH.
  simpl. lia.
Qed.

(** *** Levels *)

Lemma level_start_lt (k j : nat) :
  1 <= k -> level_start k j < level_start k (S j).
Proof. intros Hk. simpl. nia. Qed.

Lemma level_start_mono (k j j' : nat) :
  1 <= k -> j <= j' -> level_start k j <= level_start k j'.
Proof.
  intros Hk. induction 1 as [|j' _ IH]; [lia |].
  pose proof (level_start_lt k j' Hk). lia.
Qed.

Lemma level_start_lt_inv (k j j' : nat) :
  1 <= k -> level_start k j < level_start k j' -> j < j'.
Proof.
  intros Hk Hlt. destruct (decide (j < j')) as [|Hge]; [assumption |].
  pose proof (level_start_mono k j' j Hk). lia.
Qed.

(** An out-edge of a node of level [j < d] leads to level [j + 1], and
    into [leaves] exactly when that is the last level. *)
Lemma walk_step (k d j x a : nat) (G : DiGraph) (e : edge) :
  1 <= k -> balanced_shape k d G -> j < d ->
  level_start k j <= x < level_start k (S j) ->
  nx.edges_of G x !! a = Some e ->
  (level_start k (S j) <= e.2 < level_start k (S (S j)))
  /\ (e.2 ∈ SyntheticTree.compute_leaves G <-> S j = d).
Proof.
  intros Hk Hs Hj Hx He.
  pose proof (level_start_mono k (S j) d Hk ltac:(lia)) as Hjd.
  rewrite (shape_edges_of k d) in He by assumption.
  destruct (decide (x < level_start k d)); [| lia].
  rewrite list_lookup_fmap in He.
  destruct (seq (k * x + 1) k !! a) as [c|] eqn:Hc; [| discriminate].
  injection He as <-. simpl.
  apply lookup_seq in Hc. destruct Hc as [-> Ha].
  assert (Hlevel : level_start k (S j) <= k * x + 1 + a
                   < level_start k (S (S j))).
  { simpl in *. nia. }
  split; [exact Hlevel |].
  rewrite (shape_leaves_deep k d) by (assumption || lia).
  rewrite elem_of_seq, <- level_start_width.
  split.
  - intros [Hlo Hhi].
    assert (d < S (S j)) by (apply (level_start_lt_inv k); [assumption | lia]).
    lia.
  - intros <-. lia.
Qed.

Lemma shape_out_edges_nonempty (k d j x : nat) (G : DiGraph) :
  1 <= k -> balanced_shape k d G -> j < d ->
  level_start k j <= x < level_start k (S j) ->
  nx.edges_of G x <> [].
Proof.
  intros Hk Hs Hj Hx.
  pose proof (level_start_mono k (S j) d Hk ltac:(lia)) as Hjd.
  rewrite (shape_edges_of k d) by assumption.
  destruct (decide (x < level_start k d)); [| lia].
  destruct k; [lia | discriminate].
Qed.

End BalancedTree.

(** ** The constructor *)

Section Constructor.
Context {NP : Numpy} {RD : Random} {RT : Runtime}.
Local Open Scope nat_scope.

Lemma attrs_kept_refl (G : DiGraph) : attrs_kept G G.
Proof. repeat split. Qed.

Lemma attrs_kept_trans (G1 G2 G3 : DiGraph) :
  attrs_kept G1 G2 -> attrs_kept G2 G3 -> attrs_kept G1 G3.
Proof.
  intros (Hn & He & Hd & Hc) (Hn' & He' & Hd' & Hc').
  split; [congruence |]. split; [congruence |]. split; [congruence |].
  intros x. now rewrite Hc', Hc.
Qed.

Lemma untouched_refl (K : nat -> Prop) (G : DiGraph) : untouched K G G.
Proof. now intros x _. Qed.

Lemma untouched_trans (K : nat -> Prop) (G1 G2 G3 : DiGraph) :
  untouched K G1 G2 -> untouched K G2 G3 -> untouched K G1 G3.
Proof. intros H12 H23 x Hx. now rewrite H23, H12. Qed.

Lemma for_each_invariant {A S : Type} (R : S -> S -> Prop)
    (body : A -> S -> res S) (l : list A) :
  (forall s, R s s) ->
  (forall s1 s2 s3, R s1 s2 -> R s2 s3 -> R s1 s3) ->
  (forall a s s', a ∈ l -> body a s = OK s' -> R s s') ->
  forall s s', for_each l body s = OK s' -> R s s'.
Proof.
  intros Hrefl Htrans. induction l as [|a l IH]; intros Hbody s s' Hrun.
  - injection Hrun as <-. apply Hrefl.
  - simpl in Hrun. apply res_bind_OK in Hrun.
    destruct Hrun as (s1 & H1 & Hrun).
    eapply Htrans.
    + eapply Hbody; [left | exact H1].
    + eapply IH; [| exact Hrun]. intros a' s2 s3 Ha'. apply Hbody. now right.
Qed.

Lemma comprehension_st_invariant {A B S : Type} (R : S -> S -> Prop)
    (f : A -> S -> res (B * S)) (l : list A) :
  (forall s, R s s) ->
  (forall s1 s2 s3, R s1 s2 -> R s2 s3 -> R s1 s3) ->
  (forall a s r, a ∈ l -> f a s = OK r -> R s r.2) ->
  forall s r, comprehension_st f l s = OK r ->
              R s r.2 /\ length r.1 = length l.
Proof.
  intros Hrefl Htrans. induction l as [|a l IH]; intros Hf s r Hrun.
  - injection Hrun as <-. split; [apply Hrefl | reflexivity].
  - simpl in Hrun. apply res_bind_OK in Hrun.
    destruct Hrun as (r1 & H1 & Hrun).
    apply res_bind_OK in Hrun. destruct Hrun as (r2 & H2 & Hrun).
    injection Hrun as <-. simpl.
    destruct (IH (fun a' s2 r' Ha' => Hf a' s2 r' (list_elem_of_further _ _ _ Ha'))
                 _ _ H2) as [HR Hlen].
    split; [| now rewrite Hlen].
    eapply Htrans; [eapply Hf; [left | exact H1] | exact HR].
Qed.

(** *** Writing one attribute *)

Lemma update_node_OK (n : nat) (f : NodeData -> NodeData) (G G' : DiGraph) :
  update_node n f G = OK G' ->
  exists d, node_data G !! n = Some d /\ G' = put_node n (f d) G.
Proof.
  unfold update_node, get_node. intros Hu.
  apply res_bind_OK in Hu. destruct Hu as (d & Hd & Hu).
  apply of_option_OK in Hd. injection Hu as <-. eauto.
Qed.

Lemma update_edge_OK (e : edge) (f : EdgeData -> EdgeData) (G G' : DiGraph) :
  update_edge e f G = OK G' ->
  exists d, edge_data G !! e = Some d /\ G' = put_edge e (f d) G.
Proof.
  unfold update_edge, get_edge. intros Hu.
  apply res_bind_OK in Hu. destruct Hu as (d & Hd & Hu).
  apply of_option_OK in Hd. injection Hu as <-. eauto.
Qed.

Lemma update_node_kept (n : nat) (f : NodeData -> NodeData) (G G' : DiGraph) :
  (forall d, counters (f d) = counters d) ->
  update_node n f G = OK G' -> attrs_kept G G'.
Proof.
  intros Hf Hu. apply update_node_OK in Hu. destruct Hu as (d & Hd & ->).
  repeat split. intros x. simpl.
  destruct (decide (x = n)) as [-> | Hne].
  - rewrite lookup_insert_eq, Hd. simpl. now rewrite Hf.
  - now rewrite lookup_insert_ne by congruence.
Qed.

Lemma update_node_untouched (n : nat) (f : NodeData -> NodeData)
    (K : nat -> Prop) (G G' : DiGraph) :
  ~ K n -> update_node n f G = OK G' -> untouched K G G'.
Proof.
  intros Hn Hu. apply update_node_OK in Hu. destruct Hu as (d & Hd & ->).
  intros x Hx. simpl. rewrite lookup_insert_ne; [reflexivity |].
  intros ->. contradiction.
Qed.

Lemma update_node_lookup (n : nat) (f : NodeData -> NodeData)
    (G G' : DiGraph) :
  update_node n f G = OK G' ->
  exists d, node_data G !! n = Some d /\ node_data G' !! n = Some (f d).
Proof.
  intros Hu. apply update_node_OK in Hu. destruct Hu as (d & Hd & ->).
  exists d. split; [assumption |]. simpl. apply lookup_insert_eq.
Qed.

Lemma with_mean_counters (m : Q) (d : NodeData) :
  counters (with_mean m d) = counters d.
Proof. reflexivity. Qed.

Lemma with_prior_counters (p : list Q) (d : NodeData) :
  counters (with_prior p d) = counters d.
Proof. reflexivity. Qed.

(** *** The stages of [__init__] *)

Lemma init_edges_spec (alg : algorithm) (G : DiGraph) :
  let G' := SyntheticTree.init_edges alg G in
  nodes G' = nodes G /\ edges G' = edges G /\ node_data G' = node_data G
  /\ (forall e, e ∈ edges G ->
        exists i, edge_data G' !! e = Some (SyntheticTree.init_edge alg i)).
Proof.
  unfold SyntheticTree.init_edges.
  assert (Hgen : forall (l : list (nat * edge)) (G0 : DiGraph),
    let G' := foldl (fun G ie => put_edge ie.2
                                   (SyntheticTree.init_edge alg ie.1) G)
                    G0 l in
    nodes G' = nodes G0 /\ edges G' = edges G0
    /\ node_data G' = node_data G0
    /\ (forall e, e ∈ l.*2 ->
          exists i, edge_data G' !! e = Some (SyntheticTree.init_edge alg i))
    /\ (forall e, e ∉ l.*2 -> edge_data G' !! e = edge_data G0 !! e)).
  { induction l as [|[i e0] l IH]; intros G0; simpl.
    - repeat split. intros e He. now apply elem_of_nil in He.
    - destruct (IH (put_edge e0 (SyntheticTree.init_edge alg i) G0))
        as (Hn & He & Hd & Hin & Hout).
      simpl in *. repeat split; try assumption.
      + intros e Hel. destruct (decide (e ∈ l.*2)) as [Hl | Hl].
        * now apply Hin.
        * apply elem_of_cons in Hel. destruct Hel as [-> | Hel];
            [| contradiction].
          exists i. rewrite Hout by assumption. apply lookup_insert_eq.
      + intros e Hel. apply not_elem_of_cons in Hel. destruct Hel as [Hne Hl].
        rewrite Hout by assumption. now apply lookup_insert_ne. }
  destruct (Hgen (imap pair (edges G)) G) as (Hn & He & Hd & Hin & _).
  simpl. repeat split; try assumption.
  intros e Hel. apply Hin.
  apply list_elem_of_lookup in Hel. destruct Hel as [i Hi].
  apply list_elem_of_lookup. exists i.
  rewrite list_lookup_fmap, list_lookup_imap, Hi. reflexivity.
Qed.

Lemma init_nodes_spec (alg : algorithm) (G : DiGraph) :
  let G' := SyntheticTree.init_nodes alg G in
  nodes G' = nodes G /\ edges G' = edges G /\ edge_data G' = edge_data G
  /\ (forall x, x ∈ nodes G ->
        node_data G' !! x = Some (SyntheticTree.init_node alg)).
Proof.
  unfold SyntheticTree.init_nodes.
  assert (Hgen : forall (l : list nat) (G0 : DiGraph),
    let G' := foldl (fun G n => put_node n (SyntheticTree.init_node alg) G)
                    G0 l in
    nodes G' = nodes G0 /\ edges G' = edges G0
    /\ edge_data G' = edge_data G0
    /\ (forall x, x ∈ l ->
          node_data G' !! x = Some (SyntheticTree.init_node alg))
    /\ (forall x, x ∉ l -> node_data G' !! x = node_data G0 !! x)).
  { induction l as [|n l IH]; intros G0; simpl.
    - repeat split. intros x Hx. now apply elem_of_nil in Hx.
    - destruct (IH (put_node n (SyntheticTree.init_node alg) G0))
        as (Hn & He & Hd & Hin & Hout).
      simpl in *. repeat split; try assumption.
      + intros x Hx. destruct (decide (x ∈ l)) as [Hl | Hl].
        * now apply Hin.
        * apply elem_of_cons in Hx. destruct Hx as [-> | Hx];
            [| contradiction].
          rewrite Hout by assumption. apply lookup_insert_eq.
      + intros x Hx. apply not_elem_of_cons in Hx. destruct Hx as [Hne Hl].
        rewrite Hout by assumption. now apply lookup_insert_ne. }
  destruct (Hgen (nodes G) G) as (Hn & He & Hd & Hin & _).
  simpl. repeat split; assumption.
Qed.

Lemma compute_mean_kept (fuel : nat) (leaves : list nat) (node : nat)
    (weight : Q) (G G' : DiGraph) :
  SyntheticTree._compute_mean_rec fuel leaves node weight G = OK G' ->
  attrs_kept G G'.
Proof.
  revert node weight G G'.
  induction fuel as [|fuel IH]; intros node weight G G' Hrun;
    [discriminate |].
  simpl in Hrun. destruct (decide (node ∉ leaves)).
  - revert Hrun. generalize (nx.edges_of G node) as es. intros es.
    apply for_each_invariant.
    + apply attrs_kept_refl.
    + apply attrs_kept_trans.
    + intros e s s' _ Hb. apply res_bind_OK in Hb.
      destruct Hb as (d & _ & Hb). eapply IH; eauto.
  - eapply update_node_kept; [| exact Hrun]. apply with_mean_counters.
Qed.

Lemma edges_of_topology (G G' : DiGraph) (x : nat) :
  edges G' = edges G -> nx.edges_of G' x = nx.edges_of G x.
Proof. unfold nx.edges_of. now intros ->. Qed.

Lemma successors_topology (G G' : DiGraph) (x : nat) :
  edges G' = edges G -> nx.successors G' x = nx.successors G x.
Proof. unfold nx.successors. intros He. now rewrite (edges_of_topology G G'). Qed.

Lemma compute_leaves_topology (G G' : DiGraph) :
  nodes G' = nodes G -> edges G' = edges G ->
  SyntheticTree.compute_leaves G' = SyntheticTree.compute_leaves G.
Proof.
  destruct G, G'. simpl. intros -> ->. reflexivity.
Qed.

Lemma shape_topology (k d : nat) (G G' : DiGraph) :
  nodes G' = nodes G -> edges G' = edges G ->
  balanced_shape k d G -> balanced_shape k d G'.
Proof. intros Hn He [Hn' He']. split; congruence. Qed.

Lemma compute_mean_stage (self self' : SyntheticTree.t) :
  SyntheticTree._compute_mean self = OK self' ->
  exists G, self' = SyntheticTree.set_tree G self
            /\ attrs_kept (SyntheticTree._tree self) G.
Proof.
  unfold SyntheticTree._compute_mean. intros Hrun.
  apply res_bind_OK in Hrun. destruct Hrun as (G & HG & Hrun).
  injection Hrun as <-. exists G. split; [reflexivity |].
  eapply compute_mean_kept; eauto.
Qed.

Lemma normalize_stage (self self' : SyntheticTree.t) :
  SyntheticTree.normalize_leaf_means self = OK self' ->
  exists G, self' = SyntheticTree.set_tree G self
            /\ attrs_kept (SyntheticTree._tree self) G.
Proof.
  unfold SyntheticTree.normalize_leaf_means. intros Hrun.
  apply res_bind_OK in Hrun. destruct Hrun as (means & _ & Hrun).
  apply res_bind_OK in Hrun. destruct Hrun as (means' & _ & Hrun).
  apply res_bind_OK in Hrun. destruct Hrun as (G & HG & Hrun).
  injection Hrun as <-. exists G. split; [reflexivity |].
  revert HG. apply for_each_invariant.
  - apply attrs_kept_refl.
  - apply attrs_kept_trans.
  - intros il s s' _ Hb. apply res_bind_OK in Hb.
    destruct Hb as (m & _ & Hb).
    eapply update_node_kept; [| exact Hb]. apply with_mean_counters.
Qed.

(** With a single leaf the normalisation writes the fixed value 0. *)
Lemma normalize_single_leaf (self self' : SyntheticTree.t) (x : nat) :
  SyntheticTree.leaves self = [x] ->
  SyntheticTree.normalize_leaf_means self = OK self' ->
  node_mean (SyntheticTree._tree self') x = OK 0%Q.
Proof.
  unfold SyntheticTree.normalize_leaf_means. intros Hl Hrun.
  rewrite Hl in Hrun. simpl in Hrun.
  apply res_bind_OK in Hrun. destruct Hrun as (means & Hm & Hrun).
  apply res_bind_OK in Hm. destruct Hm as (m & _ & Hm).
  injection Hm as <-. simpl in Hrun.
  apply res_bind_OK in Hrun. destruct Hrun as (G & HG & Hrun).
  apply res_bind_OK in HG. destruct HG as (G1 & HG & E1).
  injection E1 as ->.
  apply update_node_lookup in HG. destruct HG as (d & _ & HG).
  injection Hrun as <-. simpl.
  unfold node_mean, get_node. now rewrite HG.
Qed.

Lemma assign_priors_kept (fuel : nat) (leaves : list nat) (node : nat)
    (G : DiGraph) (r : Q * DiGraph) :
  SyntheticTree._assign_priors_maxs_rec fuel leaves node G = OK r ->
  attrs_kept G r.2 /\ untouched (fun x => nx.edges_of G x = []) G r.2.
Proof.
  set (R := fun G1 G2 : DiGraph =>
              attrs_kept G1 G2
              /\ untouched (fun x => nx.edges_of G1 x = []) G1 G2).
  assert (Hrefl : forall G0, R G0 G0).
  { intros G0. split; [apply attrs_kept_refl | apply untouched_refl]. }
  assert (Htrans : forall G1 G2 G3, R G1 G2 -> R G2 G3 -> R G1 G3).
  { intros G1 G2 G3 [Hk1 Hu1] [Hk2 Hu2].
    split; [eapply attrs_kept_trans; eauto |].
    intros x Hx. rewrite Hu2, Hu1; [reflexivity | assumption |].
    rewrite (edges_of_topology G1 G2); [assumption | apply Hk1]. }
  change (SyntheticTree._assign_priors_maxs_rec fuel leaves node G = OK r
          -> R G r.2).
  revert node G r.
  induction fuel as [|fuel IH]; intros node G r Hrun; [discriminate |].
  simpl in Hrun.
  apply res_bind_OK in Hrun. destruct Hrun as (s0 & Hs0 & Hrun).
  apply of_option_OK in Hs0.
  assert (Hnode : nx.edges_of G node <> []).
  { unfold nx.successors in Hs0. intros E. rewrite E in Hs0. discriminate. }
  apply res_bind_OK in Hrun. destruct Hrun as (mG & HmG & Hrun).
  apply res_bind_OK in Hrun. destruct Hrun as (G1 & HG1 & Hrun).
  apply res_bind_OK in Hrun. destruct Hrun as (mx & _ & Hrun).
  apply res_bind_OK in Hrun. destruct Hrun as (G2 & HG2 & Hrun).
  injection Hrun as <-. simpl.
  assert (HR0 : R G mG.2).
  { destruct (decide (s0 ∉ leaves)).
    - destruct (comprehension_st_invariant R _ _ Hrefl Htrans
                  (fun a s r0 _ Hr0 => IH a s r0 Hr0) _ _ HmG) as [HR _].
      exact HR.
    - apply res_bind_OK in HmG. destruct HmG as (means & _ & HmG).
      injection HmG as <-. apply Hrefl. }
  assert (Hstep : forall (f : NodeData -> NodeData) Ga Gb,
             (forall d, counters (f d) = counters d) ->
             edges Ga = edges G ->
             update_node node f Ga = OK Gb -> R Ga Gb).
  { intros f Ga Gb Hf HE Hu. split.
    - eapply update_node_kept; eauto.
    - eapply update_node_untouched; [| exact Hu].
      rewrite (edges_of_topology G Ga) by assumption. exact Hnode. }
  eapply Htrans; [exact HR0 |].
  eapply Htrans.
  - eapply Hstep; [apply with_prior_counters | apply HR0 | exact HG1].
  - eapply Hstep; [apply with_mean_counters | | exact HG2].
    destruct HR0 as [(_ & HE0 & _) _].
    apply update_node_OK in HG1. destruct HG1 as (d1 & _ & ->).
    simpl. exact HE0.
Qed.

Lemma assign_priors_stage (self self' : SyntheticTree.t) :
  SyntheticTree._assign_priors_maxs self = OK self' ->
  exists G, self' = SyntheticTree.set_tree G self
            /\ attrs_kept (SyntheticTree._tree self) G
            /\ untouched
                 (fun x => nx.edges_of (SyntheticTree._tree self) x = [])
                 (SyntheticTree._tree self) G.
Proof.
  unfold SyntheticTree._assign_priors_maxs. intros Hrun.
  apply res_bind_OK in Hrun. destruct Hrun as (mG & HmG & Hrun).
  injection Hrun as <-. exists mG.2. split; [reflexivity |].
  eapply assign_priors_kept; eauto.
Qed.

(** What a completed [__init__] leaves behind: the graph after the
    normalisation ([G2]) and the final one, related to the freshly
    initialised graph. *)
Lemma init_stages (k d : nat) (alg : algorithm) (tau alpha gamma : Q)
    (t : SyntheticTree.t) :
  SyntheticTree.__init__ k d alg tau alpha gamma = OK t ->
  let G0 := SyntheticTree.init_nodes alg
              (SyntheticTree.init_edges alg (nx.balanced_tree k d)) in
  exists G2,
    attrs_kept G0 G2
    /\ (forall x, SyntheticTree.compute_leaves G0 = [x] ->
                  node_mean G2 x = OK 0%Q)
    /\ attrs_kept G2 (SyntheticTree._tree t)
    /\ untouched (fun x => nx.edges_of G2 x = []) G2 (SyntheticTree._tree t)
    /\ SyntheticTree.leaves t = SyntheticTree.compute_leaves G0
    /\ SyntheticTree.state t = 0
    /\ SyntheticTree._algorithm t = alg
    /\ SyntheticTree._tau t = tau
    /\ SyntheticTree._alpha t = alpha.
Proof.
  unfold SyntheticTree.__init__. intros Hrun. cbv zeta in Hrun.
  apply res_bind_OK in Hrun. destruct Hrun as (self1 & H1 & Hrun).
  apply res_bind_OK in Hrun. destruct Hrun as (self2 & H2 & Hrun).
  apply res_bind_OK in Hrun. destruct Hrun as (mm & _ & Hrun).
  apply res_bind_OK in Hrun. destruct Hrun as (self3 & H3 & Hrun).
  apply res_bind_OK in Hrun. destruct Hrun as (vq & _ & Hrun).
  injection Hrun as <-.
  apply compute_mean_stage in H1. destruct H1 as (G1 & -> & Hk1).
  pose proof (fun x Hx => normalize_single_leaf _ _ x Hx H2) as Hsingle.
  apply normalize_stage in H2. destruct H2 as (G2 & -> & Hk2).
  apply assign_priors_stage in H3. destruct H3 as (G3 & -> & Hk3 & Hu3).
  simpl in *. exists G2.
  split; [eapply attrs_kept_trans; eauto |].
  split; [intros x Hx; now apply Hsingle |].
  split; [exact Hk3 |]. split; [exact Hu3 |]. repeat split.
Qed.

Lemma init_topology (k d : nat) (alg : algorithm) (tau alpha gamma : Q)
    (t : SyntheticTree.t) :
  SyntheticTree.__init__ k d alg tau alpha gamma = OK t ->
  nodes (SyntheticTree._tree t) = nodes (nx.balanced_tree k d)
  /\ edges (SyntheticTree._tree t) = edges (nx.balanced_tree k d)
  /\ SyntheticTree.leaves t
     = SyntheticTree.compute_leaves (nx.balanced_tree k d)
  /\ SyntheticTree.state t = 0.
Proof.
  intros Hrun. apply init_stages in Hrun.
  destruct Hrun as (G2 & (Hn2 & He2 & _) & _ & (Hn3 & He3 & _) & _
                    & Hl & Hs & _).
  destruct (init_edges_spec alg (nx.balanced_tree k d)) as (Hn0 & He0 & _).
  destruct (init_nodes_spec alg
              (SyntheticTree.init_edges alg (nx.balanced_tree k d)))
    as (Hn1 & He1 & _).
  assert (Hn : nodes (SyntheticTree._tree t) = nodes (nx.balanced_tree k d))
    by congruence.
  assert (He : edges (SyntheticTree._tree t) = edges (nx.balanced_tree k d))
    by congruence.
  repeat split; try assumption.
  rewrite Hl. apply compute_leaves_topology; congruence.
Qed.

Lemma init_shape (k d : nat) (alg : algorithm) (tau alpha gamma : Q)
    (t : SyntheticTree.t) :
  SyntheticTree.__init__ k d alg tau alpha gamma = OK t ->
  balanced_shape k d (SyntheticTree._tree t)
  /\ SyntheticTree.leaves t
     = SyntheticTree.compute_leaves (SyntheticTree._tree t)
  /\ SyntheticTree.state t = 0.
Proof.
  intros Hrun. apply init_topology in Hrun.
  destruct Hrun as (Hn & He & Hl & Hs).
  split; [| split; [| assumption]].
  - eapply shape_topology; [exact Hn | exact He | apply balanced_tree_shape].
  - rewrite Hl. symmetry. now apply compute_leaves_topology.
Qed.

(** Every node of a freshly built tree has been visited 0 times. *)
Lemma init_unvisited (k d : nat) (alg : algorithm) (tau alpha gamma : Q)
    (t : SyntheticTree.t) (x : nat) :
  SyntheticTree.__init__ k d alg tau alpha gamma = OK t ->
  x ∈ nodes (nx.balanced_tree k d) ->
  n_N <$> (node_data (SyntheticTree._tree t) !! x) = Some 0.
Proof.
  intros Hrun Hx. apply init_stages in Hrun.
  destruct Hrun as (G2 & (_ & _ & _ & Hc2) & _ & (_ & _ & _ & Hc3) & _).
  destruct (init_edges_spec alg (nx.balanced_tree k d)) as (Hn0 & _).
  destruct (init_nodes_spec alg
              (SyntheticTree.init_edges alg (nx.balanced_tree k d)))
    as (_ & _ & _ & Hinit).
  specialize (Hc3 x). rewrite Hc2, Hinit in Hc3 by (now rewrite Hn0).
  destruct (node_data (SyntheticTree._tree t) !! x) as [dx|];
    [| discriminate].
  unfold counters in Hc3. simpl in *. congruence.
Qed.

(** *** Trees with fewer than two leaves *)

Lemma single_node_tree (k d : nat) :
  k = 0 \/ d = 0 ->
  nx.balanced_tree k d
  = {| nodes := [0]; edges := []; node_data := ∅; edge_data := ∅ |}.
Proof.
  intros Hkd. unfold nx.balanced_tree. rewrite balanced_order_level.
  assert (Hn : level_start k (S d) = 1).
  { destruct Hkd as [-> | ->]; simpl; lia. }
  rewrite Hn. f_equal. unfold nx.tree_edges. simpl.
  rewrite children_leaf by lia. reflexivity.
Qed.

(** A tree of one node cannot be constructed: [leaves] is empty, and
    [_assign_priors_maxs] indexes the empty list of successors of the
    root. *)
Lemma init_single_node_raises (k d : nat) (alg : algorithm)
    (tau alpha gamma : Q) :
  k = 0 \/ d = 0 -> 1 <= recursion_limit ->
  SyntheticTree.__init__ k d alg tau alpha gamma = Raise IndexError.
Proof.
  intros Hkd Hlimit. unfold SyntheticTree.__init__.
  rewrite (single_node_tree k d Hkd).
  unfold SyntheticTree._compute_mean, SyntheticTree._assign_priors_maxs.
  destruct recursion_limit as [|fuel]; [lia |].
  destruct alg; reflexivity.
Qed.

Lemma normalize_guard (means : list Q) :
  length means <= 1 -> SyntheticTree.normalize means = OK [0%Q].
Proof.
  intros Hlen. unfold SyntheticTree.normalize.
  destruct (1 <? length means) eqn:E; [| reflexivity].
  apply Nat.ltb_lt in E. lia.
Qed.

(** C5, as amended. The normalisation of fewer than two leaf means makes
    no division and yields the fixed vector [[0.]]. A tree has one leaf
    when [k = 1] and [d >= 1]: then [leaves] is [[d]] and a completed
    construction leaves the mean of that leaf at 0. With [k = 0] or
    [d = 0] the tree is the root alone, which is not in [leaves]: the list
    is empty and no mean is normalised. *)
Theorem single_leaf_mean :
  (forall means : list Q,
     length means <= 1 -> SyntheticTree.normalize means = OK [0%Q])
  /\ (forall (d : nat) (alg : algorithm) (tau alpha gamma : Q)
             (t : SyntheticTree.t),
        1 <= d ->
        SyntheticTree.__init__ 1 d alg tau alpha gamma = OK t ->
        SyntheticTree.leaves t = [d]
        /\ node_mean (SyntheticTree._tree t) d = OK 0%Q)
  /\ (forall k d : nat,
        k = 0 \/ d = 0 ->
        SyntheticTree.compute_leaves (nx.balanced_tree k d) = []).
Proof.
  split; [exact normalize_guard |]. split.
  - intros d alg tau alpha gamma t Hd Hrun.
    pose proof (init_topology _ _ _ _ _ _ _ Hrun) as (_ & _ & Hl & _).
    assert (Hleaves : SyntheticTree.compute_leaves (nx.balanced_tree 1 d)
                      = [d]).
    { rewrite (shape_leaves_deep 1 d) by
        (try lia; apply balanced_tree_shape).
      now rewrite level_start_one, Nat.pow_1_l. }
    split; [congruence |].
    apply init_stages in Hrun.
    destruct Hrun as (G2 & (Hn2 & He2 & _) & Hmean & _ & Hu & _).
    destruct (init_edges_spec alg (nx.balanced_tree 1 d)) as (Hn0 & He0 & _).
    destruct (init_nodes_spec alg
                (SyntheticTree.init_edges alg (nx.balanced_tree 1 d)))
      as (Hn1 & He1 & _).
    assert (Hshape : balanced_shape 1 d G2).
    { eapply shape_topology; [| | apply (balanced_tree_shape 1 d)];
        congruence. }
    specialize (Hmean d).
    rewrite (compute_leaves_topology (nx.balanced_tree 1 d)) in Hmean
      by congruence.
    specialize (Hmean Hleaves).
    unfold node_mean, get_node in *. rewrite Hu; [exact Hmean |].
    rewrite (shape_edges_of 1 d) by assumption.
    rewrite level_start_one. destruct (decide (d < d)); [lia | reflexivity].
  - intros k d Hkd. now rewrite single_node_tree.
Qed.

End Constructor.

Lemma single_leaf_mean_witness :
  (1 <= 3)%nat
  /\ (exists t,
        @SyntheticTree.__init__ series_numpy counting_random python_runtime
          1 3 uct 1 2 1 = OK t
        /\ SyntheticTree.leaves t = [3%nat]
        /\ node_mean (SyntheticTree._tree t) 3 = OK 0)
  /\ SyntheticTree.normalize [7 # 10] = OK [0]
  /\ SyntheticTree.compute_leaves (nx.balanced_tree 2 0) = [].
Proof.
  destruct (@single_leaf_mean series_numpy counting_random python_runtime)
    as (Hguard & Hone & Hnone).
  split; [lia |]. split; [| split].
  - destruct (@SyntheticTree.__init__ series_numpy counting_random
                python_runtime 1 3 uct 1 2 1) as [t|e] eqn:E;
      [| vm_compute in E; discriminate].
    exists t. split; [reflexivity |].
    apply (Hone 3%nat uct 1 2 1 t); [lia | exact E].
  - apply Hguard. simpl. lia.
  - apply Hnone. now right.
Defined.

(** C5 as the specification words it fails for [d = 0] and for [k = 0]:
    construction does not succeed, and no leaf has its mean set. *)
Lemma single_node_construction_fails :
  @SyntheticTree.__init__ series_numpy counting_random python_runtime
    2 0 uct 1 2 1 = Raise IndexError
  /\ @SyntheticTree.__init__ series_numpy counting_random python_runtime
       0 2 uct 1 2 1 = Raise IndexError
  /\ SyntheticTree.compute_leaves (nx.balanced_tree 2 0) = []
  /\ SyntheticTree.compute_leaves (nx.balanced_tree 0 2) = [].
Proof. repeat split; vm_compute; reflexivity. Qed.

(** ** The size of the tree and of [leaves] *)

Section TreeSize.
Context {NP : Numpy} {RD : Random} {RT : Runtime}.
Local Open Scope nat_scope.

(** C6, as amended. For a branching factor [k >= 1] and a depth [d],
    [nx.balanced_tree(k, d)] has [k^0 + ... + k^d] nodes; [leaves] is the
    list of the nodes of out-degree 0 and in-degree 1; for [d >= 1] these
    are the nodes of out-degree 0 and there are [k^d] of them; for
    [d = 0] the list is empty, the root having in-degree 0. A completed
    construction exposes this tree and this list. *)
Theorem balanced_tree_counts (k d : nat) :
  1 <= k ->
  let G := nx.balanced_tree k d in
  length (nodes G) = sum_list (map (Nat.pow k) (seq 0 (S d)))
  /\ SyntheticTree.compute_leaves G
     = filter (fun x => nx.out_degree G x = 0 /\ nx.in_degree G x = 1)
              (nodes G)
  /\ (1 <= d ->
      SyntheticTree.compute_leaves G
      = filter (fun x => nx.out_degree G x = 0) (nodes G)
      /\ length (SyntheticTree.compute_leaves G) = k ^ d)
  /\ (d = 0 -> SyntheticTree.compute_leaves G = [])
  /\ (forall (alg : algorithm) (tau alpha gamma : Q) (t : SyntheticTree.t),
        SyntheticTree.__init__ k d alg tau alpha gamma = OK t ->
        nodes (SyntheticTree._tree t) = nodes G
        /\ edges (SyntheticTree._tree t) = edges G
        /\ SyntheticTree.leaves t = SyntheticTree.compute_leaves G).
Proof.
  intros Hk G. pose proof (balanced_tree_shape k d) as Hs. fold G in Hs.
  split; [| split; [reflexivity | split; [| split]]].
  - destruct Hs as [-> _]. now rewrite length_seq, level_start_sum.
  - intros Hd. rewrite (shape_leaves_deep k d), (shape_childless k d)
      by assumption.
    split; [reflexivity | apply length_seq].
  - intros ->. rewrite (shape_leaves k 0) by assumption. reflexivity.
  - intros alg tau alpha gamma t Hrun.
    apply init_topology in Hrun. destruct Hrun as (Hn & He & Hl & _). auto.
Qed.

End TreeSize.

Lemma balanced_tree_counts_witness :
  (1 <= 2)%nat
  /\ length (nodes (nx.balanced_tree 2 3))
     = sum_list (map (Nat.pow 2) (seq 0 4))
  /\ length (SyntheticTree.compute_leaves (nx.balanced_tree 2 3))
     = (2 ^ 3)%nat
  /\ SyntheticTree.compute_leaves (nx.balanced_tree 2 3)
     = filter (fun x => nx.out_degree (nx.balanced_tree 2 3) x = 0%nat)
              (nodes (nx.balanced_tree 2 3)).
Proof.
  assert (Hk : (1 <= 2)%nat) by lia.
  destruct (@balanced_tree_counts series_numpy counting_random
              python_runtime 2 3 Hk) as (Hn & _ & Hdeep & _).
  destruct (Hdeep ltac:(lia)) as [Hl Hlen].
  repeat split; assumption.
Defined.

(** C6 as the specification words it fails at depth 0: the root is the
    only node and has out-degree 0, but [leaves] is empty, not the
    [k^0 = 1] element list holding the root. *)
Lemma leaves_exclude_root :
  let G := nx.balanced_tree 2 0 in
  filter (fun x => nx.out_degree G x = 0%nat) (nodes G) = [0%nat]
  /\ SyntheticTree.compute_leaves G = []
  /\ length (SyntheticTree.compute_leaves G) <> (2 ^ 0)%nat.
Proof. repeat split. discriminate. Qed.

(** ** Arguments out of their domain *)

Lemma py_index_from_start {A : Type} (l : list A) (i : Z) :
  (0 <= i)%Z -> py_index l i = of_option IndexError (l !! Z.to_nat i).
Proof.
  intros Hi. unfold py_index.
  destruct (0 <=? i)%Z eqn:E; [reflexivity |]. apply Z.leb_gt in E. lia.
Qed.

Lemma py_index_from_end {A : Type} (l : list A) (i : Z) :
  (- Z.of_nat (length l) <= i < 0)%Z ->
  py_index l i
  = of_option IndexError (l !! Z.to_nat (Z.of_nat (length l) + i)).
Proof.
  intros Hi. unfold py_index.
  destruct (0 <=? i)%Z eqn:E; [apply Z.leb_le in E; lia |].
  destruct (- Z.of_nat (length l) <=? i)%Z eqn:E'; [reflexivity |].
  apply Z.leb_gt in E'. lia.
Qed.

Lemma py_index_out_of_range {A : Type} (l : list A) (i : Z) :
  (i < - Z.of_nat (length l) \/ Z.of_nat (length l) <= i)%Z ->
  py_index l i = Raise IndexError.
Proof.
  intros Hi. unfold py_index.
  destruct (0 <=? i)%Z eqn:E.
  - apply Z.leb_le in E. rewrite lookup_ge_None_2; [reflexivity | lia].
  - apply Z.leb_gt in E.
    destruct (- Z.of_nat (length l) <=? i)%Z eqn:E'; [| reflexivity].
    apply Z.leb_le in E'. lia.
Qed.

Lemma py_index_in_range {A : Type} (l : list A) (i : nat) :
  (i < length l)%nat ->
  exists a, l !! i = Some a /\ py_index l (Z.of_nat i) = OK a.
Proof.
  intros Hi. destruct (lookup_lt_is_Some_2 l i Hi) as [a Ha].
  exists a. split; [assumption |].
  rewrite py_index_from_start by lia. now rewrite Nat2Z.id, Ha.
Qed.

(** The operator of the alpha-divergence raises on every non-empty
    vector when [alpha] is 1: the first test of the support loop divides
    by [alpha - 1]. *)
Lemma alpha_one_raises `{Numpy} (alpha : Q) (means_tau : list Q) :
  alpha == 1 -> means_tau <> [] ->
  SyntheticTree.sparse_max_alpha_divergence alpha means_tau
  = Raise ZeroDivisionError.
Proof.
  intros Ha Hne. unfold SyntheticTree.sparse_max_alpha_divergence.
  pose proof (length_flip (np.sort means_tau)) as Hlen.
  rewrite length_sort in Hlen.
  destruct (np.flip (np.sort means_tau)) as [|s todo].
  { destruct means_tau; [congruence | discriminate]. }
  simpl length. simpl for_each.
  unfold SyntheticTree.sparse_max_alpha_body at 1. simpl.
  unfold py_div.
  assert (E : Qeq_bool (alpha - 1) 0 = true).
  { apply Qeq_bool_iff. rewrite Ha. reflexivity. }
  now rewrite E.
Qed.

Lemma solver_alpha_one_fails `{Numpy} (fuel : nat) (self : SyntheticTree.t)
    (node : nat) (r : Q * list Q) :
  SyntheticTree._algorithm self = alpha_divergence ->
  SyntheticTree._alpha self == 1 ->
  SyntheticTree._solver_rec fuel self node <> OK r.
Proof.
  intros Halg Ha Hrun. destruct fuel as [|fuel]; [discriminate |].
  simpl in Hrun. unfold SyntheticTree.solver_body in Hrun.
  rewrite Halg in Hrun.
  apply res_bind_OK in Hrun. destruct Hrun as (x & Hx & Hrun).
  apply children_values_nonempty in Hx.
  rewrite (alpha_one_raises _ _ Ha) in Hrun; [discriminate |].
  now apply div_by_nonempty.
Qed.

Lemma solver_uct_config `{Numpy} (fuel : nat) (self self' : SyntheticTree.t)
    (node : nat) :
  SyntheticTree._algorithm self = uct ->
  SyntheticTree._algorithm self' = uct ->
  SyntheticTree._tree self' = SyntheticTree._tree self ->
  SyntheticTree.max_mean self' = SyntheticTree.max_mean self ->
  SyntheticTree._solver_rec fuel self' node
  = SyntheticTree._solver_rec fuel self node.
Proof.
  intros Ha Ha' Ht Hm. destruct fuel as [|fuel]; [reflexivity |].
  simpl. unfold SyntheticTree.solver_body. now rewrite Ha, Ha', Ht, Hm.
Qed.

(** Under uct the constructor never reads the temperature. *)
Lemma init_uct_any_tau {NP : Numpy} {RD : Random} {RT : Runtime} (k d : nat)
    (tau tau' alpha gamma : Q) (t : SyntheticTree.t) :
  SyntheticTree.__init__ k d uct tau alpha gamma = OK t ->
  exists t', SyntheticTree.__init__ k d uct tau' alpha gamma = OK t'.
Proof.
  unfold SyntheticTree.__init__, SyntheticTree._compute_mean,
    SyntheticTree.normalize_leaf_means, SyntheticTree.compute_max_mean,
    SyntheticTree._assign_priors_maxs, SyntheticTree._solver.
  cbv zeta.
  cbn [SyntheticTree._tree SyntheticTree.leaves SyntheticTree.set_tree].
  set (G0 := SyntheticTree.init_nodes uct _).
  intros Hrun.
  apply res_bind_OK in Hrun. destruct Hrun as (self1 & H1 & Hrun).
  apply res_bind_OK in H1. destruct H1 as (G1 & H1 & E1).
  injection E1 as <-.
  cbn [SyntheticTree._tree SyntheticTree.leaves SyntheticTree.set_tree]
    in Hrun.
  rewrite H1.
  cbn [mbind res_mbind res_bind SyntheticTree._tree SyntheticTree.leaves
       SyntheticTree.set_tree].
  apply res_bind_OK in Hrun. destruct Hrun as (self2 & H2 & Hrun).
  apply res_bind_OK in H2. destruct H2 as (means & Hm & H2).
  apply res_bind_OK in H2. destruct H2 as (means' & Hm' & H2).
  apply res_bind_OK in H2. destruct H2 as (G2 & H2 & E2).
  injection E2 as <-.
  cbn [SyntheticTree._tree SyntheticTree.leaves SyntheticTree.set_tree]
    in Hrun.
  rewrite Hm.
  cbn [mbind res_mbind res_bind]. rewrite Hm'.
  cbn [mbind res_mbind res_bind]. rewrite H2.
  cbn [mbind res_mbind res_bind SyntheticTree._tree SyntheticTree.leaves
       SyntheticTree.set_tree].
  apply res_bind_OK in Hrun. destruct Hrun as (mm & Hmm & Hrun).
  rewrite Hmm. cbn [mbind res_mbind res_bind].
  apply res_bind_OK in Hrun. destruct Hrun as (self3 & H3 & Hrun).
  apply res_bind_OK in H3. destruct H3 as (mG & H3 & E3).
  injection E3 as <-.
  cbn [SyntheticTree._tree SyntheticTree.leaves SyntheticTree.set_tree]
    in H3, Hrun.
  rewrite H3.
  cbn [mbind res_mbind res_bind SyntheticTree._tree SyntheticTree.leaves
       SyntheticTree.set_tree].
  apply res_bind_OK in Hrun. destruct Hrun as (vq & Hvq & Hrun).
  erewrite solver_uct_config; [rewrite Hvq | reflexivity..].
  cbn [mbind res_mbind res_bind]. eauto.
Qed.

(** C7, as amended. [step] indexes the list of out-edges as Python does:
    with out-degree [n], an action [0 <= a < n] moves along edge [a], an
    action [-n <= a < 0] moves along edge [n + a], and the call raises
    [IndexError] exactly for [a >= n] and [a < -n]. With [alpha = 1] the
    alpha-divergence operator raises [ZeroDivisionError] and the
    construction of an alpha-divergence tree does not complete. The
    temperature is not checked: under uct a construction that completes
    for one temperature completes for every other. *)
Theorem domain_errors {NP : Numpy} {RD : Random} {RT : Runtime} :
  (forall (self : SyntheticTree.t) (action : Z),
     let out_edges :=
       nx.edges_of (SyntheticTree._tree self) (SyntheticTree.state self) in
     let n := Z.of_nat (length out_edges) in
     ((0 <= action < n)%Z ->
        exists e, out_edges !! Z.to_nat action = Some e
                  /\ SyntheticTree.step action self
                     = OK (e.2, SyntheticTree.set_state e.2 self))
     /\ ((- n <= action < 0)%Z ->
        exists e, out_edges !! Z.to_nat (n + action) = Some e
                  /\ SyntheticTree.step action self
                     = OK (e.2, SyntheticTree.set_state e.2 self))
     /\ ((action < - n \/ n <= action)%Z ->
        SyntheticTree.step action self = Raise IndexError))
  /\ (forall (alpha : Q) (means_tau : list Q),
        alpha == 1 -> means_tau <> [] ->
        SyntheticTree.sparse_max_alpha_divergence alpha means_tau
        = Raise ZeroDivisionError)
  /\ (forall (k d : nat) (tau alpha gamma : Q) (t : SyntheticTree.t),
        alpha == 1 ->
        SyntheticTree.__init__ k d alpha_divergence tau alpha gamma <> OK t)
  /\ (forall (k d : nat) (tau tau' alpha gamma : Q) (t : SyntheticTree.t),
        SyntheticTree.__init__ k d uct tau alpha gamma = OK t ->
        exists t',
          SyntheticTree.__init__ k d uct tau' alpha gamma = OK t').
Proof.
  split; [| split; [| split]].
  - intros self action out_edges n. unfold SyntheticTree.step.
    fold out_edges. split; [| split].
    + intros Ha.
      destruct (lookup_lt_is_Some_2 out_edges (Z.to_nat action)) as [e He];
        [lia |].
      exists e. split; [assumption |].
      rewrite py_index_from_start by lia. now rewrite He.
    + intros Ha.
      destruct (lookup_lt_is_Some_2 out_edges (Z.to_nat (n + action)))
        as [e He]; [lia |].
      exists e. split; [assumption |].
      rewrite py_index_from_end by lia. fold n. now rewrite He.
    + intros Ha. now rewrite py_index_out_of_range.
  - intros alpha means_tau. apply alpha_one_raises.
  - intros k d tau alpha gamma t Ha Hrun.
    unfold SyntheticTree.__init__ in Hrun. cbv zeta in Hrun.
    apply res_bind_OK in Hrun. destruct Hrun as (self1 & H1 & Hrun).
    apply res_bind_OK in Hrun. destruct Hrun as (self2 & H2 & Hrun).
    apply res_bind_OK in Hrun. destruct Hrun as (mm & _ & Hrun).
    apply res_bind_OK in Hrun. destruct Hrun as (self3 & H3 & Hrun).
    apply res_bind_OK in Hrun. destruct Hrun as (vq & Hvq & _).
    apply assign_priors_stage in H3. destruct H3 as (G3 & -> & _).
    revert Hvq. apply solver_alpha_one_fails; [reflexivity | exact Ha].
  - intros k d tau tau' alpha gamma t. apply init_uct_any_tau.
Qed.

Lemma domain_errors_witness :
  (* [step] on the root of [two_leaves], out-degree 2 *)
  ((0 <= 1 < 2)%Z ->
     SyntheticTree.step 1 two_leaves
     = OK (2%nat, SyntheticTree.set_state 2 two_leaves))
  /\ ((-2 <= -1 < 0)%Z ->
      SyntheticTree.step (-1) two_leaves
      = OK (2%nat, SyntheticTree.set_state 2 two_leaves))
  /\ ((-3 < -2 \/ 2 <= -3)%Z ->
      SyntheticTree.step (-3) two_leaves = Raise IndexError)
  /\ (1 == 1 /\ [0; 1] <> [] /\
      @SyntheticTree.sparse_max_alpha_divergence series_numpy 1 [0; 1]
      = Raise ZeroDivisionError)
  /\ (exists t t',
        @SyntheticTree.__init__ series_numpy counting_random python_runtime
          2 2 uct 1 2 1 = OK t
        /\ @SyntheticTree.__init__ series_numpy counting_random
             python_runtime 2 2 uct (-1) 2 1 = OK t').
Proof.
  destruct (@domain_errors series_numpy counting_random python_runtime)
    as (Hstep & Halpha & _ & Htau).
  split; [| split; [| split; [| split]]].
  - intros Ha. destruct (proj1 (Hstep two_leaves 1%Z) Ha) as (e & He & ->).
    vm_compute in He. now injection He as <-.
  - intros Ha.
    destruct (proj1 (proj2 (Hstep two_leaves (-1)%Z)) Ha) as (e & He & ->).
    vm_compute in He. now injection He as <-.
  - intros Ha. exact (proj2 (proj2 (Hstep two_leaves (-3)%Z)) Ha).
  - split; [reflexivity |]. split; [discriminate |].
    apply Halpha; [reflexivity | discriminate].
  - destruct (@SyntheticTree.__init__ series_numpy counting_random
                python_runtime 2 2 uct 1 2 1) as [t|e] eqn:E;
      [| vm_compute in E; discriminate].
    destruct (Htau 2%nat 2%nat 1 (-1 # 1) 2 1 t E) as (t' & Ht').
    exists t, t'. split; [reflexivity | exact Ht'].
Defined.

(** C7 as the specification words it fails: a tree is constructed with
    the temperature -1, and on it [step(-1)] moves the cursor to node 2,
    the target of the last out-edge of the root. *)
Lemma negative_inputs_accepted :
  exists t,
    @SyntheticTree.__init__ series_numpy counting_random python_runtime
      2 1 uct (-1 # 1) 2 1 = OK t
    /\ SyntheticTree._tau t == - (1)
    /\ nx.out_degree (SyntheticTree._tree t) (SyntheticTree.state t) = 2%nat
    /\ SyntheticTree.step (-1) t = OK (2%nat, SyntheticTree.set_state 2 t).
Proof.
  eexists. split; [vm_compute; reflexivity |].
  split; [reflexivity |]. split; vm_compute; reflexivity.
Qed.

(** ** The search monad *)

Lemma M_bind_OK {A B : Type} (m : MCTS.M A) (f : A -> MCTS.M B)
    (w w' : MCTS.World) (b : B) :
  (m ≫= f) w = OK (b, w') ->
  exists a w1, m w = OK (a, w1) /\ f a w1 = OK (b, w').
Proof.
  unfold mbind, MCTS.M_bind. destruct (m w) as [[a w1]|e]; [| discriminate].
  simpl. eauto.
Qed.

Lemma M_bind_eq {A B : Type} (m : MCTS.M A) (f : A -> MCTS.M B)
    (w w1 : MCTS.World) (a : A) :
  m w = OK (a, w1) -> (m ≫= f) w = f a w1.
Proof. unfold mbind, MCTS.M_bind. now intros ->. Qed.

Lemma M_bind_raise {A B : Type} (m : MCTS.M A) (f : A -> MCTS.M B)
    (w : MCTS.World) (e : exn) :
  m w = Raise e -> (m ≫= f) w = Raise e.
Proof. unfold mbind, MCTS.M_bind. now intros ->. Qed.

Lemma M_ret_OK {A : Type} (a b : A) (w w' : MCTS.World) :
  (mret a : MCTS.M A) w = OK (b, w') -> b = a /\ w' = w.
Proof. unfold mret, MCTS.M_ret. intros E. now injection E as <- <-. Qed.

Lemma lift_OK {A : Type} (r : res A) (a : A) (w w' : MCTS.World) :
  MCTS.lift r w = OK (a, w') -> r = OK a /\ w' = w.
Proof.
  unfold MCTS.lift. destruct r; [| discriminate].
  intros E. now injection E as <- <-.
Qed.

Lemma get_env_OK (env : SyntheticTree.t) (w w' : MCTS.World) :
  MCTS.get_env w = OK (env, w') -> env = MCTS.tree_env w /\ w' = w.
Proof. unfold MCTS.get_env. intros E. now injection E as <- <-. Qed.

Lemma get_tree_OK (G : DiGraph) (w w' : MCTS.World) :
  MCTS.get_tree w = OK (G, w') ->
  G = SyntheticTree._tree (MCTS.tree_env w) /\ w' = w.
Proof. unfold MCTS.get_tree. intros E. now injection E as <- <-. Qed.

Lemma next_draw_OK (t : nat) (w w' : MCTS.World) :
  MCTS.next_draw w = OK (t, w') ->
  t = MCTS.draws w /\ MCTS.tree_env w' = MCTS.tree_env w.
Proof. unfold MCTS.next_draw. intros E. now injection E as <- <-. Qed.

Lemma raise_OK {A : Type} (e : exn) (w : MCTS.World) (r : A * MCTS.World) :
  MCTS.raise e w = OK r -> False.
Proof. discriminate. Qed.

Lemma set_node_OK (n : nat) (f : NodeData -> NodeData)
    (w w' : MCTS.World) (u : unit) :
  MCTS.set_node n f w = OK (u, w') ->
  exists d,
    node_data (SyntheticTree._tree (MCTS.tree_env w)) !! n = Some d
    /\ MCTS.tree_env w'
       = SyntheticTree.set_tree
           (put_node n (f d) (SyntheticTree._tree (MCTS.tree_env w)))
           (MCTS.tree_env w).
Proof.
  unfold MCTS.set_node. intros Hrun.
  apply M_bind_OK in Hrun. destruct Hrun as (env & w1 & Henv & Hrun).
  apply get_env_OK in Henv. destruct Henv as [-> ->].
  apply M_bind_OK in Hrun. destruct Hrun as (G & w2 & HG & Hrun).
  apply lift_OK in HG. destruct HG as [HG ->].
  apply update_node_OK in HG. destruct HG as (d & Hd & ->).
  exists d. split; [assumption |].
  unfold MCTS.put_env in Hrun. injection Hrun as _ <-. reflexivity.
Qed.

Lemma set_edge_OK (e : edge) (f : EdgeData -> EdgeData)
    (w w' : MCTS.World) (u : unit) :
  MCTS.set_edge e f w = OK (u, w') ->
  exists d,
    edge_data (SyntheticTree._tree (MCTS.tree_env w)) !! e = Some d
    /\ MCTS.tree_env w'
       = SyntheticTree.set_tree
           (put_edge e (f d) (SyntheticTree._tree (MCTS.tree_env w)))
           (MCTS.tree_env w).
Proof.
  unfold MCTS.set_edge. intros Hrun.
  apply M_bind_OK in Hrun. destruct Hrun as (env & w1 & Henv & Hrun).
  apply get_env_OK in Henv. destruct Henv as [-> ->].
  apply M_bind_OK in Hrun. destruct Hrun as (G & w2 & HG & Hrun).
  apply lift_OK in HG. destruct HG as [HG ->].
  apply update_edge_OK in HG. destruct HG as (d & Hd & ->).
  exists d. split; [assumption |].
  unfold MCTS.put_env in Hrun. injection Hrun as _ <-. reflexivity.
Qed.

(** ** Computations that preserve an observation of the environment *)

Section Preserves.
Context {X : Type} (obs : SyntheticTree.t -> X).

Lemma preserves_ret {A : Type} (a : A) : preserves obs (mret a : MCTS.M A).
Proof. intros w b w' E. apply M_ret_OK in E. now destruct E as [_ ->]. Qed.

Lemma preserves_bind {A B : Type} (m : MCTS.M A) (f : A -> MCTS.M B) :
  preserves obs m -> (forall a, preserves obs (f a)) ->
  preserves obs (m ≫= f).
Proof.
  intros Hm Hf w b w' E. apply M_bind_OK in E.
  destruct E as (a & w1 & E1 & E2).
  rewrite (Hf a _ _ _ E2). eapply Hm; eauto.
Qed.

Lemma preserves_lift {A : Type} (r : res A) : preserves obs (MCTS.lift r).
Proof. intros w a w' E. apply lift_OK in E. now destruct E as [_ ->]. Qed.

Lemma preserves_raise {A : Type} (e : exn) :
  preserves obs (MCTS.raise e : MCTS.M A).
Proof. intros w a w' E. discriminate. Qed.

Lemma preserves_get_env : preserves obs MCTS.get_env.
Proof. intros w a w' E. apply get_env_OK in E. now destruct E as [_ ->]. Qed.

Lemma preserves_get_tree : preserves obs MCTS.get_tree.
Proof. intros w a w' E. apply get_tree_OK in E. now destruct E as [_ ->]. Qed.

Lemma preserves_next_draw : preserves obs MCTS.next_draw.
Proof.
  intros w a w' E. apply next_draw_OK in E. now destruct E as [_ ->].
Qed.

Lemma preserves_for_M {A : Type} (l : list A) (body : A -> MCTS.M unit) :
  (forall a, preserves obs (body a)) -> preserves obs (MCTS.for_M l body).
Proof.
  intros Hbody. induction l as [|a l IH]; simpl.
  - apply preserves_ret.
  - apply preserves_bind; [apply Hbody | intros _; exact IH].
Qed.

End Preserves.

Lemma stable_set_node (n : nat) (f : NodeData -> NodeData) :
  (forall d, node_fixed (f d) = node_fixed d) -> stable (MCTS.set_node n f).
Proof.
  intros Hf w u w' E. apply set_node_OK in E. destruct E as (d & Hd & ->).
  unfold static. simpl. f_equal.
  rewrite fmap_insert, Hf. apply insert_id.
  now rewrite lookup_fmap, Hd.
Qed.

Lemma stable_set_edge (e : edge) (f : EdgeData -> EdgeData) :
  (forall d, edge_fixed (f d) = edge_fixed d) -> stable (MCTS.set_edge e f).
Proof.
  intros Hf w u w' E. apply set_edge_OK in E. destruct E as (d & Hd & ->).
  unfold static. simpl. f_equal.
  rewrite fmap_insert, Hf. apply insert_id.
  now rewrite lookup_fmap, Hd.
Qed.

Create HintDb stable discriminated.
#[local] Hint Resolve preserves_ret preserves_lift preserves_raise
  preserves_get_env preserves_get_tree preserves_next_draw
  preserves_for_M : stable.

Ltac stable_tac :=
  repeat first
    [ apply stable_set_node; intros ?; reflexivity
    | apply stable_set_edge; intros ?; reflexivity
    | solve [auto with stable]
    | apply preserves_bind; [| intros ?] ].

Section SearchReads.
Context {NP : Numpy} {RD : Random} {RT : Runtime}.
Context {X : Type} (obs : SyntheticTree.t -> X).

Lemma preserves_rollout (state : nat) : preserves obs (MCTS.rollout state).
Proof. unfold MCTS.rollout. stable_tac. Qed.

Lemma preserves_randint (n : nat) : preserves obs (MCTS.randint n).
Proof. unfold MCTS.randint. destruct (decide _); stable_tac. Qed.

Lemma preserves_choice (a : list nat) : preserves obs (MCTS.choice a).
Proof.
  unfold MCTS.choice.
  apply preserves_bind; [apply preserves_randint | intros ?; stable_tac].
Qed.

Lemma preserves_choice_p (n : nat) (probs : list Q) :
  preserves obs (MCTS.choice_p n probs).
Proof.
  unfold MCTS.choice_p. destruct (decide _); [stable_tac |].
  destruct (MCTS.valid_probs n probs);
    [apply preserves_randint | stable_tac].
Qed.

Lemma preserves_select_probs (self : MCTS.t) (G : DiGraph)
    (out_edges : list edge) (counts : list nat) (qs : list Q) :
  preserves obs (MCTS.select_probs self G out_edges counts qs).
Proof.
  pose proof preserves_randint.
  unfold MCTS.select_probs. destruct (MCTS._algorithm self); stable_tac.
Qed.

Lemma preserves_select (self : MCTS.t) : preserves obs (MCTS._select self).
Proof.
  unfold MCTS._select.
  do 3 (apply preserves_bind; [stable_tac | intros ?]).
  destruct (MCTS._algorithm self);
    (apply preserves_bind;
     [first [apply preserves_select_probs | stable_tac]
     | intros ?; first [apply preserves_choice | apply preserves_choice_p]]).
Qed.

End SearchReads.

#[local] Hint Resolve preserves_rollout preserves_randint preserves_choice
  preserves_choice_p preserves_select_probs preserves_select : stable.

Section SearchFrame.
Context {NP : Numpy} {RD : Random} {RT : Runtime}.

Lemma stable_reset : stable MCTS.reset.
Proof. intros w a w' E. unfold MCTS.reset in E. now injection E as _ <-. Qed.

Lemma stable_step (action : Z) : stable (MCTS.step action).
Proof.
  intros w a w' E. unfold MCTS.step in E.
  apply res_bind_OK in E. destruct E as (r & Hr & E).
  injection E as _ <-.
  unfold SyntheticTree.step in Hr.
  apply res_bind_OK in Hr. destruct Hr as (e & _ & Hr).
  now injection Hr as <-.
Qed.

#[local] Hint Resolve stable_reset stable_step : stable.

Lemma stable_navigate_rec (fuel : nat) (self : MCTS.t) :
  stable (MCTS._navigate_rec fuel self).
Proof.
  induction fuel as [|fuel IH]; simpl; [auto with stable |].
  apply preserves_bind; [stable_tac | intros env].
  apply preserves_bind; [apply preserves_select | intros action].
  apply preserves_bind; [apply stable_step | intros next_state].
  apply preserves_bind; [stable_tac | intros env'].
  destruct (decide _); [| stable_tac].
  apply preserves_bind; [exact IH | intros ?; stable_tac].
Qed.

Lemma stable_backup (self : MCTS.t) (e : edge) : stable (MCTS.backup self e).
Proof.
  unfold MCTS.backup. stable_tac.
Qed.

Lemma stable_simulation (self : MCTS.t) : stable (MCTS._simulation self).
Proof.
  unfold MCTS._simulation, MCTS._navigate.
  apply preserves_bind; [apply stable_navigate_rec | intros path].
  pose proof (stable_backup self) as Hb.
  stable_tac.
Qed.

Lemma stable_run (self : MCTS.t) (n : nat) : stable (MCTS.run self n).
Proof.
  unfold MCTS.run. induction n as [|n IH]; simpl; [auto with stable |].
  apply preserves_bind; [apply stable_reset | intros _].
  apply preserves_bind; [apply stable_simulation | intros v].
  apply preserves_bind; [exact IH | intros ?; stable_tac].
Qed.

End SearchFrame.

Lemma static_node_fixed (t t' : SyntheticTree.t) (x : nat) :
  static t' = static t ->
  node_fixed <$> (node_data (SyntheticTree._tree t') !! x)
  = node_fixed <$> (node_data (SyntheticTree._tree t) !! x).
Proof.
  intros Hs. apply (f_equal s_node_fixed) in Hs. simpl in Hs.
  rewrite <- !lookup_fmap. now rewrite Hs.
Qed.

Lemma static_edge_fixed (t t' : SyntheticTree.t) (e : edge) :
  static t' = static t ->
  edge_fixed <$> (edge_data (SyntheticTree._tree t') !! e)
  = edge_fixed <$> (edge_data (SyntheticTree._tree t) !! e).
Proof.
  intros Hs. apply (f_equal s_edge_fixed) in Hs. simpl in Hs.
  rewrite <- !lookup_fmap. now rewrite Hs.
Qed.

(** C8. When [run] returns, [optimal_v_root], [q_root], the ['weight'] of
    every edge and the ['mean'] and ['prior'] of every node are what they
    were before; so are the nodes, the edges and [leaves]. *)
Theorem run_frame {NP : Numpy} {RD : Random} {RT : Runtime}
    (self : MCTS.t) (n_simulations : nat) (w w' : MCTS.World)
    (v_hat : list Q) :
  MCTS.run self n_simulations w = OK (v_hat, w') ->
  let t := MCTS.tree_env w in
  let t' := MCTS.tree_env w' in
  SyntheticTree.optimal_v_root t' = SyntheticTree.optimal_v_root t
  /\ SyntheticTree.q_root t' = SyntheticTree.q_root t
  /\ (forall e, e_weight <$> (edge_data (SyntheticTree._tree t') !! e)
                = e_weight <$> (edge_data (SyntheticTree._tree t) !! e))
  /\ (forall x, n_mean <$> (node_data (SyntheticTree._tree t') !! x)
                = n_mean <$> (node_data (SyntheticTree._tree t) !! x))
  /\ (forall x, n_prior <$> (node_data (SyntheticTree._tree t') !! x)
                = n_prior <$> (node_data (SyntheticTree._tree t) !! x))
  /\ nodes (SyntheticTree._tree t') = nodes (SyntheticTree._tree t)
  /\ edges (SyntheticTree._tree t') = edges (SyntheticTree._tree t)
  /\ SyntheticTree.leaves t' = SyntheticTree.leaves t.
Proof.
  intros Hrun t t'. apply stable_run in Hrun. fold t t' in Hrun.
  split; [exact (f_equal s_optimal_v_root Hrun) |].
  split; [exact (f_equal s_q_root Hrun) |].
  split; [| split; [| split]].
  - intros e. pose proof (static_edge_fixed t t' e Hrun) as He.
    destruct (edge_data (SyntheticTree._tree t') !! e),
             (edge_data (SyntheticTree._tree t) !! e);
      simpl in *; try discriminate; [| reflexivity].
    unfold edge_fixed in He. congruence.
  - intros x. pose proof (static_node_fixed t t' x Hrun) as Hx.
    destruct (node_data (SyntheticTree._tree t') !! x),
             (node_data (SyntheticTree._tree t) !! x);
      simpl in *; try discriminate; [| reflexivity].
    unfold node_fixed in Hx. congruence.
  - intros x. pose proof (static_node_fixed t t' x Hrun) as Hx.
    destruct (node_data (SyntheticTree._tree t') !! x),
             (node_data (SyntheticTree._tree t) !! x);
      simpl in *; try discriminate; [| reflexivity].
    unfold node_fixed in Hx. congruence.
  - split; [exact (f_equal s_nodes Hrun) |].
    split; [exact (f_equal s_edges Hrun) | exact (f_equal s_leaves Hrun)].
Qed.

Lemma run_frame_witness :
  exists v_hat w',
    @MCTS.run series_numpy counting_random python_runtime plain_uct 3
      two_leaves_world = OK (v_hat, w')
    /\ visits_node w' 0 = Some 3%nat
    /\ SyntheticTree.optimal_v_root (MCTS.tree_env w')
       = SyntheticTree.optimal_v_root two_leaves
    /\ SyntheticTree.q_root (MCTS.tree_env w')
       = SyntheticTree.q_root two_leaves
    /\ (forall e,
          e_weight <$> (edge_data (SyntheticTree._tree (MCTS.tree_env w')) !! e)
          = e_weight <$> (edge_data two_leaves_graph !! e))
    /\ (forall x,
          n_mean <$> (node_data (SyntheticTree._tree (MCTS.tree_env w')) !! x)
          = n_mean <$> (node_data two_leaves_graph !! x))
    /\ (forall x,
          n_prior <$> (node_data (SyntheticTree._tree (MCTS.tree_env w')) !! x)
          = n_prior <$> (node_data two_leaves_graph !! x)).
Proof.
  destruct (@MCTS.run series_numpy counting_random python_runtime plain_uct 3
              two_leaves_world) as [[v_hat w']|e] eqn:E;
    [| vm_compute in E; discriminate].
  exists v_hat, w'. split; [reflexivity |].
  split.
  - assert (E' : OK (v_hat, w')
                 = @MCTS.run series_numpy counting_random python_runtime
                     plain_uct 3 two_leaves_world) by (now rewrite E).
    vm_compute in E'. injection E' as _ ->. reflexivity.
  - pose proof (@run_frame series_numpy counting_random python_runtime
                  plain_uct 3 two_leaves_world w' v_hat E)
      as (Hv & Hq & Hw & Hm & Hp & _).
    repeat split; assumption.
Defined.

(** ** The selection walk *)

Section Selection.
Context {NP : Numpy} {RD : Random} {RT : Runtime}.
Local Open Scope nat_scope.

Lemma randint_OK (n i : nat) (w w' : MCTS.World) :
  MCTS.randint n w = OK (i, w') -> i < n.
Proof.
  unfold MCTS.randint. destruct (decide (n = 0)); [discriminate |].
  intros E. apply M_bind_OK in E. destruct E as (t & w1 & _ & E).
  apply M_ret_OK in E. destruct E as [-> _].
  apply Nat.mod_upper_bound. assumption.
Qed.

Lemma randint_total (n : nat) (w : MCTS.World) :
  n <> 0 -> exists i w', MCTS.randint n w = OK (i, w').
Proof.
  intros Hn. unfold MCTS.randint. destruct (decide (n = 0)); [contradiction |].
  eexists _, _. reflexivity.
Qed.

Lemma choice_OK (a : list nat) (x : nat) (w w' : MCTS.World) :
  MCTS.choice a w = OK (x, w') -> x ∈ a.
Proof.
  unfold MCTS.choice. intros E.
  apply M_bind_OK in E. destruct E as (i & w1 & _ & E).
  apply lift_OK in E. destruct E as [E _]. apply of_option_OK in E.
  eapply list_elem_of_lookup_2; eauto.
Qed.

Lemma choice_total (a : list nat) (w : MCTS.World) :
  a <> [] -> exists x w', MCTS.choice a w = OK (x, w').
Proof.
  intros Ha. unfold MCTS.choice.
  destruct (randint_total (length a) w) as (i & w1 & Hi).
  { destruct a; [congruence | discriminate]. }
  rewrite (M_bind_eq _ _ _ _ _ Hi).
  apply randint_OK in Hi.
  destruct (lookup_lt_is_Some_2 a i Hi) as [x Hx].
  exists x, w1. unfold MCTS.lift. now rewrite Hx.
Qed.

Lemma choice_p_OK (n : nat) (probs : list Q) (x : nat) (w w' : MCTS.World) :
  MCTS.choice_p n probs w = OK (x, w') -> x < n.
Proof.
  unfold MCTS.choice_p. destruct (decide (n = 0)); [discriminate |].
  destruct (MCTS.valid_probs n probs); [apply randint_OK | discriminate].
Qed.

Lemma argwhere_from_bound (i : nat) (l : list (option Q)) (v : Q) (x : nat) :
  x ∈ np.argwhere_from i l v -> i <= x < i + length l.
Proof.
  revert i. induction l as [|[y|] l IH]; intros i Hx; simpl in Hx.
  - now apply elem_of_nil in Hx.
  - destruct (Qeq_bool y v).
    + apply elem_of_cons in Hx. destruct Hx as [-> | Hx]; simpl; [lia |].
      apply IH in Hx. lia.
    + apply IH in Hx. simpl. lia.
  - apply IH in Hx. simpl. lia.
Qed.

Lemma broadcast_same_length (f : Q -> Q -> Q) (a b : list Q) :
  length a = length b ->
  npa.broadcast f a b = OK (zip_with f a b).
Proof.
  intros Hlen. unfold npa.broadcast.
  now rewrite (proj2 (Nat.eqb_eq _ _) Hlen).
Qed.

Lemma uct_candidates_bound (self : MCTS.t) (counts : list nat)
    (qs : list Q) (cands : list nat) :
  length qs = length counts ->
  MCTS.uct_candidates self counts qs = OK cands ->
  forall x, x ∈ cands -> x < length counts.
Proof.
  intros Hlen. unfold MCTS.uct_candidates.
  destruct (0 <? sum_list counts).
  - rewrite broadcast_same_length by (now rewrite length_map).
    simpl. intros E. apply res_bind_OK in E. destruct E as (mx & _ & E).
    injection E as <-. intros x Hx.
    apply argwhere_from_bound in Hx.
    rewrite length_map, length_zip_with, length_map in Hx. lia.
  - destruct counts as [|c counts]; [discriminate |].
    intros E. injection E as <-. intros x Hx.
    change (x ∈ seq 0 (length (c :: counts))) in Hx.
    apply elem_of_seq in Hx. lia.
Qed.

(** [_select] writes nothing and returns the index of an out-edge. *)
Lemma select_in_range (self : MCTS.t) (w w' : MCTS.World) (a : nat) :
  MCTS._select self w = OK (a, w') ->
  MCTS.tree_env w' = MCTS.tree_env w
  /\ a < length (nx.edges_of (SyntheticTree._tree (MCTS.tree_env w))
                             (SyntheticTree.state (MCTS.tree_env w))).
Proof.
  intros Hrun.
  split; [exact (preserves_select (fun t => t) self w a w' Hrun) |].
  unfold MCTS._select in Hrun.
  apply M_bind_OK in Hrun. destruct Hrun as (env & w1 & Henv & Hrun).
  apply get_env_OK in Henv. destruct Henv as [-> ->].
  apply M_bind_OK in Hrun. destruct Hrun as (counts & w1 & Hc & Hrun).
  apply lift_OK in Hc. destruct Hc as [Hc ->].
  apply M_bind_OK in Hrun. destruct Hrun as (qs & w1 & Hq & Hrun).
  apply lift_OK in Hq. destruct Hq as [Hq ->].
  apply comprehension_length in Hc, Hq.
  assert (Huct : forall cands w2,
            MCTS.uct_candidates self counts qs = OK cands ->
            MCTS.choice cands w2 = OK (a, w') ->
            a < length counts).
  { intros cands w2 Hcands Hch. apply choice_OK in Hch.
    eapply uct_candidates_bound; eauto. congruence. }
  destruct (MCTS._algorithm self);
    apply M_bind_OK in Hrun; destruct Hrun as (r & w2 & Hr & Hrun);
    try (apply choice_p_OK in Hrun; exact Hrun).
  apply lift_OK in Hr. destruct Hr as [Hr ->].
  rewrite <- Hc. eapply Huct; eauto.
Qed.

Lemma step_OK (action : nat) (next : nat) (w w' : MCTS.World) :
  MCTS.step (Z.of_nat action) w = OK (next, w') ->
  exists e,
    nx.edges_of (SyntheticTree._tree (MCTS.tree_env w))
                (SyntheticTree.state (MCTS.tree_env w)) !! action = Some e
    /\ next = e.2
    /\ MCTS.tree_env w' = SyntheticTree.set_state e.2 (MCTS.tree_env w).
Proof.
  unfold MCTS.step, SyntheticTree.step. intros E.
  apply res_bind_OK in E. destruct E as (r & Hr & E).
  apply res_bind_OK in Hr. destruct Hr as (e & He & Hr).
  injection Hr as <-. injection E as <- <-.
  rewrite py_index_from_start in He by lia.
  apply of_option_OK in He. rewrite Nat2Z.id in He.
  exists e. auto.
Qed.

Lemma step_total (action : nat) (w : MCTS.World) :
  action < length (nx.edges_of (SyntheticTree._tree (MCTS.tree_env w))
                               (SyntheticTree.state (MCTS.tree_env w))) ->
  exists next w', MCTS.step (Z.of_nat action) w = OK (next, w').
Proof.
  intros Ha. unfold MCTS.step, SyntheticTree.step.
  destruct (py_index_in_range _ _ Ha) as (e & _ & ->).
  eexists _, _. reflexivity.
Qed.

Lemma edges_of_elem (G : DiGraph) (x : nat) (e : edge) :
  e ∈ nx.edges_of G x <-> e ∈ edges G /\ e.1 = x.
Proof.
  unfold nx.edges_of. rewrite list_elem_of_filter. tauto.
Qed.

Lemma path_end_cons (start : nat) (e : edge) (rest : list edge) :
  path_end start (e :: rest) = path_end e.2 rest.
Proof. reflexivity. Qed.

(** What every completed walk returns: a non-empty chain of edges of the
    tree from the cursor to a node of [leaves]; of the environment only
    the cursor has changed, and it is at the end of the chain. *)
Lemma navigate_chain (fuel : nat) (self : MCTS.t) (w w' : MCTS.World)
    (path : list edge) :
  MCTS._navigate_rec fuel self w = OK (path, w') ->
  let env := MCTS.tree_env w in
  path <> []
  /\ chain (SyntheticTree.state env) path
  /\ Forall (fun e => e ∈ edges (SyntheticTree._tree env)) path
  /\ path_end (SyntheticTree.state env) path ∈ SyntheticTree.leaves env
  /\ MCTS.tree_env w'
     = SyntheticTree.set_state (path_end (SyntheticTree.state env) path) env.
Proof.
  revert w w' path.
  induction fuel as [|fuel IH]; intros w w' path Hrun; [discriminate |].
  simpl in Hrun.
  apply M_bind_OK in Hrun. destruct Hrun as (env & w1 & Henv & Hrun).
  apply get_env_OK in Henv. destruct Henv as [-> ->].
  apply M_bind_OK in Hrun. destruct Hrun as (a & w1 & Ha & Hrun).
  apply select_in_range in Ha. destruct Ha as [Hw1 _].
  apply M_bind_OK in Hrun. destruct Hrun as (next & w2 & Hstep & Hrun).
  apply step_OK in Hstep. rewrite Hw1 in Hstep.
  destruct Hstep as (e & He & -> & Hw2).
  apply list_elem_of_lookup_2, edges_of_elem in He. destruct He as [Hin Hsrc].
  apply M_bind_OK in Hrun. destruct Hrun as (env2 & w3 & Henv & Hrun).
  apply get_env_OK in Henv. destruct Henv as [-> ->].
  rewrite Hw2 in Hrun. simpl in Hrun.
  destruct e as [u v]. simpl in *. subst u.
  destruct (decide (v ∉ SyntheticTree.leaves (MCTS.tree_env w)))
    as [Hleaf | Hleaf].
  - apply M_bind_OK in Hrun. destruct Hrun as (rest & w3 & Hrest & Hrun).
    apply M_ret_OK in Hrun. destruct Hrun as [-> ->].
    apply IH in Hrest. rewrite Hw2 in Hrest. simpl in Hrest.
    destruct Hrest as (_ & Hchain & Hall & Hend & Henv).
    split; [discriminate |]. split; [split; [reflexivity | exact Hchain] |].
    split; [constructor; assumption |].
    rewrite path_end_cons. simpl. split; [exact Hend |].
    rewrite Henv. reflexivity.
  - apply M_ret_OK in Hrun. destruct Hrun as [-> ->].
    split; [discriminate |]. split; [simpl; auto |].
    split; [repeat constructor; assumption |].
    split; [| exact Hw2].
    unfold path_end. simpl.
    destruct (decide (v ∈ SyntheticTree.leaves (MCTS.tree_env w)));
      [assumption | contradiction].
Qed.

(** *** Exceptions other than the overflow of the recursion limit *)

Lemma no_overflow_OK {A : Type} (a : A) : no_overflow (OK a).
Proof. discriminate. Qed.

Lemma no_overflow_raise {A : Type} (e : exn) :
  e <> RecursionError -> no_overflow (Raise e : res A).
Proof. intros He E. injection E as ->. contradiction. Qed.

Lemma no_overflow_bind {A B : Type} (r : res A) (f : A -> res B) :
  no_overflow r -> (forall a, no_overflow (f a)) -> no_overflow (r ≫= f).
Proof.
  intros Hr Hf. destruct r as [a|e]; [apply Hf |].
  intros E. apply Hr. injection E as ->. reflexivity.
Qed.

Lemma no_overflow_of_option {A : Type} (e : exn) (o : option A) :
  e <> RecursionError -> no_overflow (of_option e o).
Proof.
  destruct o; simpl; [intros _; apply no_overflow_OK |].
  apply no_overflow_raise.
Qed.

Lemma no_overflow_comprehension {A B : Type} (f : A -> res B)
    (l : list A) :
  (forall a, no_overflow (f a)) -> no_overflow (comprehension f l).
Proof.
  intros Hf. induction l as [|a l IH]; simpl; [apply no_overflow_OK |].
  apply (no_overflow_bind (f a)); [apply Hf | intros b].
  apply (no_overflow_bind (comprehension f l)); [exact IH | intros bs].
  apply no_overflow_OK.
Qed.

Lemma no_overflow_for_each {A S : Type} (body : A -> S -> res S)
    (l : list A) (s : S) :
  (forall a s, no_overflow (body a s)) -> no_overflow (for_each l body s).
Proof.
  intros Hb. revert s. induction l as [|a l IH]; intros s; simpl;
    [apply no_overflow_OK |].
  apply (no_overflow_bind (body a s)); [apply Hb | exact IH].
Qed.

Ltac quiet_res :=
  repeat first
    [ apply no_overflow_OK
    | apply no_overflow_raise; discriminate
    | apply no_overflow_of_option; discriminate
    | apply no_overflow_comprehension; intros ?
    | apply no_overflow_for_each; intros ? ?
    | apply no_overflow_bind; [| intros ?]
    | match goal with
      | |- no_overflow (if ?c then _ else _) => destruct c
      | |- no_overflow (match ?x with _ => _ end) => destruct x
      end ].

Lemma no_overflow_get_edge (G : DiGraph) (e : edge) :
  no_overflow (get_edge G e).
Proof. unfold get_edge. quiet_res. Qed.

Lemma no_overflow_get_node (G : DiGraph) (n : nat) :
  no_overflow (get_node G n).
Proof. unfold get_node. quiet_res. Qed.

Lemma no_overflow_edge_counts (G : DiGraph) (out_edges : list edge) :
  no_overflow (MCTS.edge_counts G out_edges).
Proof.
  unfold MCTS.edge_counts. apply no_overflow_comprehension. intros e.
  apply no_overflow_bind; [apply no_overflow_get_edge | intros d].
  apply no_overflow_OK.
Qed.

Lemma no_overflow_edge_values (G : DiGraph) (out_edges : list edge) :
  no_overflow (MCTS.edge_values G out_edges).
Proof.
  unfold MCTS.edge_values. apply no_overflow_comprehension. intros e.
  apply no_overflow_bind; [apply no_overflow_get_edge | intros d].
  apply no_overflow_OK.
Qed.

Lemma no_overflow_visitation_ratio (G : DiGraph) (out_edges : list edge) :
  no_overflow (MCTS.visitation_ratio G out_edges).
Proof.
  unfold MCTS.visitation_ratio. apply no_overflow_comprehension. intros e.
  apply no_overflow_bind; [apply no_overflow_get_edge | intros d].
  apply no_overflow_bind; [apply no_overflow_get_node | intros d'].
  apply no_overflow_OK.
Qed.

Lemma no_overflow_broadcast (f : Q -> Q -> Q) (a b : list Q) :
  no_overflow (npa.broadcast f a b).
Proof.
  unfold npa.broadcast.
  destruct (length a =? length b); [apply no_overflow_OK |].
  destruct a as [|x [|x' a]], b as [|y [|y' b]];
    first [apply no_overflow_OK | apply no_overflow_raise; discriminate].
Qed.

Lemma no_overflow_max (l : list Q) : no_overflow (np.max l).
Proof. unfold np.max. quiet_res. Qed.

Lemma no_overflow_take_idx (a : list Q) (kappa : list nat) :
  no_overflow (np.take_idx a kappa).
Proof.
  unfold np.take_idx. destruct kappa as [|i kappa];
    [apply no_overflow_raise; discriminate |].
  generalize (i :: kappa) as ks. intros ks.
  induction ks as [|j ks IH]; simpl; [apply no_overflow_OK |].
  apply (no_overflow_bind (of_option IndexError (a !! j)));
    [apply no_overflow_of_option; discriminate | intros x].
  apply (no_overflow_bind (np.take_idx_rec a ks)); [exact IH | intros l].
  apply no_overflow_OK.
Qed.

Lemma no_overflow_kappa_append (s : Q) (st : kappa_state) :
  no_overflow (kappa_append s st).
Proof. unfold kappa_append. quiet_res. Qed.

Lemma no_overflow_tents_kappa (qs : list Q) :
  no_overflow (MCTS.tents_kappa qs).
Proof.
  unfold MCTS.tents_kappa.
  apply no_overflow_bind; [| intros st; apply no_overflow_OK].
  apply no_overflow_for_each. intros i st.
  unfold MCTS.tents_kappa_body.
  apply no_overflow_bind;
    [apply no_overflow_of_option; discriminate | intros s].
  destruct (Qgt_bool _ _);
    [apply no_overflow_kappa_append | apply no_overflow_OK].
Qed.

Lemma no_overflow_uct_candidates (self : MCTS.t) (counts : list nat)
    (qs : list Q) :
  no_overflow (MCTS.uct_candidates self counts qs).
Proof.
  unfold MCTS.uct_candidates. destruct (0 <? sum_list counts).
  - apply no_overflow_bind; [apply no_overflow_broadcast | intros ucb].
    apply no_overflow_bind; [apply no_overflow_max | intros mx].
    apply no_overflow_OK.
  - destruct counts; [apply no_overflow_raise; discriminate |].
    apply no_overflow_OK.
Qed.

(** *** Quiet computations of the search *)

Lemma M_bind_Raise {A B : Type} (m : MCTS.M A) (f : A -> MCTS.M B)
    (w : MCTS.World) (e : exn) :
  (m ≫= f) w = Raise e ->
  m w = Raise e \/ exists a w1, m w = OK (a, w1) /\ f a w1 = Raise e.
Proof.
  unfold mbind, MCTS.M_bind. destruct (m w) as [[a w1]|e']; simpl.
  - intros E. right. eauto.
  - intros E. left. injection E as ->. reflexivity.
Qed.

Lemma quiet_bind {A B : Type} (m : MCTS.M A) (f : A -> MCTS.M B) :
  quiet m -> (forall a, quiet (f a)) -> quiet (m ≫= f).
Proof.
  intros Hm Hf w E. apply M_bind_Raise in E.
  destruct E as [E | (a & w1 & _ & E)]; [eapply Hm | eapply Hf]; eauto.
Qed.

Lemma quiet_ret {A : Type} (a : A) : quiet (mret a : MCTS.M A).
Proof. intros w. discriminate. Qed.

Lemma quiet_raise {A : Type} (e : exn) :
  e <> RecursionError -> quiet (MCTS.raise e : MCTS.M A).
Proof. intros He w E. injection E as ->. contradiction. Qed.

Lemma quiet_lift {A : Type} (r : res A) : no_overflow r -> quiet (MCTS.lift r).
Proof.
  intros Hr w. unfold MCTS.lift. destruct r as [a|e]; [discriminate |].
  intros E. apply Hr. injection E as ->. reflexivity.
Qed.

Lemma quiet_get_env : quiet MCTS.get_env.
Proof. intros w. discriminate. Qed.

Lemma quiet_next_draw : quiet MCTS.next_draw.
Proof. intros w. discriminate. Qed.

Lemma quiet_randint (n : nat) : quiet (MCTS.randint n).
Proof.
  unfold MCTS.randint. destruct (decide _).
  - apply quiet_raise. discriminate.
  - apply quiet_bind; [apply quiet_next_draw | intros t; apply quiet_ret].
Qed.

Lemma quiet_choice (a : list nat) : quiet (MCTS.choice a).
Proof.
  unfold MCTS.choice. apply quiet_bind; [apply quiet_randint | intros i].
  apply quiet_lift. apply no_overflow_of_option. discriminate.
Qed.

Lemma quiet_choice_p (n : nat) (probs : list Q) :
  quiet (MCTS.choice_p n probs).
Proof.
  unfold MCTS.choice_p. destruct (decide _).
  - apply quiet_raise. discriminate.
  - destruct (MCTS.valid_probs n probs);
      [apply quiet_randint | apply quiet_raise; discriminate].
Qed.

Lemma quiet_select_probs (self : MCTS.t) (G : DiGraph)
    (out_edges : list edge) (counts : list nat) (qs : list Q) :
  quiet (MCTS.select_probs self G out_edges counts qs).
Proof.
  unfold MCTS.select_probs.
  destruct (MCTS._algorithm self);
    try (apply quiet_raise; discriminate).
  - apply quiet_bind; [apply quiet_randint | intros j; apply quiet_ret].
  - apply quiet_bind;
      [apply quiet_lift, no_overflow_visitation_ratio | intros vr].
    apply quiet_bind.
    + apply quiet_lift. unfold MCTS.rents_probs.
      apply no_overflow_bind; [apply no_overflow_broadcast | intros x].
      apply no_overflow_OK.
    + intros probs.
      apply quiet_bind; [apply quiet_randint | intros j; apply quiet_ret].
  - apply quiet_lift. unfold MCTS.tents_probs.
    apply no_overflow_bind; [apply no_overflow_tents_kappa | intros kappa].
    apply no_overflow_bind; [apply no_overflow_take_idx | intros x].
    apply no_overflow_OK.
Qed.

(** [_select] makes no recursive call. *)
Lemma quiet_select (self : MCTS.t) : quiet (MCTS._select self).
Proof.
  unfold MCTS._select.
  apply quiet_bind; [apply quiet_get_env | intros env].
  apply quiet_bind; [apply quiet_lift, no_overflow_edge_counts | intros c].
  apply quiet_bind; [apply quiet_lift, no_overflow_edge_values | intros q].
  destruct (MCTS._algorithm self);
    (apply quiet_bind;
     [first [apply quiet_select_probs
            | apply quiet_lift, no_overflow_uct_candidates]
     | intros ?; first [apply quiet_choice | apply quiet_choice_p]]).
Qed.

End Selection.

(** ** The walk on a balanced tree *)

Section Walk.
Context {NP : Numpy} {RD : Random} {RT : Runtime}.
Local Open Scope nat_scope.

Lemma on_level_step (k d j : nat) (w w2 : MCTS.World) (e : edge) :
  on_level k d j w ->
  level_start k (S j) <= e.2 < level_start k (S (S j)) ->
  MCTS.tree_env w2 = SyntheticTree.set_state e.2 (MCTS.tree_env w) ->
  on_level k d (S j) w2.
Proof.
  intros (Hs & Hl & _) He Hw2. unfold on_level. rewrite Hw2. simpl.
  auto.
Qed.

(** A completed walk from level [j] has [d - j] edges. *)
Lemma navigate_length (k d : nat) (self : MCTS.t) :
  1 <= k ->
  forall fuel j w path w',
    j < d -> on_level k d j w ->
    MCTS._navigate_rec fuel self w = OK (path, w') ->
    length path = d - j.
Proof.
  intros Hk. induction fuel as [|fuel IH]; intros j w path w' Hj Hon Hrun;
    [discriminate |].
  simpl in Hrun.
  apply M_bind_OK in Hrun. destruct Hrun as (env & w1 & Henv & Hrun).
  apply get_env_OK in Henv. destruct Henv as [-> ->].
  apply M_bind_OK in Hrun. destruct Hrun as (a & w1 & Ha & Hrun).
  apply select_in_range in Ha. destruct Ha as [Hw1 _].
  apply M_bind_OK in Hrun. destruct Hrun as (next & w2 & Hstep & Hrun).
  apply step_OK in Hstep. rewrite Hw1 in Hstep.
  destruct Hstep as (e & He & -> & Hw2).
  apply M_bind_OK in Hrun. destruct Hrun as (env2 & w3 & Henv & Hrun).
  apply get_env_OK in Henv. destruct Henv as [-> ->].
  pose proof Hon as (Hs & Hl & Hx).
  destruct (walk_step k d j _ a _ e Hk Hs Hj Hx He) as [Hlevel Hleaf].
  rewrite Hw2 in Hrun. simpl in Hrun. rewrite Hl in Hrun.
  destruct (decide (e.2 ∉ _)) as [Hnot | Hin].
  - apply M_bind_OK in Hrun. destruct Hrun as (rest & w3 & Hrest & Hrun).
    apply M_ret_OK in Hrun. destruct Hrun as [-> ->].
    assert (Hj' : S j < d).
    { destruct (decide (S j = d)) as [E | E]; [| lia].
      exfalso. apply Hnot. now apply Hleaf. }
    simpl. rewrite (IH (S j) w2 rest w3 Hj'); [lia | | exact Hrest].
    eapply on_level_step; eauto.
  - apply M_ret_OK in Hrun. destruct Hrun as [-> ->].
    assert (S j = d); [| simpl; lia].
    apply Hleaf.
    destruct (decide (e.2 ∈ SyntheticTree.compute_leaves
                              (SyntheticTree._tree (MCTS.tree_env w))));
      [assumption | contradiction].
Qed.

(** With [d - j] levels of recursion left, a walk from level [j] does not
    hit the recursion limit. *)
Lemma navigate_quiet (k d : nat) (self : MCTS.t) :
  1 <= k ->
  forall fuel j w,
    j < d -> d - j <= fuel -> on_level k d j w ->
    MCTS._navigate_rec fuel self w <> Raise RecursionError.
Proof.
  intros Hk. induction fuel as [|fuel IH]; intros j w Hj Hfuel Hon Hrun;
    [lia |].
  simpl in Hrun.
  apply M_bind_Raise in Hrun.
  destruct Hrun as [Hrun | (env & w1 & Henv & Hrun)]; [discriminate |].
  apply get_env_OK in Henv. destruct Henv as [-> ->].
  apply M_bind_Raise in Hrun.
  destruct Hrun as [Hrun | (a & w1 & Ha & Hrun)];
    [now apply quiet_select in Hrun |].
  apply select_in_range in Ha. destruct Ha as [Hw1 Hrange].
  destruct (step_total a w1) as (next & w2 & Hstep);
    [now rewrite Hw1 |].
  rewrite (M_bind_eq _ _ _ _ _ Hstep) in Hrun.
  apply step_OK in Hstep. rewrite Hw1 in Hstep.
  destruct Hstep as (e & He & -> & Hw2).
  apply M_bind_Raise in Hrun.
  destruct Hrun as [Hrun | (env2 & w3 & Henv & Hrun)]; [discriminate |].
  apply get_env_OK in Henv. destruct Henv as [-> ->].
  pose proof Hon as (Hs & Hl & Hx).
  destruct (walk_step k d j _ a _ e Hk Hs Hj Hx He) as [Hlevel Hleaf].
  rewrite Hw2 in Hrun. simpl in Hrun. rewrite Hl in Hrun.
  destruct (decide (e.2 ∉ _)) as [Hnot | Hin]; [| discriminate].
  assert (Hj' : S j < d).
  { destruct (decide (S j = d)) as [E | E]; [| lia].
    exfalso. apply Hnot. now apply Hleaf. }
  apply M_bind_Raise in Hrun.
  destruct Hrun as [Hrun | (rest & w3 & _ & Hrun)]; [| discriminate].
  revert Hrun. apply (IH (S j)); [assumption | lia |].
  eapply on_level_step; eauto.
Qed.

(** *** uct always selects *)

Lemma comprehension_total {A B : Type} (f : A -> res B) (l : list A) :
  (forall a, a ∈ l -> exists b, f a = OK b) ->
  exists bs, comprehension f l = OK bs.
Proof.
  induction l as [|a l IH]; intros Hf; simpl; [eauto |].
  destruct (Hf a ltac:(left)) as [b ->].
  destruct IH as [bs ->]; [intros a' Ha'; apply Hf; now right |].
  simpl. eauto.
Qed.

Lemma max_attained (l : list Q) (mx : Q) :
  np.max l = OK mx -> (0 < cnt mx (map Some l)).
Proof.
  destruct l as [|x l]; [discriminate |]. intros E. injection E as <-.
  assert (Hmem : exists y, y ∈ x :: l /\ (y == foldr Qmax x l)%Q).
  { induction l as [|a l IH]; simpl.
    - exists x. split; [left | reflexivity].
    - destruct (Q.max_dec a (foldr Qmax x l)) as [E | E].
      + exists a. split; [right; left | now symmetry].
      + destruct IH as (y & Hy & Heq). exists y. split.
        * apply elem_of_cons in Hy. destruct Hy as [-> | Hy];
            [left | right; now right].
        * now rewrite E. }
  destruct Hmem as (y & Hy & Heq).
  generalize dependent (foldr Qmax x l). intros v Heq.
  induction Hy as [y l' | y z l' _ IH]; simpl.
  - apply Qeq_bool_iff in Heq. rewrite Heq. lia.
  - specialize (IH Heq). destruct (Qeq_bool z v); lia.
Qed.

Lemma uct_candidates_total (self : MCTS.t) (counts : list nat)
    (qs : list Q) :
  length qs = length counts -> counts <> [] ->
  exists cands, MCTS.uct_candidates self counts qs = OK cands
                /\ cands <> [].
Proof.
  intros Hlen Hne. unfold MCTS.uct_candidates.
  destruct (0 <? sum_list counts).
  - rewrite broadcast_same_length by (now rewrite length_map). simpl.
    set (ucb := zip_with _ _ _).
    assert (Hucb : ucb <> []).
    { destruct counts, qs; try discriminate; congruence. }
    destruct (np.max ucb) as [mx|e] eqn:Hmx;
      [| destruct ucb; [congruence | discriminate]].
    simpl. eexists. split; [reflexivity |].
    apply max_attained in Hmx.
    destruct (argwhere_from_head 0 _ _ Hmx) as (j & y & Hh & _).
    unfold np.argwhere_eq. intros E. rewrite E in Hh. discriminate.
  - destruct counts as [|c counts]; [congruence |].
    eexists. split; [reflexivity | discriminate].
Qed.

Lemma edge_attr_total {B : Type} (g : EdgeData -> B) (G : DiGraph) (x : nat) :
  edges_initialised G ->
  exists bs, comprehension (fun e => d ← get_edge G e; OK (g d))
                           (nx.edges_of G x) = OK bs.
Proof.
  intros Hinit. apply comprehension_total. intros e He.
  apply edges_of_elem in He. destruct He as [He _].
  destruct (Hinit e He) as [d Hd]. exists (g d).
  unfold get_edge. now rewrite Hd.
Qed.

Lemma select_uct_total (self : MCTS.t) (w : MCTS.World) :
  MCTS._algorithm self = uct ->
  edges_initialised (SyntheticTree._tree (MCTS.tree_env w)) ->
  nx.edges_of (SyntheticTree._tree (MCTS.tree_env w))
              (SyntheticTree.state (MCTS.tree_env w)) <> [] ->
  exists a w', MCTS._select self w = OK (a, w').
Proof.
  intros Halg Hinit Hne. unfold MCTS._select.
  unfold mbind at 1, MCTS.M_bind at 1. simpl.
  destruct (edge_attr_total e_N _ (SyntheticTree.state (MCTS.tree_env w))
              Hinit) as (counts & Hc).
  destruct (edge_attr_total e_Q _ (SyntheticTree.state (MCTS.tree_env w))
              Hinit) as (qs & Hq).
  unfold MCTS.edge_counts, MCTS.edge_values.
  unfold mbind at 1, MCTS.M_bind at 1. rewrite Hc. simpl.
  unfold mbind at 1, MCTS.M_bind at 1. rewrite Hq. simpl.
  rewrite Halg.
  apply comprehension_length in Hc, Hq.
  destruct (uct_candidates_total self counts qs) as (cands & Hcands & Hcne).
  { congruence. }
  { destruct counts; [| discriminate].
    destruct (nx.edges_of _ _); [congruence | discriminate]. }
  unfold mbind at 1, MCTS.M_bind at 1. rewrite Hcands. simpl.
  now apply choice_total.
Qed.

(** Under uct, on a tree whose edge dicts are initialised, the walk
    returns. *)
Lemma navigate_uct_total (k d : nat) (self : MCTS.t) :
  1 <= k -> MCTS._algorithm self = uct ->
  forall fuel j w,
    j < d -> d - j <= fuel -> on_level k d j w ->
    edges_initialised (SyntheticTree._tree (MCTS.tree_env w)) ->
    exists path w', MCTS._navigate_rec fuel self w = OK (path, w').
Proof.
  intros Hk Halg.
  induction fuel as [|fuel IH]; intros j w Hj Hfuel Hon Hinit; [lia |].
  pose proof Hon as (Hs & Hl & Hx).
  destruct (select_uct_total self w Halg Hinit) as (a & w1 & Hsel).
  { eapply shape_out_edges_nonempty; eauto. }
  simpl. unfold mbind at 1, MCTS.M_bind at 1. simpl.
  rewrite (M_bind_eq _ _ _ _ _ Hsel).
  apply select_in_range in Hsel. destruct Hsel as [Hw1 Hrange].
  destruct (step_total a w1) as (next & w2 & Hstep);
    [now rewrite Hw1 |].
  rewrite (M_bind_eq _ _ _ _ _ Hstep).
  apply step_OK in Hstep. rewrite Hw1 in Hstep.
  destruct Hstep as (e & He & -> & Hw2).
  unfold mbind at 1, MCTS.M_bind at 1. simpl.
  destruct (walk_step k d j _ a _ e Hk Hs Hj Hx He) as [Hlevel Hleaf].
  rewrite Hw2. simpl. rewrite Hl.
  destruct (decide (e.2 ∉ _)) as [Hnot | Hin]; [| eexists _, _; reflexivity].
  assert (Hj' : S j < d).
  { destruct (decide (S j = d)) as [E | E]; [| lia].
    exfalso. apply Hnot. now apply Hleaf. }
  destruct (IH (S j) w2 Hj' ltac:(lia)) as (rest & w3 & Hrest).
  { eapply on_level_step; eauto. }
  { rewrite Hw2. exact Hinit. }
  rewrite (M_bind_eq _ _ _ _ _ Hrest). eexists _, _. reflexivity.
Qed.

(** C10. On a tree of the shape of [balanced_tree(k, d)] with [k >= 1]
    and [d >= 1], whose [leaves] are those the constructor computes, a
    walk from the root that returns has made exactly [d] steps: the path
    is a chain of [d] edges of the tree from the root to a node of
    [leaves], where the cursor is left. With a recursion limit of at
    least [d] the walk never exceeds it, whatever [_select] does; and
    under uct, the edge dicts being initialised, the walk returns. *)
Theorem navigate_depth (k d : nat) (self : MCTS.t) (w : MCTS.World) :
  let env := MCTS.tree_env w in
  let G := SyntheticTree._tree env in
  1 <= k -> 1 <= d -> d <= recursion_limit ->
  balanced_shape k d G ->
  SyntheticTree.leaves env = SyntheticTree.compute_leaves G ->
  SyntheticTree.state env = 0 ->
  (forall path w',
     MCTS._navigate self w = OK (path, w') ->
     length path = d
     /\ chain 0 path
     /\ Forall (fun e => e ∈ edges G) path
     /\ path_end 0 path ∈ SyntheticTree.leaves env
     /\ MCTS.tree_env w' = SyntheticTree.set_state (path_end 0 path) env)
  /\ MCTS._navigate self w <> Raise RecursionError
  /\ (MCTS._algorithm self = uct -> edges_initialised G ->
      exists path w', MCTS._navigate self w = OK (path, w')).
Proof.
  intros env G Hk Hd Hlimit Hs Hl Hroot.
  assert (Hon : on_level k d 0 w).
  { split; [exact Hs |]. split; [exact Hl |].
    fold env. rewrite Hroot. simpl. lia. }
  unfold MCTS._navigate. split; [| split].
  - intros path w' Hrun.
    pose proof (navigate_length k d self Hk _ 0 w path w' ltac:(lia) Hon Hrun)
      as Hlen.
    apply navigate_chain in Hrun. fold env in Hrun. rewrite Hroot in Hrun.
    destruct Hrun as (_ & Hchain & Hall & Hend & Henv).
    split; [lia |]. auto.
  - apply (navigate_quiet k d self Hk _ 0); first [lia | exact Hon].
  - intros Halg Hinit.
    apply (navigate_uct_total k d self Hk Halg _ 0);
      first [lia | assumption].
Qed.

End Walk.

Lemma navigate_depth_witness :
  (1 <= 2)%nat /\ (1 <= 1)%nat /\ (1 <= @recursion_limit python_runtime)%nat
  /\ balanced_shape 2 1 two_leaves_graph
  /\ SyntheticTree.leaves two_leaves
     = SyntheticTree.compute_leaves two_leaves_graph
  /\ SyntheticTree.state two_leaves = 0%nat
  /\ MCTS._algorithm plain_uct = uct
  /\ edges_initialised two_leaves_graph
  /\ exists path w',
       @MCTS._navigate series_numpy counting_random python_runtime
         plain_uct two_leaves_world = OK (path, w')
       /\ length path = 1%nat
       /\ chain 0 path
       /\ path_end 0 path ∈ SyntheticTree.leaves two_leaves.
Proof.
  assert (H1 : (1 <= 2)%nat) by lia.
  assert (H2 : (1 <= 1)%nat) by lia.
  assert (H3 : (1 <= @recursion_limit python_runtime)%nat)
    by (vm_compute; lia).
  assert (H4 : balanced_shape 2 1 two_leaves_graph) by (split; reflexivity).
  assert (H5 : SyntheticTree.leaves two_leaves
               = SyntheticTree.compute_leaves two_leaves_graph)
    by reflexivity.
  assert (H6 : edges_initialised two_leaves_graph).
  { intros e He. simpl in He.
    apply elem_of_cons in He. destruct He as [-> | He]; [now eexists |].
    apply elem_of_cons in He. destruct He as [-> | He]; [now eexists |].
    now apply elem_of_nil in He. }
  do 8 (split; [first [assumption | reflexivity] |]).
  destruct (@navigate_depth series_numpy counting_random python_runtime
              2 1 plain_uct two_leaves_world H1 H2 H3 H4 H5 eq_refl)
    as (Hpath & _ & Htotal).
  destruct (Htotal eq_refl H6) as (path & w' & Hrun).
  exists path, w'. split; [exact Hrun |].
  destruct (Hpath path w' Hrun) as (Hlen & Hchain & _ & Hend & _).
  auto.
Defined.

(** ** Visit counts *)

Section Visits.
Context {NP : Numpy} {RD : Random} {RT : Runtime}.
Local Open Scope nat_scope.

Lemma occurrences_nil {A : Type} `{EqDecision A} (x : A) :
  occurrences x [] = 0.
Proof. reflexivity. Qed.

Lemma occurrences_cons {A : Type} `{EqDecision A} (x y : A) (l : list A) :
  occurrences x (y :: l)
  = (if decide (y = x) then 1 else 0) + occurrences x l.
Proof.
  unfold occurrences. rewrite filter_cons.
  destruct (decide (y = x)); reflexivity.
Qed.

Lemma occurrences_app {A : Type} `{EqDecision A} (x : A) (l1 l2 : list A) :
  occurrences x (l1 ++ l2) = occurrences x l1 + occurrences x l2.
Proof. unfold occurrences. now rewrite filter_app, length_app. Qed.

Lemma occurrences_rev {A : Type} `{EqDecision A} (x : A) (l : list A) :
  occurrences x (rev l) = occurrences x l.
Proof.
  induction l as [|y l IH]; [reflexivity |].
  simpl rev. rewrite occurrences_app, IH, !occurrences_cons, occurrences_nil.
  lia.
Qed.

Lemma occurrences_not_in {A : Type} `{EqDecision A} (x : A) (l : list A) :
  x ∉ l -> occurrences x l = 0.
Proof.
  induction l as [|y l IH]; intros Hx; [reflexivity |].
  apply not_elem_of_cons in Hx. destruct Hx as [Hne Hx].
  rewrite occurrences_cons, IH by assumption.
  destruct (decide (y = x)); [congruence | reflexivity].
Qed.

Lemma occurrences_NoDup {A : Type} `{EqDecision A} (x : A) (l : list A) :
  NoDup l -> occurrences x l = if decide (x ∈ l) then 1 else 0.
Proof.
  induction 1 as [|y l Hy Hnd IH].
  - destruct (decide (x ∈ [])) as [Hin|]; [| reflexivity].
    now apply elem_of_nil in Hin.
  - rewrite occurrences_cons.
    destruct (decide (y = x)) as [-> | Hne].
    + rewrite occurrences_not_in by assumption.
      destruct (decide (x ∈ x :: l)) as [|Hn]; [reflexivity |].
      exfalso. apply Hn. left.
    + rewrite IH. destruct (decide (x ∈ l)) as [Hin | Hnin].
      * destruct (decide (x ∈ y :: l)) as [|Hn]; [reflexivity |].
        exfalso. apply Hn. now right.
      * destruct (decide (x ∈ y :: l)) as [Hin |]; [| reflexivity].
        apply elem_of_cons in Hin. destruct Hin; congruence.
Qed.

(** *** Composing the growth of the counts *)

Lemma bumped_refl (w : MCTS.World) : bumped [] [] w w.
Proof.
  split; intros x; rewrite occurrences_nil.
  - destruct (visits_node w x); simpl; [f_equal; lia | reflexivity].
  - destruct (visits_edge w x); simpl; [f_equal; lia | reflexivity].
Qed.

Lemma bumped_trans (ns1 ns2 : list nat) (es1 es2 : list edge)
    (w1 w2 w3 : MCTS.World) :
  bumped ns1 es1 w1 w2 -> bumped ns2 es2 w2 w3 ->
  bumped (ns1 ++ ns2) (es1 ++ es2) w1 w3.
Proof.
  intros [Hn1 He1] [Hn2 He2]. split; intros x.
  - rewrite Hn2, Hn1, occurrences_app.
    destruct (visits_node w1 x); simpl; [f_equal; lia | reflexivity].
  - rewrite He2, He1, occurrences_app.
    destruct (visits_edge w1 x); simpl; [f_equal; lia | reflexivity].
Qed.

Lemma bumped_same_tree (w w' : MCTS.World) :
  SyntheticTree._tree (MCTS.tree_env w')
  = SyntheticTree._tree (MCTS.tree_env w) ->
  bumped [] [] w w'.
Proof.
  intros Ht. destruct (bumped_refl w) as [Hn He].
  split; intros x.
  - rewrite <- Hn. unfold visits_node. now rewrite Ht.
  - rewrite <- He. unfold visits_edge. now rewrite Ht.
Qed.

Lemma counts_bind {A B : Type} (m : MCTS.M A) (f : A -> MCTS.M B)
    (ns1 ns2 : list nat) (es1 es2 : list edge) :
  counts_as m ns1 es1 -> (forall a, counts_as (f a) ns2 es2) ->
  counts_as (m ≫= f) (ns1 ++ ns2) (es1 ++ es2).
Proof.
  intros Hm Hf w b w' E. apply M_bind_OK in E.
  destruct E as (a & w1 & E1 & E2).
  eapply bumped_trans; [eapply Hm | eapply Hf]; eauto.
Qed.

Lemma counts_read {A : Type} (m : MCTS.M A) :
  preserves SyntheticTree._tree m -> counts_as m [] [].
Proof. intros Hm w a w' E. apply bumped_same_tree. eapply Hm; eauto. Qed.

Lemma counts_bind_read {A B : Type} (m : MCTS.M A) (f : A -> MCTS.M B)
    (ns : list nat) (es : list edge) :
  preserves SyntheticTree._tree m -> (forall a, counts_as (f a) ns es) ->
  counts_as (m ≫= f) ns es.
Proof.
  intros Hm Hf.
  apply (counts_bind m f [] ns [] es); [now apply counts_read | exact Hf].
Qed.

Lemma counts_bind_nil {A B : Type} (m : MCTS.M A) (f : A -> MCTS.M B)
    (ns : list nat) (es : list edge) :
  counts_as m ns es -> (forall a, counts_as (f a) [] []) ->
  counts_as (m ≫= f) ns es.
Proof.
  intros Hm Hf. rewrite <- (app_nil_r ns), <- (app_nil_r es).
  now apply counts_bind.
Qed.

Lemma counts_set_node (n : nat) (f : NodeData -> NodeData) (c : nat) :
  (forall d, n_N (f d) = n_N d + c) ->
  counts_as (MCTS.set_node n f) (replicate c n) [].
Proof.
  intros Hf w u w' E. apply set_node_OK in E. destruct E as (d & Hd & Hw').
  split; intros x.
  - unfold visits_node. rewrite Hw'. simpl.
    destruct (decide (x = n)) as [-> | Hne].
    + rewrite lookup_insert_eq, Hd. simpl. f_equal. rewrite Hf. f_equal.
      clear. induction c as [|c IH]; [reflexivity |].
      simpl replicate. rewrite occurrences_cons, <- IH.
      destruct (decide (n = n)); [reflexivity | congruence].
    + rewrite lookup_insert_ne by congruence.
      rewrite occurrences_not_in.
      * destruct (node_data _ !! x); simpl; [f_equal; lia | reflexivity].
      * intros Hin. apply elem_of_replicate in Hin. destruct Hin; congruence.
  - unfold visits_edge. rewrite Hw'. simpl. rewrite occurrences_nil.
    destruct (edge_data _ !! x); simpl; [f_equal; lia | reflexivity].
Qed.

Lemma counts_set_edge (e : edge) (f : EdgeData -> EdgeData) (c : nat) :
  (forall d, e_N (f d) = e_N d + c) ->
  counts_as (MCTS.set_edge e f) [] (replicate c e).
Proof.
  intros Hf w u w' E. apply set_edge_OK in E. destruct E as (d & Hd & Hw').
  split; intros x.
  - unfold visits_node. rewrite Hw'. simpl. rewrite occurrences_nil.
    destruct (node_data _ !! x); simpl; [f_equal; lia | reflexivity].
  - unfold visits_edge. rewrite Hw'. simpl.
    destruct (decide (x = e)) as [-> | Hne].
    + rewrite lookup_insert_eq, Hd. simpl. f_equal. rewrite Hf. f_equal.
      clear. induction c as [|c IH]; [reflexivity |].
      simpl replicate. rewrite occurrences_cons, <- IH.
      destruct (decide (e = e)); [reflexivity | congruence].
    + rewrite lookup_insert_ne by congruence.
      rewrite occurrences_not_in.
      * destruct (edge_data _ !! x); simpl; [f_equal; lia | reflexivity].
      * intros Hin. apply elem_of_replicate in Hin. destruct Hin; congruence.
Qed.

(** One pass of the backup visits the edge and its source once. *)
Lemma counts_backup (self : MCTS.t) (e : edge) :
  counts_as (MCTS.backup self e) [e.1] [e].
Proof.
  unfold MCTS.backup.
  apply counts_bind_read; [apply preserves_get_tree | intros G].
  apply counts_bind_read; [apply preserves_lift | intros d1].
  apply counts_bind_read; [apply preserves_lift | intros d2].
  apply (counts_bind _ _ [] [e.1] [] [e]);
    [apply (counts_set_edge e _ 0); intros d; simpl; lia | intros _].
  apply (counts_bind _ _ [] [e.1] [e] []);
    [apply (counts_set_edge e _ 1); intros d; reflexivity | intros _].
  apply counts_bind_read; [apply preserves_get_tree | intros G'].
  apply counts_bind_read; [apply preserves_lift | intros v].
  apply (counts_bind _ _ [] [e.1] [] []);
    [apply (counts_set_node e.1 _ 0); intros d; simpl; lia |].
  intros _. apply (counts_set_node e.1 _ 1). intros d. reflexivity.
Qed.

Lemma counts_for_backup (self : MCTS.t) (path : list edge) :
  counts_as (MCTS.for_M path (MCTS.backup self)) (path.*1) path.
Proof.
  induction path as [|e path IH]; simpl.
  - apply counts_read, preserves_ret.
  - apply (counts_bind _ _ [e.1] (path.*1) [e] path);
      [apply counts_backup | intros _; exact IH].
Qed.

(** *** The nodes of a walk are distinct *)

Lemma chain_distinct (path : list edge) :
  forall s,
    chain s path -> Forall (fun e : edge => e.1 < e.2) path ->
    Forall (fun x => s <= x) (path.*1)
    /\ s <= path_end s path
    /\ (path <> [] -> s < path_end s path)
    /\ NoDup (path_end s path :: path.*1).
Proof.
  induction path as [|e rest IH]; intros s Hchain Hinc.
  - simpl. repeat split; try constructor; try lia; try congruence.
    + apply not_elem_of_nil.
    + constructor.
  - destruct Hchain as [Hsrc Hchain].
    apply Forall_cons in Hinc. destruct Hinc as [He Hinc].
    destruct (IH e.2 Hchain Hinc) as (Hall & Hle & _ & Hnd).
    rewrite path_end_cons, fmap_cons. rewrite Hsrc in *.
    apply NoDup_cons in Hnd. destruct Hnd as [Hpe Hnd].
    assert (Hs : s ∉ rest.*1).
    { intros Hin. rewrite Forall_forall in Hall. apply Hall in Hin. lia. }
    split; [| split; [lia | split; [lia |]]].
    + constructor; [lia |].
      eapply Forall_impl; [exact Hall | simpl; intros; lia].
    + constructor.
      * intros Hin. apply elem_of_cons in Hin. destruct Hin; [lia | auto].
      * constructor; assumption.
Qed.

Lemma path_end_last (path : list edge) :
  forall s e,
    path !! (length path - 1) = Some e -> path_end s path = e.2.
Proof.
  induction path as [|a rest IH]; intros s e He; [discriminate |].
  rewrite path_end_cons. destruct rest as [|b rest].
  - simpl in He. injection He as <-. reflexivity.
  - apply IH.
    replace (length (a :: b :: rest) - 1) with (S (length (b :: rest) - 1))
      in He by (simpl; lia).
    exact He.
Qed.

Lemma occurrences_sources_rev (x : nat) (path : list edge) :
  occurrences x ((rev path).*1) = occurrences x (path.*1).
Proof.
  induction path as [|e path IH]; [reflexivity |].
  simpl rev. rewrite fmap_app, occurrences_app, IH, !fmap_cons, fmap_nil.
  rewrite !occurrences_cons, occurrences_nil. lia.
Qed.

Lemma preserves_tree_navigate (fuel : nat) (self : MCTS.t) :
  preserves SyntheticTree._tree (MCTS._navigate_rec fuel self).
Proof.
  intros w path w' Hrun. apply navigate_chain in Hrun.
  destruct Hrun as (_ & _ & _ & _ & ->). reflexivity.
Qed.

(** What a completed simulation does to the visit counts, in terms of
    the path of its walk. *)
Lemma simulation_bumped (self : MCTS.t) (w w' : MCTS.World) (v : Q) :
  MCTS._simulation self w = OK (v, w') ->
  exists path w1,
    MCTS._navigate self w = OK (path, w1)
    /\ bumped (path_end (SyntheticTree.state (MCTS.tree_env w)) path
               :: (rev path).*1)
              (rev path) w w'.
Proof.
  unfold MCTS._simulation. intros Hrun.
  apply M_bind_OK in Hrun. destruct Hrun as (path & w1 & Hnav & Hrun).
  exists path, w1. split; [exact Hnav |].
  pose proof (preserves_tree_navigate _ _ _ _ _ Hnav) as Htree.
  apply navigate_chain in Hnav. destruct Hnav as (Hne & _).
  apply M_bind_OK in Hrun. destruct Hrun as (last & w2 & Hlast & Hrun).
  apply lift_OK in Hlast. destruct Hlast as [Hlast ->].
  rewrite py_index_from_end in Hlast
    by (destruct path; [congruence | simpl length; lia]).
  apply of_option_OK in Hlast.
  replace (Z.to_nat (Z.of_nat (length path) + -1)) with (length path - 1)
    in Hlast by lia.
  rewrite (path_end_last path _ last Hlast).
  apply (bumped_trans [] _ [] _ w w1 w');
    [now apply bumped_same_tree |].
  match type of Hrun with
  | ?m w1 = _ =>
      cut (counts_as m (last.2 :: (rev path).*1) (rev path));
        [intros Hc; exact (Hc _ _ _ Hrun) |]
  end.
  clear.
  apply counts_bind_read; [apply preserves_get_tree | intros G].
  apply counts_bind_read; [apply preserves_lift | intros leaf_node].
  apply counts_bind_read; [apply preserves_rollout | intros r].
  apply (counts_bind _ _ [] (last.2 :: (rev path).*1) [] (rev path));
    [apply (counts_set_node last.2 _ 0); intros d; simpl; lia | intros _].
  apply (counts_bind _ _ [last.2] ((rev path).*1) [] (rev path));
    [apply (counts_set_node last.2 _ 1); intros d; reflexivity | intros _].
  apply counts_bind_nil; [apply counts_for_backup | intros _].
  apply counts_bind_read; [apply preserves_get_tree | intros G'].
  apply counts_bind_read; [apply preserves_lift | intros root].
  apply counts_read, preserves_ret.
Qed.

Lemma shape_increasing (k d : nat) (G : DiGraph) :
  balanced_shape k d G -> increasing G.
Proof.
  intros Hs [u v] He.
  assert (Hin : (u, v) ∈ nx.edges_of G u) by (now apply edges_of_elem).
  rewrite (shape_edges_of k d) in Hin by assumption.
  destruct (decide (u < level_start k d)); [| now apply elem_of_nil in Hin].
  apply list_elem_of_fmap in Hin. destruct Hin as (c & Ec & Hc).
  injection Ec as ->.
  apply elem_of_seq in Hc. simpl. nia.
Qed.

Lemma simulation_visits (self : MCTS.t) (w w' : MCTS.World) (v : Q) :
  increasing (SyntheticTree._tree (MCTS.tree_env w)) ->
  MCTS._simulation self w = OK (v, w') ->
  exists path w1,
    MCTS._navigate self w = OK (path, w1)
    /\ chain (SyntheticTree.state (MCTS.tree_env w)) path
    /\ path <> []
    /\ let leaf := path_end (SyntheticTree.state (MCTS.tree_env w)) path in
       leaf ∈ SyntheticTree.leaves (MCTS.tree_env w)
       /\ (forall x,
             visits_node w' x
             = (fun n => n + if decide (x ∈ leaf :: path.*1) then 1 else 0)
               <$> visits_node w x)
       /\ (forall e,
             visits_edge w' e
             = (fun n => n + if decide (e ∈ path) then 1 else 0)
               <$> visits_edge w e).
Proof.
  intros Hinc Hrun. apply simulation_bumped in Hrun.
  destruct Hrun as (path & w1 & Hnav & Hn & He).
  exists path, w1. split; [exact Hnav |].
  apply navigate_chain in Hnav.
  destruct Hnav as (Hne & Hchain & Hall & Hleaf & _).
  assert (Hall' : Forall (fun e : edge => e.1 < e.2) path).
  { eapply Forall_impl; [exact Hall | exact Hinc]. }
  destruct (chain_distinct path _ Hchain Hall') as (_ & _ & _ & Hnd).
  split; [exact Hchain |]. split; [exact Hne |].
  split; [exact Hleaf |]. split.
  - intros x. rewrite Hn. f_equal.
    rewrite <- (occurrences_NoDup x _ Hnd).
    now rewrite !occurrences_cons, occurrences_sources_rev.
  - intros e. rewrite He. f_equal.
    rewrite occurrences_rev. rewrite occurrences_NoDup; [reflexivity |].
    apply NoDup_cons in Hnd. destruct Hnd as [_ Hnd].
    eapply NoDup_fmap_1; eauto.
Qed.

Lemma run_root_visits (self : MCTS.t) (n : nat) :
  forall (m : nat) (w w' : MCTS.World) (v_hat : list Q),
    increasing (SyntheticTree._tree (MCTS.tree_env w)) ->
    visits_node w 0 = Some m ->
    MCTS.run self n w = OK (v_hat, w') ->
    visits_node w' 0 = Some (m + n).
Proof.
  unfold MCTS.run.
  induction n as [|n IH]; intros m w w' v_hat Hinc Hm Hrun; simpl in Hrun.
  - apply M_ret_OK in Hrun. destruct Hrun as [_ ->].
    now rewrite Nat.add_0_r.
  - apply M_bind_OK in Hrun. destruct Hrun as (s & w1 & Hreset & Hrun).
    unfold MCTS.reset in Hreset. injection Hreset as _ <-.
    apply M_bind_OK in Hrun. destruct Hrun as (v & w2 & Hsim & Hrun).
    apply M_bind_OK in Hrun. destruct Hrun as (vs & w3 & Hrest & Hrun).
    apply M_ret_OK in Hrun. destruct Hrun as [_ ->].
    pose proof (stable_simulation self _ _ _ Hsim) as Hstatic.
    apply simulation_visits in Hsim; [| exact Hinc].
    destruct Hsim as (path & w1 & _ & Hchain & Hne & _ & Hn & _).
    simpl in Hchain, Hn.
    replace (m + S n) with (S m + n) by lia.
    apply (IH (S m) w2 w3 vs); [| | exact Hrest].
    + unfold increasing.
      apply (f_equal s_edges) in Hstatic. simpl in Hstatic.
      rewrite Hstatic. exact Hinc.
    + rewrite Hn. unfold visits_node in *. simpl. rewrite Hm. simpl.
      f_equal.
      destruct path as [|e path]; [congruence |].
      destruct Hchain as [Hsrc _].
      destruct (decide (0 ∈ _ :: (e :: path).*1)) as [|Hn0]; [lia |].
      exfalso. apply Hn0. right. rewrite fmap_cons, Hsrc. left.
Qed.

(** C9. A completed simulation raises by exactly 1 the visit count of
    the leaf its walk reaches, of every edge of the path and of the
    source of every edge of the path (the root among them), and leaves
    every other count as it was. Hence, when [run] with [n] simulations
    returns on a freshly constructed tree, the root has ['N'] equal to
    [n]. *)
Theorem visit_counts :
  (forall (self : MCTS.t) (w w' : MCTS.World) (v : Q),
     increasing (SyntheticTree._tree (MCTS.tree_env w)) ->
     MCTS._simulation self w = OK (v, w') ->
     exists path w1,
       MCTS._navigate self w = OK (path, w1)
       /\ chain (SyntheticTree.state (MCTS.tree_env w)) path
       /\ path <> []
       /\ let leaf :=
            path_end (SyntheticTree.state (MCTS.tree_env w)) path in
          leaf ∈ SyntheticTree.leaves (MCTS.tree_env w)
          /\ (forall x,
                visits_node w' x
                = (fun n => n + if decide (x ∈ leaf :: path.*1)
                                then 1 else 0)
                  <$> visits_node w x)
          /\ (forall e,
                visits_edge w' e
                = (fun n => n + if decide (e ∈ path) then 1 else 0)
                  <$> visits_edge w e))
  /\ (forall (k d : nat) (alg : algorithm) (tau alpha gamma : Q)
             (t : SyntheticTree.t) (self : MCTS.t) (n : nat)
             (w' : MCTS.World) (v_hat : list Q),
        SyntheticTree.__init__ k d alg tau alpha gamma = OK t ->
        MCTS.run self n {| MCTS.tree_env := t; MCTS.draws := 0 |}
        = OK (v_hat, w') ->
        visits_node w' 0 = Some n).
Proof.
  split; [exact simulation_visits |].
  intros k d alg tau alpha gamma t self n w' v_hat Hinit Hrun.
  pose proof (init_shape _ _ _ _ _ _ _ Hinit) as (Hshape & _ & _).
  apply (run_root_visits self n 0 _ w' v_hat) in Hrun; [exact Hrun | |].
  - simpl. eapply shape_increasing; eauto.
  - unfold visits_node. simpl.
    apply (init_unvisited k d alg tau alpha gamma); [exact Hinit |].
    simpl. rewrite balanced_order_level. apply elem_of_seq. simpl. lia.
Qed.

End Visits.

Lemma visit_counts_witness :
  exists t v_hat w',
    @SyntheticTree.__init__ series_numpy counting_random python_runtime
      2 2 uct 1 2 1 = OK t
    /\ @MCTS.run series_numpy counting_random python_runtime plain_uct 5
         {| MCTS.tree_env := t; MCTS.draws := 0 |} = OK (v_hat, w')
    /\ visits_node w' 0 = Some 5%nat.
Proof.
  destruct (@SyntheticTree.__init__ series_numpy counting_random
              python_runtime 2 2 uct 1 2 1) as [t|e] eqn:Einit;
    [| vm_compute in Einit; discriminate].
  destruct (@MCTS.run series_numpy counting_random python_runtime plain_uct 5
              {| MCTS.tree_env := t; MCTS.draws := 0 |})
    as [[v_hat w']|e] eqn:Erun.
  - exists t, v_hat, w'. split; [reflexivity |]. split; [exact Erun |].
    exact (proj2 (@visit_counts series_numpy counting_random python_runtime)
             2%nat 2%nat uct 1 2 1 t plain_uct 5%nat w' v_hat Einit Erun).
  - exfalso.
    assert (Et : OK t = @SyntheticTree.__init__ series_numpy counting_random
                          python_runtime 2 2 uct 1 2 1)
      by (now rewrite Einit).
    vm_compute in Et. injection Et as ->.
    vm_compute in Erun. discriminate.
Defined.

(** ** The probability vectors of ments and rents

    For comparison with the tents branch: the two branches that add the
    residual hand [np.random.choice] a vector that sums to 1 and has no
    negative entry. *)

Section Probabilities.
Context {NP : Numpy} {RD : Random} {RT : Runtime}.

Lemma comprehension_Forall2 {A B : Type} (f : A -> res B) (l : list A)
    (bs : list B) :
  comprehension f l = OK bs -> Forall2 (fun a b => f a = OK b) l bs.
Proof.
  revert bs. induction l as [|a l IH]; intros bs Hrun; simpl in Hrun.
  - injection Hrun as <-. constructor.
  - apply res_bind_OK in Hrun. destruct Hrun as (b & Hb & Hrun).
    apply res_bind_OK in Hrun. destruct Hrun as (bs' & Hbs & Hrun).
    injection Hrun as <-. constructor; auto.
Qed.

Lemma sum_insert (l : list Q) (j : nat) (p q : Q) :
  l !! j = Some p -> np.sum (<[j := q]> l) == np.sum l - p + q.
Proof.
  revert j. induction l as [|x l IH]; intros [|j] Hj; try discriminate.
  - injection Hj as ->. change (<[0%nat := q]> (p :: l)) with (q :: l).
    rewrite !sum_cons. ring.
  - change (<[S j := q]> (x :: l)) with (x :: <[j := q]> l).
    change (l !! j = Some p) in Hj.
    rewrite !sum_cons, (IH j Hj). ring.
Qed.

(** Whatever the vector, after [probs[j] += 1 - probs.sum()] it sums
    to 1. *)
Lemma add_residual_sum (j : nat) (probs : list Q) :
  (j < length probs)%nat -> np.sum (MCTS.add_residual j probs) == 1.
Proof.
  intros Hj. unfold MCTS.add_residual.
  destruct (lookup_lt_is_Some_2 probs j Hj) as [p Hp]. rewrite Hp.
  rewrite (sum_insert probs j p _ Hp). ring.
Qed.










(** Under rents the sum is 1 as well, by the residual alone. *)
Lemma rents_select_probs_sum (self : MCTS.t) (G : DiGraph)
    (out_edges : list edge) (counts : list nat) (qs : list Q)
    (w w' : MCTS.World) (probs : list Q) :
  MCTS._algorithm self = rents ->
  MCTS.select_probs self G out_edges counts qs w = OK (probs, w') ->
  np.sum probs == 1.
Proof.
  intros Halg Hrun. unfold MCTS.select_probs in Hrun.
  rewrite Halg in Hrun.
  apply M_bind_OK in Hrun. destruct Hrun as (vr & w1 & _ & Hrun).
  apply M_bind_OK in Hrun. destruct Hrun as (raw & w2 & _ & Hrun).
  apply M_bind_OK in Hrun. destruct Hrun as (j & w3 & Hj & Hrun).
  apply M_ret_OK in Hrun. destruct Hrun as [-> _].
  apply randint_OK in Hj. now apply add_residual_sum.
Qed.






End Probabilities.



Lemma edges_initialised_two_leaves : edges_initialised two_leaves_graph.
Proof.
  intros e He. simpl in He.
  apply elem_of_cons in He. destruct He as [-> | He]; [now eexists |].
  apply elem_of_cons in He. destruct He as [-> | He]; [now eexists |].
  now apply elem_of_nil in He.
Qed.

Lemma edges_initialised_visited : edges_initialised visited_graph.
Proof.
  intros e He. simpl in He.
  apply elem_of_cons in He. destruct He as [-> | He]; [now eexists |].
  apply elem_of_cons in He. destruct He as [-> | He]; [now eexists |].
  now apply elem_of_nil in He.
Qed.


(** ** The operator of the alpha-divergence with [alpha] above 1 *)

Section AlphaAboveOne.
Context {NP : Numpy}.

Lemma py_div_OK (a b : Q) : ~ b == 0 -> py_div a b = OK (a / b).
Proof.
  intros Hb. unfold py_div.
  destruct (Qeq_bool b 0) eqn:E; [| reflexivity].
  apply Qeq_bool_iff in E. contradiction.
Qed.

Lemma alpha_body_cases (alpha : Q) (sorted : list Q) (j : nat) (s : Q)
    (st : kappa_state) :
  ~ alpha - 1 == 0 -> sorted !! j = Some s ->
  SyntheticTree.sparse_max_alpha_body alpha sorted (1 + j) st = OK st
  \/ SyntheticTree.sparse_max_alpha_body alpha sorted (1 + j) st
     = kappa_append s st.
Proof.
  intros Ha Hl. unfold SyntheticTree.sparse_max_alpha_body.
  replace (1 + j - 1)%nat with j by lia. rewrite Hl.
  cbn [of_option mbind res_mbind res_bind].
  rewrite py_div_OK by exact Ha. cbn [mbind res_mbind res_bind].
  destruct (Qgt_bool _ _); auto.
Qed.

Lemma alpha_body_first (alpha s : Q) (todo : list Q) (st : kappa_state) :
  1 < alpha ->
  SyntheticTree.sparse_max_alpha_body alpha (s :: todo) 1 st
  = kappa_append s st.
Proof.
  intros Ha. unfold SyntheticTree.sparse_max_alpha_body.
  cbn [Nat.sub lookup list_lookup of_option mbind res_mbind res_bind].
  rewrite py_div_OK by lra. cbn [mbind res_mbind res_bind].
  set (r := alpha / (alpha - 1)).
  assert (Hr : 0 < r).
  { unfold r. apply Qlt_shift_div_l; lra. }
  assert (E : Qgt_bool (alpha + Qnat 1 * s)
                (np.sum (take 1 (s :: todo)) + Qnat 1 * (alpha - r)) = true).
  { apply Qgt_bool_true. change (take 1 (s :: todo)) with [s].
    rewrite sum_cons. change (np.sum []) with 0.
    change (Qnat 1) with 1. lra. }
  now rewrite E.
Qed.

(** With [alpha > 1] the first test of the support loop succeeds, and
    the operator returns on every non-empty vector. *)
Lemma alpha_above_one_total (alpha : Q) (means_tau : list Q) :
  1 < alpha -> means_tau <> [] ->
  exists v,
    SyntheticTree.sparse_max_alpha_divergence alpha means_tau = OK v.
Proof.
  intros Ha Hne. unfold SyntheticTree.sparse_max_alpha_divergence.
  pose proof (supplies_sorted_desc means_tau) as Hs.
  pose proof (length_flip (np.sort means_tau)) as Hlen.
  rewrite length_sort in Hlen.
  destruct (np.flip (np.sort means_tau)) as [|s todo] eqn:Hsorted.
  { destruct means_tau; [congruence | discriminate]. }
  simpl length. cbn [seq for_each]. rewrite alpha_body_first by assumption.
  destruct (kappa_append_total s todo (map Some means_tau, []) Hs)
    as (idx & -> & Hidx & Hs').
  cbn [res_bind fst snd app] in *. rewrite length_map in Hidx.
  destruct (kappa_loop_total
              (SyntheticTree.sparse_max_alpha_body alpha (s :: todo))
              (s :: todo) 1
              (fun j s' st' => alpha_body_cases alpha (s :: todo) j s' st'
                                 ltac:(lra))
              todo [s]
              (<[idx := None]> (map Some means_tau), [idx]) eq_refl Hs')
    as (temp' & added & Hrun & _ & Hall).
  simpl in Hrun. rewrite Hrun.
  cbn [mbind res_mbind res_bind snd].
  simpl in Hall. rewrite length_insert, length_map in Hall.
  destruct (take_idx_total means_tau (idx :: added))
    as (on_kappa & -> & _);
    [discriminate | constructor; assumption |].
  cbn [mbind res_mbind res_bind].
  rewrite (py_div_OK alpha (alpha - 1)) by lra.
  cbn [mbind res_mbind res_bind].
  rewrite (py_div_OK (alpha - 1) alpha) by lra.
  cbn [mbind res_mbind res_bind].
  rewrite (py_div_OK 1 alpha) by lra.
  cbn [mbind res_mbind res_bind].
  rewrite (py_div_OK 1 (alpha - 1)) by lra.
  cbn [mbind res_mbind res_bind]. eauto.
Qed.

End AlphaAboveOne.

(** ** The constructor completes *)

Section Totality.
Context {NP : Numpy} {RD : Random} {RT : Runtime}.
Local Open Scope nat_scope.

Lemma node_attr_OK {B : Type} (g : NodeData -> option B) (G : DiGraph)
    (y : nat) (b : B) :
  (d ← get_node G y; of_option KeyError (g d)) = OK b
  <-> exists d, node_data G !! y = Some d /\ g d = Some b.
Proof.
  unfold get_node. split.
  - intros Hb. apply res_bind_OK in Hb. destruct Hb as (d & Hd & Hb).
    apply of_option_OK in Hd, Hb. eauto.
  - intros (d & -> & Hb). simpl. now rewrite Hb.
Qed.

Lemma grows_refl (k : nat) (G : DiGraph) : grows k G G.
Proof. split; [apply attrs_kept_refl | auto]. Qed.

Lemma grows_trans (k : nat) (G1 G2 G3 : DiGraph) :
  grows k G1 G2 -> grows k G2 G3 -> grows k G1 G3.
Proof.
  intros (Hk1 & Hm1 & Hp1) (Hk2 & Hm2 & Hp2).
  split; [eapply attrs_kept_trans; eauto | auto].
Qed.

Lemma grows_shape (k d : nat) (G G' : DiGraph) :
  grows k G G' -> balanced_shape k d G -> balanced_shape k d G'.
Proof. intros [(Hn & He & _) _]. now apply shape_topology. Qed.

Lemma grows_nodes (k : nat) (G G' : DiGraph) :
  grows k G G' -> nodes_initialised G -> nodes_initialised G'.
Proof.
  intros [(Hn & _ & _ & Hc) _] Hinit x Hx. rewrite Hn in Hx.
  specialize (Hinit x Hx). specialize (Hc x).
  destruct Hinit as [dx Hdx]. rewrite Hdx in Hc.
  destruct (node_data G' !! x); [eauto | discriminate].
Qed.

Lemma grows_edges (k : nat) (G G' : DiGraph) :
  grows k G G' -> edges_initialised G -> edges_initialised G'.
Proof.
  intros [(_ & He & Hd & _) _] Hinit e Hin. rewrite He in Hin.
  rewrite Hd. now apply Hinit.
Qed.

Lemma grows_leaves (k : nat) (G G' : DiGraph) :
  grows k G G' ->
  SyntheticTree.compute_leaves G' = SyntheticTree.compute_leaves G.
Proof. intros [(Hn & He & _) _]. now apply compute_leaves_topology. Qed.

Lemma update_node_total (n : nat) (f : NodeData -> NodeData) (G : DiGraph) :
  is_Some (node_data G !! n) ->
  exists G', update_node n f G = OK G'.
Proof.
  intros [d Hd]. unfold update_node, get_node. rewrite Hd. simpl. eauto.
Qed.

Lemma update_node_attr {B : Type} (g : NodeData -> option B) (P : B -> Prop)
    (n : nat) (f : NodeData -> NodeData) (G G' : DiGraph) (y : nat) :
  (forall d b, g d = Some b -> P b -> exists b', g (f d) = Some b' /\ P b') ->
  update_node n f G = OK G' ->
  (exists b, (d ← get_node G y; of_option KeyError (g d)) = OK b /\ P b) ->
  exists b, (d ← get_node G' y; of_option KeyError (g d)) = OK b /\ P b.
Proof.
  intros Hf Hu (b & Hb & HP). apply update_node_OK in Hu.
  destruct Hu as (d & Hd & ->). apply node_attr_OK in Hb.
  destruct Hb as (dy & Hdy & Hb).
  destruct (decide (y = n)) as [-> | Hne].
  - assert (dy = d) as -> by congruence.
    destruct (Hf d b Hb HP) as (b' & Hb' & HP').
    exists b'. split; [| assumption]. apply node_attr_OK.
    exists (f d). split; [apply lookup_insert_eq | assumption].
  - exists b. split; [| assumption]. apply node_attr_OK.
    exists dy. split; [| assumption]. simpl.
    now rewrite lookup_insert_ne by congruence.
Qed.

Lemma update_node_grows (k n : nat) (f : NodeData -> NodeData)
    (G G' : DiGraph) :
  (forall d, counters (f d) = counters d) ->
  (forall d, is_Some (n_mean d) -> is_Some (n_mean (f d))) ->
  (forall d p, n_prior d = Some p -> length p = k ->
     exists p', n_prior (f d) = Some p' /\ length p' = k) ->
  update_node n f G = OK G' -> grows k G G'.
Proof.
  intros Hc Hm Hp Hu. split; [eapply update_node_kept; eauto |]. split.
  - intros y [m Hy].
    destruct (update_node_attr n_mean (fun _ => True) n f G G' y) as (m' & Hm' & _).
    + intros d b Hb _. destruct (Hm d) as [b' Hb']; [rewrite Hb; eauto |].
      eauto.
    + assumption.
    + exists m. split; [exact Hy | exact I].
    + exists m'. exact Hm'.
  - intros y (p & Hy & Hlen).
    destruct (update_node_attr n_prior (fun p => length p = k) n f G G' y)
      as (p' & Hp' & Hlen'); [exact Hp | assumption | |].
    + exists p. split; [exact Hy | exact Hlen].
    + exists p'. split; [exact Hp' | exact Hlen'].
Qed.

Lemma set_mean_grows (k n : nat) (m : Q) (G G' : DiGraph) :
  update_node n (with_mean m) G = OK G' -> grows k G G'.
Proof.
  apply update_node_grows; [reflexivity | intros; simpl; eauto |].
  intros d p Hp Hlen. simpl. eauto.
Qed.

Lemma set_prior_grows (k n : nat) (p : list Q) (G G' : DiGraph) :
  length p = k ->
  update_node n (with_prior p) G = OK G' -> grows k G G'.
Proof.
  intros Hlen. apply update_node_grows; [reflexivity | intros; simpl; eauto |].
  intros d p' _ _. simpl. eauto.
Qed.

Lemma set_mean_has_mean (n : nat) (m : Q) (G G' : DiGraph) :
  update_node n (with_mean m) G = OK G' -> node_mean G' n = OK m.
Proof.
  intros Hu. apply update_node_lookup in Hu. destruct Hu as (d & _ & Hd).
  unfold node_mean, get_node. now rewrite Hd.
Qed.

Lemma set_prior_has_prior (n : nat) (p : list Q) (G G' : DiGraph) :
  update_node n (with_prior p) G = OK G' -> node_prior G' n = OK p.
Proof.
  intros Hu. apply update_node_lookup in Hu. destruct Hu as (d & _ & Hd).
  unfold node_prior, get_node. now rewrite Hd.
Qed.

(** *** Loops that complete *)

Lemma for_each_total {A S : Type} (R : S -> S -> Prop) (P : A -> S -> Prop)
    (body : A -> S -> res S) (l : list A) (s : S) :
  (forall s, R s s) ->
  (forall s1 s2 s3, R s1 s2 -> R s2 s3 -> R s1 s3) ->
  (forall a s1 s2, R s1 s2 -> P a s1 -> P a s2) ->
  (forall a s1, a ∈ l -> R s s1 ->
     exists s2, body a s1 = OK s2 /\ R s1 s2 /\ P a s2) ->
  exists s', for_each l body s = OK s' /\ R s s' /\ forall a, a ∈ l -> P a s'.
Proof.
  intros Hrefl Htrans Hkeep. revert s.
  induction l as [|a l IH]; intros s Hbody; simpl.
  - exists s. split; [reflexivity |]. split; [apply Hrefl |].
    intros a Ha. now apply elem_of_nil in Ha.
  - destruct (Hbody a s ltac:(left) (Hrefl s)) as (s1 & -> & HR1 & HP1).
    simpl. destruct (IH s1) as (s' & -> & HR' & HP').
    { intros a' s2 Ha' HR2. apply Hbody; [now right |].
      eapply Htrans; eauto. }
    exists s'. split; [reflexivity |]. split; [eapply Htrans; eauto |].
    intros a' Ha'. apply elem_of_cons in Ha'. destruct Ha' as [-> | Ha'].
    + eapply Hkeep; eauto.
    + now apply HP'.
Qed.

Lemma comprehension_st_total {A B S : Type} (R : S -> S -> Prop)
    (P : A -> S -> Prop) (f : A -> S -> res (B * S)) (l : list A) (s : S) :
  (forall s, R s s) ->
  (forall s1 s2 s3, R s1 s2 -> R s2 s3 -> R s1 s3) ->
  (forall a s1 s2, R s1 s2 -> P a s1 -> P a s2) ->
  (forall a s1, a ∈ l -> R s s1 ->
     exists r, f a s1 = OK r /\ R s1 r.2 /\ P a r.2) ->
  exists r, comprehension_st f l s = OK r /\ R s r.2
            /\ length r.1 = length l /\ forall a, a ∈ l -> P a r.2.
Proof.
  intros Hrefl Htrans Hkeep. revert s.
  induction l as [|a l IH]; intros s Hf; simpl.
  - exists ([], s). split; [reflexivity |]. split; [apply Hrefl |].
    split; [reflexivity |]. intros a Ha. now apply elem_of_nil in Ha.
  - destruct (Hf a s ltac:(left) (Hrefl s)) as (r1 & -> & HR1 & HP1).
    simpl. destruct (IH r1.2) as (r2 & -> & HR2 & Hlen & HP2).
    { intros a' s2 Ha' HR'. apply Hf; [now right |].
      eapply Htrans; eauto. }
    simpl. eexists. split; [reflexivity |]. simpl.
    split; [eapply Htrans; eauto |]. split; [now rewrite Hlen |].
    intros a' Ha'. apply elem_of_cons in Ha'. destruct Ha' as [-> | Ha'].
    + eapply Hkeep; eauto.
    + now apply HP2.
Qed.

(** *** The leaves below a node *)

Lemma flat_map_seq_blocks (m b k : nat) :
  flat_map (fun a => seq (b + a * m) m) (seq 0 k) = seq b (k * m).
Proof.
  induction k as [|k IH]; [reflexivity |].
  rewrite seq_S, flat_map_app, IH. simpl flat_map. rewrite app_nil_r.
  replace (S k * m) with (k * m + m) by lia.
  rewrite seq_app. simpl. repeat f_equal; lia.
Qed.

Lemma flat_map_shift_from {B : Type} (f : nat -> list B) (b k : nat) :
  forall s,
    flat_map f (seq (b + s) k) = flat_map (fun a => f (b + a)) (seq s k).
Proof.
  induction k as [|k IH]; intros s; [reflexivity |].
  simpl. f_equal. rewrite <- IH. f_equal. f_equal. lia.
Qed.

Lemma flat_map_shift {B : Type} (f : nat -> list B) (b k : nat) :
  flat_map f (seq b k) = flat_map (fun a => f (b + a)) (seq 0 k).
Proof. rewrite <- flat_map_shift_from. now rewrite Nat.add_0_r. Qed.

Lemma subtree_interval (k n : nat) :
  forall j o,
    subtree k (level_start k j + o) n
    = seq (level_start k (j + n) + o * k ^ n) (k ^ n).
Proof.
  induction n as [|n IH]; intros j o.
  - simpl. rewrite Nat.add_0_r. f_equal. lia.
  - simpl subtree.
    replace (k * (level_start k j + o) + 1)
      with (level_start k (S j) + k * o) by (simpl; lia).
    rewrite flat_map_shift.
    erewrite flat_map_ext; cycle 1.
    { intros a. rewrite <- Nat.add_assoc. rewrite (IH (S j) (k * o + a)).
      replace (level_start k (S j + n) + (k * o + a) * k ^ n)
        with ((level_start k (S j + n) + k * o * k ^ n) + a * k ^ n) by lia.
      reflexivity. }
    rewrite flat_map_seq_blocks.
    replace (j + S n) with (S j + n) by lia.
    rewrite Nat.pow_succ_r'. f_equal. lia.
Qed.

Lemma subtree_root (k d : nat) :
  subtree k 0 d = seq (level_start k d) (k ^ d).
Proof.
  pose proof (subtree_interval k d 0 0) as Hs. simpl in Hs.
  rewrite Hs. f_equal. lia.
Qed.

Lemma level_exists (k j x : nat) :
  x < level_start k (S j) ->
  exists n, n <= j /\ level_start k n <= x < level_start k (S n).
Proof.
  induction j as [|j IH]; intros Hx.
  - exists 0. simpl in *. lia.
  - destruct (decide (x < level_start k (S j))) as [Hlt | Hge].
    + destruct (IH Hlt) as (n & Hn & Hlev). exists n. split; [lia | assumption].
    + exists (S j). split; [lia | lia].
Qed.

Lemma level_in_subtree (k n x : nat) :
  level_start k n <= x < level_start k (S n) -> x ∈ subtree k 0 n.
Proof.
  intros Hx. rewrite subtree_root, elem_of_seq.
  rewrite level_start_width in Hx. lia.
Qed.

Lemma child_level (k j x c : nat) :
  level_start k j <= x < level_start k (S j) ->
  c ∈ seq (k * x + 1) k ->
  level_start k (S j) <= c < level_start k (S (S j)).
Proof.
  intros Hx Hc. apply elem_of_seq in Hc. simpl level_start in *. nia.
Qed.

Lemma normalize_total (means : list Q) :
  exists means',
    SyntheticTree.normalize means = OK means'
    /\ length means <= length means'.
Proof.
  unfold SyntheticTree.normalize.
  destruct (1 <? length means) eqn:Hlen.
  - apply Nat.ltb_lt in Hlen. destruct means as [|m means]; [simpl in Hlen; lia |].
    simpl. eexists. split; [reflexivity |]. simpl. now rewrite length_map.
  - apply Nat.ltb_ge in Hlen. exists [0%Q]. split; [reflexivity | exact Hlen].
Qed.

Lemma head_seq (a n : nat) : 1 <= n -> head (seq a n) = Some a.
Proof. destruct n; [lia | reflexivity]. Qed.

(** *** The stages of the constructor on a tree of the right shape *)

Section Stages.
Variables (k d : nat) (G0 : DiGraph).
Hypothesis Hk : 1 <= k.
Hypothesis Hd : 1 <= d.
Hypothesis Hshape : balanced_shape k d G0.
Hypothesis Hnodes : nodes_initialised G0.
Hypothesis Hedges : edges_initialised G0.

Lemma leaf_level (x : nat) :
  x ∈ SyntheticTree.compute_leaves G0
  <-> level_start k d <= x < level_start k (S d).
Proof.
  rewrite (shape_leaves_deep k d) by assumption.
  rewrite elem_of_seq, level_start_width. lia.
Qed.

Lemma level_node (G : DiGraph) (j x : nat) :
  grows k G0 G -> j <= d -> x < level_start k (S j) -> x ∈ nodes G.
Proof.
  intros Hg Hj Hx. destruct (grows_shape k d _ _ Hg Hshape) as [-> _].
  pose proof (level_start_mono k (S j) (S d) Hk ltac:(lia)).
  apply elem_of_seq. lia.
Qed.

Lemma internal_edges (G : DiGraph) (j x : nat) :
  grows k G0 G -> j < d -> x < level_start k (S j) ->
  nx.edges_of G x = map (pair x) (seq (k * x + 1) k).
Proof.
  intros Hg Hj Hx. rewrite (shape_edges_of k d)
    by (eapply grows_shape; eauto).
  pose proof (level_start_mono k (S j) d Hk ltac:(lia)).
  destruct (decide _); [reflexivity | lia].
Qed.

Lemma internal_successors (G : DiGraph) (j x : nat) :
  grows k G0 G -> j < d -> x < level_start k (S j) ->
  nx.successors G x = seq (k * x + 1) k.
Proof.
  intros Hg Hj Hx. unfold nx.successors.
  rewrite (internal_edges G j) by assumption.
  rewrite <- list_fmap_compose. apply list_fmap_id.
Qed.

Lemma compute_mean_total (fuel : nat) :
  forall j x w G,
    j <= d -> level_start k j <= x < level_start k (S j) ->
    d - j < fuel -> grows k G0 G ->
    exists G',
      SyntheticTree._compute_mean_rec fuel (SyntheticTree.compute_leaves G0)
        x w G = OK G'
      /\ grows k G G'
      /\ forall y, y ∈ subtree k x (d - j) -> has_mean G' y.
Proof.
  induction fuel as [|fuel IH]; intros j x w G Hj Hx Hfuel Hg; [lia |].
  simpl. destruct (decide (x ∉ _)) as [Hnl | Hl].
  - assert (Hjd : j < d).
    { destruct (decide (j = d)) as [-> |]; [| lia].
      exfalso. now apply Hnl, leaf_level. }
    rewrite (internal_edges G j) by (assumption || lia).
    destruct (for_each_total (grows k)
                (fun (e : edge) s =>
                   forall y, y ∈ subtree k e.2 (d - S j) -> has_mean s y)
                (fun (e : edge) G =>
                   d ← get_edge G e;
                   SyntheticTree._compute_mean_rec fuel
                     (SyntheticTree.compute_leaves G0) e.2 (w + e_weight d) G)
                (map (pair x) (seq (k * x + 1) k)) G
                (grows_refl k) (grows_trans k)) as (G' & HG' & Hgr & HP).
    + intros e s1 s2 (_ & Hm & _) HP y Hy. now apply Hm, HP.
    + intros e s1 He Hs1.
      assert (Hg1 : grows k G0 s1) by (eapply grows_trans; eauto).
      assert (Hed : is_Some (edge_data s1 !! e)).
      { apply (grows_edges k _ _ Hg1 Hedges).
        rewrite <- (internal_edges s1 j) in He by (assumption || lia).
        now apply edges_of_elem in He. }
      destruct Hed as [ed Hed]. unfold get_edge. rewrite Hed. simpl.
      apply list_elem_of_fmap in He. destruct He as (c & -> & Hc). simpl.
      destruct (IH (S j) c (w + e_weight ed)%Q s1) as (s2 & Hs2 & Hg2 & HP2);
        [lia | now apply (child_level k j x) | lia | assumption |].
      exists s2. split; [assumption |]. split; assumption.
    + exists G'. split; [assumption |]. split; [assumption |].
      intros y Hy. replace (d - j) with (S (d - S j)) in Hy by lia.
      simpl in Hy. apply list_elem_of_In, in_flat_map in Hy.
      destruct Hy as (c & Hc & Hy). apply list_elem_of_In in Hc, Hy.
      apply (HP (x, c)); [| assumption].
      apply list_elem_of_fmap. eauto.
  - apply dec_stable in Hl.
    assert (Hjd : j = d).
    { apply leaf_level in Hl.
      destruct (decide (j = d)); [assumption |].
      pose proof (level_start_mono k (S j) d Hk ltac:(lia)). lia. }
    subst j.
    destruct (update_node_total x (with_mean w) G) as [G' HG'].
    { apply (grows_nodes k _ _ Hg Hnodes). apply (level_node G d); [assumption | lia | lia]. }
    exists G'. split; [assumption |]. split.
    + eapply set_mean_grows; eassumption.
    + rewrite Nat.sub_diag. simpl. intros y Hy.
      apply list_elem_of_singleton in Hy. subst y.
      exists w. eapply set_mean_has_mean; eauto.
Qed.

Lemma leaves_have_means_kept (G G' : DiGraph) :
  grows k G G' ->
  (forall y, y ∈ SyntheticTree.compute_leaves G0 -> has_mean G y) ->
  forall y, y ∈ SyntheticTree.compute_leaves G0 -> has_mean G' y.
Proof. intros (_ & Hm & _) Hl y Hy. now apply Hm, Hl. Qed.

Lemma leaf_initialised (G : DiGraph) (y : nat) :
  grows k G0 G -> y ∈ SyntheticTree.compute_leaves G0 ->
  is_Some (node_data G !! y).
Proof.
  intros Hg Hy. apply (grows_nodes k _ _ Hg Hnodes).
  apply leaf_level in Hy. apply (level_node G d); [assumption | lia | lia].
Qed.

Lemma normalize_leaf_means_total (self : SyntheticTree.t) :
  grows k G0 (SyntheticTree._tree self) ->
  SyntheticTree.leaves self = SyntheticTree.compute_leaves G0 ->
  (forall y, y ∈ SyntheticTree.compute_leaves G0 ->
     has_mean (SyntheticTree._tree self) y) ->
  exists G',
    SyntheticTree.normalize_leaf_means self
    = OK (SyntheticTree.set_tree G' self)
    /\ grows k (SyntheticTree._tree self) G'.
Proof.
  intros Hg Hl Hm. unfold SyntheticTree.normalize_leaf_means.
  destruct (comprehension_total (node_mean (SyntheticTree._tree self))
              (SyntheticTree.leaves self)) as [means Hmeans].
  { intros y Hy. rewrite Hl in Hy. exact (Hm y Hy). }
  rewrite Hmeans. simpl.
  destruct (normalize_total means) as (means' & -> & Hlen). simpl.
  apply comprehension_length in Hmeans.
  destruct (for_each_total (grows k) (fun _ _ => True)
              (fun (il : nat * nat) G =>
                 m ← of_option IndexError (means' !! il.1);
                 update_node il.2 (with_mean m) G)
              (imap pair (SyntheticTree.leaves self))
              (SyntheticTree._tree self)
              (grows_refl k) (grows_trans k)) as (G' & -> & Hg' & _).
  - trivial.
  - intros il s1 Hil Hs1. apply elem_of_lookup_imap in Hil.
    destruct Hil as (i & y & -> & Hy). simpl.
    destruct (lookup_lt_is_Some_2 means' i) as [m ->].
    { apply lookup_lt_Some in Hy. lia. }
    simpl.
    destruct (update_node_total y (with_mean m) s1) as [s2 Hs2].
    { apply leaf_initialised; [eapply grows_trans; eauto |].
      rewrite <- Hl. eapply list_elem_of_lookup_2; eauto. }
    exists s2. split; [assumption |]. split; [| exact I].
    eapply set_mean_grows; eassumption.
  - simpl. eauto.
Qed.

Lemma compute_max_mean_total (self : SyntheticTree.t) :
  SyntheticTree.leaves self = SyntheticTree.compute_leaves G0 ->
  (forall y, y ∈ SyntheticTree.compute_leaves G0 ->
     has_mean (SyntheticTree._tree self) y) ->
  exists mm, SyntheticTree.compute_max_mean self = OK mm.
Proof.
  intros Hl Hm. unfold SyntheticTree.compute_max_mean.
  destruct (for_each_total (fun _ _ : Q => True) (fun (_ : nat) (_ : Q) => True)
              (fun leaf max_mean =>
                 m ← node_mean (SyntheticTree._tree self) leaf;
                 OK (py_max max_mean m))
              (SyntheticTree.leaves self) 0%Q) as (mm & Hmm & _); try trivial.
  - intros y s1 Hy _. rewrite Hl in Hy. destruct (Hm y Hy) as [m ->].
    simpl. eauto.
  - eauto.
Qed.

Lemma assign_finish (x : nat) (means : list Q) (G1 : DiGraph) :
  is_Some (node_data G1 !! x) -> length means = k ->
  exists mx G',
    (G ← update_node x
           (with_prior (npa.div_by means (np.sum means))) G1;
     mx ← np.max means;
     G ← update_node x (with_mean mx) G;
     OK (mx, G)) = OK (mx, G')
    /\ grows k G1 G' /\ has_mean G' x /\ has_prior k G' x.
Proof.
  intros Hx Hlen.
  destruct (update_node_total x
              (with_prior (npa.div_by means (np.sum means))) G1 Hx)
    as [G2 HG2].
  assert (Hlenp : length (npa.div_by means (np.sum means)) = k).
  { unfold npa.div_by. now rewrite length_map. }
  pose proof (set_prior_grows k _ _ _ _ Hlenp HG2) as Hg2.
  pose proof (set_prior_has_prior _ _ _ _ HG2) as Hp2.
  rewrite HG2. simpl.
  destruct means as [|m means]; [simpl in Hlen; lia |].
  cbn [np.max]. simpl.
  destruct (update_node_total x (with_mean (foldr Qmax m means)) G2)
    as [G3 HG3].
  { apply update_node_lookup in HG2. destruct HG2 as (dx & _ & ->). eauto. }
  rewrite HG3. simpl. do 2 eexists. split; [reflexivity |].
  pose proof (set_mean_grows k _ _ _ _ HG3) as Hg3.
  split; [eapply grows_trans; eauto |]. split.
  - eexists. eapply set_mean_has_mean; eauto.
  - destruct Hg3 as (_ & _ & Hp3). apply Hp3.
    eexists. split; [exact Hp2 | exact Hlenp].
Qed.

Lemma assign_priors_total (fuel : nat) :
  forall j x G,
    j < d -> level_start k j <= x < level_start k (S j) ->
    d - j <= fuel -> grows k G0 G ->
    (forall y, y ∈ SyntheticTree.compute_leaves G0 -> has_mean G y) ->
    exists r,
      SyntheticTree._assign_priors_maxs_rec fuel
        (SyntheticTree.compute_leaves G0) x G = OK r
      /\ grows k G r.2
      /\ forall n y, n < d - j -> y ∈ subtree k x n ->
           has_mean r.2 y /\ has_prior k r.2 y.
Proof.
  induction fuel as [|fuel IH]; intros j x G Hj Hx Hfuel Hg Hm; [lia |].
  cbn [SyntheticTree._assign_priors_maxs_rec].
  rewrite (internal_successors G j) by (assumption || lia).
  rewrite head_seq by assumption. simpl.
  assert (Hc0 : level_start k (S j) <= k * x + 1 < level_start k (S (S j))).
  { apply (child_level k j x); [assumption |]. apply elem_of_seq. lia. }
  assert (Hxi : forall G1, grows k G G1 -> is_Some (node_data G1 !! x)).
  { intros G1 Hg1.
    assert (Hg01 : grows k G0 G1) by (eapply grows_trans; eauto).
    apply (grows_nodes k G0); [assumption | assumption |].
    apply (level_node G1 j); [assumption | lia | lia]. }
  destruct (decide (k * x + 1 ∉ _)) as [Hnl | Hl].
  - assert (Hjd : S j < d).
    { destruct (decide (S j = d)) as [E |]; [| lia].
      exfalso. apply Hnl, leaf_level. now rewrite <- E. }
    destruct (comprehension_st_total (grows k)
                (fun c s => forall n y, n < d - S j -> y ∈ subtree k c n ->
                              has_mean s y /\ has_prior k s y)
                (SyntheticTree._assign_priors_maxs_rec fuel
                   (SyntheticTree.compute_leaves G0))
                (seq (k * x + 1) k) G (grows_refl k) (grows_trans k))
      as (r1 & -> & Hg1 & Hlen & HP).
    + intros c s1 s2 (_ & Hm2 & Hp2) HP n y Hn Hy.
      destruct (HP n y Hn Hy). split; auto.
    + intros c s1 Hc Hs1.
      destruct (IH (S j) c s1) as (r & Hr & Hgr & HPr);
        [lia | now apply (child_level k j x) | lia
        | eapply grows_trans; eauto
        | eapply leaves_have_means_kept; eauto |].
      exists r. split; [assumption |]. split; assumption.
    + simpl. rewrite length_seq in Hlen.
      destruct (assign_finish x r1.1 r1.2 (Hxi _ Hg1) Hlen)
        as (mx & G' & HE & Hg' & Hmx & Hpx).
      exists (mx, G'). split; [exact HE |]. simpl.
      split; [eapply grows_trans; eauto |].
      intros n y Hn Hy. destruct n as [|n].
      * simpl in Hy. apply list_elem_of_singleton in Hy. subst y. auto.
      * simpl in Hy. apply list_elem_of_In, in_flat_map in Hy.
        destruct Hy as (c & Hc & Hy). apply list_elem_of_In in Hc, Hy.
        destruct (HP c Hc n y ltac:(lia) Hy) as [Hm1 Hp1].
        destruct Hg' as (_ & Hm' & Hp'). split; auto.
  - apply dec_stable in Hl.
    assert (Hjd : S j = d).
    { apply leaf_level in Hl.
      destruct (decide (S j = d)); [assumption |].
      pose proof (level_start_mono k (S (S j)) d Hk ltac:(lia)). lia. }
    destruct (comprehension_total (node_mean G) (seq (k * x + 1) k))
      as [means Hmeans].
    { intros c Hc. apply Hm, leaf_level. rewrite <- Hjd.
      now apply (child_level k j x). }
    rewrite Hmeans. simpl.
    apply comprehension_length in Hmeans. rewrite length_seq in Hmeans.
    destruct (assign_finish x means G (Hxi _ (grows_refl k G)) Hmeans)
      as (mx & G' & HE & Hg' & Hmx & Hpx).
    exists (mx, G'). split; [exact HE |]. simpl. split; [assumption |].
    intros n y Hn Hy. assert (n = 0) as -> by lia.
    simpl in Hy. apply list_elem_of_singleton in Hy. subst y. auto.
Qed.

Lemma children_values_total (self : SyntheticTree.t)
    (recur : nat -> res (Q * list Q)) (j x : nat) :
  grows k G0 (SyntheticTree._tree self) ->
  SyntheticTree.leaves self = SyntheticTree.compute_leaves G0 ->
  (forall y, y ∈ nodes (SyntheticTree._tree self) ->
     has_mean (SyntheticTree._tree self) y) ->
  j < d -> level_start k j <= x < level_start k (S j) ->
  (S j < d -> forall c, c ∈ seq (k * x + 1) k -> exists r, recur c = OK r) ->
  exists xs,
    SyntheticTree.children_values self recur x = OK xs /\ length xs = k.
Proof.
  intros Hg Hl Hm Hj Hx Hrec. unfold SyntheticTree.children_values.
  rewrite (internal_successors _ j) by (assumption || lia).
  rewrite head_seq by assumption. simpl. rewrite Hl.
  assert (Hc0 : level_start k (S j) <= k * x + 1 < level_start k (S (S j))).
  { apply (child_level k j x); [assumption |]. apply elem_of_seq. lia. }
  destruct (decide (k * x + 1 ∈ _)) as [Hleaf | Hnl].
  - destruct (comprehension_total (node_mean (SyntheticTree._tree self))
                (seq (k * x + 1) k)) as [xs Hxs].
    { intros c Hc. apply Hm. apply (level_node _ (S j)); [assumption | lia |].
      apply (child_level k j x) in Hc; [lia | assumption]. }
    exists xs. split; [assumption |].
    apply comprehension_length in Hxs. now rewrite length_seq in Hxs.
  - assert (Hjd : S j < d).
    { destruct (decide (S j = d)) as [E |]; [| lia].
      exfalso. apply Hnl, leaf_level. now rewrite <- E. }
    destruct (comprehension_total (fun n => vx ← recur n; OK vx.1)
                (seq (k * x + 1) k)) as [xs Hxs].
    { intros c Hc. destruct (Hrec Hjd c Hc) as [r ->]. simpl. eauto. }
    exists xs. split; [assumption |].
    apply comprehension_length in Hxs. now rewrite length_seq in Hxs.
Qed.

Lemma solver_total (self : SyntheticTree.t) :
  grows k G0 (SyntheticTree._tree self) ->
  SyntheticTree.leaves self = SyntheticTree.compute_leaves G0 ->
  (forall y, y ∈ nodes (SyntheticTree._tree self) ->
     has_mean (SyntheticTree._tree self) y) ->
  (forall y, y < level_start k d -> has_prior k (SyntheticTree._tree self) y) ->
  (SyntheticTree._algorithm self = alpha_divergence ->
   (1 < SyntheticTree._alpha self)%Q) ->
  SyntheticTree._algorithm self <> unknown_algorithm ->
  forall fuel j x,
    j < d -> level_start k j <= x < level_start k (S j) -> d - j <= fuel ->
    exists r, SyntheticTree._solver_rec fuel self x = OK r.
Proof.
  intros Hg Hl Hm Hp Ha Hu.
  induction fuel as [|fuel IH]; intros j x Hj Hx Hfuel; [lia |].
  change (SyntheticTree._solver_rec (S fuel) self x)
    with (SyntheticTree.solver_body self
            (SyntheticTree._solver_rec fuel self) x).
  assert (Hcv : exists xs,
             SyntheticTree.children_values self
               (SyntheticTree._solver_rec fuel self) x = OK xs
             /\ length xs = k).
  { apply (children_values_total self _ j); try assumption.
    intros Hjd c Hc. apply (IH (S j)); [lia | | lia].
    now apply (child_level k j x). }
  destruct Hcv as (xs & Hxs & Hlen).
  assert (Hne : npa.div_by xs (SyntheticTree._tau self) <> []).
  { apply div_by_nonempty. destruct xs; [simpl in Hlen; lia | discriminate]. }
  unfold SyntheticTree.solver_body.
  destruct (SyntheticTree._algorithm self) eqn:Halg; try congruence.
  - rewrite (internal_successors _ j) by (assumption || lia).
    destruct (comprehension_total (node_mean (SyntheticTree._tree self))
                (seq (k * x + 1) k)) as [ms ->]; [| simpl; eauto].
    intros c Hc. apply Hm. apply (level_node _ (S j)); [assumption | lia |].
    apply (child_level k j x) in Hc; [lia | assumption].
  - rewrite Hxs. simpl. unfold npa.logsumexp.
    destruct (npa.div_by xs (SyntheticTree._tau self)) as [|v vs];
      [congruence |]. simpl. eauto.
  - rewrite Hxs. simpl.
    destruct (Hp x) as (p & -> & Hlenp).
    { pose proof (level_start_mono k (S j) d Hk ltac:(lia)). lia. }
    simpl. unfold npa.broadcast.
    replace (length p =? length (npa.exp (npa.div_by xs (SyntheticTree._tau self))))
      with true.
    + simpl. eauto.
    + symmetry. apply Nat.eqb_eq.
      unfold npa.exp, npa.div_by. rewrite !length_map. lia.
  - rewrite Hxs. simpl.
    destruct (sparse_max_total _ Hne) as (kappa & on_kappa & v & _ & _ & -> & _).
    simpl. eauto.
  - rewrite Hxs. simpl.
    destruct (alpha_above_one_total (SyntheticTree._alpha self) _
                (Ha eq_refl) Hne) as (v & ->).
    simpl. eauto.
  - rewrite (internal_successors _ j) by (assumption || lia).
    destruct (comprehension_total (node_mean (SyntheticTree._tree self))
                (seq (k * x + 1) k)) as [ms ->]; [| simpl; eauto].
    intros c Hc. apply Hm. apply (level_node _ (S j)); [assumption | lia |].
    apply (child_level k j x) in Hc; [lia | assumption].
  - rewrite (internal_successors _ j) by (assumption || lia).
    destruct (comprehension_total (node_mean (SyntheticTree._tree self))
                (seq (k * x + 1) k)) as [ms ->]; [| simpl; eauto].
    intros c Hc. apply Hm. apply (level_node _ (S j)); [assumption | lia |].
    apply (child_level k j x) in Hc; [lia | assumption].
Qed.

End Stages.

Lemma init_graph_ready (k d : nat) (alg : algorithm) :
  let G0 := SyntheticTree.init_nodes alg
              (SyntheticTree.init_edges alg (nx.balanced_tree k d)) in
  balanced_shape k d G0 /\ nodes_initialised G0 /\ edges_initialised G0.
Proof.
  intros G0.
  pose proof (init_edges_spec alg (nx.balanced_tree k d))
    as (Hn1 & He1 & _ & Hd1).
  pose proof (init_nodes_spec alg
                (SyntheticTree.init_edges alg (nx.balanced_tree k d)))
    as (Hn2 & He2 & Hed2 & Hd2).
  split; [| split].
  - apply (shape_topology k d (nx.balanced_tree k d));
      [unfold G0; now rewrite Hn2, Hn1 | unfold G0; now rewrite He2, He1
      | apply balanced_tree_shape].
  - intros x Hx. unfold G0 in *. rewrite Hn2 in Hx.
    rewrite (Hd2 x Hx). eauto.
  - intros e He. unfold G0 in *. rewrite He2, He1 in He. rewrite Hed2.
    destruct (Hd1 e He) as [i ->]. eauto.
Qed.

(** The stages of the constructor before [_solver] complete: what is
    left of [__init__] is the call of [_solver] on a tree with a ['mean']
    at every node and a ['prior'] at every inner node. *)
Lemma init_before_solver (k d : nat) (alg : algorithm)
    (tau alpha gamma : Q) :
  1 <= k -> 1 <= d -> d < recursion_limit ->
  let G0 := SyntheticTree.init_nodes alg
              (SyntheticTree.init_edges alg (nx.balanced_tree k d)) in
  exists G mm,
    SyntheticTree.__init__ k d alg tau alpha gamma
    = (vq ← SyntheticTree._solver
              {| SyntheticTree._k := k; SyntheticTree._d := d;
                 SyntheticTree._algorithm := alg;
                 SyntheticTree._tau := tau;
                 SyntheticTree._alpha := alpha;
                 SyntheticTree._gamma := gamma;
                 SyntheticTree._tree := G;
                 SyntheticTree.leaves := SyntheticTree.compute_leaves G0;
                 SyntheticTree.max_mean := mm;
                 SyntheticTree.optimal_v_root := 0;
                 SyntheticTree.q_root := [];
                 SyntheticTree.state := 0 |};
       OK {| SyntheticTree._k := k; SyntheticTree._d := d;
             SyntheticTree._algorithm := alg; SyntheticTree._tau := tau;
             SyntheticTree._alpha := alpha; SyntheticTree._gamma := gamma;
             SyntheticTree._tree := G;
             SyntheticTree.leaves := SyntheticTree.compute_leaves G0;
             SyntheticTree.max_mean := mm;
             SyntheticTree.optimal_v_root := vq.1;
             SyntheticTree.q_root := vq.2;
             SyntheticTree.state := 0 |})
    /\ grows k G0 G
    /\ (forall y, y ∈ nodes G -> has_mean G y)
    /\ (forall y, y < level_start k d -> has_prior k G y).
Proof.
  intros Hk Hd Hlimit G0.
  pose proof (init_graph_ready k d alg) as Hready. cbv zeta in Hready.
  fold G0 in Hready.
  destruct Hready as (Hshape & Hnodes & Hedges).
  assert (Hroot : level_start k 0 <= 0 < level_start k (S 0))
    by (simpl; lia).
  destruct (compute_mean_total k d G0 Hk Hd Hshape Hnodes Hedges
              recursion_limit 0 0 0%Q G0)
    as (G1 & HG1 & Hg1 & Hm1);
    [lia | exact Hroot | lia | apply grows_refl |].
  rewrite Nat.sub_0_r, subtree_root in Hm1.
  assert (Hleaves1 : forall y, y ∈ SyntheticTree.compute_leaves G0 ->
                               has_mean G1 y).
  { intros y Hy. apply Hm1.
    now rewrite (shape_leaves_deep k d) in Hy by assumption. }
  set (self0 :=
         {| SyntheticTree._k := k; SyntheticTree._d := d;
            SyntheticTree._algorithm := alg; SyntheticTree._tau := tau;
            SyntheticTree._alpha := alpha; SyntheticTree._gamma := gamma;
            SyntheticTree._tree := G0;
            SyntheticTree.leaves := SyntheticTree.compute_leaves G0;
            SyntheticTree.max_mean := 0;
            SyntheticTree.optimal_v_root := 0; SyntheticTree.q_root := [];
            SyntheticTree.state := 0 |}).
  assert (H1 : SyntheticTree._compute_mean self0
               = OK (SyntheticTree.set_tree G1 self0)).
  { unfold SyntheticTree._compute_mean. simpl. now rewrite HG1. }
  destruct (normalize_leaf_means_total k d G0 Hk Hd Hshape Hnodes
              (SyntheticTree.set_tree G1 self0) Hg1 eq_refl Hleaves1)
    as (G2 & H2 & Hg2).
  simpl in Hg2.
  assert (Hg02 : grows k G0 G2) by (eapply grows_trans; eauto).
  assert (Hleaves2 : forall y, y ∈ SyntheticTree.compute_leaves G0 ->
                               has_mean G2 y).
  { intros y Hy. destruct Hg2 as (_ & Hm2 & _). apply Hm2, Hleaves1, Hy. }
  set (self2 := SyntheticTree.set_tree G2 (SyntheticTree.set_tree G1 self0))
    in *.
  destruct (compute_max_mean_total G0 self2 eq_refl Hleaves2) as (mm & H3).
  set (self3 :=
         {| SyntheticTree._k := k; SyntheticTree._d := d;
            SyntheticTree._algorithm := alg; SyntheticTree._tau := tau;
            SyntheticTree._alpha := alpha; SyntheticTree._gamma := gamma;
            SyntheticTree._tree := G2;
            SyntheticTree.leaves := SyntheticTree.compute_leaves G0;
            SyntheticTree.max_mean := mm;
            SyntheticTree.optimal_v_root := 0; SyntheticTree.q_root := [];
            SyntheticTree.state := 0 |}).
  destruct (assign_priors_total k d G0 Hk Hd Hshape Hnodes
              recursion_limit 0 0 G2)
    as (r & H4 & Hg4 & HP4);
    [lia | exact Hroot | lia | assumption | assumption |].
  assert (H4' : SyntheticTree._assign_priors_maxs self3
                = OK (SyntheticTree.set_tree r.2 self3)).
  { unfold SyntheticTree._assign_priors_maxs. simpl. now rewrite H4. }
  assert (Hg04 : grows k G0 r.2) by (eapply grows_trans; eauto).
  assert (Hshape4 : balanced_shape k d r.2)
    by (eapply grows_shape; eauto).
  exists r.2, mm. split.
  { unfold SyntheticTree.__init__. cbv zeta.
    erewrite res_bind_eq by exact H1.
    erewrite res_bind_eq by exact H2.
    erewrite res_bind_eq by exact H3.
    erewrite res_bind_eq by exact H4'.
    reflexivity. }
  split; [exact Hg04 |]. split.
  - intros y Hy. destruct Hshape4 as [Hn4 _]. rewrite Hn4 in Hy.
    apply elem_of_seq in Hy.
    destruct (level_exists k d y ltac:(lia)) as (n & Hn & Hlev).
    destruct (decide (n = d)) as [-> | Hne].
    + destruct Hg4 as (_ & Hm4 & _). apply Hm4, Hleaves2.
      now apply (leaf_level k d G0).
    + apply (HP4 n y); [lia |]. now apply level_in_subtree.
  - intros y Hy.
    destruct d as [|d']; [lia |].
    destruct (level_exists k d' y Hy) as (n & Hn & Hlev).
    apply (HP4 n y); [lia |]. now apply level_in_subtree.
Qed.

(** The solvers of uct, w-mcts, dng, ments and rents read the means with
    array operations only, which never raise. (That of tents indexes with
    a support that is empty when its input holds no number, which is how
    it ends for a temperature of 0 or for leaf means that are all equal;
    it is left out here.) *)
Lemma init_total_above_one (k d : nat) (alg : algorithm)
    (tau alpha gamma : Q) :
  1 <= k -> 1 <= d -> d < recursion_limit ->
  (alg = alpha_divergence -> (1 < alpha)%Q) -> alg <> unknown_algorithm ->
  exists t,
    SyntheticTree.__init__ k d alg tau alpha gamma = OK t
    /\ balanced_shape k d (SyntheticTree._tree t)
    /\ nodes_initialised (SyntheticTree._tree t)
    /\ edges_initialised (SyntheticTree._tree t)
    /\ (forall y, y ∈ nodes (SyntheticTree._tree t) ->
          has_mean (SyntheticTree._tree t) y)
    /\ (forall y, y < level_start k d ->
          has_prior k (SyntheticTree._tree t) y)
    /\ SyntheticTree.leaves t
       = SyntheticTree.compute_leaves (SyntheticTree._tree t)
    /\ SyntheticTree.state t = 0.
Proof.
  intros Hk Hd Hlimit Ha Hu.
  destruct (init_graph_ready k d alg) as (Hshape & Hnodes & Hedges).
  destruct (init_before_solver k d alg tau alpha gamma Hk Hd Hlimit)
    as (G & mm & Hinit & Hg & Hmeans & Hpriors).
  set (G0 := SyntheticTree.init_nodes alg _) in *.
  match type of Hinit with
  | _ = mbind _ (SyntheticTree._solver ?self) =>
      destruct (solver_total k d G0 Hk Hd Hshape self Hg eq_refl Hmeans
                  Hpriors Ha Hu
                  recursion_limit 0 0)
        as (vq & H5); [lia | simpl; lia | lia |]
  end.
  unfold SyntheticTree._solver in Hinit.
  rewrite H5 in Hinit.
  eexists. split; [exact Hinit |].
  simpl. split; [eapply grows_shape; eauto |].
  split; [exact (grows_nodes k _ _ Hg Hnodes) |].
  split; [exact (grows_edges k _ _ Hg Hedges) |].
  split; [assumption |]. split; [assumption |].
  split; [| reflexivity].
  symmetry. eapply grows_leaves; eauto.
Qed.

Lemma init_total (k d : nat) (alg : algorithm)
    (tau alpha gamma : Q) :
  1 <= k -> 1 <= d -> d < recursion_limit ->
  alg <> alpha_divergence -> alg <> unknown_algorithm -> alg <> tents ->
  exists t,
    SyntheticTree.__init__ k d alg tau alpha gamma = OK t
    /\ balanced_shape k d (SyntheticTree._tree t)
    /\ nodes_initialised (SyntheticTree._tree t)
    /\ edges_initialised (SyntheticTree._tree t)
    /\ (forall y, y ∈ nodes (SyntheticTree._tree t) ->
          has_mean (SyntheticTree._tree t) y)
    /\ (forall y, y < level_start k d ->
          has_prior k (SyntheticTree._tree t) y)
    /\ SyntheticTree.leaves t
       = SyntheticTree.compute_leaves (SyntheticTree._tree t)
    /\ SyntheticTree.state t = 0.
Proof.
  intros Hk Hd Hlimit Ha Hu _.
  apply init_total_above_one; try assumption.
  intros E. now destruct (Ha E).
Qed.

(** X1. The constructor completes on every tree with a branching factor
    and a height of at least 1 whose height is below the recursion limit,
    for each of the algorithms uct, w-mcts, dng, ments and rents and any
    temperature: no key is missing, no index is out of range, no array
    is empty. The tree it returns has the nodes [0 .. n-1] of
    [nx.balanced_tree(k, d)], its last [k ** d] nodes as [leaves], the
    cursor on the root, a ['mean'] at every node and a ['prior'] of [k]
    entries at every inner node. *)
Theorem constructor_completes (k d : nat) (alg : algorithm)
    (tau alpha gamma : Q) :
  1 <= k -> 1 <= d -> d < recursion_limit ->
  alg ∈ [uct; w_mcts; dng; ments; rents] ->
  exists t,
    SyntheticTree.__init__ k d alg tau alpha gamma = OK t
    /\ nodes (SyntheticTree._tree t) = seq 0 (level_start k (S d))
    /\ SyntheticTree.leaves t = seq (level_start k d) (k ^ d)
    /\ SyntheticTree.state t = 0
    /\ (forall y, y ∈ nodes (SyntheticTree._tree t) ->
          exists m, node_mean (SyntheticTree._tree t) y = OK m)
    /\ (forall y, y < level_start k d ->
          exists p, node_prior (SyntheticTree._tree t) y = OK p
                    /\ length p = k).
Proof.
  intros Hk Hd Hlimit Halg.
  assert (Ha : alg <> alpha_divergence /\ alg <> unknown_algorithm
               /\ alg <> tents).
  { repeat (apply elem_of_cons in Halg as [-> | Halg];
            [repeat split; discriminate |]).
    now apply elem_of_nil in Halg. }
  destruct Ha as (Ha & Hu & Ht).
  destruct (init_total k d alg tau alpha gamma Hk Hd Hlimit Ha Hu Ht)
    as (t & Hrun & Hshape & _ & _ & Hm & Hp & Hl & Hroot).
  exists t. split; [exact Hrun |].
  split; [exact (proj1 Hshape) |].
  split; [rewrite Hl; now apply (shape_leaves_deep k d) |].
  split; [exact Hroot |]. split; [exact Hm | exact Hp].
Qed.

End Totality.

Lemma constructor_completes_witness :
  exists t,
    @SyntheticTree.__init__ series_numpy counting_random python_runtime
      2 1 uct 1 2 1 = OK t
    /\ SyntheticTree.leaves t = [1; 2]%nat
    /\ SyntheticTree.state t = 0%nat.
Proof.
  destruct (@constructor_completes series_numpy counting_random
              python_runtime 2 1 uct 1 2 1)
    as (t & Hrun & _ & Hl & Hroot & _);
    [lia | lia | simpl; lia | left |].
  exists t. split; [exact Hrun |]. split; [exact Hl | exact Hroot].
Defined.

(** ** Moves on the balanced tree *)

Section Moves.
Context {NP : Numpy} {RD : Random} {RT : Runtime}.
Local Open Scope nat_scope.

Lemma lookup_out_edge (k x a : nat) :
  a < k ->
  map (pair x) (seq (k * x + 1) k) !! a = Some (x, k * x + 1 + a).
Proof.
  intros Ha. rewrite list_lookup_fmap, lookup_seq_lt by assumption.
  reflexivity.
Qed.

(** X2. On a tree of the shape of [nx.balanced_tree(k, d)], [step] from an
    inner node [x] moves to child number [a] of [x], the node
    [k * x + 1 + a], for an action [0 <= a < k], and the action [a - k]
    moves to the same child; on a node of the last level every action
    raises [IndexError], there being no out-edge to index. *)
Theorem step_child_number (k d : nat) (self : SyntheticTree.t) :
  let x := SyntheticTree.state self in
  balanced_shape k d (SyntheticTree._tree self) ->
  (x < level_start k d ->
   forall a, a < k ->
     let child := k * x + 1 + a in
     SyntheticTree.step (Z.of_nat a) self
     = OK (child, SyntheticTree.set_state child self)
     /\ SyntheticTree.step (Z.of_nat a - Z.of_nat k) self
        = OK (child, SyntheticTree.set_state child self))
  /\ (level_start k d <= x ->
      forall action, SyntheticTree.step action self = Raise IndexError).
Proof.
  intros x Hs. unfold SyntheticTree.step. fold x.
  rewrite (shape_edges_of k d) by assumption. split.
  - intros Hx a Ha.
    destruct (decide (x < level_start k d)); [| lia]. split.
    + rewrite py_index_from_start by lia.
      rewrite Nat2Z.id, lookup_out_edge by assumption. reflexivity.
    + rewrite py_index_from_end by (rewrite length_map, length_seq; lia).
      rewrite length_map, length_seq.
      replace (Z.to_nat (Z.of_nat k + (Z.of_nat a - Z.of_nat k))) with a
        by lia.
      rewrite lookup_out_edge by assumption. reflexivity.
  - intros Hx action.
    destruct (decide (x < level_start k d)); [lia |].
    rewrite py_index_out_of_range; [reflexivity |]. simpl. lia.
Qed.

End Moves.

Lemma step_child_number_witness :
  balanced_shape 2 1 two_leaves_graph
  /\ SyntheticTree.step 1 two_leaves
     = OK (2%nat, SyntheticTree.set_state 2 two_leaves)
  /\ SyntheticTree.step (-1) two_leaves
     = OK (2%nat, SyntheticTree.set_state 2 two_leaves)
  /\ SyntheticTree.step 0 (SyntheticTree.set_state 2 two_leaves)
     = Raise IndexError.
Proof.
  assert (Hs : balanced_shape 2 1 two_leaves_graph) by (split; reflexivity).
  split; [exact Hs |].
  destruct (step_child_number 2 1 two_leaves Hs) as [Hinner _].
  destruct (Hinner ltac:(simpl; lia) 1%nat ltac:(lia)) as [H1 H2].
  split; [exact H1 |]. split; [exact H2 |].
  destruct (step_child_number 2 1 (SyntheticTree.set_state 2 two_leaves) Hs)
    as [_ Hleaf].
  apply Hleaf. simpl. lia.
Defined.

(** ** The choice of uct *)

Section Greedy.
Context {NP : Numpy} {RD : Random} {RT : Runtime}.

Lemma argwhere_from_elem (i : nat) (l : list (option Q)) (v : Q) (x : nat) :
  x ∈ np.argwhere_from i l v ->
  exists j y, x = (i + j)%nat /\ l !! j = Some (Some y)
              /\ Qeq_bool y v = true.
Proof.
  revert i. induction l as [|[y|] l IH]; intros i Hx; simpl in Hx.
  - now apply elem_of_nil in Hx.
  - destruct (Qeq_bool y v) eqn:E.
    + apply elem_of_cons in Hx. destruct Hx as [-> | Hx].
      * exists 0%nat, y. rewrite Nat.add_0_r. auto.
      * destruct (IH _ Hx) as (j & y' & -> & Hl & Hy).
        exists (S j), y'. split; [lia | auto].
    + destruct (IH _ Hx) as (j & y' & -> & Hl & Hy).
      exists (S j), y'. split; [lia | auto].
  - destruct (IH _ Hx) as (j & y' & -> & Hl & Hy).
    exists (S j), y'. split; [lia | auto].
Qed.

Lemma foldr_max_upper_bound (x : Q) (l : list Q) :
  forall y, y ∈ x :: l -> y <= foldr Qmax x l.
Proof.
  induction l as [|a l IH]; intros y Hy; simpl.
  - apply list_elem_of_singleton in Hy. subst y. apply Qle_refl.
  - apply elem_of_cons in Hy. destruct Hy as [-> | Hy].
    + eapply Qle_trans; [apply IH; left | apply Q.le_max_r].
    + apply elem_of_cons in Hy. destruct Hy as [-> | Hy].
      * apply Q.le_max_l.
      * eapply Qle_trans; [apply IH; now right | apply Q.le_max_r].
Qed.

Lemma max_upper_bound (l : list Q) (mx : Q) :
  np.max l = OK mx -> forall y, y ∈ l -> y <= mx.
Proof.
  destruct l as [|x l]; [discriminate |]. intros E. injection E as <-.
  apply foldr_max_upper_bound.
Qed.

(** X4. The action uct returns has the largest upper confidence bound:
    once an out-edge of the state has been taken, the bound
    [Q + c * sqrt(log(n_state) / (N + 1e-10))] of the action returned is
    at least that of every other action of the state. The action always
    indexes an out-edge, also while no out-edge has been taken and the
    bounds are all infinite. *)
Theorem uct_select_greedy (self : MCTS.t) (w w' : MCTS.World) (a : nat) :
  let G := SyntheticTree._tree (MCTS.tree_env w) in
  let out_edges := nx.edges_of G (SyntheticTree.state (MCTS.tree_env w)) in
  MCTS._algorithm self = uct ->
  MCTS._select self w = OK (a, w') ->
  exists counts qs n q,
    MCTS.edge_counts G out_edges = OK counts
    /\ MCTS.edge_values G out_edges = OK qs
    /\ counts !! a = Some n /\ qs !! a = Some q
    /\ ((0 < sum_list counts)%nat ->
        forall b n' q',
          counts !! b = Some n' -> qs !! b = Some q' ->
          ucb self (sum_list counts) q' n' <= ucb self (sum_list counts) q n).
Proof.
  intros G out_edges Halg Hrun. subst out_edges G.
  unfold MCTS._select in Hrun.
  apply M_bind_OK in Hrun. destruct Hrun as (env & w1 & Henv & Hrun).
  apply get_env_OK in Henv. destruct Henv as [-> ->].
  apply M_bind_OK in Hrun. destruct Hrun as (counts & w1 & Hc & Hrun).
  apply lift_OK in Hc. destruct Hc as [Hc ->].
  apply M_bind_OK in Hrun. destruct Hrun as (qs & w1 & Hq & Hrun).
  apply lift_OK in Hq. destruct Hq as [Hq ->].
  rewrite Halg in Hrun.
  apply M_bind_OK in Hrun. destruct Hrun as (cands & w1 & Hcands & Hrun).
  apply lift_OK in Hcands. destruct Hcands as [Hcands ->].
  apply choice_OK in Hrun.
  exists counts, qs.
  assert (Hlen : length qs = length counts).
  { apply comprehension_length in Hc, Hq. congruence. }
  pose proof (uct_candidates_bound self counts qs cands Hlen Hcands a Hrun)
    as Ha.
  destruct (lookup_lt_is_Some_2 counts a Ha) as [n Hn].
  destruct (lookup_lt_is_Some_2 qs a ltac:(lia)) as [q Hqa].
  exists n, q. do 4 (split; [assumption |]).
  intros Hpos b n' q' Hn' Hq'.
  unfold MCTS.uct_candidates in Hcands.
  rewrite (proj2 (Nat.ltb_lt _ _) Hpos) in Hcands.
  rewrite broadcast_same_length in Hcands by (now rewrite length_map).
  cbn [mbind res_mbind res_bind] in Hcands.
  apply res_bind_OK in Hcands. destruct Hcands as (mx & Hmx & Hcands).
  injection Hcands as <-.
  apply argwhere_from_elem in Hrun.
  destruct Hrun as (j & y & Hj & Hy & Heq). simpl in Hj. subst j.
  rewrite list_lookup_fmap in Hy.
  set (ucbs := zip_with _ qs _) in *.
  assert (Hat : forall i ni qi, counts !! i = Some ni -> qs !! i = Some qi ->
                  ucbs !! i = Some (ucb self (sum_list counts) qi ni)).
  { intros i ni qi Hni Hqi. unfold ucbs.
    apply lookup_zip_with_Some.
    exists qi, (np_sqrt (np_log (Qnat (sum_list counts)) / (Qnat ni + eps10))).
    split; [reflexivity |]. split; [assumption |].
    rewrite list_lookup_fmap, Hni. reflexivity. }
  rewrite (Hat a n q Hn Hqa) in Hy. injection Hy as <-.
  apply Qeq_bool_iff in Heq. rewrite Heq.
  apply (max_upper_bound ucbs mx Hmx).
  eapply list_elem_of_lookup_2. exact (Hat b n' q' Hn' Hq').
Qed.

End Greedy.

Lemma uct_select_greedy_witness :
  exists a w' n q,
    @MCTS._select series_numpy counting_random plain_uct visited_world
    = OK (a, w')
    /\ [2; 0]%nat !! a = Some n /\ [1 # 2; 0] !! a = Some q
    /\ @ucb series_numpy plain_uct 2 (1 # 2) 2
       <= @ucb series_numpy plain_uct 2 q n
    /\ @ucb series_numpy plain_uct 2 0 0
       <= @ucb series_numpy plain_uct 2 q n.
Proof.
  destruct (@select_uct_total series_numpy counting_random plain_uct
              visited_world eq_refl edges_initialised_visited
              ltac:(discriminate)) as (a & w' & Hrun).
  destruct (@uct_select_greedy series_numpy counting_random plain_uct
              visited_world w' a eq_refl Hrun)
    as (counts & qs & n & q & Hc & Hq & Hn & Hqa & Hmax).
  vm_compute in Hc. injection Hc as <-.
  vm_compute in Hq. injection Hq as <-.
  exists a, w', n, q. split; [exact Hrun |].
  split; [exact Hn |]. split; [exact Hqa |].
  split.
  - apply (Hmax ltac:(simpl; lia) 0%nat); reflexivity.
  - apply (Hmax ltac:(simpl; lia) 1%nat); reflexivity.
Defined.

(** ** The normalisation of the leaf means *)

Section Normalisation.
Context {NP : Numpy} {RD : Random} {RT : Runtime}.

Lemma foldr_min_lower_bound (x : Q) (l : list Q) :
  forall y, y ∈ x :: l -> foldr Qmin x l <= y.
Proof.
  induction l as [|a l IH]; intros y Hy; simpl.
  - apply list_elem_of_singleton in Hy. subst y. apply Qle_refl.
  - apply elem_of_cons in Hy. destruct Hy as [-> | Hy].
    + eapply Qle_trans; [apply Q.le_min_r | apply IH; left].
    + apply elem_of_cons in Hy. destruct Hy as [-> | Hy].
      * apply Q.le_min_l.
      * eapply Qle_trans; [apply Q.le_min_r | apply IH; now right].
Qed.

Lemma min_lower_bound (l : list Q) (mn : Q) :
  np.min l = OK mn -> forall y, y ∈ l -> mn <= y.
Proof.
  destruct l as [|x l]; [discriminate |]. intros E. injection E as <-.
  apply foldr_min_lower_bound.
Qed.

Lemma foldr_max_attained (x : Q) (l : list Q) :
  exists i y, (x :: l) !! i = Some y /\ y == foldr Qmax x l.
Proof.
  induction l as [|a l IH]; simpl.
  - exists 0%nat, x. split; reflexivity.
  - destruct IH as (i & y & Hi & Hy).
    destruct (Q.max_spec a (foldr Qmax x l)) as [[_ E] | [_ E]].
    + exists (match i with O => O | S i' => S (S i') end), y.
      split; [destruct i; exact Hi |]. now rewrite E.
    + exists 1%nat, a. split; [reflexivity |]. now rewrite E.
Qed.

Lemma foldr_min_attained (x : Q) (l : list Q) :
  exists i y, (x :: l) !! i = Some y /\ y == foldr Qmin x l.
Proof.
  induction l as [|a l IH]; simpl.
  - exists 0%nat, x. split; reflexivity.
  - destruct IH as (i & y & Hi & Hy).
    destruct (Q.min_spec a (foldr Qmin x l)) as [[_ E] | [_ E]].
    + exists 1%nat, a. split; [reflexivity |]. now rewrite E.
    + exists (match i with O => O | S i' => S (S i') end), y.
      split; [destruct i; exact Hi |]. now rewrite E.
Qed.

(** X5. The normalisation of two or more leaf means whose minimum is
    below their maximum keeps their number and their order, puts every
    one of them in [[0, 1]], the smallest at 0 and the largest at 1. *)
Theorem normalize_range (means : list Q) (mn mx : Q) :
  (1 < length means)%nat ->
  np.min means = OK mn -> np.max means = OK mx -> mn < mx ->
  exists means',
    SyntheticTree.normalize means = OK means'
    /\ length means' = length means
    /\ (forall m, m ∈ means' -> 0 <= m <= 1)
    /\ (exists i m, means' !! i = Some m /\ m == 0)
    /\ (exists i m, means' !! i = Some m /\ m == 1)
    /\ (forall i j a b a' b',
          means !! i = Some a -> means !! j = Some b ->
          means' !! i = Some a' -> means' !! j = Some b' ->
          a <= b -> a' <= b').
Proof.
  intros Hlen Hmn Hmx Hlt. unfold SyntheticTree.normalize.
  rewrite (proj2 (Nat.ltb_lt _ _) Hlen), Hmn, Hmx.
  cbn [mbind res_mbind res_bind].
  eexists. split; [reflexivity |].
  assert (Hpos : 0 < mx - mn) by lra.
  assert (Hat : forall i a, means !! i = Some a ->
                  map (fun m => (m - mn) / (mx - mn)) means !! i
                  = Some ((a - mn) / (mx - mn))).
  { intros i a Hi. now rewrite list_lookup_fmap, Hi. }
  split; [apply length_map |]. split; [| split; [| split]].
  - intros m Hm. apply list_elem_of_fmap in Hm. destruct Hm as (a & -> & Ha).
    pose proof (min_lower_bound means mn Hmn a Ha).
    pose proof (max_upper_bound means mx Hmx a Ha).
    split.
    + apply Qle_shift_div_l; [exact Hpos | lra].
    + apply Qle_shift_div_r; [exact Hpos | lra].
  - destruct means as [|x l]; [discriminate |]. injection Hmn as Hmn.
    destruct (foldr_min_attained x l) as (i & y & Hi & Hy).
    exists i, ((y - mn) / (mx - mn)). split; [apply (Hat i y Hi) |].
    rewrite Hy, Hmn. field. lra.
  - destruct means as [|x l]; [discriminate |]. injection Hmx as Hmx.
    destruct (foldr_max_attained x l) as (i & y & Hi & Hy).
    exists i, ((y - mn) / (mx - mn)). split; [apply (Hat i y Hi) |].
    rewrite Hy, Hmx. field. lra.
  - intros i j a b a' b' Hi Hj Hi' Hj' Hab.
    rewrite (Hat i a Hi) in Hi'. rewrite (Hat j b Hj) in Hj'.
    injection Hi' as <-. injection Hj' as <-.
    apply Qle_shift_div_l; [exact Hpos |].
    assert (E : (a - mn) / (mx - mn) * (mx - mn) == a - mn) by (field; lra).
    rewrite E. lra.
Qed.

End Normalisation.

Lemma normalize_range_witness :
  exists means',
    SyntheticTree.normalize [1 # 10; 2 # 10; 3 # 10] = OK means'
    /\ length means' = 3%nat
    /\ (forall m, m ∈ means' -> 0 <= m <= 1).
Proof.
  destruct (normalize_range [1 # 10; 2 # 10; 3 # 10] (1 # 10) (3 # 10))
    as (means' & Hrun & Hlen & Hin & _);
    [simpl; lia | reflexivity | reflexivity | reflexivity |].
  exists means'. split; [exact Hrun |]. split; [exact Hlen | exact Hin].
Defined.

(** ** The means [_compute_mean] gives the leaves *)

Section PathSums.
Context {NP : Numpy} {RD : Random} {RT : Runtime}.
Local Open Scope nat_scope.

Lemma parent_child (k x c : nat) :
  c ∈ seq (k * x + 1) k -> parent k c = x.
Proof.
  intros Hc. apply elem_of_seq in Hc. unfold parent.
  symmetry. apply (Nat.div_unique (c - 1) k x (c - 1 - k * x)); lia.
Qed.

Lemma subtree_ancestor (k n : nat) :
  forall x y, y ∈ subtree k x n -> Nat.iter n (parent k) y = x.
Proof.
  induction n as [|n IH]; intros x y Hy; simpl in Hy.
  - apply list_elem_of_singleton in Hy. now subst y.
  - apply list_elem_of_In, in_flat_map in Hy.
    destruct Hy as (c & Hc & Hy). apply list_elem_of_In in Hc, Hy.
    rewrite Nat.iter_succ_r. apply IH in Hy.
    assert (E : forall m z, Nat.iter m (parent k) (parent k z)
                            = parent k (Nat.iter m (parent k) z)).
    { induction m as [|m IHm]; intros z; [reflexivity |].
      simpl. now rewrite IHm. }
    rewrite E, Hy. now apply parent_child.
Qed.

Lemma subtree_disjoint (k n c c' y : nat) :
  y ∈ subtree k c n -> y ∈ subtree k c' n -> c = c'.
Proof.
  intros Hy Hy'. apply subtree_ancestor in Hy, Hy'. congruence.
Qed.

Lemma subtree_children (k x n y : nat) :
  y ∈ subtree k x (S n)
  <-> exists c, c ∈ seq (k * x + 1) k /\ y ∈ subtree k c n.
Proof.
  simpl. rewrite list_elem_of_In, in_flat_map. split.
  - intros (c & Hc & Hy). exists c. now rewrite !list_elem_of_In.
  - intros (c & Hc & Hy). exists c. now rewrite <- !list_elem_of_In.
Qed.

Lemma kept_nodes (G G' : DiGraph) :
  attrs_kept G G' -> nodes_initialised G -> nodes_initialised G'.
Proof.
  intros (Hn & _ & _ & Hc) Hinit x Hx. rewrite Hn in Hx.
  specialize (Hinit x Hx). specialize (Hc x).
  destruct Hinit as [dx Hdx]. rewrite Hdx in Hc.
  destruct (node_data G' !! x); [eauto | discriminate].
Qed.

Section Stage.
Variables (k d : nat) (G0 : DiGraph).
Hypothesis Hk : 1 <= k.
Hypothesis Hd : 1 <= d.
Hypothesis Hshape : balanced_shape k d G0.
Hypothesis Hnodes : nodes_initialised G0.
Hypothesis Hedges : edges_initialised G0.

Lemma kept_internal_edges (G : DiGraph) (j x : nat) :
  attrs_kept G0 G -> j < d -> x < level_start k (S j) ->
  nx.edges_of G x = map (pair x) (seq (k * x + 1) k).
Proof.
  intros (Hn & He & _) Hj Hx.
  rewrite (shape_edges_of k d) by (now apply (shape_topology k d G0)).
  pose proof (level_start_mono k (S j) d Hk ltac:(lia)).
  destruct (decide _); [reflexivity | lia].
Qed.

Lemma compute_mean_values (fuel : nat) :
  forall j x G,
    j <= d -> level_start k j <= x < level_start k (S j) ->
    d - j < fuel -> attrs_kept G0 G ->
    exists G',
      SyntheticTree._compute_mean_rec fuel (SyntheticTree.compute_leaves G0)
        x (path_weight G0 k j x) G = OK G'
      /\ attrs_kept G G'
      /\ (forall y, y ∈ subtree k x (d - j) ->
            node_mean G' y = OK (path_weight G0 k d y))
      /\ (forall y, y ∉ subtree k x (d - j) ->
            node_data G' !! y = node_data G !! y).
Proof.
  induction fuel as [|fuel IH]; intros j x G Hj Hx Hfuel Hg; [lia |].
  cbn [SyntheticTree._compute_mean_rec].
  destruct (decide (x ∉ _)) as [Hnl | Hl].
  - assert (Hjd : j < d).
    { destruct (decide (j = d)) as [-> |]; [| lia].
      exfalso. now apply Hnl, (leaf_level k d G0). }
    rewrite (kept_internal_edges G j) by (assumption || lia).
    replace (d - j) with (S (d - S j)) by lia.
    set (n := d - S j).
    assert (Hloop : forall cs G1,
              (forall c, c ∈ cs -> c ∈ seq (k * x + 1) k) -> NoDup cs ->
              attrs_kept G0 G1 ->
              exists G',
                for_each (map (pair x) cs)
                  (fun (e : edge) G =>
                     d ← get_edge G e;
                     SyntheticTree._compute_mean_rec fuel
                       (SyntheticTree.compute_leaves G0) e.2
                       (path_weight G0 k j x + e_weight d)%Q G) G1 = OK G'
                /\ attrs_kept G1 G'
                /\ (forall c, c ∈ cs -> forall y, y ∈ subtree k c n ->
                      node_mean G' y = OK (path_weight G0 k d y))
                /\ (forall y, (forall c, c ∈ cs -> y ∉ subtree k c n) ->
                      node_data G' !! y = node_data G1 !! y)).
    { induction cs as [|c cs IHcs]; intros G1 Hcs Hnd Hg1.
      - exists G1. split; [reflexivity |]. split; [apply attrs_kept_refl |].
        split; [| reflexivity]. intros c Hc. now apply elem_of_nil in Hc.
      - apply NoDup_cons in Hnd. destruct Hnd as [Hc_notin Hnd].
        assert (Hc : c ∈ seq (k * x + 1) k) by (apply Hcs; left).
        assert (Hin : (x, c) ∈ edges G0).
        { pose proof Hg as (_ & He & _).
          assert (Hxc : (x, c) ∈ nx.edges_of G x).
          { rewrite (kept_internal_edges G j) by (assumption || lia).
            apply list_elem_of_fmap. eauto. }
          apply edges_of_elem in Hxc. rewrite <- He. tauto. }
        destruct (Hedges _ Hin) as [ed Hed].
        cbn [map for_each]. unfold get_edge.
        destruct Hg1 as (Hn1 & He1 & Hd1 & Hc1).
        rewrite Hd1, Hed. cbn [of_option mbind res_mbind res_bind snd].
        assert (Hw : (path_weight G0 k j x + e_weight ed)%Q
                     = path_weight G0 k (S j) c).
        { cbn [path_weight]. rewrite (parent_child k x c Hc).
          unfold weight_of. now rewrite Hed. }
        rewrite Hw.
        destruct (IH (S j) c G1) as (G2 & -> & Hg2 & Hm2 & Hf2);
          [lia | now apply (child_level k j x) | lia
          | repeat split; assumption |].
        cbn [res_bind].
        destruct (IHcs G2) as (G' & HG' & Hg' & Hm' & Hf').
        { intros c' Hc'. apply Hcs. now right. }
        { assumption. }
        { eapply attrs_kept_trans; [| exact Hg2]. repeat split; assumption. }
        exists G'. split; [exact HG' |].
        split; [eapply attrs_kept_trans; [exact Hg2 | exact Hg'] |]. split.
        + intros c' Hc' y Hy. apply elem_of_cons in Hc'.
          destruct Hc' as [-> | Hc']; [| now apply (Hm' c')].
          replace (d - S j) with n in Hm2 by reflexivity.
          unfold node_mean, get_node. rewrite Hf'.
          * exact (Hm2 y Hy).
          * intros c' Hc' Hy'.
            pose proof (subtree_disjoint k n c c' y Hy Hy'). congruence.
        + intros y Hy. rewrite Hf'.
          * apply Hf2. apply Hy. left.
          * intros c' Hc'. apply Hy. now right. }
    destruct (Hloop (seq (k * x + 1) k) G) as (G' & HG' & Hg' & Hm' & Hf');
      [auto | apply NoDup_seq | assumption |].
    exists G'. split; [exact HG' |]. split; [exact Hg' |]. split.
    + intros y Hy. apply subtree_children in Hy.
      destruct Hy as (c & Hc & Hy). exact (Hm' c Hc y Hy).
    + intros y Hy. apply Hf'. intros c Hc Hy'. apply Hy.
      apply subtree_children. eauto.
  - apply dec_stable in Hl.
    assert (Hjd : j = d).
    { apply (leaf_level k d G0) in Hl; try assumption.
      destruct (decide (j = d)); [assumption |].
      pose proof (level_start_mono k (S j) d Hk ltac:(lia)). lia. }
    subst j.
    destruct (update_node_total x (with_mean (path_weight G0 k d x)) G)
      as [G' HG'].
    { apply (kept_nodes G0 G Hg Hnodes).
      destruct Hshape as [Hn0 _]. destruct Hg as (Hn & _).
      rewrite Hn, Hn0. apply elem_of_seq. lia. }
    exists G'. split; [exact HG' |]. split.
    + eapply update_node_kept; [| exact HG']. reflexivity.
    + rewrite Nat.sub_diag. simpl. split.
      * intros y Hy. apply list_elem_of_singleton in Hy. subst y.
        eapply set_mean_has_mean; eauto.
      * intros y Hy. apply update_node_OK in HG'.
        destruct HG' as (dx & _ & ->). simpl.
        rewrite lookup_insert_ne; [reflexivity |].
        intros ->. apply Hy. left.
Qed.

End Stage.

(** X6. On a tree of the shape of [nx.balanced_tree(k, d)] with
    initialised dicts and a height below the recursion limit,
    [_compute_mean] completes and gives every leaf, as its ['mean'], the
    sum of the ['weight'] of the [d] edges on the way from the root to
    the leaf; the dict of no other node is touched, and no edge dict. *)
Theorem compute_mean_path_sums (k d : nat) (self : SyntheticTree.t) :
  let G := SyntheticTree._tree self in
  1 <= k -> 1 <= d -> d < recursion_limit ->
  balanced_shape k d G -> nodes_initialised G -> edges_initialised G ->
  SyntheticTree.leaves self = SyntheticTree.compute_leaves G ->
  exists G',
    SyntheticTree._compute_mean self = OK (SyntheticTree.set_tree G' self)
    /\ attrs_kept G G'
    /\ (forall y, y ∈ SyntheticTree.leaves self ->
          node_mean G' y = OK (path_weight G k d y))
    /\ (forall y, y ∉ SyntheticTree.leaves self ->
          node_data G' !! y = node_data G !! y).
Proof.
  intros G Hk Hd Hlimit Hshape Hnodes Hedges Hl.
  destruct (compute_mean_values k d G Hk Hd Hshape Hnodes Hedges
              recursion_limit 0 0 G)
    as (G' & HG' & Hg' & Hm' & Hf');
    [lia | simpl; lia | lia | apply attrs_kept_refl |].
  rewrite Nat.sub_0_r, subtree_root in Hm', Hf'.
  rewrite <- (shape_leaves_deep k d G) in Hm', Hf' by assumption.
  exists G'. unfold SyntheticTree._compute_mean. fold G. rewrite Hl.
  simpl in HG'. rewrite HG'. split; [reflexivity |].
  split; [exact Hg' |]. split; assumption.
Qed.

End PathSums.

Lemma nodes_initialised_two_leaves : nodes_initialised two_leaves_graph.
Proof.
  intros x Hx. simpl in Hx.
  apply elem_of_cons in Hx. destruct Hx as [-> | Hx]; [now eexists |].
  apply elem_of_cons in Hx. destruct Hx as [-> | Hx]; [now eexists |].
  apply elem_of_cons in Hx. destruct Hx as [-> | Hx]; [now eexists |].
  now apply elem_of_nil in Hx.
Qed.

Lemma compute_mean_path_sums_witness :
  exists G',
    @SyntheticTree._compute_mean python_runtime two_leaves
    = OK (SyntheticTree.set_tree G' two_leaves)
    /\ node_mean G' 1 = OK (path_weight two_leaves_graph 2 1 1)
    /\ node_mean G' 2 = OK (path_weight two_leaves_graph 2 1 2).
Proof.
  destruct (@compute_mean_path_sums python_runtime 2 1 two_leaves)
    as (G' & Hrun & _ & Hm & _).
  - lia.
  - lia.
  - simpl. lia.
  - split; reflexivity.
  - exact nodes_initialised_two_leaves.
  - exact edges_initialised_two_leaves.
  - reflexivity.
  - exists G'. split; [exact Hrun |].
    split; apply Hm; simpl; [left | right; left].
Defined.

(** ** Runs that complete *)

Section Returns.
Context {NP : Numpy} {RD : Random} {RT : Runtime}.
Local Open Scope nat_scope.

Lemma returns_bind {A B : Type} (P : MCTS.World -> Prop) (m : MCTS.M A)
    (Q : A -> MCTS.World -> Prop) (f : A -> MCTS.M B)
    (R : B -> MCTS.World -> Prop) :
  returns P m Q -> (forall a, returns (Q a) (f a) R) ->
  returns P (m ≫= f) R.
Proof.
  intros Hm Hf w HP. destruct (Hm w HP) as (a & w1 & E1 & HQ).
  destruct (Hf a w1 HQ) as (b & w2 & E2 & HR).
  exists b, w2. split; [| exact HR].
  now rewrite (M_bind_eq _ _ _ _ _ E1).
Qed.

Lemma returns_weaken {A : Type} (P P' : MCTS.World -> Prop) (m : MCTS.M A)
    (Q Q' : A -> MCTS.World -> Prop) :
  (forall w, P' w -> P w) -> (forall a w, Q a w -> Q' a w) ->
  returns P m Q -> returns P' m Q'.
Proof.
  intros HP HQ Hm w Hw. destruct (Hm w (HP w Hw)) as (a & w' & E & Ha).
  exists a, w'. auto.
Qed.

Lemma returns_ret {A : Type} (P : MCTS.World -> Prop) (a : A) :
  returns P (mret a) (fun b w => b = a /\ P w).
Proof. intros w HP. exists a, w. split; [reflexivity | auto]. Qed.

Lemma returns_lift {A : Type} (P : MCTS.World -> Prop) (r : res A)
    (Q : A -> MCTS.World -> Prop) :
  (forall w, P w -> exists a, r = OK a /\ Q a w) ->
  returns P (MCTS.lift r) Q.
Proof.
  intros Hr w HP. destruct (Hr w HP) as (a & -> & HQ).
  exists a, w. split; [reflexivity | exact HQ].
Qed.

Lemma returns_get_tree (P : MCTS.World -> Prop) :
  returns P MCTS.get_tree
    (fun G w => G = SyntheticTree._tree (MCTS.tree_env w) /\ P w).
Proof. intros w HP. exists (SyntheticTree._tree (MCTS.tree_env w)), w. auto. Qed.

Lemma returns_for_M {A : Type} (P : MCTS.World -> Prop) (l : list A)
    (body : A -> MCTS.M unit) :
  (forall a, a ∈ l -> returns P (body a) (fun _ => P)) ->
  returns P (MCTS.for_M l body) (fun _ => P).
Proof.
  induction l as [|a l IH]; intros Hbody; simpl.
  - intros w HP. exists tt, w. split; [reflexivity | exact HP].
  - eapply returns_bind; [apply Hbody; left | intros ?; cbv beta].
    apply IH. intros a' Ha'. apply Hbody. now right.
Qed.

(** What is read off the static part. *)
Lemma static_keys (t t' : SyntheticTree.t) :
  static t' = static t ->
  nodes (SyntheticTree._tree t') = nodes (SyntheticTree._tree t)
  /\ edges (SyntheticTree._tree t') = edges (SyntheticTree._tree t)
  /\ SyntheticTree.leaves t' = SyntheticTree.leaves t
  /\ (forall x, is_Some (node_data (SyntheticTree._tree t) !! x) ->
        is_Some (node_data (SyntheticTree._tree t') !! x))
  /\ (forall e, is_Some (edge_data (SyntheticTree._tree t) !! e) ->
        is_Some (edge_data (SyntheticTree._tree t') !! e))
  /\ (forall y, has_mean (SyntheticTree._tree t) y ->
        has_mean (SyntheticTree._tree t') y).
Proof.
  intros Hs.
  split; [exact (f_equal s_nodes Hs) |].
  split; [exact (f_equal s_edges Hs) |].
  split; [exact (f_equal s_leaves Hs) |].
  split; [| split].
  - intros x [dx Hx]. pose proof (static_node_fixed t t' x Hs) as E.
    rewrite Hx in E.
    destruct (node_data (SyntheticTree._tree t') !! x);
      [now eexists | discriminate].
  - intros e [de He]. pose proof (static_edge_fixed t t' e Hs) as E.
    rewrite He in E.
    destruct (edge_data (SyntheticTree._tree t') !! e);
      [now eexists | discriminate].
  - intros y [m Hm]. apply node_attr_OK in Hm.
    destruct Hm as (dy & Hy & Hmean).
    pose proof (static_node_fixed t t' y Hs) as E. rewrite Hy in E.
    destruct (node_data (SyntheticTree._tree t') !! y) as [dy'|] eqn:Hy';
      [| discriminate].
    simpl in E. injection E as E _ _ _.
    exists m. apply node_attr_OK. exists dy'. split; [exact Hy' | congruence].
Qed.

Lemma ready_static (k d : nat) (t t' : SyntheticTree.t) :
  static t' = static t -> ready k d t -> ready k d t'.
Proof.
  intros Hs (Hshape & Hl & Hn & He & Hm).
  destruct (static_keys t t' Hs) as (En & Ee & El & Hkn & Hke & Hkm).
  split; [now apply (shape_topology k d (SyntheticTree._tree t)) |].
  split; [rewrite El, Hl; symmetry; now apply compute_leaves_topology |].
  split; [intros x Hx; rewrite En in Hx; auto |].
  split; [intros e Hin; rewrite Ee in Hin; auto |].
  intros y Hy. rewrite El in Hy. auto.
Qed.

Lemma shape_edge_nodes (k d : nat) (G : DiGraph) (e : edge) :
  balanced_shape k d G -> e ∈ edges G -> e.1 ∈ nodes G /\ e.2 ∈ nodes G.
Proof.
  intros Hs He. pose proof Hs as [Hn _].
  assert (Hin : e ∈ nx.edges_of G e.1) by (now apply edges_of_elem).
  rewrite (shape_edges_of k d) in Hin by assumption.
  destruct (decide (e.1 < level_start k d)) as [Hlt |];
    [| now apply elem_of_nil in Hin].
  apply list_elem_of_fmap in Hin. destruct Hin as (c & -> & Hc).
  apply elem_of_seq in Hc. simpl in *. rewrite Hn, !elem_of_seq.
  simpl level_start. nia.
Qed.

Lemma leaves_are_nodes (G : DiGraph) (y : nat) :
  y ∈ SyntheticTree.compute_leaves G -> y ∈ nodes G.
Proof.
  unfold SyntheticTree.compute_leaves. rewrite list_elem_of_filter. tauto.
Qed.

Lemma py_index_last {A : Type} (l : list A) :
  l <> [] ->
  exists a, l !! (length l - 1) = Some a /\ py_index l (-1) = OK a.
Proof.
  intros Hne.
  assert (Hlen : 0 < length l) by (destruct l; [congruence | simpl; lia]).
  destruct (lookup_lt_is_Some_2 l (length l - 1) ltac:(lia)) as [a Ha].
  exists a. split; [exact Ha |].
  rewrite py_index_from_end by lia.
  replace (Z.to_nat (Z.of_nat (length l) + -1)) with (length l - 1) by lia.
  now rewrite Ha.
Qed.

(** The walk returns whenever [_select] does, on the environments [T]
    that the moves of the cursor do not leave. *)
Lemma navigate_total (k d : nat) (self : MCTS.t)
    (T : SyntheticTree.t -> Prop) :
  1 <= k ->
  (forall t s, T t -> T (SyntheticTree.set_state s t)) ->
  (forall w,
     T (MCTS.tree_env w) ->
     nx.edges_of (SyntheticTree._tree (MCTS.tree_env w))
                 (SyntheticTree.state (MCTS.tree_env w)) <> [] ->
     exists a w', MCTS._select self w = OK (a, w')) ->
  forall fuel j w,
    j < d -> d - j <= fuel -> on_level k d j w ->
    T (MCTS.tree_env w) ->
    exists path w', MCTS._navigate_rec fuel self w = OK (path, w').
Proof.
  intros Hk Hmove Hselect.
  induction fuel as [|fuel IH]; intros j w Hj Hfuel Hon HT; [lia |].
  pose proof Hon as (Hs & Hl & Hx).
  destruct (Hselect w HT) as (a & w1 & Hsel).
  { eapply shape_out_edges_nonempty; eauto. }
  simpl. unfold mbind at 1, MCTS.M_bind at 1. simpl.
  rewrite (M_bind_eq _ _ _ _ _ Hsel).
  apply select_in_range in Hsel. destruct Hsel as [Hw1 Hrange].
  destruct (step_total a w1) as (next & w2 & Hstep);
    [now rewrite Hw1 |].
  rewrite (M_bind_eq _ _ _ _ _ Hstep).
  apply step_OK in Hstep. rewrite Hw1 in Hstep.
  destruct Hstep as (e & He & -> & Hw2).
  unfold mbind at 1, MCTS.M_bind at 1. simpl.
  destruct (walk_step k d j _ a _ e Hk Hs Hj Hx He) as [Hlevel Hleaf].
  rewrite Hw2. simpl. rewrite Hl.
  destruct (decide (e.2 ∉ _)) as [Hnot | Hin]; [| eexists _, _; reflexivity].
  assert (Hj' : S j < d).
  { destruct (decide (S j = d)) as [E | E]; [| lia].
    exfalso. apply Hnot. now apply Hleaf. }
  destruct (IH (S j) w2 Hj' ltac:(lia)) as (rest & w3 & Hrest).
  { eapply on_level_step; eauto. }
  { rewrite Hw2. now apply Hmove. }
  rewrite (M_bind_eq _ _ _ _ _ Hrest). eexists _, _. reflexivity.
Qed.

(** The new ['V'] of uct: the running mean. *)
Lemma uct_backup_value_total (k d : nat) (self : MCTS.t) (G : DiGraph)
    (e : edge) :
  MCTS._algorithm self = uct ->
  balanced_shape k d G -> nodes_initialised G -> edges_initialised G ->
  e ∈ edges G ->
  exists v, MCTS.backup_value self G e = OK v.
Proof.
  intros Halg Hshape Hn He Hin. unfold MCTS.backup_value. rewrite Halg.
  destruct (shape_edge_nodes k d G e Hshape Hin) as [H1 _].
  destruct (Hn _ H1) as [dn Hdn]. destruct (He _ Hin) as [de Hde].
  unfold get_node, get_edge. rewrite Hdn, Hde. simpl. eauto.
Qed.


Section Invariant.
Variables (k d : nat) (s0 : Static) (good : DiGraph -> Prop).
Hypothesis Hk : 1 <= k.
Hypothesis Hd : 1 <= d.
Hypothesis Hready : forall t, static t = s0 -> ready k d t.
Variable self : MCTS.t.

(** The invariant of a run: the static part of the environment is [s0],
    and the values the search keeps in the tree are [good]. *)
Local Abbreviation inv :=
  (fun w : MCTS.World =>
     static (MCTS.tree_env w) = s0
     /\ good (SyntheticTree._tree (MCTS.tree_env w))).

Hypothesis Hselect : forall w,
  inv w ->
  nx.edges_of (SyntheticTree._tree (MCTS.tree_env w))
              (SyntheticTree.state (MCTS.tree_env w)) <> [] ->
  exists a w', MCTS._select self w = OK (a, w').
Hypothesis Hbackup : forall G e,
  balanced_shape k d G -> nodes_initialised G -> edges_initialised G ->
  e ∈ edges G ->
  exists v, MCTS.backup_value self G e = OK v.

(** Each write of a simulation keeps the values [good]. *)
Hypothesis Hgood_leaf : forall t leaf dn i r,
  static t = s0 -> good (SyntheticTree._tree t) ->
  leaf ∈ SyntheticTree.leaves t ->
  node_data (SyntheticTree._tree t) !! leaf = Some dn ->
  SyntheticTree.rollout i leaf t = OK r ->
  good (put_node leaf
          (with_V ((n_V dn * Qnat (n_N dn) + r) / (Qnat (n_N dn) + 1)) dn)
          (SyntheticTree._tree t)).
Hypothesis Hgood_N : forall G x dn n,
  good G -> node_data G !! x = Some dn -> good (put_node x (with_N n dn) G).
Hypothesis Hgood_Q : forall G e de dn,
  balanced_shape k d G -> good G -> e ∈ edges G ->
  edge_data G !! e = Some de -> node_data G !! e.2 = Some dn ->
  good (put_edge e (with_eQ (n_V dn) de) G).
Hypothesis Hgood_eN : forall G e de n,
  good G -> edge_data G !! e = Some de -> good (put_edge e (with_eN n de) G).
Hypothesis Hgood_V : forall G e dn v,
  balanced_shape k d G -> nodes_initialised G -> edges_initialised G ->
  good G -> e ∈ edges G -> node_data G !! e.1 = Some dn ->
  MCTS.backup_value self G e = OK v ->
  good (put_node e.1 (with_V v dn) G).

Lemma inv_node (w : MCTS.World) (n : nat) :
  static (MCTS.tree_env w) = s0 -> n ∈ s_nodes s0 ->
  is_Some (node_data (SyntheticTree._tree (MCTS.tree_env w)) !! n).
Proof.
  intros HI Hn. destruct (Hready _ HI) as (_ & _ & Hnodes & _).
  apply Hnodes. now rewrite <- HI in Hn.
Qed.

Lemma inv_edge (w : MCTS.World) (e : edge) :
  static (MCTS.tree_env w) = s0 -> e ∈ s_edges s0 ->
  is_Some (edge_data (SyntheticTree._tree (MCTS.tree_env w)) !! e).
Proof.
  intros HI He. destruct (Hready _ HI) as (_ & _ & _ & Hedges & _).
  apply Hedges. now rewrite <- HI in He.
Qed.

Lemma inv_edge_nodes (w : MCTS.World) (e : edge) :
  static (MCTS.tree_env w) = s0 -> e ∈ s_edges s0 ->
  e.1 ∈ s_nodes s0 /\ e.2 ∈ s_nodes s0.
Proof.
  intros HI He. destruct (Hready _ HI) as (Hshape & _).
  rewrite <- HI in *. simpl in *. now apply (shape_edge_nodes k d).
Qed.

Lemma set_node_returns (n : nat) (f : NodeData -> NodeData)
    (P : MCTS.World -> Prop) :
  (forall d, node_fixed (f d) = node_fixed d) -> n ∈ s_nodes s0 ->
  (forall w dn,
     P w -> inv w ->
     node_data (SyntheticTree._tree (MCTS.tree_env w)) !! n = Some dn ->
     good (put_node n (f dn) (SyntheticTree._tree (MCTS.tree_env w)))) ->
  returns (fun w => P w /\ inv w) (MCTS.set_node n f) (fun _ => inv).
Proof.
  intros Hf Hn Hg w [HP [HI Hgd]]. destruct (inv_node w n HI Hn) as [dn Hdn].
  assert (E : exists w', MCTS.set_node n f w = OK (tt, w')).
  { unfold MCTS.set_node, mbind, MCTS.M_bind, MCTS.get_env, MCTS.lift,
      update_node, get_node. simpl. rewrite Hdn. simpl. eauto. }
  destruct E as [w' E]. exists tt, w'. split; [exact E |].
  split.
  - rewrite <- HI. exact (stable_set_node n f Hf w tt w' E).
  - apply set_node_OK in E. destruct E as (dn' & Hdn' & ->).
    assert (dn' = dn) as -> by congruence. simpl.
    exact (Hg w dn HP (conj HI Hgd) Hdn).
Qed.

Lemma set_edge_returns (e : edge) (f : EdgeData -> EdgeData)
    (P : MCTS.World -> Prop) :
  (forall d, edge_fixed (f d) = edge_fixed d) -> e ∈ s_edges s0 ->
  (forall w de,
     P w -> inv w ->
     edge_data (SyntheticTree._tree (MCTS.tree_env w)) !! e = Some de ->
     good (put_edge e (f de) (SyntheticTree._tree (MCTS.tree_env w)))) ->
  returns (fun w => P w /\ inv w) (MCTS.set_edge e f) (fun _ => inv).
Proof.
  intros Hf He Hg w [HP [HI Hgd]]. destruct (inv_edge w e HI He) as [de Hde].
  assert (E : exists w', MCTS.set_edge e f w = OK (tt, w')).
  { unfold MCTS.set_edge, mbind, MCTS.M_bind, MCTS.get_env, MCTS.lift,
      update_edge, get_edge. simpl. rewrite Hde. simpl. eauto. }
  destruct E as [w' E]. exists tt, w'. split; [exact E |].
  split.
  - rewrite <- HI. exact (stable_set_edge e f Hf w tt w' E).
  - apply set_edge_OK in E. destruct E as (de' & Hde' & ->).
    assert (de' = de) as -> by congruence. simpl.
    exact (Hg w de HP (conj HI Hgd) Hde).
Qed.

Lemma get_node_returns (n : nat) (G : DiGraph) :
  n ∈ s_nodes s0 ->
  returns (fun w => G = SyntheticTree._tree (MCTS.tree_env w) /\ inv w)
    (MCTS.lift (get_node G n))
    (fun dn w =>
       (G = SyntheticTree._tree (MCTS.tree_env w)
        /\ node_data (SyntheticTree._tree (MCTS.tree_env w)) !! n = Some dn)
       /\ inv w).
Proof.
  intros Hn. apply returns_lift. intros w [-> HI].
  destruct (inv_node w n (proj1 HI) Hn) as [dn Hdn].
  exists dn. unfold get_node. rewrite Hdn. auto.
Qed.

Lemma backup_returns (e : edge) :
  e ∈ s_edges s0 ->
  returns inv (MCTS.backup self e) (fun _ => inv).
Proof.
  intros He. unfold MCTS.backup.
  assert (Hin : forall w, inv w ->
            e ∈ edges (SyntheticTree._tree (MCTS.tree_env w))).
  { intros w [HI _]. now rewrite <- HI in He. }
  intros w0 HI0. destruct (inv_edge_nodes w0 e (proj1 HI0) He) as [H1 H2].
  revert w0 HI0.
  eapply returns_bind; [apply returns_get_tree | intros G].
  eapply returns_bind.
  { eapply returns_weaken; [| | apply (get_node_returns e.1 G H1)];
      [intros ? HP; exact HP | intros ? ? [[HG _] HI]; exact (conj HG HI)]. }
  intros ?; cbv beta.
  eapply returns_bind; [apply (get_node_returns e.2 G H2) | intros next].
  eapply returns_bind.
  { eapply returns_weaken;
      [| | apply (set_edge_returns e (with_eQ (n_V next))
                    (fun w => node_data (SyntheticTree._tree
                                           (MCTS.tree_env w)) !! e.2
                              = Some next))];
      [intros ? [[_ Hn] HI]; exact (conj Hn HI) | intros ? ? HI; exact HI
      | intros de; reflexivity | exact He |].
    intros w de Hnext HI Hde.
    destruct (Hready _ (proj1 HI)) as (Hshape & _).
    exact (Hgood_Q _ e de next Hshape (proj2 HI) (Hin w HI) Hde Hnext). }
  intros ?; cbv beta.
  eapply returns_bind.
  { eapply returns_weaken;
      [| | apply (set_edge_returns e (fun d => with_eN (e_N d + 1) d)
                    (fun _ => True))];
      [intros ? HI; exact (conj I HI) | intros ? ? HI; exact HI
      | intros de; reflexivity | exact He |].
    intros w de _ HI Hde. exact (Hgood_eN _ e de _ (proj2 HI) Hde). }
  intros ?; cbv beta.
  eapply returns_bind; [apply returns_get_tree | intros G'].
  eapply returns_bind.
  { apply returns_lift
      with (Q := fun v w =>
                   MCTS.backup_value self
                     (SyntheticTree._tree (MCTS.tree_env w)) e = OK v
                   /\ inv w).
    intros w [-> HI].
    destruct (Hready _ (proj1 HI)) as (Hshape & _ & Hn & Hedges & _).
    destruct (Hbackup _ e Hshape Hn Hedges (Hin w HI)) as [v Hv].
    exists v. auto. }
  intros v.
  eapply returns_bind.
  { apply (set_node_returns e.1 (with_V v)
             (fun w => MCTS.backup_value self
                         (SyntheticTree._tree (MCTS.tree_env w)) e = OK v));
      [intros dn; reflexivity | exact H1 |].
    intros w dn Hv HI Hdn.
    destruct (Hready _ (proj1 HI)) as (Hshape & _ & Hn & Hedges & _).
    exact (Hgood_V _ e dn v Hshape Hn Hedges (proj2 HI) (Hin w HI) Hdn Hv). }
  intros ?; cbv beta.
  eapply returns_weaken;
    [| | apply (set_node_returns e.1 (fun d => with_N (n_N d + 1) d)
                  (fun _ => True))];
    [intros ? HI; exact (conj I HI) | intros ? ? HI; exact HI
    | intros dn; reflexivity | exact H1 |].
  intros w dn _ HI Hdn. exact (Hgood_N _ e.1 dn _ (proj2 HI) Hdn).
Qed.

Lemma navigate_returns :
  d <= recursion_limit ->
  returns (fun w => inv w /\ SyntheticTree.state (MCTS.tree_env w) = 0)
    (MCTS._navigate self)
    (fun path w =>
       inv w /\ path <> [] /\ (forall e, e ∈ path -> e ∈ s_edges s0)
       /\ path_end 0 path ∈ s_leaves s0).
Proof.
  intros Hlimit w [HI Hroot].
  destruct (Hready _ (proj1 HI)) as (Hshape & Hl & _ & Hedges & _).
  assert (Hon : on_level k d 0 w).
  { split; [exact Hshape |]. split; [exact Hl |]. rewrite Hroot. simpl. lia. }
  destruct (navigate_total k d self
              (fun t => static t = s0 /\ good (SyntheticTree._tree t))
              Hk (fun t s HT => HT) Hselect recursion_limit 0 w
              ltac:(lia) ltac:(lia) Hon HI) as (path & w' & Hrun).
  exists path, w'. split; [exact Hrun |].
  pose proof (stable_navigate_rec _ self w path w' Hrun) as Hs.
  pose proof (navigate_chain _ _ _ _ _ Hrun) as Hchain.
  cbv zeta in Hchain. rewrite Hroot in Hchain.
  destruct Hchain as (Hne & _ & Hall & Hend & Henv).
  destruct HI as [HI Hgd].
  split; [split; [simpl; now rewrite Hs | now rewrite Henv] |].
  split; [exact Hne |]. split.
  - intros e He. rewrite Forall_forall in Hall. rewrite <- HI. simpl.
    now apply Hall.
  - rewrite <- HI. exact Hend.
Qed.

Lemma rollout_returns (leaf : nat) (ln : NodeData) :
  leaf ∈ s_leaves s0 ->
  returns
    (fun w =>
       node_data (SyntheticTree._tree (MCTS.tree_env w)) !! leaf = Some ln
       /\ inv w)
    (MCTS.rollout leaf)
    (fun r w =>
       (node_data (SyntheticTree._tree (MCTS.tree_env w)) !! leaf = Some ln
        /\ exists i, SyntheticTree.rollout i leaf (MCTS.tree_env w) = OK r)
       /\ inv w).
Proof.
  intros Hleaf w [Hln HI].
  destruct (Hready _ (proj1 HI)) as (_ & _ & _ & _ & Hmeans).
  destruct (Hmeans leaf) as [m Hm];
    [destruct HI as [HI _]; now rewrite <- HI in Hleaf |].
  unfold MCTS.rollout, mbind, MCTS.M_bind, MCTS.get_env, MCTS.next_draw,
    MCTS.lift. simpl.
  assert (Hr : SyntheticTree.rollout (MCTS.draws w) leaf (MCTS.tree_env w)
               = OK (m + (1 # 2) * randn (MCTS.draws w))%Q).
  { unfold SyntheticTree.rollout. now rewrite Hm. }
  rewrite Hr. simpl. eexists _, _. split; [reflexivity |].
  simpl. split; [| exact HI]. split; [exact Hln | eauto].
Qed.

Lemma simulation_returns :
  d <= recursion_limit ->
  returns (fun w => inv w /\ SyntheticTree.state (MCTS.tree_env w) = 0)
    (MCTS._simulation self) (fun _ => inv).
Proof.
  intros Hlimit. unfold MCTS._simulation.
  eapply returns_bind; [now apply navigate_returns | intros path].
  eapply returns_bind.
  { apply returns_lift
      with (Q := fun (last : edge) w =>
                   inv w /\ (forall e, e ∈ path -> e ∈ s_edges s0)
                   /\ last.2 ∈ s_leaves s0).
    intros w (HI & Hne & Hall & Hend).
    destruct (py_index_last path Hne) as (last & Hlast & ->).
    exists last. split; [reflexivity |].
    rewrite (path_end_last path 0 last Hlast) in Hend. auto. }
  intros last. cbv zeta.
  assert (Hgoal : forall leaf,
            leaf ∈ s_leaves s0 -> leaf ∈ s_nodes s0 ->
            (forall e, e ∈ path -> e ∈ s_edges s0) ->
            0 ∈ s_nodes s0 ->
            returns inv
              (G ← MCTS.get_tree;
               leaf_node ← MCTS.lift (get_node G leaf);
               r ← MCTS.rollout leaf;
               MCTS.set_node leaf
                 (with_V ((n_V leaf_node * Qnat (n_N leaf_node) + r)
                          / (Qnat (n_N leaf_node) + 1))) ;;
               MCTS.set_node leaf (fun d => with_N (n_N d + 1) d) ;;
               MCTS.for_M (rev path) (MCTS.backup self) ;;
               G ← MCTS.get_tree;
               root ← MCTS.lift (get_node G 0);
               mret (n_V root))
              (fun _ => inv)).
  { intros leaf Hleaf Hnode Hall Hroot.
    eapply returns_bind; [apply returns_get_tree | intros G].
    eapply returns_bind; [apply (get_node_returns leaf G Hnode) | intros ln].
    eapply returns_bind.
    { eapply returns_weaken; [| | apply (rollout_returns leaf ln Hleaf)];
        [intros ? [[_ Hln] HI]; exact (conj Hln HI)
        | intros ? ? HP; exact HP]. }
    intros r.
    eapply returns_bind.
    { apply (set_node_returns leaf _
               (fun w =>
                  node_data (SyntheticTree._tree (MCTS.tree_env w)) !! leaf
                  = Some ln
                  /\ exists i,
                       SyntheticTree.rollout i leaf (MCTS.tree_env w)
                       = OK r));
        [intros dn; reflexivity | exact Hnode |].
      intros w dn [Hln [i Hi]] [HI Hgd] Hdn.
      assert (dn = ln) as -> by congruence.
      apply (Hgood_leaf (MCTS.tree_env w) leaf ln i r HI Hgd);
        [now rewrite <- HI in Hleaf | exact Hln | exact Hi]. }
    intros ?; cbv beta.
    eapply returns_bind.
    { eapply returns_weaken;
        [| | apply (set_node_returns leaf (fun d => with_N (n_N d + 1) d)
                      (fun _ => True))];
        [intros ? HI; exact (conj I HI) | intros ? ? HI; exact HI
        | intros dn; reflexivity | exact Hnode |].
      intros w dn _ HI Hdn. exact (Hgood_N _ leaf dn _ (proj2 HI) Hdn). }
    intros ?; cbv beta.
    eapply returns_bind.
    { apply returns_for_M. intros e He. apply backup_returns.
      apply Hall. apply list_elem_of_In. apply in_rev.
      now apply list_elem_of_In. }
    intros ?; cbv beta.
    eapply returns_bind; [apply returns_get_tree | intros G'].
    eapply returns_bind; [apply (get_node_returns 0 G' Hroot) | intros root].
    eapply returns_weaken; [| | apply returns_ret];
      [intros ? [_ HI]; exact HI | intros ? ? [_ HI]; exact HI]. }
  intros w (HI & Hall & Hleaf).
  destruct (Hready _ (proj1 HI)) as (Hshape & Hl & _).
  apply (Hgoal last.2); try assumption.
  - destruct HI as [HI _]. rewrite <- HI in *. simpl in *.
    rewrite Hl in Hleaf. now apply leaves_are_nodes.
  - destruct HI as [HI _]. rewrite <- HI. simpl. destruct Hshape as [-> _].
    apply elem_of_seq. simpl. lia.
Qed.

Lemma reset_returns :
  returns inv MCTS.reset
    (fun _ w => inv w /\ SyntheticTree.state (MCTS.tree_env w) = 0).
Proof.
  intros w [HI Hgd]. unfold MCTS.reset. eexists _, _.
  split; [reflexivity |].
  simpl. split; [| reflexivity]. split; [| exact Hgd].
  rewrite <- HI. reflexivity.
Qed.

Lemma run_returns (n : nat) :
  d <= recursion_limit ->
  returns inv (MCTS.run self n) (fun v_hat w => inv w /\ length v_hat = n).
Proof.
  intros Hlimit. unfold MCTS.run.
  induction n as [|n IH]; simpl.
  - intros w HI. exists [], w. split; [reflexivity | auto].
  - eapply returns_bind; [apply reset_returns | intros ?; cbv beta].
    eapply returns_bind; [now apply simulation_returns | intros v].
    eapply returns_bind; [exact IH | intros v_hat].
    intros w [HI Hlen]. exists (v :: v_hat), w.
    split; [reflexivity |]. split; [exact HI | simpl; now rewrite Hlen].
Qed.

End Invariant.

(** X7. Under uct, [run] completes on every tree environment that has the
    shape of [nx.balanced_tree(k, d)] with [k, d >= 1], the leaves the
    constructor computes, a dict at every node and edge and a ['mean'] at
    every leaf (every value a number), for every number of simulations,
    wherever the cursor is and whatever was counted before, the height
    not exceeding the recursion limit: no walk ends early, no key is
    missing in a backup. It returns one value per simulation and leaves
    the environment with these properties, its static part being
    unchanged. *)
Theorem uct_run_completes (k d : nat) (self : MCTS.t) (n : nat)
    (w : MCTS.World) :
  1 <= k -> 1 <= d -> d <= recursion_limit ->
  MCTS._algorithm self = uct ->
  ready k d (MCTS.tree_env w) ->
  exists v_hat w',
    MCTS.run self n w = OK (v_hat, w')
    /\ length v_hat = n
    /\ static (MCTS.tree_env w') = static (MCTS.tree_env w)
    /\ ready k d (MCTS.tree_env w').
Proof.
  intros Hk Hd Hlimit Halg Hready.
  assert (Hr : forall t, static t = static (MCTS.tree_env w) -> ready k d t)
    by (intros t Ht; exact (ready_static k d _ t Ht Hready)).
  destruct (run_returns k d (static (MCTS.tree_env w)) (fun _ => True)
              Hk Hd Hr self) with (n := n) (w := w)
    as (v_hat & w' & Hrun & [Hs _] & Hlen).
  - intros w1 [Hs1 _]. apply (select_uct_total self w1 Halg).
    now destruct (Hr _ Hs1) as (_ & _ & _ & He & _).
  - intros G e. now apply (uct_backup_value_total k d).
  - auto.
  - auto.
  - auto.
  - auto.
  - auto.
  - exact Hlimit.
  - split; [reflexivity | exact I].
  - exists v_hat, w'. split; [exact Hrun |]. split; [exact Hlen |].
    split; [exact Hs |]. exact (ready_static k d _ _ Hs Hready).
Qed.

End Returns.

Lemma ready_two_leaves : ready 2 1 two_leaves.
Proof.
  split; [split; reflexivity |]. split; [reflexivity |].
  split; [exact nodes_initialised_two_leaves |].
  split; [exact edges_initialised_two_leaves |].
  intros y Hy. simpl in Hy.
  apply elem_of_cons in Hy. destruct Hy as [-> | Hy]; [now eexists |].
  apply elem_of_cons in Hy. destruct Hy as [-> | Hy]; [now eexists |].
  now apply elem_of_nil in Hy.
Qed.

Lemma uct_run_completes_witness :
  exists v_hat w',
    @MCTS.run series_numpy counting_random python_runtime plain_uct 3
      two_leaves_world = OK (v_hat, w')
    /\ length v_hat = 3%nat.
Proof.
  destruct (@uct_run_completes series_numpy counting_random python_runtime
              2 1 plain_uct 3 two_leaves_world)
    as (v_hat & w' & Hrun & Hlen & _).
  - lia.
  - lia.
  - simpl. lia.
  - reflexivity.
  - exact ready_two_leaves.
  - exists v_hat, w'. split; [exact Hrun | exact Hlen].
Defined.

(** ** Runs of ments within the range of the exponential *)

Section Sizes.
Context {NP : Numpy} {RD : Random} {RT : Runtime}.

Lemma max_is_best (l : list Q) (mx : Q) :
  np.max l = OK mx ->
  (forall y, y ∈ l -> (y <= mx)%Q) /\ exists y, y ∈ l /\ (y == mx)%Q.
Proof.
  intros Hmx. split; [now apply max_upper_bound |].
  destruct l as [|x l]; [discriminate |]. injection Hmx as <-.
  destruct (foldr_max_attained x l) as (i & y & Hi & Hy).
  exists y. split; [| exact Hy]. apply list_elem_of_lookup. eauto.
Qed.

Local Open Scope nat_scope.

Lemma level_unique (k a b z : nat) :
  1 <= k ->
  level_start k a <= z < level_start k (S a) ->
  level_start k b <= z < level_start k (S b) -> a = b.
Proof.
  intros Hk Ha Hb.
  destruct (lt_eq_lt_dec a b) as [[Hlt | ->] | Hgt]; [| reflexivity |].
  - pose proof (level_start_mono k (S a) b Hk ltac:(lia)). lia.
  - pose proof (level_start_mono k (S b) a Hk ltac:(lia)). lia.
Qed.

Local Close Scope nat_scope.









Section Bounded.
Variables (k d : nat) (E L R : Q) (self : MCTS.t).
Hypothesis Hk : (1 <= k)%nat.
Hypothesis Hd : (1 <= d)%nat.
Hypothesis Hexp_pos : forall x, - E <= x <= E -> 0 < np_exp x.
Hypothesis Hexp_le : forall x, x <= 0 -> 0 <= np_exp x <= 1.
Hypothesis Hexp_ge : forall x, 0 <= x -> 1 <= np_exp x.
Hypothesis Hlog : forall y, 1 <= y <= Qnat k -> 0 <= np_log y <= L.
Hypothesis Hrandn : forall i, Qabs (randn i) <= R.
Hypothesis Halg : MCTS._algorithm self = ments.
Hypothesis Htau : ~ MCTS._tau self == 0.
Hypothesis Hsize :
  1 + (1 # 2) * R + Qnat d * (Qabs (MCTS._tau self) * L)
  <= E * Qabs (MCTS._tau self).

Local Abbreviation B := (1 + (1 # 2) * R).
Local Abbreviation inc := (Qabs (MCTS._tau self) * L).









End Bounded.


End Sizes.





(** ** The means of the leaves of a constructed tree *)

Section LeafMeans.
Context {NP : Numpy} {RD : Random} {RT : Runtime}.
Local Open Scope nat_scope.

(** *** The weight of an edge is the draw with its number *)

Lemma fmap_snd_imap_pair {A : Type} (l : list A) : (imap pair l).*2 = l.
Proof.
  apply list_eq. intros i.
  rewrite list_lookup_fmap, list_lookup_imap.
  now destruct (l !! i).
Qed.

Lemma init_edges_fold_out (alg : algorithm) (l : list (nat * edge)) :
  forall G0 e,
    e ∉ l.*2 ->
    edge_data (foldl (fun G ie => put_edge ie.2
                                    (SyntheticTree.init_edge alg ie.1) G)
                     G0 l) !! e
    = edge_data G0 !! e.
Proof.
  induction l as [|[i e0] l IH]; intros G0 e He; [reflexivity |].
  simpl in *. apply not_elem_of_cons in He. destruct He as [Hne He].
  rewrite IH by assumption. simpl. now apply lookup_insert_ne.
Qed.

Lemma init_edges_fold_in (alg : algorithm) (l : list (nat * edge)) :
  forall G0 i e,
    NoDup l.*2 -> (i, e) ∈ l ->
    edge_data (foldl (fun G ie => put_edge ie.2
                                    (SyntheticTree.init_edge alg ie.1) G)
                     G0 l) !! e
    = Some (SyntheticTree.init_edge alg i).
Proof.
  induction l as [|[i0 e0] l IH]; intros G0 i e Hnd Hin.
  - now apply elem_of_nil in Hin.
  - simpl in *. apply NoDup_cons in Hnd. destruct Hnd as [Hnotin Hnd].
    apply elem_of_cons in Hin. destruct Hin as [E | Hin].
    + injection E as -> ->. rewrite init_edges_fold_out by assumption.
      simpl. apply lookup_insert_eq.
    + now apply IH.
Qed.

Lemma init_edges_index (alg : algorithm) (G : DiGraph) (i : nat) (e : edge) :
  NoDup (edges G) -> edges G !! i = Some e ->
  edge_data (SyntheticTree.init_edges alg G) !! e
  = Some (SyntheticTree.init_edge alg i).
Proof.
  intros Hnd Hi. unfold SyntheticTree.init_edges.
  apply init_edges_fold_in.
  - now rewrite fmap_snd_imap_pair.
  - apply list_elem_of_lookup. exists i.
    now rewrite list_lookup_imap, Hi.
Qed.

Lemma tree_edges_NoDup (k d : nat) :
  NoDup (nx.tree_edges k (level_start k (S d))).
Proof.
  apply (NoDup_fmap_1 snd). rewrite tree_edges_targets. apply NoDup_seq.
Qed.

Lemma tree_edges_target_index (k d i : nat) (e : edge) :
  nx.tree_edges k (level_start k (S d)) !! i = Some e -> e.2 = S i.
Proof.
  intros Hi.
  assert (E : (nx.tree_edges k (level_start k (S d))).*2 !! i = Some e.2)
    by (now rewrite list_lookup_fmap, Hi).
  rewrite tree_edges_targets in E. apply lookup_seq in E.
  destruct E as [E _]. lia.
Qed.

Lemma init_weight (k d : nat) (alg : algorithm) (e : edge) :
  e ∈ edges (nx.balanced_tree k d) ->
  weight_of (SyntheticTree.init_nodes alg
               (SyntheticTree.init_edges alg (nx.balanced_tree k d))) e
  = rand (e.2 - 1).
Proof.
  intros He. apply list_elem_of_lookup in He. destruct He as [i Hi].
  pose proof (init_nodes_spec alg
                (SyntheticTree.init_edges alg (nx.balanced_tree k d)))
    as (_ & _ & Hed & _).
  unfold weight_of. rewrite Hed.
  assert (Hnd : NoDup (edges (nx.balanced_tree k d))).
  { simpl. rewrite balanced_order_level. apply tree_edges_NoDup. }
  rewrite (init_edges_index alg _ i e Hnd Hi). simpl.
  simpl in Hi. rewrite balanced_order_level in Hi.
  apply tree_edges_target_index in Hi. rewrite Hi. f_equal. lia.
Qed.

Lemma parent_level (k j y : nat) :
  1 <= k ->
  level_start k (S j) <= y < level_start k (S (S j)) ->
  level_start k j <= parent k y < level_start k (S j)
  /\ y ∈ seq (k * parent k y + 1) k.
Proof.
  intros Hk Hy. unfold parent. simpl level_start in Hy.
  pose proof (Nat.div_mod (y - 1) k ltac:(lia)) as Hdm.
  pose proof (Nat.mod_upper_bound (y - 1) k ltac:(lia)) as Hmod.
  split; [split |].
  - apply Nat.div_le_lower_bound; lia.
  - apply Nat.Div0.div_lt_upper_bound; simpl; lia.
  - apply elem_of_seq. lia.
Qed.

Lemma path_weight_rand (k d : nat) (alg : algorithm) :
  1 <= k ->
  forall n y,
    n <= d -> level_start k n <= y < level_start k (S n) ->
    path_weight (SyntheticTree.init_nodes alg
                   (SyntheticTree.init_edges alg (nx.balanced_tree k d)))
                k n y
    = rand_path k n y.
Proof.
  intros Hk. destruct (init_graph_ready k d alg) as (Hshape & _).
  induction n as [|n IH]; intros y Hn Hy; [reflexivity |].
  destruct (parent_level k n y Hk Hy) as [Hp Hc].
  cbn [path_weight rand_path]. rewrite IH by (lia || assumption).
  f_equal. rewrite init_weight; [reflexivity |].
  pose proof (init_edges_spec alg (nx.balanced_tree k d)) as (_ & He1 & _).
  pose proof (init_nodes_spec alg
                (SyntheticTree.init_edges alg (nx.balanced_tree k d)))
    as (_ & He2 & _).
  rewrite <- He1, <- He2.
  eapply (proj1 (edges_of_elem _ (parent k y) _)).
  rewrite (shape_edges_of k d) by exact Hshape.
  pose proof (level_start_mono k (S n) d Hk ltac:(lia)).
  destruct (decide _); [| lia].
  apply list_elem_of_fmap. eauto.
Qed.

(** *** The normalisation writes its values to the leaves in order *)

Lemma comprehension_map {A B : Type} (f : A -> res B) (g : A -> B)
    (l : list A) :
  (forall a, a ∈ l -> f a = OK (g a)) -> comprehension f l = OK (map g l).
Proof.
  induction l as [|a l IH]; intros Hf; [reflexivity |].
  simpl. rewrite (Hf a) by left. simpl.
  rewrite IH by (intros a' Ha'; apply Hf; now right). reflexivity.
Qed.

Lemma set_means_loop (means' : list Q) (l : list nat) :
  forall off G,
    NoDup l ->
    (forall i y, l !! i = Some y -> is_Some (means' !! (off + i))) ->
    (forall y, y ∈ l -> is_Some (node_data G !! y)) ->
    exists G',
      for_each (imap (fun i y => (off + i, y)) l)
        (fun (il : nat * nat) G =>
           m ← of_option IndexError (means' !! il.1);
           update_node il.2 (with_mean m) G) G = OK G'
      /\ attrs_kept G G'
      /\ (forall i y, l !! i = Some y ->
            exists m, means' !! (off + i) = Some m /\ node_mean G' y = OK m)
      /\ (forall y, y ∉ l -> node_data G' !! y = node_data G !! y).
Proof.
  induction l as [|y l IH]; intros off G Hnd Hlen Hinit.
  - exists G. split; [reflexivity |]. split; [apply attrs_kept_refl |].
    split; [| reflexivity]. intros i y Hi. discriminate.
  - apply NoDup_cons in Hnd. destruct Hnd as [Hy Hnd].
    cbn [imap for_each].
    destruct (Hlen 0 y eq_refl) as [m Hm]. cbn [fst snd].
    rewrite Hm. cbn [of_option mbind res_mbind res_bind].
    destruct (update_node_total y (with_mean m) G (Hinit y ltac:(left)))
      as [G1 HG1].
    rewrite HG1. cbn [res_bind].
    rewrite (imap_ext _ (fun i y => (S off + i, y)) l)
      by (intros i x _; simpl; f_equal; lia).
    destruct (IH (S off) G1 Hnd) as (G' & HG' & Hk' & Hm' & Hf').
    { intros i x Hi. replace (S off + i) with (off + S i) by lia.
      now apply (Hlen (S i) x). }
    { intros x Hx. pose proof HG1 as HG1'.
      apply update_node_OK in HG1'. destruct HG1' as (dy & _ & ->). simpl.
      destruct (decide (x = y)) as [-> |];
        [rewrite lookup_insert_eq; eauto |].
      rewrite lookup_insert_ne by congruence. apply Hinit. now right. }
    exists G'. split; [exact HG' |]. split.
    { eapply attrs_kept_trans; [| exact Hk'].
      eapply update_node_kept; [| exact HG1]. reflexivity. }
    split.
    + intros [|i] x Hi.
      * injection Hi as <-. exists m. split; [exact Hm |].
        unfold node_mean, get_node. rewrite (Hf' y Hy).
        exact (set_mean_has_mean y m G G1 HG1).
      * destruct (Hm' i x Hi) as (m' & Hm'' & Hx).
        exists m'. split; [| exact Hx].
        now replace (off + S i) with (S off + i) by lia.
    + intros x Hx. apply not_elem_of_cons in Hx. destruct Hx as [Hne Hx].
      rewrite (Hf' x Hx).
      apply update_node_OK in HG1. destruct HG1 as (dy & _ & ->). simpl.
      now apply lookup_insert_ne.
Qed.

Lemma normalize_leaf_means_values (self : SyntheticTree.t)
    (raw : nat -> Q) (means' : list Q) :
  let G := SyntheticTree._tree self in
  let leaves := SyntheticTree.leaves self in
  NoDup leaves ->
  (forall y, y ∈ leaves -> node_mean G y = OK (raw y)) ->
  SyntheticTree.normalize (map raw leaves) = OK means' ->
  exists G',
    SyntheticTree.normalize_leaf_means self
    = OK (SyntheticTree.set_tree G' self)
    /\ attrs_kept G G'
    /\ (forall i y, leaves !! i = Some y ->
          exists m, means' !! i = Some m /\ node_mean G' y = OK m).
Proof.
  intros G leaves Hnd Hraw Hnorm. unfold SyntheticTree.normalize_leaf_means.
  fold G. fold leaves.
  rewrite (comprehension_map _ raw leaves Hraw).
  erewrite res_bind_eq by reflexivity.
  rewrite Hnorm. erewrite res_bind_eq by reflexivity.
  destruct (normalize_total (map raw leaves)) as (ms & Hms & Hlen).
  rewrite Hnorm in Hms. injection Hms as <-. rewrite length_map in Hlen.
  destruct (set_means_loop means' leaves 0 G Hnd) as (G' & HG' & Hk & Hm & _).
  { intros i y Hi. apply lookup_lt_is_Some_2.
    apply lookup_lt_Some in Hi. simpl. lia. }
  { intros y Hy. pose proof (Hraw y Hy) as Hm0.
    apply (node_attr_OK n_mean) in Hm0. destruct Hm0 as (dy & Hdy & _).
    eauto. }
  rewrite (imap_ext pair (fun i y => (0 + i, y)) leaves)
    by (intros; reflexivity).
  rewrite HG'. erewrite res_bind_eq by reflexivity.
  exists G'. split; [reflexivity |]. split; [exact Hk |].
  exact Hm.
Qed.

(** The ['mean'] of a leaf of a constructed tree with two or more leaves,
    given the extremes of the sums of weights. *)
Lemma leaf_means_values (k d : nat) (alg : algorithm)
    (tau alpha gamma : Q) (t : SyntheticTree.t) (mn mx : Q) :
  let raw := map (rand_path k d) (seq (level_start k d) (k ^ d)) in
  2 <= k -> 1 <= d -> d < recursion_limit ->
  SyntheticTree.__init__ k d alg tau alpha gamma = OK t ->
  np.min raw = OK mn -> np.max raw = OK mx -> (mn < mx)%Q ->
  forall y, y ∈ SyntheticTree.leaves t ->
    node_mean (SyntheticTree._tree t) y
    = OK ((rand_path k d y - mn) / (mx - mn))%Q.
Proof.
  intros raw Hk Hd Hlimit Hinit Hmn Hmx Hlt y Hy.
  assert (Hk1 : 1 <= k) by lia.
  destruct (init_graph_ready k d alg) as (Hshape & Hnodes & Hedges).
  set (G0 := SyntheticTree.init_nodes alg _) in *.
  unfold SyntheticTree.__init__ in Hinit. cbv zeta in Hinit.
  fold G0 in Hinit.
  apply res_bind_OK in Hinit. destruct Hinit as (self1 & H1 & Hinit).
  apply res_bind_OK in Hinit. destruct Hinit as (self2 & H2 & Hinit).
  apply res_bind_OK in Hinit. destruct Hinit as (mm & _ & Hinit).
  apply res_bind_OK in Hinit. destruct Hinit as (self3 & H3 & Hinit).
  apply res_bind_OK in Hinit. destruct Hinit as (vq & _ & Hinit).
  injection Hinit as <-. simpl in Hy |- *.
  (* the first stage *)
  destruct (compute_mean_values k d G0 Hk1 Hd Hshape Hnodes Hedges
              recursion_limit 0 0 G0)
    as (G1 & HG1 & Hk1' & Hm1 & _);
    [lia | simpl; lia | lia | apply attrs_kept_refl |].
  rewrite Nat.sub_0_r, subtree_root in Hm1.
  unfold SyntheticTree._compute_mean in H1. simpl in H1, HG1.
  rewrite HG1 in H1. injection H1 as <-.
  pose proof (shape_leaves_deep k d G0 Hk1 Hd Hshape) as Hleaves.
  (* the normalisation *)
  assert (Hraw : forall x, x ∈ SyntheticTree.compute_leaves G0 ->
                   node_mean G1 x = OK (rand_path k d x)).
  { intros x Hx. rewrite Hleaves in Hx. rewrite (Hm1 x Hx).
    f_equal. apply path_weight_rand; [exact Hk1 | lia |].
    apply elem_of_seq in Hx. rewrite level_start_width. lia. }
  assert (Hlen : 1 < length raw).
  { unfold raw. rewrite length_map, length_seq.
    destruct d as [|d']; [lia |]. rewrite Nat.pow_succ_r'.
    pose proof (Nat.pow_nonzero k d' ltac:(lia)). nia. }
  assert (Hnorm : SyntheticTree.normalize raw
                  = OK (map (fun m => (m - mn) / (mx - mn))%Q raw)).
  { unfold SyntheticTree.normalize.
    rewrite (proj2 (Nat.ltb_lt _ _) Hlen), Hmn, Hmx. reflexivity. }
  destruct (normalize_leaf_means_values
              (SyntheticTree.set_tree G1
                 {| SyntheticTree._k := k; SyntheticTree._d := d;
                    SyntheticTree._algorithm := alg;
                    SyntheticTree._tau := tau;
                    SyntheticTree._alpha := alpha;
                    SyntheticTree._gamma := gamma;
                    SyntheticTree._tree := G0;
                    SyntheticTree.leaves := SyntheticTree.compute_leaves G0;
                    SyntheticTree.max_mean := 0;
                    SyntheticTree.optimal_v_root := 0;
                    SyntheticTree.q_root := [];
                    SyntheticTree.state := 0 |})
              (rand_path k d) (map (fun m => (m - mn) / (mx - mn))%Q raw))
    as (G2 & HG2 & Hk2 & Hm2).
  { simpl. rewrite Hleaves. apply NoDup_seq. }
  { exact Hraw. }
  { simpl. rewrite Hleaves. exact Hnorm. }
  rewrite HG2 in H2. injection H2 as <-.
  (* the inner nodes *)
  apply assign_priors_stage in H3. destruct H3 as (G3 & -> & Hk3 & Hu3).
  simpl in *.
  apply list_elem_of_lookup in Hy. destruct Hy as [i Hi].
  destruct (Hm2 i y Hi) as (m & Hm & Hy2).
  rewrite Hleaves in Hi.
  unfold raw in Hm. rewrite map_map, list_lookup_fmap, Hi in Hm.
  injection Hm as <-.
  unfold node_mean, get_node. rewrite Hu3; [exact Hy2 |].
  assert (Hshape2 : balanced_shape k d G2).
  { destruct Hk1' as (Hn1 & He1 & _). destruct Hk2 as (Hn2 & He2 & _).
    apply (shape_topology k d G0); [congruence | congruence | exact Hshape]. }
  rewrite (shape_edges_of k d) by exact Hshape2.
  apply lookup_seq in Hi. destruct (decide _); [lia | reflexivity].
Qed.

Lemma raw_sums_extremes (k d : nat) :
  1 <= k ->
  exists mn mx,
    np.min (map (rand_path k d) (seq (level_start k d) (k ^ d))) = OK mn
    /\ np.max (map (rand_path k d) (seq (level_start k d) (k ^ d))) = OK mx
    /\ forall y, y ∈ seq (level_start k d) (k ^ d) ->
         (mn <= rand_path k d y <= mx)%Q.
Proof.
  intros Hk.
  assert (Hne : map (rand_path k d) (seq (level_start k d) (k ^ d)) <> []).
  { pose proof (Nat.pow_nonzero k d ltac:(lia)).
    destruct (k ^ d); [lia | discriminate]. }
  destruct (map (rand_path k d) (seq (level_start k d) (k ^ d)))
    as [|x raw] eqn:Hraw; [congruence |].
  eexists _, _. split; [reflexivity |]. split; [reflexivity |].
  intros y Hy.
  assert (Hin : rand_path k d y ∈ x :: raw).
  { rewrite <- Hraw. apply list_elem_of_fmap. eauto. }
  split.
  - now apply foldr_min_lower_bound.
  - now apply foldr_max_upper_bound.
Qed.

(** X8. The ['mean'] of each leaf of a constructed tree with two or more
    leaves is the min-max normalised sum of the weights drawn for the
    edges on the way from the root to the leaf, the weight of the edge
    into node [y] being draw number [y - 1] of [np.random.rand]: with
    [S(y)] that sum, and [S] not constant on the leaves, the mean of leaf
    [y] is [(S(y) - min S) / (max S - min S)], for every algorithm for
    which the construction completes. *)
Theorem leaf_means_formula (k d : nat) (alg : algorithm)
    (tau alpha gamma : Q) (t : SyntheticTree.t) :
  let raw := map (rand_path k d) (seq (level_start k d) (k ^ d)) in
  2 <= k -> 1 <= d -> d < recursion_limit ->
  SyntheticTree.__init__ k d alg tau alpha gamma = OK t ->
  exists mn mx,
    np.min raw = OK mn /\ np.max raw = OK mx
    /\ ((mn < mx)%Q ->
        forall y, y ∈ SyntheticTree.leaves t ->
          node_mean (SyntheticTree._tree t) y
          = OK ((rand_path k d y - mn) / (mx - mn))%Q).
Proof.
  intros raw Hk Hd Hlimit Hinit.
  destruct (raw_sums_extremes k d ltac:(lia)) as (mn & mx & Hmn & Hmx & _).
  exists mn, mx. split; [exact Hmn |]. split; [exact Hmx |].
  intros Hlt y Hy.
  now apply (leaf_means_values k d alg tau alpha gamma t mn mx).
Qed.

(** The leaf means of a constructed tree lie in [[0, 1]], the sums of
    weights not being the same for all leaves. *)
Lemma leaf_means_unit (k d : nat) (alg : algorithm)
    (tau alpha gamma : Q) (t : SyntheticTree.t) :
  2 <= k -> 1 <= d -> d < recursion_limit ->
  SyntheticTree.__init__ k d alg tau alpha gamma = OK t ->
  (exists y y', y ∈ seq (level_start k d) (k ^ d)
                /\ y' ∈ seq (level_start k d) (k ^ d)
                /\ (rand_path k d y < rand_path k d y')%Q) ->
  forall y, y ∈ SyntheticTree.leaves t ->
    exists m, node_mean (SyntheticTree._tree t) y = OK m /\ (0 <= m <= 1)%Q.
Proof.
  intros Hk Hd Hlimit Hinit (y1 & y2 & Hy1 & Hy2 & Hlt) y Hy.
  destruct (raw_sums_extremes k d ltac:(lia)) as (mn & mx & Hmn & Hmx & Hb).
  pose proof (Hb y1 Hy1). pose proof (Hb y2 Hy2).
  assert (Hpos : (0 < mx - mn)%Q) by lra.
  eexists. split.
  - apply (leaf_means_values k d alg tau alpha gamma t mn mx);
      try assumption. lra.
  - pose proof (init_topology _ _ _ _ _ _ _ Hinit) as (_ & _ & Hl & _).
    rewrite Hl in Hy.
    rewrite (shape_leaves_deep k d) in Hy
      by (lia || apply balanced_tree_shape).
    pose proof (Hb y Hy). split.
    + apply Qle_shift_div_l; [exact Hpos | lra].
    + apply Qle_shift_div_r; [exact Hpos | lra].
Qed.

(** The single leaf of a tree with [k = 1] has the mean 0. *)
Lemma single_leaf_zero (d : nat) (alg : algorithm) (tau alpha gamma : Q)
    (t : SyntheticTree.t) :
  1 <= d ->
  SyntheticTree.__init__ 1 d alg tau alpha gamma = OK t ->
  forall y, y ∈ SyntheticTree.leaves t ->
    node_mean (SyntheticTree._tree t) y = OK 0%Q.
Proof.
  intros Hd Hinit y Hy.
  destruct (init_graph_ready 1 d alg) as (Hshape & _).
  apply init_stages in Hinit. cbv zeta in Hinit.
  destruct Hinit as (G2 & (Hn2 & He2 & _) & Hsingle & _ & Hu & Hl & _).
  rewrite Hl in Hy.
  pose proof (shape_leaves_deep 1 d _ ltac:(lia) Hd Hshape) as Hleaves.
  rewrite Nat.pow_1_l in Hleaves. simpl seq in Hleaves.
  rewrite Hleaves in Hy. apply list_elem_of_singleton in Hy. subst y.
  unfold node_mean, get_node. rewrite Hu.
  - now apply Hsingle.
  - rewrite (shape_edges_of 1 d)
      by (now apply (shape_topology 1 d
                       (SyntheticTree.init_nodes alg
                          (SyntheticTree.init_edges alg
                             (nx.balanced_tree 1 d))))).
    destruct (decide _); [lia | reflexivity].
Qed.

End LeafMeans.

Lemma leaf_means_formula_witness :
  exists t mn mx,
    @SyntheticTree.__init__ series_numpy counting_random python_runtime
      2 1 uct 1 2 1 = OK t
    /\ np.min (map (@rand_path counting_random 2 1) [1; 2]%nat) = OK mn
    /\ np.max (map (@rand_path counting_random 2 1) [1; 2]%nat) = OK mx
    /\ node_mean (SyntheticTree._tree t) 2
       = OK ((@rand_path counting_random 2 1 2 - mn) / (mx - mn)).
Proof.
  destruct (@init_total series_numpy counting_random python_runtime
              2 1 uct 1 2 1)
    as (t & Hinit & _ & _ & _ & _ & _ & Hl & _);
    [lia | lia | simpl; lia | discriminate | discriminate | discriminate |].
  pose proof (@init_topology series_numpy counting_random python_runtime
                2 1 uct 1 2 1 t Hinit) as (_ & _ & Hleaves & _).
  destruct (@leaf_means_formula series_numpy counting_random python_runtime
              2 1 uct 1 2 1 t) as (mn & mx & Hmn & Hmx & Hform);
    [lia | lia | simpl; lia | exact Hinit |].
  exists t, mn, mx. split; [exact Hinit |].
  split; [exact Hmn |]. split; [exact Hmx |].
  apply Hform.
  - vm_compute in Hmn, Hmx. injection Hmn as <-. injection Hmx as <-.
    reflexivity.
  - rewrite Hleaves. vm_compute. right. left.
Defined.

(** ** The values the backup leaves on the edges *)

Section BackedUp.
Context {NP : Numpy} {RD : Random} {RT : Runtime}.
Local Open Scope nat_scope.

Lemma shape_single_parent (k d : nat) (G : DiGraph) :
  balanced_shape k d G -> single_parent G.
Proof.
  intros [_ He] e e' Hin Hin' Heq. rewrite He in Hin, Hin'.
  apply list_elem_of_lookup in Hin, Hin'.
  destruct Hin as [i Hi]. destruct Hin' as [j Hj].
  assert (Hij : i = j).
  { pose proof (tree_edges_target_index k d i e Hi).
    pose proof (tree_edges_target_index k d j e' Hj). lia. }
  subst j. congruence.
Qed.

(** *** What a write does to the invariant *)

Lemma backed_up_set_Q (G : DiGraph) (e : edge) (d : EdgeData)
    (next : NodeData) :
  single_parent G -> e ∈ edges G ->
  node_data G !! e.2 = Some next ->
  backed_up_but (Some e.2) G ->
  backed_up_but None (put_edge e (with_eQ (n_V next) d) G).
Proof.
  intros Hsp He Hnext Hinv e' He' _. simpl in *.
  destruct (decide (e' = e)) as [-> | Hne].
  - rewrite lookup_insert_eq, Hnext. reflexivity.
  - rewrite lookup_insert_ne by congruence.
    apply Hinv; [exact He' |]. intros E. injection E as E.
    apply Hne. now apply Hsp.
Qed.

Lemma backed_up_edge_attr (x : option nat) (G : DiGraph) (e : edge)
    (d d' : EdgeData) :
  edge_data G !! e = Some d -> e_Q d' = e_Q d ->
  backed_up_but x G -> backed_up_but x (put_edge e d' G).
Proof.
  intros Hd HQ Hinv e' He' Hx. simpl in *.
  destruct (decide (e' = e)) as [-> | Hne].
  - rewrite lookup_insert_eq. simpl. rewrite HQ.
    rewrite <- (Hinv e He' Hx), Hd. reflexivity.
  - rewrite lookup_insert_ne by congruence. now apply Hinv.
Qed.

Lemma backed_up_set_V (G : DiGraph) (n : nat) (d' : NodeData) :
  backed_up_but None G -> backed_up_but (Some n) (put_node n d' G).
Proof.
  intros Hinv e He Hx. simpl in *.
  rewrite lookup_insert_ne by congruence.
  apply Hinv; [exact He | discriminate].
Qed.

Lemma backed_up_node_attr (x : option nat) (G : DiGraph) (n : nat)
    (d d' : NodeData) :
  node_data G !! n = Some d -> n_V d' = n_V d ->
  backed_up_but x G -> backed_up_but x (put_node n d' G).
Proof.
  intros Hd HV Hinv e He Hx. simpl in *.
  destruct (decide (e.2 = n)) as [E | Hne].
  - rewrite E, lookup_insert_eq. simpl. rewrite HV.
    rewrite (Hinv e He Hx), E, Hd. reflexivity.
  - rewrite lookup_insert_ne by congruence. now apply Hinv.
Qed.

(** *** One pass of the backup *)

Lemma backup_backs_up (self : MCTS.t) (e : edge) (w w' : MCTS.World)
    (u : unit) :
  let G := SyntheticTree._tree (MCTS.tree_env w) in
  single_parent G -> e ∈ edges G ->
  backed_up_but (Some e.2) G ->
  MCTS.backup self e w = OK (u, w') ->
  backed_up_but (Some e.1) (SyntheticTree._tree (MCTS.tree_env w')).
Proof.
  intros G Hsp He Hinv Hrun. unfold MCTS.backup in Hrun.
  apply M_bind_OK in Hrun. destruct Hrun as (G0 & w0 & HG0 & Hrun).
  apply get_tree_OK in HG0. destruct HG0 as [-> ->].
  apply M_bind_OK in Hrun. destruct Hrun as (d1 & w0 & Hd1 & Hrun).
  apply lift_OK in Hd1. destruct Hd1 as [_ ->].
  apply M_bind_OK in Hrun. destruct Hrun as (next & w0 & Hnext & Hrun).
  apply lift_OK in Hnext. destruct Hnext as [Hnext ->].
  apply of_option_OK in Hnext. fold G in Hnext.
  apply M_bind_OK in Hrun. destruct Hrun as ([] & w1 & H1 & Hrun).
  apply set_edge_OK in H1. destruct H1 as (de & Hde & Hw1). fold G in Hde, Hw1.
  apply M_bind_OK in Hrun. destruct Hrun as ([] & w2 & H2 & Hrun).
  apply set_edge_OK in H2. destruct H2 as (de' & Hde' & Hw2).
  apply M_bind_OK in Hrun. destruct Hrun as (G2 & w2' & HG2 & Hrun).
  apply get_tree_OK in HG2. destruct HG2 as [-> ->].
  apply M_bind_OK in Hrun. destruct Hrun as (v & w2' & Hv & Hrun).
  apply lift_OK in Hv. destruct Hv as [_ ->].
  apply M_bind_OK in Hrun. destruct Hrun as ([] & w3 & H3 & Hrun).
  apply set_node_OK in H3. destruct H3 as (dn & Hdn & Hw3).
  apply set_node_OK in Hrun. destruct Hrun as (dn' & Hdn' & Hw4).
  rewrite Hw4. simpl.
  apply (backed_up_node_attr _ _ _ dn'); [exact Hdn' | reflexivity |].
  rewrite Hw3. simpl. apply backed_up_set_V.
  rewrite Hw2. simpl.
  apply (backed_up_edge_attr _ _ _ de'); [exact Hde' | reflexivity |].
  rewrite Hw1. simpl. now apply backed_up_set_Q.
Qed.

Lemma for_M_app_OK {A : Type} (l1 l2 : list A) (body : A -> MCTS.M unit)
    (w w' : MCTS.World) (u : unit) :
  MCTS.for_M (l1 ++ l2) body w = OK (u, w') ->
  exists w1, MCTS.for_M l1 body w = OK (tt, w1)
             /\ MCTS.for_M l2 body w1 = OK (u, w').
Proof.
  revert w. induction l1 as [|a l1 IH]; intros w Hrun; simpl in *.
  - exists w. split; [reflexivity | exact Hrun].
  - apply M_bind_OK in Hrun. destruct Hrun as ([] & w0 & Ha & Hrun).
    destruct (IH _ Hrun) as (w1 & H1 & H2).
    exists w1. split; [| exact H2].
    now rewrite (M_bind_eq _ _ _ _ _ Ha).
Qed.

Lemma backups_back_up (self : MCTS.t) (path : list edge) :
  forall s w w' u,
    let G := SyntheticTree._tree (MCTS.tree_env w) in
    single_parent G -> chain s path ->
    Forall (fun e => e ∈ edges G) path ->
    backed_up_but (Some (path_end s path)) G ->
    MCTS.for_M (rev path) (MCTS.backup self) w = OK (u, w') ->
    backed_up_but (Some s) (SyntheticTree._tree (MCTS.tree_env w')).
Proof.
  induction path as [|e rest IH]; intros s w w' u G Hsp Hchain Hall Hinv Hrun.
  - simpl in Hrun. apply M_ret_OK in Hrun. destruct Hrun as [_ ->].
    exact Hinv.
  - simpl in Hrun. apply for_M_app_OK in Hrun.
    destruct Hrun as (w1 & Hrest & Hlast).
    simpl in Hlast. apply M_bind_OK in Hlast.
    destruct Hlast as ([] & w2 & Hback & Hret).
    apply M_ret_OK in Hret. destruct Hret as [_ ->].
    destruct Hchain as [Hsrc Hchain].
    apply Forall_cons in Hall. destruct Hall as [He Hall].
    rewrite path_end_cons in Hinv.
    pose proof (IH e.2 w w1 tt Hsp Hchain Hall Hinv Hrest) as Hinv1.
    pose proof (preserves_for_M static (rev rest) (MCTS.backup self)
                  (fun a => stable_backup self a) w tt w1 Hrest) as Hs1.
    apply (f_equal s_edges) in Hs1. simpl in Hs1.
    rewrite <- Hsrc.
    apply (backup_backs_up self e w1 w2 tt); try assumption.
    + intros e1 e2 H1 H2. rewrite Hs1 in H1, H2. now apply Hsp.
    + now rewrite Hs1.
Qed.

(** *** A simulation, and a run *)

Lemma simulation_backs_up (self : MCTS.t) (w w' : MCTS.World) (v : Q) :
  let G := SyntheticTree._tree (MCTS.tree_env w) in
  single_parent G ->
  (forall e, e ∈ edges G -> e.2 <> SyntheticTree.state (MCTS.tree_env w)) ->
  backed_up_but None G ->
  MCTS._simulation self w = OK (v, w') ->
  backed_up_but None (SyntheticTree._tree (MCTS.tree_env w')).
Proof.
  intros G Hsp Hroot Hinv Hrun. unfold MCTS._simulation in Hrun.
  apply M_bind_OK in Hrun. destruct Hrun as (path & w1 & Hnav & Hrun).
  pose proof (preserves_tree_navigate _ _ _ _ _ Hnav) as Htree.
  apply navigate_chain in Hnav.
  destruct Hnav as (Hne & Hchain & Hall & _ & _).
  set (s := SyntheticTree.state (MCTS.tree_env w)) in *.
  apply M_bind_OK in Hrun. destruct Hrun as (last & w2 & Hlast & Hrun).
  apply lift_OK in Hlast. destruct Hlast as [Hlast ->].
  destruct (py_index_last path Hne) as (last' & Hlast' & E).
  rewrite E in Hlast. injection Hlast as ->.
  pose proof (path_end_last path s last Hlast') as Hend.
  apply M_bind_OK in Hrun. destruct Hrun as (G1 & w2 & HG1 & Hrun).
  apply get_tree_OK in HG1. destruct HG1 as [-> ->].
  apply M_bind_OK in Hrun. destruct Hrun as (ln & w2 & Hln & Hrun).
  apply lift_OK in Hln. destruct Hln as [_ ->].
  apply M_bind_OK in Hrun. destruct Hrun as (r & w2 & Hr & Hrun).
  pose proof (preserves_rollout SyntheticTree._tree _ _ _ _ Hr) as Htree2.
  apply M_bind_OK in Hrun. destruct Hrun as ([] & w3 & H3 & Hrun).
  apply set_node_OK in H3. destruct H3 as (dl & Hdl & Hw3).
  apply M_bind_OK in Hrun. destruct Hrun as ([] & w4 & H4 & Hrun).
  apply set_node_OK in H4. destruct H4 as (dl' & Hdl' & Hw4).
  apply M_bind_OK in Hrun. destruct Hrun as ([] & w5 & H5 & Hrun).
  apply M_bind_OK in Hrun. destruct Hrun as (G5 & w6 & HG5 & Hrun).
  apply get_tree_OK in HG5. destruct HG5 as [-> ->].
  apply M_bind_OK in Hrun. destruct Hrun as (root & w6 & Hroot' & Hrun).
  apply lift_OK in Hroot'. destruct Hroot' as [_ ->].
  apply M_ret_OK in Hrun. destruct Hrun as [_ ->].
  assert (Hinv3 : backed_up_but (Some last.2)
                    (SyntheticTree._tree (MCTS.tree_env w3))).
  { rewrite Hw3. simpl. rewrite Htree2, Htree. now apply backed_up_set_V. }
  assert (Hinv4 : backed_up_but (Some (path_end s path))
                    (SyntheticTree._tree (MCTS.tree_env w4))).
  { rewrite Hend, Hw4. simpl.
    apply (backed_up_node_attr _ _ _ dl');
      [exact Hdl' | reflexivity | exact Hinv3]. }
  assert (He4 : edges (SyntheticTree._tree (MCTS.tree_env w4)) = edges G).
  { rewrite Hw4. simpl. rewrite Hw3. simpl. now rewrite Htree2, Htree. }
  pose proof (backups_back_up self path s w4 w5 tt) as Hloop.
  cbv zeta in Hloop.
  assert (Hinv5 : backed_up_but (Some s)
                    (SyntheticTree._tree (MCTS.tree_env w5))).
  { apply Hloop; try assumption.
    - intros e1 e2 H1 H2. rewrite He4 in H1, H2. now apply Hsp.
    - eapply Forall_impl; [exact Hall |]. intros e He. simpl.
      now rewrite He4. }
  pose proof (preserves_for_M static (rev path) (MCTS.backup self)
                (fun a => stable_backup self a) w4 tt w5 H5) as Hs5.
  apply (f_equal s_edges) in Hs5. simpl in Hs5.
  intros e He _. apply Hinv5; [exact He |].
  intros Es. injection Es as Es. apply (Hroot e); [| exact Es].
  now rewrite Hs5, He4 in He.
Qed.

Lemma run_backed_up (k d : nat) (self : MCTS.t) (n : nat) :
  forall w w' v_hat,
    balanced_shape k d (SyntheticTree._tree (MCTS.tree_env w)) ->
    backed_up_but None (SyntheticTree._tree (MCTS.tree_env w)) ->
    MCTS.run self n w = OK (v_hat, w') ->
    backed_up_but None (SyntheticTree._tree (MCTS.tree_env w')).
Proof.
  unfold MCTS.run. induction n as [|n IH]; intros w w' v_hat Hs Hinv Hrun.
  - simpl in Hrun. apply M_ret_OK in Hrun. destruct Hrun as [_ ->].
    exact Hinv.
  - simpl in Hrun.
    apply M_bind_OK in Hrun. destruct Hrun as (s0 & w1 & Hreset & Hrun).
    unfold MCTS.reset in Hreset. injection Hreset as _ <-.
    apply M_bind_OK in Hrun. destruct Hrun as (v & w2 & Hsim & Hrun).
    apply M_bind_OK in Hrun. destruct Hrun as (rest & w3 & Hrest & Hrun).
    apply M_ret_OK in Hrun. destruct Hrun as [_ ->].
    pose proof (stable_simulation self _ _ _ Hsim) as Hst.
    apply simulation_backs_up in Hsim.
    + apply (IH w2 w3 rest); [| exact Hsim | exact Hrest].
      apply (shape_topology k d (SyntheticTree._tree (MCTS.tree_env w)));
        [exact (f_equal s_nodes Hst) | exact (f_equal s_edges Hst)
        | exact Hs].
    + simpl. now apply (shape_single_parent k d).
    + simpl. intros e He.
      pose proof (shape_increasing k d _ Hs e He). lia.
    + exact Hinv.
Qed.

(** Every ['Q'] and every ['V'] of a freshly built tree is 0. *)
Lemma init_backed_up (k d : nat) (alg : algorithm) (tau alpha gamma : Q)
    (t : SyntheticTree.t) :
  SyntheticTree.__init__ k d alg tau alpha gamma = OK t ->
  backed_up_but None (SyntheticTree._tree t).
Proof.
  intros Hrun. pose proof (init_shape _ _ _ _ _ _ _ Hrun) as (Hshape & _).
  apply init_stages in Hrun.
  destruct Hrun as (G2 & (Hn2 & He2 & Hd2 & Hc2) & _
                    & (Hn3 & He3 & Hd3 & Hc3) & _).
  destruct (init_edges_spec alg (nx.balanced_tree k d))
    as (Hn0 & He0 & _ & Hinit0).
  destruct (init_nodes_spec alg
              (SyntheticTree.init_edges alg (nx.balanced_tree k d)))
    as (Hn1 & He1 & Hd1 & Hinit1).
  intros e He _.
  pose proof (shape_edge_nodes k d _ e Hshape He) as [_ Hnode].
  assert (He' : e ∈ edges (nx.balanced_tree k d)) by congruence.
  assert (Hnode' : e.2 ∈ nodes (nx.balanced_tree k d)) by congruence.
  rewrite Hd3, Hd2, Hd1. destruct (Hinit0 e He') as [i ->]. simpl.
  specialize (Hc3 e.2). rewrite Hc2, Hinit1 in Hc3 by (now rewrite Hn0).
  destruct (node_data (SyntheticTree._tree t) !! e.2) as [dx|];
    [| discriminate].
  unfold counters in Hc3. simpl in *. congruence.
Qed.

(** X9. When [run] returns on a tree of the shape of
    [nx.balanced_tree(k, d)] on which every edge has as ['Q'] the ['V']
    of the node it leads to, that is so again afterwards, for every
    algorithm: each pass of the backup copies the ['V'] of the child to
    the edge before it overwrites the ['V'] of the parent, whose own edge
    comes next. A freshly constructed tree is such a tree, all values
    being 0; so after any number of simulations on it ['Q'] of every
    edge equals ['V'] of its target. *)
Theorem run_backs_up :
  (forall (k d : nat) (self : MCTS.t) (n : nat) (w w' : MCTS.World)
          (v_hat : list Q),
     balanced_shape k d (SyntheticTree._tree (MCTS.tree_env w)) ->
     backed_up_but None (SyntheticTree._tree (MCTS.tree_env w)) ->
     MCTS.run self n w = OK (v_hat, w') ->
     backed_up_but None (SyntheticTree._tree (MCTS.tree_env w')))
  /\ (forall (k d : nat) (alg : algorithm) (tau alpha gamma : Q)
             (t : SyntheticTree.t) (self : MCTS.t) (n : nat)
             (w' : MCTS.World) (v_hat : list Q),
        SyntheticTree.__init__ k d alg tau alpha gamma = OK t ->
        MCTS.run self n {| MCTS.tree_env := t; MCTS.draws := 0 |}
        = OK (v_hat, w') ->
        forall e, e ∈ edges (SyntheticTree._tree (MCTS.tree_env w')) ->
          e_Q <$> (edge_data (SyntheticTree._tree (MCTS.tree_env w')) !! e)
          = n_V <$> (node_data (SyntheticTree._tree (MCTS.tree_env w'))
                       !! e.2)).
Proof.
  split.
  - intros k d self n w w' v_hat. apply run_backed_up.
  - intros k d alg tau alpha gamma t self n w' v_hat Hinit Hrun e He.
    pose proof (init_shape _ _ _ _ _ _ _ Hinit) as (Hshape & _).
    apply (run_backed_up k d self n _ w' v_hat) in Hrun;
      [now apply Hrun | exact Hshape | ].
    simpl. eapply init_backed_up; eauto.
Qed.

End BackedUp.

Lemma run_backs_up_witness :
  exists t v_hat w',
    @SyntheticTree.__init__ series_numpy counting_random python_runtime
      2 1 uct 1 2 1 = OK t
    /\ @MCTS.run series_numpy counting_random python_runtime plain_uct 4
         {| MCTS.tree_env := t; MCTS.draws := 0 |} = OK (v_hat, w')
    /\ e_Q <$> (edge_data (SyntheticTree._tree (MCTS.tree_env w'))
                  !! (0, 1)%nat)
       = n_V <$> (node_data (SyntheticTree._tree (MCTS.tree_env w'))
                    !! 1%nat).
Proof.
  destruct (@init_total series_numpy counting_random python_runtime
              2 1 uct 1 2 1)
    as (t & Hinit & Hshape & Hnodes & Hedges & Hmeans & _ & Hl & _);
    [lia | lia | simpl; lia | discriminate | discriminate | discriminate |].
  assert (Hready : ready 2 1 t).
  { split; [exact Hshape |]. split; [exact Hl |].
    split; [exact Hnodes |]. split; [exact Hedges |].
    intros y Hy. apply Hmeans. rewrite Hl in Hy.
    now apply leaves_are_nodes. }
  assert (Hr : forall t', static t' = static t -> ready 2 1 t')
    by (intros t' Ht'; exact (ready_static 2 1 _ t' Ht' Hready)).
  destruct (@run_returns series_numpy counting_random python_runtime
              2 1 (static t) (fun _ => True) ltac:(lia) ltac:(lia) Hr
              plain_uct)
    with (n := 4%nat) (w := {| MCTS.tree_env := t; MCTS.draws := 0 |})
    as (v_hat & w' & Hrun & [Hs _] & _);
    [ intros w1 [Hs1 _];
      apply (@select_uct_total series_numpy counting_random plain_uct w1
               eq_refl);
      now destruct (Hr _ Hs1) as (_ & _ & _ & He & _)
    | intros G e; now apply (uct_backup_value_total 2 1)
    | auto | auto | auto | auto | auto
    | simpl; lia
    | split; [reflexivity | exact I]
    | ].
  exists t, v_hat, w'. split; [exact Hinit |]. split; [exact Hrun |].
  apply (proj2 (@run_backs_up series_numpy counting_random python_runtime)
           2%nat 1%nat uct 1 2 1 t plain_uct 4%nat w' v_hat Hinit Hrun
           (0, 1)%nat).
  pose proof (f_equal s_edges Hs) as He. simpl in He. rewrite He.
  rewrite (proj2 Hshape). vm_compute. left.
Defined.

(** ** The alpha-divergence with [alpha] below 1 *)

Section AlphaBelowOne.
Context {NP : Numpy} {RD : Random} {RT : Runtime}.

(** *** [np.flip(np.sort(a))] is in descending order *)

Lemma Forall_insert_sorted (P : Q -> Prop) (x : Q) (l : list Q) :
  P x -> Forall P l -> Forall P (np.insert_sorted x l).
Proof.
  intros Hx. induction 1 as [|y l Hy Hl IH]; simpl.
  - now constructor.
  - destruct (Qle_bool x y); repeat constructor; assumption.
Qed.

Lemma insert_sorted_ordered (x : Q) (l : list Q) :
  ordered Qle l -> ordered Qle (np.insert_sorted x l).
Proof.
  induction l as [|y l IH]; intros Hs; simpl.
  - split; [constructor | exact I].
  - destruct Hs as [Hall Hs]. destruct (Qle_bool x y) eqn:E.
    + apply Qle_bool_iff in E. split; [| split; assumption].
      constructor; [exact E |].
      eapply Forall_impl; [exact Hall |]. intros z Hz. simpl in Hz.
      eapply Qle_trans; eauto.
    + assert (Hyx : y <= x).
      { apply Qlt_le_weak, Qnot_le_lt. intros Hle.
        apply Qle_bool_iff in Hle. congruence. }
      split; [now apply Forall_insert_sorted | now apply IH].
Qed.

Lemma sort_ordered (l : list Q) : ordered Qle (np.sort l).
Proof.
  induction l as [|x l IH]; simpl; [exact I |].
  now apply insert_sorted_ordered.
Qed.

Lemma ordered_snoc (R : Q -> Q -> Prop) (l : list Q) (a : Q) :
  ordered R l -> Forall (fun x => R x a) l -> ordered R (l ++ [a]).
Proof.
  induction l as [|y l IH]; intros Hs Ha; simpl.
  - split; [constructor | exact I].
  - destruct Hs as [Hall Hs].
    apply Forall_cons in Ha. destruct Ha as [Hya Ha].
    split; [| now apply IH].
    apply Forall_app. split; [exact Hall | now constructor].
Qed.

Lemma flip_ordered (l : list Q) :
  ordered Qle l -> ordered (fun a b => b <= a) (np.flip l).
Proof.
  unfold np.flip. induction l as [|y l IH]; intros Hs; simpl; [exact I |].
  destruct Hs as [Hall Hs].
  apply ordered_snoc; [now apply IH |].
  apply Forall_forall. intros x Hx.
  rewrite Forall_forall in Hall. apply Hall.
  apply list_elem_of_In. apply in_rev. now apply list_elem_of_In.
Qed.

(** The first [i] entries of a descending array sum to at least [i]
    times entry [i]. *)
Lemma prefix_sum_desc (l : list Q) :
  ordered (fun a b => b <= a) l ->
  forall i s, l !! i = Some s ->
    Qnat (S i) * s <= np.sum (take (S i) l).
Proof.
  induction l as [|a l IH]; intros Hs i s Hi; [discriminate |].
  destruct Hs as [Hall Hs]. destruct i as [|i].
  - injection Hi as <-. rewrite firstn_cons, take_0, sum_cons.
    change (np.sum []) with 0. change (Qnat 1) with 1. lra.
  - simpl in Hi. specialize (IH Hs i s Hi).
    rewrite Forall_forall in Hall.
    assert (Hsa : s <= a).
    { apply Hall. eapply list_elem_of_lookup_2; eauto. }
    rewrite firstn_cons, sum_cons, (Qnat_S (S i)). lra.
Qed.

Lemma for_each_idle {A S : Type} (body : A -> S -> res S) (l : list A)
    (s : S) :
  (forall a, a ∈ l -> body a s = OK s) -> for_each l body s = OK s.
Proof.
  induction l as [|a l IH]; intros Hbody; [reflexivity |].
  simpl. rewrite (Hbody a) by left. simpl.
  apply IH. intros a' Ha'. apply Hbody. now right.
Qed.

(** With [0 <= alpha < 1] no test of the support loop succeeds. *)
Lemma alpha_body_idle (alpha : Q) (sorted : list Q) (i : nat)
    (st : kappa_state) :
  0 <= alpha -> alpha < 1 ->
  ordered (fun a b => b <= a) sorted ->
  (1 <= i <= length sorted)%nat ->
  SyntheticTree.sparse_max_alpha_body alpha sorted i st = OK st.
Proof.
  intros Ha0 Ha1 Hs Hi. unfold SyntheticTree.sparse_max_alpha_body.
  destruct (lookup_lt_is_Some_2 sorted (i - 1) ltac:(lia)) as [s Hsi].
  rewrite Hsi. cbn [of_option mbind res_mbind res_bind].
  unfold py_div.
  assert (Hne : Qeq_bool (alpha - 1) 0 = false).
  { destruct (Qeq_bool (alpha - 1) 0) eqn:E; [| reflexivity].
    apply Qeq_bool_iff in E. lra. }
  rewrite Hne. cbn [mbind res_mbind res_bind].
  pose proof (prefix_sum_desc sorted Hs (i - 1) s Hsi) as Hsum.
  replace (S (i - 1)) with i in Hsum by lia.
  set (r := alpha / (alpha - 1)).
  assert (Hr : r <= 0).
  { assert (E : r * (alpha - 1) == alpha) by (unfold r; field; lra).
    nra. }
  assert (Hi1 : 1 <= Qnat i).
  { change 1 with (Qnat 1). unfold Qnat, Qle. simpl. lia. }
  assert (Hle : alpha + Qnat i * s
                <= np.sum (take i sorted) + Qnat i * (alpha - r)) by nra.
  unfold Qgt_bool. rewrite (proj2 (Qle_bool_iff _ _) Hle). reflexivity.
Qed.

Lemma alpha_below_one_raises (alpha : Q) (means_tau : list Q) :
  0 <= alpha -> alpha < 1 ->
  SyntheticTree.sparse_max_alpha_divergence alpha means_tau
  = Raise IndexError.
Proof.
  intros Ha0 Ha1. unfold SyntheticTree.sparse_max_alpha_divergence.
  rewrite for_each_idle; [reflexivity |].
  intros i Hi. apply elem_of_seq in Hi.
  apply alpha_body_idle; try assumption; [| lia].
  apply flip_ordered, sort_ordered.
Qed.

(** *** The solver, and the constructor *)

Lemma solver_alpha_raises (k d : nat) (G0 : DiGraph)
    (self : SyntheticTree.t) :
  (1 <= k)%nat -> (1 <= d)%nat -> balanced_shape k d G0 ->
  grows k G0 (SyntheticTree._tree self) ->
  SyntheticTree.leaves self = SyntheticTree.compute_leaves G0 ->
  (forall y, y ∈ nodes (SyntheticTree._tree self) ->
     has_mean (SyntheticTree._tree self) y) ->
  SyntheticTree._algorithm self = alpha_divergence ->
  0 <= SyntheticTree._alpha self -> SyntheticTree._alpha self < 1 ->
  forall fuel j x,
    (j < d)%nat ->
    (level_start k j <= x < level_start k (S j))%nat ->
    (d - j <= fuel)%nat ->
    SyntheticTree._solver_rec fuel self x = Raise IndexError.
Proof.
  intros Hk Hd Hshape Hg Hl Hm Halg Ha0 Ha1.
  induction fuel as [|fuel IH]; intros j x Hj Hx Hfuel; [lia |].
  change (SyntheticTree._solver_rec (S fuel) self x)
    with (SyntheticTree.solver_body self
            (SyntheticTree._solver_rec fuel self) x).
  unfold SyntheticTree.solver_body. rewrite Halg.
  unfold SyntheticTree.children_values.
  rewrite (internal_successors k d G0 Hk Hd Hshape _ j) by (assumption || lia).
  rewrite head_seq by assumption. cbn [of_option mbind res_mbind res_bind].
  rewrite Hl.
  assert (Hc0 : (level_start k (S j) <= k * x + 1
                 < level_start k (S (S j)))%nat).
  { apply (child_level k j x); [assumption |]. apply elem_of_seq. lia. }
  destruct (decide (k * x + 1 ∈ _)%nat) as [Hleaf | Hnl].
  - destruct (comprehension_total (node_mean (SyntheticTree._tree self))
                (seq (k * x + 1) k)) as [xs ->].
    { intros c Hc. apply Hm.
      apply (level_node k d G0 Hk Hd Hshape _ (S j)); [assumption | lia |].
      apply (child_level k j x) in Hc; [lia | assumption]. }
    cbn [mbind res_mbind res_bind].
    now rewrite alpha_below_one_raises.
  - assert (Hjd : (S j < d)%nat).
    { destruct (decide (S j = d)) as [E |]; [| lia].
      exfalso. apply Hnl, (leaf_level k d G0); try assumption.
      now rewrite <- E. }
    destruct k as [|k']; [lia |].
    cbn [seq comprehension mbind res_mbind res_bind].
    rewrite (IH (S j)) by (lia || assumption). reflexivity.
Qed.

(** X10. With [0 <= alpha < 1] the operator of the alpha-divergence
    raises [IndexError] on every vector: no test of its support loop
    succeeds on the values sorted in descending order, the support stays
    the empty array of floats, and [means_tau[kappa]] refuses it as an
    index. Hence no alpha-divergence tree can be constructed with such
    an [alpha]: the construction ends in [IndexError] for every [k],
    [d] below the recursion limit and temperature. *)
Theorem alpha_below_one_fails :
  (forall (alpha : Q) (means_tau : list Q),
     0 <= alpha -> alpha < 1 ->
     SyntheticTree.sparse_max_alpha_divergence alpha means_tau
     = Raise IndexError)
  /\ (forall (k d : nat) (tau alpha gamma : Q),
        (d < recursion_limit)%nat -> 0 <= alpha -> alpha < 1 ->
        SyntheticTree.__init__ k d alpha_divergence tau alpha gamma
        = Raise IndexError).
Proof.
  split; [exact alpha_below_one_raises |].
  intros k d tau alpha gamma Hlimit Ha0 Ha1.
  destruct (decide (k = 0 \/ d = 0)%nat) as [Hkd | Hkd].
  { apply init_single_node_raises; [exact Hkd | lia]. }
  assert (Hk : (1 <= k)%nat) by lia. assert (Hd : (1 <= d)%nat) by lia.
  destruct (init_graph_ready k d alpha_divergence) as (Hshape & _).
  destruct (init_before_solver k d alpha_divergence tau alpha gamma
              Hk Hd Hlimit) as (G & mm & -> & Hg & Hmeans & _).
  unfold SyntheticTree._solver.
  match goal with
  | |- mbind _ (SyntheticTree._solver_rec _ ?self _) = _ =>
      rewrite (solver_alpha_raises k d _ self Hk Hd Hshape Hg eq_refl
                 Hmeans eq_refl Ha0 Ha1 recursion_limit 0 0)
        by (simpl; lia)
  end.
  reflexivity.
Qed.

End AlphaBelowOne.

Lemma alpha_below_one_fails_witness :
  @SyntheticTree.sparse_max_alpha_divergence series_numpy (1 # 2)
    [0; 1 # 2; 1]
  = Raise IndexError
  /\ @SyntheticTree.__init__ series_numpy counting_random python_runtime
       2 1 alpha_divergence 1 (1 # 2) 1 = Raise IndexError.
Proof.
  split.
  - apply (proj1 (@alpha_below_one_fails series_numpy counting_random
                    python_runtime)); [discriminate | reflexivity].
  - apply (proj2 (@alpha_below_one_fails series_numpy counting_random
                    python_runtime)); [simpl; lia | discriminate | reflexivity].
Defined.

(** ** The constructor under the sparse operators *)

Section SparseConstructor.
Context {NP : Numpy} {RD : Random} {RT : Runtime}.
Local Open Scope nat_scope.

(** X11. Under tents, and under alpha-divergence with [alpha] above 1,
    the constructor completes for every branching factor and height of
    at least 1 (the height below the recursion limit) and a temperature
    other than 0, when the tree has a single leaf or the sums of the
    weights drawn on the ways to two leaves differ: the set [kappa] of
    the operator is then never empty. Every leaf of the tree returned
    has a ['mean'] between 0 and 1. *)
Theorem sparse_constructor_completes (k d : nat) (alg : algorithm)
    (tau alpha gamma : Q) :
  1 <= k -> 1 <= d -> d < recursion_limit ->
  alg = tents \/ (alg = alpha_divergence /\ (1 < alpha)%Q) ->
  ~ (tau == 0)%Q ->
  k = 1
  \/ (exists y y', y ∈ seq (level_start k d) (k ^ d)
                   /\ y' ∈ seq (level_start k d) (k ^ d)
                   /\ (rand_path k d y < rand_path k d y')%Q) ->
  exists t,
    SyntheticTree.__init__ k d alg tau alpha gamma = OK t
    /\ SyntheticTree.leaves t = seq (level_start k d) (k ^ d)
    /\ SyntheticTree.state t = 0
    /\ forall y, y ∈ SyntheticTree.leaves t ->
         exists m, node_mean (SyntheticTree._tree t) y = OK m
                   /\ (0 <= m <= 1)%Q.
Proof.
  intros Hk Hd Hlimit Halg _ Hsums.
  destruct (init_total_above_one k d alg tau alpha gamma Hk Hd Hlimit)
    as (t & Hinit & Hshape & _ & _ & _ & _ & Hl & Hs).
  { intros E. destruct Halg as [-> | [_ Ha]]; [discriminate | exact Ha]. }
  { destruct Halg as [-> | [-> _]]; discriminate. }
  exists t. split; [exact Hinit |].
  split.
  { rewrite Hl. now apply (shape_leaves_deep k d). }
  split; [exact Hs |].
  intros y Hy.
  destruct (decide (k = 1)) as [-> | Hk1].
  - exists 0%Q. split; [| lra].
    now apply (single_leaf_zero d alg tau alpha gamma t).
  - destruct Hsums as [-> | Hsums]; [congruence |].
    apply (leaf_means_unit k d alg tau alpha gamma t);
      (assumption || lia).
Qed.

End SparseConstructor.

Lemma sparse_constructor_completes_witness :
  exists t,
    @SyntheticTree.__init__ series_numpy counting_random python_runtime
      2 1 tents 1 2 1 = OK t
    /\ SyntheticTree.leaves t = [1; 2]%nat
    /\ SyntheticTree.state t = 0%nat
    /\ forall y, y ∈ SyntheticTree.leaves t ->
         exists m, node_mean (SyntheticTree._tree t) y = OK m
                   /\ (0 <= m <= 1)%Q.
Proof.
  apply (@sparse_constructor_completes series_numpy counting_random
           python_runtime 2 1 tents 1 2 1).
  - lia.
  - lia.
  - simpl. lia.
  - now left.
  - discriminate.
  - right. exists 1%nat, 2%nat. split; [| split].
    + vm_compute. left.
    + vm_compute. right. left.
    + reflexivity.
Defined.

(** ** The best leaf: what [_assign_priors_maxs] hands to the root *)

Section BestLeaf.
Context {NP : Numpy} {RD : Random} {RT : Runtime}.
Local Open Scope nat_scope.

Lemma comprehension_st_Forall2 {A B S : Type} (R : S -> S -> Prop)
    (V : A -> B -> Prop) (f : A -> S -> res (B * S)) (l : list A) (s0 : S) :
  (forall s1 s2 s3, R s1 s2 -> R s2 s3 -> R s1 s3) ->
  (forall a s r, a ∈ l -> R s0 s -> f a s = OK r -> R s r.2 /\ V a r.1) ->
  forall s r, R s0 s -> comprehension_st f l s = OK r ->
    R s0 r.2 /\ Forall2 V l r.1.
Proof.
  intros Htrans.
  induction l as [|a l IH]; intros Hf s r Hs Hrun; simpl in Hrun.
  - injection Hrun as <-. split; [exact Hs | constructor].
  - apply res_bind_OK in Hrun. destruct Hrun as (r1 & H1 & Hrun).
    apply res_bind_OK in Hrun. destruct Hrun as (r2 & H2 & Hrun).
    injection Hrun as <-. simpl.
    destruct (Hf a s r1 ltac:(left) Hs H1) as [HR1 HV1].
    destruct (IH (fun a' s' r' Ha' =>
                    Hf a' s' r' (list_elem_of_further _ _ _ Ha'))
                 r1.2 r2) as [HR2 HV2];
      [eapply Htrans; eauto | exact H2 |].
    split; [exact HR2 | constructor; assumption].
Qed.

Lemma py_max_cases (a m : Q) :
  (a <= py_max a m)%Q /\ (m <= py_max a m)%Q
  /\ (py_max a m = a \/ py_max a m = m).
Proof.
  unfold py_max. destruct (Qgt_bool m a) eqn:E.
  - apply Qgt_bool_true in E. split; [lra |]. split; [lra | now right].
  - split; [lra |]. split; [| now left].
    apply Qnot_lt_le. intros Hlt. apply Qgt_bool_true in Hlt. congruence.
Qed.

(** The loop of lines 59-61 from any start value. *)
Lemma max_mean_loop (G : DiGraph) (l : list nat) :
  forall (a mm : Q),
    for_each l
      (fun leaf max_mean =>
         m ← node_mean G leaf; OK (py_max max_mean m)) a
    = OK mm ->
    (a <= mm)%Q
    /\ (forall y m, y ∈ l -> node_mean G y = OK m -> (m <= mm)%Q)
    /\ (mm = a
        \/ exists y, y ∈ l /\ node_mean G y = OK mm).
Proof.
  induction l as [|x l IH]; intros a mm Hrun; simpl in Hrun.
  - injection Hrun as <-. split; [lra |]. split; [| now left].
    intros y m Hy. now apply elem_of_nil in Hy.
  - apply res_bind_OK in Hrun. destruct Hrun as (a' & Ha' & Hrun).
    apply res_bind_OK in Ha'. destruct Ha' as (m & Hm & Ha').
    injection Ha' as <-.
    destruct (py_max_cases a m) as (Hle1 & Hle2 & Hcase).
    destruct (IH _ _ Hrun) as (Hle & Hub & Hatt).
    split; [lra |]. split.
    + intros y m' Hy Hm'. apply elem_of_cons in Hy.
      destruct Hy as [-> | Hy]; [| now apply (Hub y)].
      assert (m' = m) as -> by congruence. lra.
    + destruct Hatt as [-> | (y & Hy & Hmy)].
      * destruct Hcase as [-> | ->]; [now left |].
        right. exists x. split; [left | exact Hm].
      * right. exists y. split; [now right | exact Hmy].
Qed.

Lemma subtree_level (k n : nat) :
  forall j x y,
    level_start k j <= x < level_start k (S j) -> y ∈ subtree k x n ->
    level_start k (j + n) <= y < level_start k (S (j + n)).
Proof.
  induction n as [|n IH]; intros j x y Hx Hy.
  - simpl in Hy. apply list_elem_of_singleton in Hy. subst y.
    now rewrite Nat.add_0_r.
  - apply subtree_children in Hy. destruct Hy as (c & Hc & Hy).
    replace (j + S n) with (S j + n) by lia.
    apply (IH (S j) c y); [| exact Hy]. now apply (child_level k j x).
Qed.

Lemma subtree_apart (k j c c' n m z : nat) :
  1 <= k ->
  c <> c' ->
  level_start k j <= c < level_start k (S j) ->
  level_start k j <= c' < level_start k (S j) ->
  z ∈ subtree k c n -> z ∈ subtree k c' m -> False.
Proof.
  intros Hk Hne Hc Hc' Hz Hz'.
  pose proof (subtree_level k n j c z Hc Hz) as Hl.
  pose proof (subtree_level k m j c' z Hc' Hz') as Hl'.
  assert (j + n = j + m) by (now apply (level_unique k _ _ z)).
  assert (n = m) as -> by lia.
  apply Hne. exact (subtree_disjoint k m c c' z Hz Hz').
Qed.

Section Stage.
Variables (k d : nat) (G0 : DiGraph).
Hypothesis Hk : 1 <= k.
Hypothesis Hd : 1 <= d.
Hypothesis Hshape : balanced_shape k d G0.

Lemma kept_successors (G : DiGraph) (x : nat) :
  attrs_kept G0 G -> x < level_start k d ->
  nx.successors G x = seq (k * x + 1) k.
Proof.
  intros (Hn & He & _) Hx. unfold nx.successors.
  rewrite (shape_edges_of k d) by (now apply (shape_topology k d G0)).
  destruct (decide _); [| lia].
  rewrite <- list_fmap_compose. apply list_fmap_id.
Qed.

Lemma assign_priors_leaves_fixed (fuel x : nat) (G : DiGraph)
    (r : Q * DiGraph) :
  attrs_kept G0 G ->
  SyntheticTree._assign_priors_maxs_rec fuel
    (SyntheticTree.compute_leaves G0) x G = OK r ->
  attrs_kept G r.2 /\ leaves_fixed k d G r.2.
Proof.
  intros (Hn & He & _) Hrun. apply assign_priors_kept in Hrun.
  destruct Hrun as [Hkept Hu]. split; [exact Hkept |].
  intros y Hy. apply Hu.
  rewrite (shape_edges_of k d) by (now apply (shape_topology k d G0)).
  destruct (decide _); [lia | reflexivity].
Qed.

Lemma best_below_fixed (G G' : DiGraph) (j x : nat) (v : Q) :
  level_start k j <= x < level_start k (S j) -> j <= d ->
  leaves_fixed k d G G' ->
  best_below k G' x (d - j) v -> best_below k G x (d - j) v.
Proof.
  intros Hx Hj Hfix [Hub (y & m & Hy & Hm & Hv)].
  assert (Hlev : forall y, y ∈ subtree k x (d - j) ->
                   node_mean G' y = node_mean G y).
  { intros y' Hy'. apply (subtree_level k _ j x) in Hy'; [| exact Hx].
    replace (j + (d - j)) with d in Hy' by lia.
    unfold node_mean, get_node. now rewrite Hfix by lia. }
  split.
  - intros y' m' Hy' Hm'. apply (Hub y'); [exact Hy' |].
    now rewrite Hlev.
  - exists y, m. split; [exact Hy |]. split; [| exact Hv].
    now rewrite <- Hlev.
Qed.

(** The value [_assign_priors_maxs] returns for a node and stores as its
    ['mean'] is the largest mean of the leaves below the node. *)
Lemma assign_priors_best (fuel : nat) :
  forall j x G r,
    j < d -> level_start k j <= x < level_start k (S j) ->
    attrs_kept G0 G ->
    SyntheticTree._assign_priors_maxs_rec fuel
      (SyntheticTree.compute_leaves G0) x G = OK r ->
    node_mean r.2 x = OK r.1 /\ best_below k G x (d - j) r.1.
Proof.
  induction fuel as [|fuel IH]; intros j x G r Hj Hx Hg Hrun;
    [discriminate |].
  cbn [SyntheticTree._assign_priors_maxs_rec] in Hrun.
  pose proof (level_start_mono k (S j) d Hk ltac:(lia)) as Hmono.
  rewrite (kept_successors G x Hg) in Hrun by lia.
  rewrite head_seq in Hrun by assumption.
  cbn [of_option] in Hrun. cbv zeta in Hrun.
  apply res_bind_OK in Hrun. destruct Hrun as (s0 & Hs0 & Hrun).
  injection Hs0 as <-.
  apply res_bind_OK in Hrun. destruct Hrun as (mG & HmG & Hrun).
  apply res_bind_OK in Hrun. destruct Hrun as (G1 & HG1 & Hrun).
  apply res_bind_OK in Hrun. destruct Hrun as (mx & Hmx & Hrun).
  apply res_bind_OK in Hrun. destruct Hrun as (G2 & HG2 & Hrun).
  injection Hrun as <-. cbn [fst snd].
  split; [eapply set_mean_has_mean; eauto |].
  assert (HV : Forall2 (fun c v => best_below k G c (d - S j) v)
                 (seq (k * x + 1) k) mG.1).
  { destruct (decide (k * x + 1 ∉ _)) as [Hnl | Hl].
    - assert (Hjd : S j < d).
      { destruct (decide (S j = d)) as [E |]; [| lia].
        exfalso. apply Hnl, (leaf_level k d G0 Hk Hd Hshape).
        rewrite <- E. apply (child_level k j x); [assumption |].
        apply elem_of_seq. lia. }
      eapply (comprehension_st_Forall2
                (fun G1 G2 => attrs_kept G1 G2 /\ leaves_fixed k d G1 G2)
                (fun c v => best_below k G c (d - S j) v)
                _ _ G); [| | | exact HmG].
      + intros s1 s2 s3 [Hk1 Hf1] [Hk2 Hf2].
        split; [eapply attrs_kept_trans; eauto |].
        intros y Hy. now rewrite Hf2, Hf1.
      + intros c s rc Hc [Hks Hfs] Hrc.
        assert (Hg0s : attrs_kept G0 s) by (eapply attrs_kept_trans; eauto).
        split; [now apply (assign_priors_leaves_fixed fuel c) |].
        pose proof (child_level k j x c Hx Hc) as Hlc.
        destruct (IH (S j) c s rc Hjd Hlc Hg0s Hrc) as [_ Hbest].
        apply (best_below_fixed G s (S j) c); [exact Hlc | lia | exact Hfs
                                              | exact Hbest].
      + split; [apply attrs_kept_refl | intros y _; reflexivity].
    - apply dec_stable in Hl.
      assert (Hjd : S j = d).
      { apply (leaf_level k d G0 Hk Hd Hshape) in Hl.
        destruct (decide (S j = d)); [assumption |].
        pose proof (level_start_mono k (S (S j)) d Hk ltac:(lia)).
        assert (level_start k (S j) <= k * x + 1 < level_start k (S (S j)))
          by (apply (child_level k j x); [assumption |];
              apply elem_of_seq; lia).
        lia. }
      apply res_bind_OK in HmG. destruct HmG as (means & Hmeans & HmG).
      injection HmG as <-. cbn [fst].
      apply comprehension_Forall2 in Hmeans.
      rewrite Hjd, Nat.sub_diag.
      eapply Forall2_impl; [exact Hmeans |].
      intros c m Hm. cbn beta in Hm. split.
      + intros y m' Hy Hm'. simpl in Hy.
        apply list_elem_of_singleton in Hy. subst y.
        assert (m' = m) as -> by congruence. lra.
      + exists c, m. split; [simpl; left |]. split; [exact Hm | reflexivity]. }
  replace (d - j) with (S (d - S j)) by lia.
  destruct (max_is_best _ _ Hmx) as [Hub (v & Hv & Hveq)].
  split.
  - intros y m Hy Hm. apply subtree_children in Hy.
    destruct Hy as (c & Hc & Hy).
    apply list_elem_of_lookup in Hc. destruct Hc as [i Hi].
    destruct (Forall2_lookup_l _ _ _ _ _ HV Hi) as (v' & Hv' & [Hub' _]).
    apply Qle_trans with v'; [now apply (Hub' y) |].
    apply Hub. apply list_elem_of_lookup. eauto.
  - apply list_elem_of_lookup in Hv. destruct Hv as [i Hi].
    destruct (Forall2_lookup_r _ _ _ _ _ HV Hi)
      as (c & Hc & [_ (y & m & Hy & Hm & Hmv)]).
    exists y, m. split; [| split; [exact Hm |]].
    + apply subtree_children. exists c. split; [| exact Hy].
      apply list_elem_of_lookup. eauto.
    + now rewrite Hmv.
Qed.

Lemma leaves_fixed_trans (G1 G2 G3 : DiGraph) :
  leaves_fixed k d G1 G2 -> leaves_fixed k d G2 G3 -> leaves_fixed k d G1 G3.
Proof. intros H12 H23 y Hy. now rewrite H23, H12. Qed.

(** [_assign_priors_maxs] on a node writes below that node only, and
    leaves at every inner node below it the largest mean of the leaves
    below that one. *)
Lemma assign_priors_inner (fuel : nat) :
  forall j x G r,
    j < d -> level_start k j <= x < level_start k (S j) ->
    attrs_kept G0 G ->
    SyntheticTree._assign_priors_maxs_rec fuel
      (SyntheticTree.compute_leaves G0) x G = OK r ->
    untouched (fun y => forall n, y ∉ subtree k x n) G r.2
    /\ forall n z, n < d - j -> z ∈ subtree k x n ->
         exists v, node_mean r.2 z = OK v
                   /\ best_below k G z (d - j - n) v.
Proof.
  induction fuel as [|fuel IH]; intros j x G r Hj Hx Hg Hrun;
    [discriminate |].
  destruct (assign_priors_best (S fuel) j x G r Hj Hx Hg Hrun)
    as [Hroot Hbest].
  cbn [SyntheticTree._assign_priors_maxs_rec] in Hrun.
  pose proof (level_start_mono k (S j) d Hk ltac:(lia)) as Hmono.
  rewrite (kept_successors G x Hg) in Hrun by lia.
  rewrite head_seq in Hrun by assumption.
  cbn [of_option] in Hrun. cbv zeta in Hrun.
  apply res_bind_OK in Hrun. destruct Hrun as (s0 & Hs0 & Hrun).
  injection Hs0 as <-.
  apply res_bind_OK in Hrun. destruct Hrun as (mG & HmG & Hrun).
  apply res_bind_OK in Hrun. destruct Hrun as (G1 & HG1 & Hrun).
  apply res_bind_OK in Hrun. destruct Hrun as (mx & Hmx & Hrun).
  apply res_bind_OK in Hrun. destruct Hrun as (G2 & HG2 & Hrun).
  injection Hrun as <-. cbn [fst snd] in *.
  assert (HL : untouched (fun y => forall n, y ∉ subtree k x (S n)) G mG.2
               /\ forall c, c ∈ seq (k * x + 1) k ->
                  forall n z, n < d - S j -> z ∈ subtree k c n ->
                    exists v, node_mean mG.2 z = OK v
                              /\ best_below k G z (d - S j - n) v).
  { destruct (decide (k * x + 1 ∉ _)) as [Hnl | Hl].
    - assert (Hjd : S j < d).
      { destruct (decide (S j = d)) as [E |]; [| lia].
        exfalso. apply Hnl, (leaf_level k d G0 Hk Hd Hshape).
        rewrite <- E. apply (child_level k j x); [assumption |].
        apply elem_of_seq. lia. }
      assert (Hloop : forall cs G1 r1,
                (forall c, c ∈ cs -> c ∈ seq (k * x + 1) k) -> NoDup cs ->
                attrs_kept G0 G1 -> leaves_fixed k d G G1 ->
                comprehension_st
                  (SyntheticTree._assign_priors_maxs_rec fuel
                     (SyntheticTree.compute_leaves G0)) cs G1 = OK r1 ->
                untouched (fun y => forall c, c ∈ cs ->
                                      forall n, y ∉ subtree k c n) G1 r1.2
                /\ forall c, c ∈ cs ->
                   forall n z, n < d - S j -> z ∈ subtree k c n ->
                     exists v, node_mean r1.2 z = OK v
                               /\ best_below k G z (d - S j - n) v).
      { induction cs as [|c cs IHcs]; intros Ga r1 Hcs Hnd Hga Hfa Hcomp;
          simpl in Hcomp.
        - injection Hcomp as <-. split; [apply untouched_refl |].
          intros c Hc. now apply elem_of_nil in Hc.
        - apply res_bind_OK in Hcomp. destruct Hcomp as (rc & Hrc & Hcomp).
          apply res_bind_OK in Hcomp. destruct Hcomp as (r2 & Hr2 & Hcomp).
          injection Hcomp as <-. cbn [fst snd].
          apply NoDup_cons in Hnd. destruct Hnd as [Hc_notin Hnd].
          assert (Hc : c ∈ seq (k * x + 1) k) by (apply Hcs; left).
          pose proof (child_level k j x c Hx Hc) as Hlc.
          destruct (IH (S j) c Ga rc Hjd Hlc Hga Hrc) as [Hfc Hic].
          destruct (assign_priors_leaves_fixed fuel c Ga rc Hga Hrc)
            as [Hkc Hlfc].
          destruct (IHcs rc.2 r2) as [Hfr Hir].
          { intros c' Hc'. apply Hcs. now right. }
          { exact Hnd. }
          { eapply attrs_kept_trans; eauto. }
          { eapply leaves_fixed_trans; eauto. }
          { exact Hr2. }
          split.
          + intros y Hy. rewrite Hfr.
            * apply Hfc. intros n. apply Hy. left.
            * intros c' Hc'. apply Hy. now right.
          + intros c' Hc' n z Hn Hz. apply elem_of_cons in Hc'.
            destruct Hc' as [-> | Hc']; [| now apply (Hir c')].
            destruct (Hic n z Hn Hz) as (v & Hv & Hb).
            exists v. split.
            * unfold node_mean, get_node. rewrite Hfr; [exact Hv |].
              intros c' Hc' m Hz'.
              apply (subtree_apart k (S j) c c' n m z); try assumption.
              -- intros ->. contradiction.
              -- apply (child_level k j x); [assumption |].
                 apply Hcs. now right.
            * pose proof (subtree_level k n (S j) c z Hlc Hz) as Hlz.
              replace (d - S j - n) with (d - (S j + n)) in * by lia.
              apply (best_below_fixed G Ga (S j + n) z);
                [exact Hlz | lia | exact Hfa | exact Hb]. }
      destruct (Hloop (seq (k * x + 1) k) G mG) as [Hf Hi];
        [auto | apply NoDup_seq | exact Hg | intros y _; reflexivity
        | exact HmG |].
      split; [| exact Hi].
      intros y Hy. apply Hf. intros c Hc n Hz. apply (Hy n).
      apply subtree_children. eauto.
    - apply dec_stable in Hl.
      assert (Hjd : S j = d).
      { apply (leaf_level k d G0 Hk Hd Hshape) in Hl.
        destruct (decide (S j = d)); [assumption |].
        pose proof (level_start_mono k (S (S j)) d Hk ltac:(lia)).
        assert (level_start k (S j) <= k * x + 1 < level_start k (S (S j)))
          by (apply (child_level k j x); [assumption |];
              apply elem_of_seq; lia).
        lia. }
      apply res_bind_OK in HmG. destruct HmG as (means & _ & HmG).
      injection HmG as <-. cbn [snd].
      split; [apply untouched_refl |]. intros c _ n z Hn. lia. }
  destruct HL as [Hf Hi].
  assert (Hx2 : forall y, y <> x -> node_data G2 !! y = node_data mG.2 !! y).
  { intros y Hy.
    rewrite (update_node_untouched x _ (fun y => y <> x) G1 G2
               ltac:(congruence) HG2 y Hy).
    exact (update_node_untouched x _ (fun y => y <> x) mG.2 G1
             ltac:(congruence) HG1 y Hy). }
  split.
  - intros y Hy. rewrite Hx2.
    + apply Hf. intros n. apply Hy.
    + intros ->. apply (Hy 0). simpl. left.
  - intros n z Hn Hz. destruct n as [|n].
    + simpl in Hz. apply list_elem_of_singleton in Hz. subst z.
      exists mx. rewrite Nat.sub_0_r. split; [exact Hroot | exact Hbest].
    + apply subtree_children in Hz. destruct Hz as (c & Hc & Hz).
      destruct (Hi c Hc n z ltac:(lia) Hz) as (v & Hv & Hb).
      exists v. split.
      * unfold node_mean, get_node. rewrite Hx2; [exact Hv |].
        pose proof (child_level k j x c Hx Hc) as Hlc.
        pose proof (subtree_level k n (S j) c z Hlc Hz) as Hlz.
        pose proof (level_start_mono k (S j) (S j + n) Hk ltac:(lia)).
        lia.
      * replace (d - j - S n) with (d - S j - n) by lia. exact Hb.
Qed.

End Stage.

(** The stages of a completed [__init__] from the normalisation on. *)
Lemma init_parts (k d : nat) (alg : algorithm) (tau alpha gamma : Q)
    (t : SyntheticTree.t) :
  SyntheticTree.__init__ k d alg tau alpha gamma = OK t ->
  let G0 := SyntheticTree.init_nodes alg
              (SyntheticTree.init_edges alg (nx.balanced_tree k d)) in
  exists (self2 self3 : SyntheticTree.t) (r : Q * DiGraph),
    attrs_kept G0 (SyntheticTree._tree self2)
    /\ SyntheticTree.leaves self2 = SyntheticTree.compute_leaves G0
    /\ SyntheticTree.compute_max_mean self2
       = OK (SyntheticTree.max_mean t)
    /\ SyntheticTree._assign_priors_maxs_rec recursion_limit
         (SyntheticTree.compute_leaves G0) 0 (SyntheticTree._tree self2)
       = OK r
    /\ SyntheticTree._tree t = r.2
    /\ SyntheticTree._tree self3 = r.2
    /\ SyntheticTree.max_mean self3 = SyntheticTree.max_mean t
    /\ SyntheticTree._algorithm self3 = alg
    /\ SyntheticTree._solver self3
       = OK (SyntheticTree.optimal_v_root t, SyntheticTree.q_root t).
Proof.
  unfold SyntheticTree.__init__. intros Hrun. cbv zeta in Hrun.
  apply res_bind_OK in Hrun. destruct Hrun as (self1 & H1 & Hrun).
  apply res_bind_OK in Hrun. destruct Hrun as (self2 & H2 & Hrun).
  apply res_bind_OK in Hrun. destruct Hrun as (mm & Hmm & Hrun).
  apply res_bind_OK in Hrun. destruct Hrun as (self3 & H3 & Hrun).
  apply res_bind_OK in Hrun. destruct Hrun as (vq & Hvq & Hrun).
  injection Hrun as <-.
  apply compute_mean_stage in H1. destruct H1 as (G1 & -> & Hk1).
  pose proof H2 as H2'.
  apply normalize_stage in H2'. destruct H2' as (G2 & E2 & Hk2).
  unfold SyntheticTree._assign_priors_maxs in H3.
  apply res_bind_OK in H3. destruct H3 as (r & Hr & H3).
  injection H3 as <-.
  match type of Hvq with
  | SyntheticTree._solver ?s = _ => exists self2, s, r
  end.
  subst self2. simpl in *.
  split; [eapply attrs_kept_trans; eauto |].
  split; [reflexivity |]. split; [exact Hmm |]. split; [exact Hr |].
  split; [reflexivity |]. split; [reflexivity |]. split; [reflexivity |].
  split; [reflexivity |]. now destruct vq.
Qed.

(** A leaf of a constructed tree with two or more leaves whose sum of
    weights is the largest has the mean 1. *)
Lemma best_leaf_one (k d : nat) (alg : algorithm) (tau alpha gamma : Q)
    (t : SyntheticTree.t) :
  2 <= k -> 1 <= d -> d < recursion_limit ->
  SyntheticTree.__init__ k d alg tau alpha gamma = OK t ->
  (exists y y', y ∈ seq (level_start k d) (k ^ d)
                /\ y' ∈ seq (level_start k d) (k ^ d)
                /\ (rand_path k d y < rand_path k d y')%Q) ->
  exists y m, y ∈ SyntheticTree.leaves t
              /\ node_mean (SyntheticTree._tree t) y = OK m /\ (m == 1)%Q.
Proof.
  intros Hk Hd Hlimit Hinit (y1 & y2 & Hy1 & Hy2 & Hlt).
  destruct (raw_sums_extremes k d ltac:(lia)) as (mn & mx & Hmn & Hmx & Hb).
  pose proof (Hb y1 Hy1). pose proof (Hb y2 Hy2).
  destruct (max_is_best _ _ Hmx) as [_ (s & Hs & Hsmx)].
  apply list_elem_of_fmap in Hs. destruct Hs as (y & -> & Hy).
  pose proof (init_topology _ _ _ _ _ _ _ Hinit) as (_ & _ & Hl & _).
  assert (Hleaf : y ∈ SyntheticTree.leaves t).
  { rewrite Hl.
    rewrite (shape_leaves_deep k d) by (lia || apply balanced_tree_shape).
    exact Hy. }
  exists y, ((rand_path k d y - mn) / (mx - mn))%Q.
  split; [exact Hleaf |]. split.
  - apply (leaf_means_values k d alg tau alpha gamma t mn mx);
      try assumption. lra.
  - rewrite Hsmx. field. lra.
Qed.

(** X12. In a constructed tree with two or more leaves whose sums of
    weights are not all the same, some leaf has the ['mean'] 1, and that
    best mean is what [_assign_priors_maxs] carries up to the root: the
    ['mean'] of the root is 1, [max_mean] is 1, and under uct, w-mcts and
    dng the [optimal_v_root] is 1. *)
Theorem root_is_best_leaf (k d : nat) (alg : algorithm)
    (tau alpha gamma : Q) (t : SyntheticTree.t) :
  2 <= k -> 1 <= d -> d < recursion_limit ->
  SyntheticTree.__init__ k d alg tau alpha gamma = OK t ->
  (exists y y', y ∈ seq (level_start k d) (k ^ d)
                /\ y' ∈ seq (level_start k d) (k ^ d)
                /\ (rand_path k d y < rand_path k d y')%Q) ->
  (exists y m, y ∈ SyntheticTree.leaves t
               /\ node_mean (SyntheticTree._tree t) y = OK m /\ (m == 1)%Q)
  /\ (exists v, node_mean (SyntheticTree._tree t) 0 = OK v /\ (v == 1)%Q)
  /\ (SyntheticTree.max_mean t == 1)%Q
  /\ (alg ∈ [uct; w_mcts; dng] ->
      (SyntheticTree.optimal_v_root t == 1)%Q).
Proof.
  intros Hk Hd Hlimit Hinit Hsums.
  assert (Hk1 : 1 <= k) by lia.
  destruct (best_leaf_one k d alg tau alpha gamma t Hk Hd Hlimit Hinit Hsums)
    as (ys & ms & Hys & Hms & Hms1).
  pose proof (leaf_means_unit k d alg tau alpha gamma t Hk Hd Hlimit Hinit
                Hsums) as Hunit.
  destruct (init_graph_ready k d alg) as (Hshape & _).
  pose proof (init_parts k d alg tau alpha gamma t Hinit) as Hparts.
  cbv zeta in Hparts.
  set (G0 := SyntheticTree.init_nodes alg _) in *.
  destruct Hparts as (self2 & self3 & r & Hg2 & Hl2 & Hmm & Hr & Ht & Ht3
                      & Hmm3 & Ha3 & Hsolve).
  pose proof (init_topology _ _ _ _ _ _ _ Hinit) as (_ & _ & Hl & _).
  assert (Hleaves : SyntheticTree.leaves t = seq (level_start k d) (k ^ d)).
  { rewrite Hl. apply (shape_leaves_deep k d);
      [lia | lia | apply balanced_tree_shape]. }
  assert (Hleaves0 : SyntheticTree.compute_leaves G0
                     = seq (level_start k d) (k ^ d))
    by (now apply (shape_leaves_deep k d)).
  destruct (assign_priors_leaves_fixed k d G0 Hk1 Hd Hshape recursion_limit 0
              _ r Hg2 Hr) as [_ Hfix].
  assert (Hsame : forall y, y ∈ SyntheticTree.leaves t ->
                    node_mean (SyntheticTree._tree self2) y
                    = node_mean (SyntheticTree._tree t) y).
  { intros y Hy. rewrite Hleaves in Hy. apply elem_of_seq in Hy.
    unfold node_mean, get_node. rewrite Ht. now rewrite Hfix by lia. }
  destruct (assign_priors_best k d G0 Hk1 Hd Hshape recursion_limit 0 0
              (SyntheticTree._tree self2) r) as [Hroot [Hub (yb & mb & Hyb & Hmb & Hmbv)]];
    [lia | simpl; lia | exact Hg2 | exact Hr |].
  rewrite Nat.sub_0_r, subtree_root, <- Hleaves in Hub, Hyb.
  assert (Hv1 : (r.1 == 1)%Q).
  { apply Qle_antisym.
    - rewrite <- Hmbv. rewrite (Hsame yb Hyb) in Hmb.
      destruct (Hunit yb Hyb) as (m' & Hm' & Hb').
      assert (m' = mb) as -> by congruence. lra.
    - rewrite <- Hms1. apply (Hub ys); [exact Hys |].
      now rewrite (Hsame ys Hys). }
  assert (Hmax : (SyntheticTree.max_mean t == 1)%Q).
  { unfold SyntheticTree.compute_max_mean in Hmm.
    apply max_mean_loop in Hmm. destruct Hmm as (H0 & Hubm & Hatt).
    rewrite Hl2, Hleaves0, <- Hleaves in Hubm, Hatt.
    apply Qle_antisym.
    - destruct Hatt as [E | (y & Hy & Hmy)].
      + rewrite E. lra.
      + rewrite (Hsame y Hy) in Hmy.
        destruct (Hunit y Hy) as (m' & Hm' & Hb').
        assert (m' = SyntheticTree.max_mean t) as <- by congruence. lra.
    - rewrite <- Hms1. apply (Hubm ys); [exact Hys |].
      now rewrite (Hsame ys Hys). }
  split; [exists ys, ms; auto |].
  split; [exists r.1; split; [now rewrite Ht | exact Hv1] |].
  split; [exact Hmax |].
  intros Halg. unfold SyntheticTree._solver in Hsolve.
  destruct recursion_limit as [|fuel]; [discriminate |].
  cbn [SyntheticTree._solver_rec] in Hsolve.
  unfold SyntheticTree.solver_body in Hsolve. rewrite Ha3 in Hsolve.
  assert (Hv : SyntheticTree.optimal_v_root t = SyntheticTree.max_mean t).
  { repeat (apply elem_of_cons in Halg; destruct Halg as [-> | Halg]);
      try (now apply elem_of_nil in Halg);
      apply res_bind_OK in Hsolve; destruct Hsolve as (means & _ & Hsolve);
      injection Hsolve as E _; congruence. }
  now rewrite Hv.
Qed.

(** The leaf means of a constructed tree lie in [[0, 1]], the tree
    having one leaf or leaves with different sums of weights. *)
Lemma leaf_means_in_unit (k d : nat) (alg : algorithm)
    (tau alpha gamma : Q) (t : SyntheticTree.t) :
  1 <= k -> 1 <= d -> d < recursion_limit ->
  SyntheticTree.__init__ k d alg tau alpha gamma = OK t ->
  k = 1
  \/ (exists y y', y ∈ seq (level_start k d) (k ^ d)
                   /\ y' ∈ seq (level_start k d) (k ^ d)
                   /\ (rand_path k d y < rand_path k d y')%Q) ->
  forall y, y ∈ SyntheticTree.leaves t ->
    exists m, node_mean (SyntheticTree._tree t) y = OK m /\ (0 <= m <= 1)%Q.
Proof.
  intros Hk Hd Hlimit Hinit Hsums y Hy.
  destruct (decide (k = 1)) as [-> | Hk1].
  - exists 0%Q. split; [| lra].
    now apply (single_leaf_zero d alg tau alpha gamma t).
  - destruct Hsums as [-> | Hsums]; [congruence |].
    apply (leaf_means_unit k d alg tau alpha gamma t);
      (assumption || lia).
Qed.

(** X15. In a constructed tree that has one leaf, or leaves whose sums
    of weights differ, the ['mean'] of every inner node is the largest
    ['mean'] among the leaves below it, a number between 0 and 1:
    [_assign_priors_maxs] writes each inner node once, after its
    children, and never a leaf. Under uct, w-mcts and dng [q_root] lists
    the ['mean'] of the children of the root in their order. *)
Theorem inner_means_best (k d : nat) (alg : algorithm)
    (tau alpha gamma : Q) (t : SyntheticTree.t) :
  1 <= k -> 1 <= d -> d < recursion_limit ->
  SyntheticTree.__init__ k d alg tau alpha gamma = OK t ->
  k = 1
  \/ (exists y y', y ∈ seq (level_start k d) (k ^ d)
                   /\ y' ∈ seq (level_start k d) (k ^ d)
                   /\ (rand_path k d y < rand_path k d y')%Q) ->
  (forall j x,
     j < d -> level_start k j <= x < level_start k (S j) ->
     exists v, node_mean (SyntheticTree._tree t) x = OK v
               /\ best_below k (SyntheticTree._tree t) x (d - j) v
               /\ (0 <= v <= 1)%Q)
  /\ (alg ∈ [uct; w_mcts; dng] ->
      Forall2 (fun c q => node_mean (SyntheticTree._tree t) c = OK q)
              (seq 1 k) (SyntheticTree.q_root t)).
Proof.
  intros Hk Hd Hlimit Hinit Hsums.
  pose proof (leaf_means_in_unit k d alg tau alpha gamma t Hk Hd Hlimit
                Hinit Hsums) as Hunit.
  destruct (init_graph_ready k d alg) as (Hshape & _).
  pose proof (init_parts k d alg tau alpha gamma t Hinit) as Hparts.
  cbv zeta in Hparts.
  set (G0 := SyntheticTree.init_nodes alg _) in *.
  destruct Hparts as (self2 & self3 & r & Hg2 & Hl2 & Hmm & Hr & Ht & Ht3
                      & Hmm3 & Ha3 & Hsolve).
  pose proof (init_topology _ _ _ _ _ _ _ Hinit) as (_ & _ & Hl & _).
  assert (Hleaves : SyntheticTree.leaves t = seq (level_start k d) (k ^ d)).
  { rewrite Hl. apply (shape_leaves_deep k d);
      [lia | lia | apply balanced_tree_shape]. }
  destruct (assign_priors_leaves_fixed k d G0 Hk Hd Hshape recursion_limit 0
              _ r Hg2 Hr) as [Hkept Hfix].
  destruct (assign_priors_inner k d G0 Hk Hd Hshape recursion_limit 0 0
              (SyntheticTree._tree self2) r) as [_ Hinner];
    [lia | simpl; lia | exact Hg2 | exact Hr |].
  split.
  - intros j x Hj Hx.
    destruct (Hinner j x ltac:(lia) (level_in_subtree k j x Hx))
      as (v & Hv & Hb).
    rewrite Nat.sub_0_r in Hb.
    assert (Hb' : best_below k (SyntheticTree._tree t) x (d - j) v).
    { rewrite Ht.
      apply (best_below_fixed k d Hk Hd r.2 (SyntheticTree._tree self2) j x);
        [exact Hx | lia | | exact Hb].
      intros y Hy. symmetry. now apply Hfix. }
    exists v. split; [now rewrite Ht |]. split; [exact Hb' |].
    destruct Hb' as [_ (y & m & Hy & Hm & Hmv)].
    apply (subtree_level k (d - j) j x y Hx) in Hy.
    replace (j + (d - j)) with d in Hy by lia.
    destruct (Hunit y) as (m' & Hm' & Hb').
    { rewrite Hleaves. apply elem_of_seq.
      rewrite level_start_width in Hy. lia. }
    assert (m' = m) as -> by congruence. lra.
  - intros Halg. unfold SyntheticTree._solver in Hsolve.
    destruct recursion_limit as [|fuel]; [discriminate |].
    cbn [SyntheticTree._solver_rec] in Hsolve.
    unfold SyntheticTree.solver_body in Hsolve. rewrite Ha3 in Hsolve.
    assert (Hsucc : nx.successors (SyntheticTree._tree self3) 0 = seq 1 k).
    { rewrite Ht3.
      rewrite (kept_successors k d G0 Hk Hd Hshape r.2 0)
        by (try (eapply attrs_kept_trans; eauto);
            pose proof (level_start_mono k 1 d Hk Hd); simpl in *; lia).
      now rewrite Nat.mul_0_r. }
    rewrite Hsucc, Ht3, <- Ht in Hsolve.
    assert (Hq : comprehension (node_mean (SyntheticTree._tree t)) (seq 1 k)
                 = OK (SyntheticTree.q_root t)).
    { repeat (apply elem_of_cons in Halg; destruct Halg as [-> | Halg]);
        try (now apply elem_of_nil in Halg);
        apply res_bind_OK in Hsolve; destruct Hsolve as (means & Hm & Hsolve);
        injection Hsolve as _ E; congruence. }
    now apply comprehension_Forall2.
Qed.

End BestLeaf.

Lemma root_is_best_leaf_witness :
  exists t,
    @SyntheticTree.__init__ series_numpy counting_random python_runtime
      2 1 uct 1 2 1 = OK t
    /\ (exists v, node_mean (SyntheticTree._tree t) 0 = OK v /\ v == 1)
    /\ SyntheticTree.max_mean t == 1
    /\ SyntheticTree.optimal_v_root t == 1.
Proof.
  destruct (@init_total series_numpy counting_random python_runtime
              2 1 uct 1 2 1)
    as (t & Hinit & _);
    [lia | lia | simpl; lia | discriminate | discriminate | discriminate |].
  destruct (@root_is_best_leaf series_numpy counting_random python_runtime
              2 1 uct 1 2 1 t) as (_ & Hroot & Hmax & Hopt).
  - lia.
  - lia.
  - simpl. lia.
  - exact Hinit.
  - exists 1%nat, 2%nat. split; [| split].
    + vm_compute. left.
    + vm_compute. right. left.
    + reflexivity.
  - exists t. split; [exact Hinit |]. split; [exact Hroot |].
    split; [exact Hmax |]. apply Hopt. left.
Defined.

Lemma inner_means_best_witness :
  exists t,
    @SyntheticTree.__init__ series_numpy counting_random python_runtime
      2 1 uct 1 2 1 = OK t
    /\ (exists v, node_mean (SyntheticTree._tree t) 0 = OK v
                  /\ best_below 2 (SyntheticTree._tree t) 0 1 v
                  /\ 0 <= v <= 1)
    /\ Forall2 (fun c q => node_mean (SyntheticTree._tree t) c = OK q)
               [1; 2]%nat (SyntheticTree.q_root t).
Proof.
  destruct (@init_total series_numpy counting_random python_runtime
              2 1 uct 1 2 1)
    as (t & Hinit & _);
    [lia | lia | simpl; lia | discriminate | discriminate | discriminate |].
  destruct (@inner_means_best series_numpy counting_random python_runtime
              2 1 uct 1 2 1 t) as (Hinner & Hq).
  - lia.
  - lia.
  - simpl. lia.
  - exact Hinit.
  - right. exists 1%nat, 2%nat. split; [| split].
    + vm_compute. left.
    + vm_compute. right. left.
    + reflexivity.
  - exists t. split; [exact Hinit |]. split.
    + apply (Hinner 0%nat 0%nat); simpl; lia.
    + apply Hq. left.
Defined.

(** ** The algorithms the search does not know *)

Section Unsupported.
Context {NP : Numpy} {RD : Random} {RT : Runtime}.
Local Open Scope nat_scope.

Lemma select_unsupported (self : MCTS.t) (w : MCTS.World) :
  MCTS._algorithm self ∈ [w_mcts; dng; alpha_divergence; unknown_algorithm] ->
  edges_initialised (SyntheticTree._tree (MCTS.tree_env w)) ->
  MCTS._select self w = Raise ValueError.
Proof.
  intros Halg Hinit. unfold MCTS._select.
  unfold mbind at 1, MCTS.M_bind at 1. simpl.
  destruct (edge_attr_total e_N _ (SyntheticTree.state (MCTS.tree_env w))
              Hinit) as (counts & Hc).
  destruct (edge_attr_total e_Q _ (SyntheticTree.state (MCTS.tree_env w))
              Hinit) as (qs & Hq).
  unfold MCTS.edge_counts, MCTS.edge_values.
  unfold mbind at 1, MCTS.M_bind at 1. rewrite Hc. simpl.
  unfold mbind at 1, MCTS.M_bind at 1. rewrite Hq. simpl.
  unfold MCTS.select_probs.
  repeat (apply elem_of_cons in Halg; destruct Halg as [-> | Halg]);
    try reflexivity.
  now apply elem_of_nil in Halg.
Qed.

Lemma navigate_unsupported (self : MCTS.t) (w : MCTS.World) :
  MCTS._algorithm self ∈ [w_mcts; dng; alpha_divergence; unknown_algorithm] ->
  edges_initialised (SyntheticTree._tree (MCTS.tree_env w)) ->
  0 < recursion_limit ->
  MCTS._navigate self w = Raise ValueError.
Proof.
  intros Halg Hinit Hlimit. unfold MCTS._navigate.
  destruct recursion_limit as [|fuel]; [lia |].
  cbn [MCTS._navigate_rec].
  unfold mbind at 1, MCTS.M_bind at 1. simpl.
  apply M_bind_raise. now apply select_unsupported.
Qed.

Lemma init_edges_initialised (k d : nat) (alg : algorithm)
    (tau alpha gamma : Q) (t : SyntheticTree.t) :
  SyntheticTree.__init__ k d alg tau alpha gamma = OK t ->
  edges_initialised (SyntheticTree._tree t).
Proof.
  intros Hinit. destruct (init_graph_ready k d alg) as (_ & _ & Hedges).
  apply init_stages in Hinit. cbv zeta in Hinit.
  destruct Hinit as (G2 & Hk2 & _ & Hk3 & _).
  pose proof (attrs_kept_trans _ _ _ Hk2 Hk3) as (_ & He & Hd & _).
  intros e Hin. rewrite Hd. apply Hedges. now rewrite <- He.
Qed.

(** X14. The search knows four algorithms. With any other name, among
    them w-mcts, dng and alpha-divergence, for which the constructor
    builds trees, [run] with one simulation or more raises [ValueError]:
    the first [_select] reads the counts and values of the out-edges and
    then finds no branch for the name. So it does on every tree the
    constructor returns. *)
Theorem unsupported_algorithms (self : MCTS.t) :
  MCTS._algorithm self ∈ [w_mcts; dng; alpha_divergence; unknown_algorithm] ->
  0 < recursion_limit ->
  (forall (n : nat) (w : MCTS.World),
     edges_initialised (SyntheticTree._tree (MCTS.tree_env w)) ->
     MCTS.run self (S n) w = Raise ValueError)
  /\ (forall (k d : nat) (alg : algorithm) (tau alpha gamma : Q)
             (t : SyntheticTree.t) (n : nat),
        SyntheticTree.__init__ k d alg tau alpha gamma = OK t ->
        MCTS.run self (S n) {| MCTS.tree_env := t; MCTS.draws := 0 |}
        = Raise ValueError).
Proof.
  intros Halg Hlimit.
  assert (Hrun : forall (n : nat) (w : MCTS.World),
            edges_initialised (SyntheticTree._tree (MCTS.tree_env w)) ->
            MCTS.run self (S n) w = Raise ValueError).
  { intros n w Hinit. unfold MCTS.run. cbn [MCTS.run_loop].
    unfold mbind at 1, MCTS.M_bind at 1. unfold MCTS.reset at 1.
    cbn [res_bind fst snd]. apply M_bind_raise.
    unfold MCTS._simulation. apply M_bind_raise.
    apply navigate_unsupported; [exact Halg | exact Hinit | exact Hlimit]. }
  split; [exact Hrun |].
  intros k d alg tau alpha gamma t n Hinit. apply Hrun. simpl.
  exact (init_edges_initialised k d alg tau alpha gamma t Hinit).
Qed.

End Unsupported.

Lemma unsupported_algorithms_witness :
  @MCTS.run series_numpy counting_random python_runtime
    {| MCTS._exploration_coeff := 1; MCTS._algorithm := dng;
       MCTS._tau := 1 |} 1 two_leaves_world
  = Raise ValueError.
Proof.
  apply (@unsupported_algorithms series_numpy counting_random python_runtime
           {| MCTS._exploration_coeff := 1; MCTS._algorithm := dng;
              MCTS._tau := 1 |}).
  - simpl. right. left.
  - simpl. lia.
  - exact edges_initialised_two_leaves.
Defined.
